(** * MinuteMaestro live session: audio utilities and the [useLiveSession] hook

    A shallow embedding of [utils/audio.ts] and [hooks/useLiveSession.ts].

    JavaScript numbers are IEEE 754 binary64 values, which is exactly what
    Rocq's primitive [float] is, so numeric code is embedded on [float] and
    evaluated by the kernel.  Strings are sequences of UTF-16 code units.
    The hook's refs and React state live in one record threaded through a
    small state/exception/trace monad. *)

From Stdlib Require Import Ascii String DecimalString.
From Stdlib Require Import ZArith NArith List Bool Lia.
From Stdlib Require Import Floats.
Import ListNotations.

Set Implicit Arguments.

(* ================================================================== *)
(** * JavaScript runtime primitives *)
(* ================================================================== *)

Module JS.

Open Scope float_scope.

(** ** Numbers *)

(** Array lengths and loop counters are integers below 2^53, which binary64
    represents exactly. *)
Definition of_Z (z : Z) : float :=
  match z with
  | Z0 => 0
  | Zpos _ => PrimFloat.of_uint63 (Uint63.of_Z z)
  | Zneg p => - PrimFloat.of_uint63 (Uint63.of_Z (Zpos p))
  end.

Definition of_nat (n : nat) : float := of_Z (Z.of_nat n).

(** Signed integer mantissa of a finite number. *)
Definition signed (s : bool) (m : positive) : Z := if s then Zneg m else Zpos m.

(** [Math.floor]: NaN, infinities, zeros and numbers without fractional
    bits are returned as they are. *)
Definition Math_floor (x : float) : float :=
  match Prim2SF x with
  | S754_finite s m e =>
      if (0 <=? e)%Z then x else of_Z (Z.shiftl (signed s m) e)
  | _ => x
  end.

(** [Math.min] and [Math.max]: NaN is contagious and -0 is below +0. *)
Definition is_neg_zero (x : float) : bool :=
  match Prim2SF x with S754_zero true => true | _ => false end.

Definition Math_min (a b : float) : float :=
  if is_nan a || is_nan b then nan
  else if a <? b then a
  else if b <? a then b
  else if is_neg_zero a then a else b.

Definition Math_max (a b : float) : float :=
  if is_nan a || is_nan b then nan
  else if a <? b then b
  else if b <? a then a
  else if is_neg_zero a then b else a.

(** Truthiness of a number: everything but NaN, +0 and -0. *)
Definition truthy (x : float) : bool := negb (is_nan x || is_zero x).

(** [Math.fround]: the nearest binary32 value, as stored by a
    [Float32Array]. *)
Definition fround (x : float) : float :=
  match Prim2SF x with
  | S754_finite s m e => SF2Prim (binary_round 24 128 s m e)
  | _ => x
  end.

(** [ToIntegerOrInfinity] on finite numbers: truncation toward zero. *)
Definition truncZ (s : bool) (m : positive) (e : Z) : Z :=
  let t := Z.shiftl (Zpos m) e in if s then (- t)%Z else t.

(** The integer part of a finite number; 0 for NaN and the infinities, as
    the integer conversions have it. *)
Definition truncation (x : float) : Z :=
  match Prim2SF x with
  | S754_finite s m e => truncZ s m e
  | _ => 0%Z
  end.

(** [ToInt16], the conversion applied by a store into an [Int16Array]. *)
Definition wrap16 (v : Z) : Z := ((v + 32768) mod 65536 - 32768)%Z.

Definition ToInt16 (x : float) : Z :=
  match Prim2SF x with
  | S754_finite s m e => wrap16 (truncZ s m e)
  | _ => 0%Z
  end.

(** [ToIndex], used by [new Float32Array(n)]: [None] is a RangeError. *)
Definition max_safe_integer : Z := (2 ^ 53 - 1)%Z.

Definition ToIndexZ (x : float) : option Z :=
  match Prim2SF x with
  | S754_nan => Some 0%Z
  | S754_zero _ => Some 0%Z
  | S754_infinity _ => None
  | S754_finite s m e =>
      let i := truncZ s m e in
      if (i <? 0)%Z then None
      else if (max_safe_integer <? i)%Z then None
      else Some i
  end.

Definition ToIndex (x : float) : option nat := option_map Z.to_nat (ToIndexZ x).

(** An integer-indexed read [a[k]] of a typed array with a number key:
    [None] is [undefined]. *)
Definition index_of (k : float) : option nat :=
  match Prim2SF k with
  | S754_zero _ => Some 0%nat
  | S754_finite false m e =>
      if Math_floor k =? k then Some (Z.to_nat (truncZ false m e)) else None
  | _ => None
  end.

Definition typed_get (a : list float) (k : float) : option float :=
  match index_of k with
  | Some i => nth_error a i
  | None => None
  end.

(** [ToNumber] of a possibly undefined element. *)
Definition to_number (o : option float) : float :=
  match o with Some v => v | None => nan end.

(** [o || 0] for a possibly undefined number. *)
Definition or_zero (o : option float) : float :=
  match o with
  | Some v => if truthy v then v else 0
  | None => 0
  end.

(** ** Strings *)

(** A string is its sequence of UTF-16 code units. *)
Definition code_unit := N.
Definition jsstring := list code_unit.

(** Source literals are written as UTF-8 text and decoded here (code points
    of the Basic Multilingual Plane, which is all the source uses). *)
Fixpoint utf16_of_bytes (bs : list N) : jsstring :=
  match bs with
  | [] => []
  | b0 :: rest =>
      if (b0 <? 0x80)%N then b0 :: utf16_of_bytes rest
      else if (b0 <? 0xE0)%N then
        match rest with
        | b1 :: rest' =>
            (N.land b0 0x1F * 64 + N.land b1 0x3F)%N :: utf16_of_bytes rest'
        | [] => []
        end
      else
        match rest with
        | b1 :: b2 :: rest' =>
            (N.land b0 0x0F * 4096 + N.land b1 0x3F * 64 + N.land b2 0x3F)%N
              :: utf16_of_bytes rest'
        | _ => []
        end
  end.

Definition str (s : string) : jsstring :=
  utf16_of_bytes (List.map N_of_ascii (list_ascii_of_string s)).
Arguments str s%_string.

(** White space and line terminators stripped by [String.prototype.trim]. *)
Definition is_white_space (c : code_unit) : bool :=
  ((9 <=? c) && (c <=? 13) || (c =? 0x20) || (c =? 0xA0) || (c =? 0x1680)
   || (0x2000 <=? c) && (c <=? 0x200A) || (c =? 0x2028) || (c =? 0x2029)
   || (c =? 0x202F) || (c =? 0x205F) || (c =? 0x3000) || (c =? 0xFEFF))%N.

Fixpoint trim_start (s : jsstring) : jsstring :=
  match s with
  | c :: s' => if is_white_space c then trim_start s' else s
  | [] => []
  end.

Definition trim (s : jsstring) : jsstring :=
  rev (trim_start (rev (trim_start s))).

Definition is_empty (s : jsstring) : bool :=
  match s with [] => true | _ => false end.

Fixpoint starts_with (p s : jsstring) : bool :=
  match p, s with
  | [], _ => true
  | a :: p', b :: s' => (a =? b)%N && starts_with p' s'
  | _ :: _, [] => false
  end.

(** [s.includes(p)] *)
Fixpoint includes (s p : jsstring) : bool :=
  starts_with p s || match s with [] => false | _ :: s' => includes s' p end.

(** [xs.join(sep)] *)
Fixpoint join (sep : jsstring) (xs : list jsstring) : jsstring :=
  match xs with
  | [] => []
  | [x] => x
  | x :: rest => x ++ sep ++ join sep rest
  end.

(** ** Exceptions *)

(** A thrown value: whether it is an [Error] instance, and its [message]
    property when it has one. *)
Record js_error := { is_Error : bool; message : option jsstring }.

(** The RangeError of an invalid typed-array length (the wording of the
    message is the engine's). *)
Definition RangeError : js_error :=
  {| is_Error := true; message := Some (str "Invalid typed array length") |}.

Inductive completion (A : Type) : Type :=
| Normal (a : A)
| Throw (e : js_error).
Arguments Normal {A} a.
Arguments Throw {A} e.

End JS.

(** * Binary64 arithmetic

    The quantities the rounding arguments speak about.  Numbers are
    IEEE 754 binary64, as in every JavaScript engine; [Prim2SF] exposes sign,
    mantissa and exponent. *)

Module Binary64.

(** Has [shr] shifted a non-zero bit out? *)
Definition sticky (mrs : shr_record) : bool := shr_r mrs || shr_s mrs.

(** The exponent of a binary64 result with [x] significant bits above
    [2 ^ 0]. *)
Definition fexp64 (x : Z) : Z := Z.max (x - 53) (-1074).

(** The number of low bits [shr_fexp] drops. *)
Definition dropped (m e : Z) : Z :=
  Z.max 0 (fexp64 (Zdigits2 m + e) - e)%Z.

(** Values are compared at a common scale: [val N m e] is [m * 2 ^ e]
    multiplied by [2 ^ N], an integer as long as [0 <= e + N]. *)
Definition val (N m e : Z) : Z := (m * 2 ^ (e + N))%Z.

(** The location of [m + r / d] between [m] and [m + 1], for [0 <= r < d]:
    at [m], or below, at or above the midpoint. *)
Definition loc_of (r d : Z) : location :=
  if (r =? 0)%Z then loc_Exact else loc_Inexact (2 * r ?= d)%Z.

(** The constants of the audio code. *)
Definition SF_one : spec_float := S754_finite false 4503599627370496 (-52).
Definition SF_minus_one : spec_float := S754_finite true 4503599627370496 (-52).
Definition SF_32768 : spec_float := S754_finite false 4503599627370496 (-37).
Definition SF_32767 : spec_float := S754_finite false 9006924376834048 (-38).

End Binary64.

(* ================================================================== *)
(** * utils/audio.ts *)
(* ================================================================== *)

Module Audio.
Import JS.
Open Scope float_scope.

Definition PCM_SAMPLE_RATE : float := 16000.

(** Body of the interpolation loop of [resampleBuffer] for output index
    [i]; the store into the [Float32Array] rounds to binary32. *)
Definition resample_sample (buffer : list float) (ratio : float) (i : nat)
  : float :=
  let inputIndex := of_nat i * ratio in
  let index := Math_floor inputIndex in
  let decimal := inputIndex - index in
  let p0 := or_zero (typed_get buffer index) in
  let p1 := if index + 1 <? of_nat (length buffer)
            then to_number (typed_get buffer (index + 1))
            else p0 in
  fround (p0 + (p1 - p0) * decimal).

(** [resampleBuffer(buffer, inputRate, outputRate)].  Equal rates return
    the input array itself.  Otherwise [new Float32Array(newLength)]
    allocates [ToIndex newLength] elements or throws a RangeError, and the
    loop [for (i = 0; i < newLength; i++)] fills exactly those elements
    (engine memory limits are not modelled). *)
Definition newLength (n : Z) (inputRate outputRate : float) : float :=
  let ratio := inputRate / outputRate in
  Math_floor (of_Z n / ratio).

Definition resampleBuffer (buffer : list float) (inputRate outputRate : float)
  : completion (list float) :=
  if inputRate =? outputRate then Normal buffer
  else
    let ratio := inputRate / outputRate in
    match ToIndex (newLength (Z.of_nat (length buffer)) inputRate outputRate)
    with
    | None => Throw RangeError
    | Some n => Normal (map (resample_sample buffer ratio) (seq 0 n))
    end.

(** The length of the array [resampleBuffer] returns for an input of [n]
    samples, [None] when it throws. *)
Definition output_length (n : Z) (inputRate outputRate : float) : option Z :=
  if inputRate =? outputRate then Some n
  else ToIndexZ (newLength n inputRate outputRate).

(** The length formula in exact integer arithmetic, for integer rates:
    [floor (n * outputRate / inputRate)]. *)
Definition exact_length (n inputRate outputRate : Z) : Z :=
  (n * outputRate / inputRate)%Z.

(** Does [f] hold on [lo], [lo + 1], ..., [lo + count - 1]? *)
Fixpoint forall_from (f : Z -> bool) (lo : Z) (count : nat) : bool :=
  match count with
  | O => true
  | S c => if f lo then forall_from f (lo + 1)%Z c else false
  end.

(** Sample rates of common capture devices, in Hz. *)
Definition device_rates : list Z :=
  [8000; 11025; 12000; 16000; 22050; 24000; 32000; 44100; 48000; 88200;
   96000; 176400; 192000; 352800; 384000; 768000]%Z.

(** The largest block a [ScriptProcessorNode] delivers. *)
Definition MAX_BLOCK : Z := 16384.

Definition length_agrees (inputRate n : Z) : bool :=
  match output_length n (of_Z inputRate) PCM_SAMPLE_RATE with
  | Some k => (k =? exact_length n inputRate 16000)%Z
  | None => false
  end.

(** The single-sample claim as the specification states it. *)
Definition single_sample_bounded (x inputRate outputRate : float) : Prop :=
  exists out, resampleBuffer [x] inputRate outputRate = Normal out
              /\ (length out <= 1)%nat.

(** One iteration of the loop of [createPcmBlob]: clamp, scale, and store
    into the [Int16Array]. *)
Definition clamp_sample (x : float) : float := Math_max (-1) (Math_min 1 x).

Definition scale_sample (s : float) : float :=
  if s <? 0 then s * 32768 else s * 32767.

Definition encode_sample (x : float) : Z := ToInt16 (scale_sample (clamp_sample x)).

Definition int16_samples (data : list float) : list Z := map encode_sample data.

(** The bytes of [int16.buffer] (little-endian, as on every platform the
    application targets). *)
Definition int16_bytes (v : Z) : list N :=
  let u := Z.to_N (v mod 65536) in [(u mod 256)%N; (u / 256)%N].

(** [btoa] over the binary string built by [arrayBufferToBase64]. *)
Definition b64_char (n : N) : code_unit :=
  (if n <? 26 then 65 + n
   else if n <? 52 then 97 + (n - 26)
   else if n <? 62 then 48 + (n - 52)
   else if n =? 62 then 43 else 47)%N.

Fixpoint btoa (bs : list N) : jsstring :=
  match bs with
  | a :: b :: c :: rest =>
      [b64_char (a / 4); b64_char ((a mod 4) * 16 + b / 16);
       b64_char ((b mod 16) * 4 + c / 64); b64_char (c mod 64)]%N ++ btoa rest
  | [a; b] =>
      [b64_char (a / 4); b64_char ((a mod 4) * 16 + b / 16);
       b64_char ((b mod 16) * 4); 61]%N
  | [a] => [b64_char (a / 4); b64_char ((a mod 4) * 16); 61; 61]%N
  | [] => []
  end.

Definition arrayBufferToBase64 (bytes : list N) : jsstring := btoa bytes.

Record Blob := { data : jsstring; mimeType : jsstring }.

Definition createPcmBlob (samples : list float) : Blob :=
  {| data := arrayBufferToBase64 (flat_map int16_bytes (int16_samples samples));
     mimeType := str "audio/pcm;rate=16000" |}.

End Audio.

(* ================================================================== *)
(** * hooks/useLiveSession.ts *)
(* ================================================================== *)

Module LiveSession.
Import JS Audio.
Open Scope float_scope.

(** ** Data model ([types.ts]) *)

Inductive SessionStatus :=
| IDLE | CONNECTING | RECORDING | PAUSED | PROCESSING | COMPLETED | ERROR.

Definition status_eqb (a b : SessionStatus) : bool :=
  match a, b with
  | IDLE, IDLE | CONNECTING, CONNECTING | RECORDING, RECORDING
  | PAUSED, PAUSED | PROCESSING, PROCESSING | COMPLETED, COMPLETED
  | ERROR, ERROR => true
  | _, _ => false
  end.

Inductive Role := user | model.

(** [id] is [Date.now().toString()], [timestamp] the milliseconds of
    [new Date()].  Every item the hook creates carries a boolean
    [isPartial]. *)
Record TranscriptItem := {
  id : jsstring;
  role : Role;
  text : jsstring;
  timestamp : N;
  isPartial : bool
}.

(** ** External objects

    The hook holds handles to objects of the browser and of the GenAI SDK.
    A handle records how the object answers the calls the hook makes on it:
    [Some e] means that the call throws [e]. *)

Record LiveSessionHandle := { close_throws : option js_error }.

Record MediaStreamTrack := { stop_throws : option js_error }.
Record MediaStream := { getTracks : list MediaStreamTrack }.

Record ScriptProcessorNode := { disconnect_throws : option js_error }.

Inductive AudioContextState := suspended | running | closed.

(** [close_rejects]: the promise returned by [close()] rejects with this
    value. *)
Record AudioContext := {
  state : AudioContextState;
  sampleRate : float;
  close_rejects : option js_error
}.

(** ** Hook state: React state and refs

    The code of a render reads the state of that render: the callbacks
    [pause] and [resume] are closures over the status of the render that
    created them ([useCallback] with [status] as its dependency), and
    [generateMinutes] over its transcript.  An update takes effect when
    React renders next.  [setStatus], [setVolume] and [setError] are called
    with a value, or with a function of the previous value alone: [status],
    [volume] and [error] hold the value the next render will show, and
    [renderedStatus] is the status of the last render.  The functions
    [onmessage] passes to [setTranscript] read [currentTurnRef] and the
    clock when React calls them, during the next render: until then they
    wait in [transcriptUpdates], oldest first, and [transcript] is the
    transcript of the last render. *)

(** The two functions [onmessage] passes to [setTranscript]: the one of a
    text event and the one of a turn completion. *)
Inductive TranscriptUpdater := update_turn | finalize_turns.

Record Session := {
  status : SessionStatus;
  transcript : list TranscriptItem;
  volume : float;
  error : option jsstring;
  sessionRef : option LiveSessionHandle;
  audioContextRef : option AudioContext;
  mediaStreamRef : option MediaStream;
  processorRef : option ScriptProcessorNode;
  audioAccumulatorRef : list float;
  isPausedRef : bool;
  currentTurnRef : jsstring;
  renderedStatus : SessionStatus;
  transcriptUpdates : list TranscriptUpdater
}.

Definition initial : Session :=
  {| status := IDLE; transcript := []; volume := 0; error := None;
     sessionRef := None; audioContextRef := None; mediaStreamRef := None;
     processorRef := None; audioAccumulatorRef := []; isPausedRef := false;
     currentTurnRef := []; renderedStatus := IDLE; transcriptUpdates := [] |}.

Definition setStatus (v : SessionStatus) (s : Session) : Session :=
  {| status := v; transcript := transcript s; volume := volume s;
     error := error s; sessionRef := sessionRef s;
     audioContextRef := audioContextRef s; mediaStreamRef := mediaStreamRef s;
     processorRef := processorRef s;
     audioAccumulatorRef := audioAccumulatorRef s;
     isPausedRef := isPausedRef s; currentTurnRef := currentTurnRef s;
     renderedStatus := renderedStatus s;
     transcriptUpdates := transcriptUpdates s |}.

Definition setTranscript (v : list TranscriptItem) (s : Session) : Session :=
  {| status := status s; transcript := v; volume := volume s;
     error := error s; sessionRef := sessionRef s;
     audioContextRef := audioContextRef s; mediaStreamRef := mediaStreamRef s;
     processorRef := processorRef s;
     audioAccumulatorRef := audioAccumulatorRef s;
     isPausedRef := isPausedRef s; currentTurnRef := currentTurnRef s;
     renderedStatus := renderedStatus s;
     transcriptUpdates := transcriptUpdates s |}.

Definition setVolume (v : float) (s : Session) : Session :=
  {| status := status s; transcript := transcript s; volume := v;
     error := error s; sessionRef := sessionRef s;
     audioContextRef := audioContextRef s; mediaStreamRef := mediaStreamRef s;
     processorRef := processorRef s;
     audioAccumulatorRef := audioAccumulatorRef s;
     isPausedRef := isPausedRef s; currentTurnRef := currentTurnRef s;
     renderedStatus := renderedStatus s;
     transcriptUpdates := transcriptUpdates s |}.

Definition setError (v : option jsstring) (s : Session) : Session :=
  {| status := status s; transcript := transcript s; volume := volume s;
     error := v; sessionRef := sessionRef s;
     audioContextRef := audioContextRef s; mediaStreamRef := mediaStreamRef s;
     processorRef := processorRef s;
     audioAccumulatorRef := audioAccumulatorRef s;
     isPausedRef := isPausedRef s; currentTurnRef := currentTurnRef s;
     renderedStatus := renderedStatus s;
     transcriptUpdates := transcriptUpdates s |}.

Definition set_sessionRef (v : option LiveSessionHandle) (s : Session) :=
  {| status := status s; transcript := transcript s; volume := volume s;
     error := error s; sessionRef := v;
     audioContextRef := audioContextRef s; mediaStreamRef := mediaStreamRef s;
     processorRef := processorRef s;
     audioAccumulatorRef := audioAccumulatorRef s;
     isPausedRef := isPausedRef s; currentTurnRef := currentTurnRef s;
     renderedStatus := renderedStatus s;
     transcriptUpdates := transcriptUpdates s |}.

Definition set_audioContextRef (v : option AudioContext) (s : Session) :=
  {| status := status s; transcript := transcript s; volume := volume s;
     error := error s; sessionRef := sessionRef s;
     audioContextRef := v; mediaStreamRef := mediaStreamRef s;
     processorRef := processorRef s;
     audioAccumulatorRef := audioAccumulatorRef s;
     isPausedRef := isPausedRef s; currentTurnRef := currentTurnRef s;
     renderedStatus := renderedStatus s;
     transcriptUpdates := transcriptUpdates s |}.

Definition set_mediaStreamRef (v : option MediaStream) (s : Session) :=
  {| status := status s; transcript := transcript s; volume := volume s;
     error := error s; sessionRef := sessionRef s;
     audioContextRef := audioContextRef s; mediaStreamRef := v;
     processorRef := processorRef s;
     audioAccumulatorRef := audioAccumulatorRef s;
     isPausedRef := isPausedRef s; currentTurnRef := currentTurnRef s;
     renderedStatus := renderedStatus s;
     transcriptUpdates := transcriptUpdates s |}.

Definition set_processorRef (v : option ScriptProcessorNode) (s : Session) :=
  {| status := status s; transcript := transcript s; volume := volume s;
     error := error s; sessionRef := sessionRef s;
     audioContextRef := audioContextRef s; mediaStreamRef := mediaStreamRef s;
     processorRef := v;
     audioAccumulatorRef := audioAccumulatorRef s;
     isPausedRef := isPausedRef s; currentTurnRef := currentTurnRef s;
     renderedStatus := renderedStatus s;
     transcriptUpdates := transcriptUpdates s |}.

Definition set_audioAccumulatorRef (v : list float) (s : Session) :=
  {| status := status s; transcript := transcript s; volume := volume s;
     error := error s; sessionRef := sessionRef s;
     audioContextRef := audioContextRef s; mediaStreamRef := mediaStreamRef s;
     processorRef := processorRef s;
     audioAccumulatorRef := v;
     isPausedRef := isPausedRef s; currentTurnRef := currentTurnRef s;
     renderedStatus := renderedStatus s;
     transcriptUpdates := transcriptUpdates s |}.

Definition set_isPausedRef (v : bool) (s : Session) :=
  {| status := status s; transcript := transcript s; volume := volume s;
     error := error s; sessionRef := sessionRef s;
     audioContextRef := audioContextRef s; mediaStreamRef := mediaStreamRef s;
     processorRef := processorRef s;
     audioAccumulatorRef := audioAccumulatorRef s;
     isPausedRef := v; currentTurnRef := currentTurnRef s;
     renderedStatus := renderedStatus s;
     transcriptUpdates := transcriptUpdates s |}.

Definition set_currentTurnRef (v : jsstring) (s : Session) :=
  {| status := status s; transcript := transcript s; volume := volume s;
     error := error s; sessionRef := sessionRef s;
     audioContextRef := audioContextRef s; mediaStreamRef := mediaStreamRef s;
     processorRef := processorRef s;
     audioAccumulatorRef := audioAccumulatorRef s;
     isPausedRef := isPausedRef s; currentTurnRef := v;
     renderedStatus := renderedStatus s;
     transcriptUpdates := transcriptUpdates s |}.

Definition set_renderedStatus (v : SessionStatus) (s : Session) :=
  {| status := status s; transcript := transcript s; volume := volume s;
     error := error s; sessionRef := sessionRef s;
     audioContextRef := audioContextRef s; mediaStreamRef := mediaStreamRef s;
     processorRef := processorRef s;
     audioAccumulatorRef := audioAccumulatorRef s;
     isPausedRef := isPausedRef s; currentTurnRef := currentTurnRef s;
     renderedStatus := v;
     transcriptUpdates := transcriptUpdates s |}.

Definition set_transcriptUpdates (v : list TranscriptUpdater) (s : Session) :=
  {| status := status s; transcript := transcript s; volume := volume s;
     error := error s; sessionRef := sessionRef s;
     audioContextRef := audioContextRef s; mediaStreamRef := mediaStreamRef s;
     processorRef := processorRef s;
     audioAccumulatorRef := audioAccumulatorRef s;
     isPausedRef := isPausedRef s; currentTurnRef := currentTurnRef s;
     renderedStatus := renderedStatus s;
     transcriptUpdates := v |}.

(** ** Observable effects

    Calls made on external objects, in the order they are attempted (a call
    that throws is still recorded: it was attempted). *)

Inductive Effect :=
| ConsoleLog (what : jsstring)
| ConsoleWarn (what : jsstring) (e : js_error)
| ConsoleError (e : js_error)
| SessionClose
| TrackStop
| ProcessorDisconnect
| AudioContextClose
| NewAudioContext
| AudioContextResume
| GetUserMedia
| CreateMediaStreamSource
| CreateScriptProcessor
| LiveConnect
| WireAudioGraph
| SendRealtimeInput (media : Blob)
| GenerateContent (contents : jsstring).

(** ** The monad of hook code: state, exceptions and an effect trace *)

Record Outcome (A : Type) := {
  result : completion A;
  final : Session;
  trace : list Effect
}.
Arguments result {A} o.
Arguments final {A} o.
Arguments trace {A} o.

Definition M (A : Type) : Type := Session -> Outcome A.

Definition ret {A} (a : A) : M A :=
  fun s => {| result := Normal a; final := s; trace := [] |}.

(** The trace of the continuation is appended to the trace so far. *)
Definition then_ {A} (t1 : list Effect) (o : Outcome A) : Outcome A :=
  match o with
  | {| result := r; final := s; trace := t2 |} =>
      {| result := r; final := s; trace := t1 ++ t2 |}
  end.

Definition bind {A B} (m : M A) (k : A -> M B) : M B :=
  fun s =>
    match m s with
    | {| result := Normal a; final := s1; trace := t1 |} => then_ t1 (k a s1)
    | {| result := Throw e; final := s1; trace := t1 |} =>
        {| result := Throw e; final := s1; trace := t1 |}
    end.

Declare Scope hook_scope.
Delimit Scope hook_scope with hook.
Notation "x <- m ;; k" := (bind m (fun x => k))
  (at level 61, m at next level, right associativity) : hook_scope.
Notation "m ;; k" := (bind m (fun _ => k))
  (at level 61, right associativity) : hook_scope.
Open Scope hook_scope.

Definition gets {A} (f : Session -> A) : M A :=
  fun s => {| result := Normal (f s); final := s; trace := [] |}.

Definition modify (f : Session -> Session) : M unit :=
  fun s => {| result := Normal tt; final := f s; trace := [] |}.

Definition emit (e : Effect) : M unit :=
  fun s => {| result := Normal tt; final := s; trace := [e] |}.

Definition throw {A} (e : js_error) : M A :=
  fun s => {| result := Throw e; final := s; trace := [] |}.

(** [try { m } catch (e) { h e }] *)
Definition try_catch {A} (m : M A) (h : js_error -> M A) : M A :=
  fun s =>
    match m s with
    | {| result := Normal a; final := s1; trace := t1 |} =>
        {| result := Normal a; final := s1; trace := t1 |}
    | {| result := Throw e; final := s1; trace := t1 |} => then_ t1 (h e s1)
    end.

(** A call on an external object: attempted, then it returns or throws. *)
Definition call (what : Effect) (behaviour : option js_error) : M unit :=
  emit what ;;
  match behaviour with
  | Some e => throw e
  | None => ret tt
  end.

(** [xs.forEach(f)] *)
Fixpoint forEach {A} (f : A -> M unit) (xs : list A) : M unit :=
  match xs with
  | [] => ret tt
  | x :: rest => f x ;; forEach f rest
  end.

Definition when (b : bool) (m : M unit) : M unit := if b then m else ret tt.

(** ** [disconnect] *)

Definition is_active (st : SessionStatus) : bool :=
  status_eqb st RECORDING || status_eqb st PAUSED.

(** The four release steps of [disconnect], in source order. *)

(** 1. Close session *)
Definition close_session : M unit :=
  try_catch
    (h <- gets sessionRef ;;
     match h with
     | Some session => call SessionClose (close_throws session)
     | None => ret tt
     end)
    (fun e => emit (ConsoleWarn (str "Error closing session:") e)) ;;
  modify (set_sessionRef None).

(** 2. Stop audio tracks *)
Definition stop_tracks : M unit :=
  ms <- gets mediaStreamRef ;;
  match ms with
  | Some stream =>
      forEach (fun track => call TrackStop (stop_throws track))
              (getTracks stream) ;;
      modify (set_mediaStreamRef None)
  | None => ret tt
  end.

(** 3. Disconnect audio nodes *)
Definition disconnect_nodes : M unit :=
  p <- gets processorRef ;;
  match p with
  | Some processor =>
      call ProcessorDisconnect (disconnect_throws processor) ;;
      modify (set_processorRef None)
  | None => ret tt
  end.

(** 4. Close audio contexts; a rejection of the promise returned by
    [close()] goes to [console.error]. *)
Definition close_context : M unit :=
  c <- gets audioContextRef ;;
  match c with
  | Some ctx =>
      match state ctx with
      | closed => ret tt
      | _ =>
          emit AudioContextClose ;;
          match close_rejects ctx with
          | Some e => emit (ConsoleError e)
          | None => ret tt
          end
      end ;;
      modify (set_audioContextRef None)
  | None => ret tt
  end.

Definition disconnect : M unit :=
  emit (ConsoleLog (str "Disconnecting session...")) ;;
  close_session ;;
  stop_tracks ;;
  disconnect_nodes ;;
  close_context ;;
  modify (set_isPausedRef false) ;;
  modify (set_audioAccumulatorRef []) ;;
  (* Only update status if we were active *)
  modify (fun s => setStatus (if is_active (status s) then COMPLETED
                              else status s) s) ;;
  modify (setVolume 0).

(** ** [pause] and [resume]

    Both test [status], the state variable of the render that created the
    callback. *)

Definition pause : M unit :=
  st <- gets renderedStatus ;;
  when (status_eqb st RECORDING)
    (modify (set_isPausedRef true) ;;
     modify (setStatus PAUSED) ;;
     modify (setVolume 0)).

Definition resume : M unit :=
  st <- gets renderedStatus ;;
  when (status_eqb st PAUSED)
    (modify (set_isPausedRef false) ;;
     modify (setStatus RECORDING)).

(** ** The audio callback, wired by [onopen] *)

Definition lift {A} (c : completion A) : M A :=
  match c with
  | Normal a => ret a
  | Throw e => throw e
  end.

(** [for (i = 0; i < inputData.length; i += 10) sum += inputData[i] ** 2] *)
Definition volume_sum (inputData : list float) : float :=
  fold_left (fun sum i => sum + nth i inputData nan * nth i inputData nan)
            (map (fun k => (10 * k)%nat) (seq 0 ((length inputData + 9) / 10)))
            0.

Definition volume_level (inputData : list float) : float :=
  let sum := volume_sum inputData in
  let rms := sqrt (sum / (of_nat (length inputData) / 10)) in
  Math_min (rms * 10) 1.

Definition CHUNK_THRESHOLD : nat := 2048.

(** [processor.onaudioprocess]; [inputSampleRate] is [inputCtx.sampleRate]
    of the connect that wired the callback.  The send is issued through
    [sessionPromise.then] and nothing awaits it. *)
Definition onaudioprocess (inputData : list float) (inputSampleRate : float)
  : M unit :=
  paused <- gets isPausedRef ;;
  if paused then ret tt
  else
    modify (setVolume (volume_level inputData)) ;;
    (* High-quality resampling to 16kHz *)
    resampledData <- lift (resampleBuffer inputData inputSampleRate 16000) ;;
    (* Buffer accumulator logic *)
    acc <- gets audioAccumulatorRef ;;
    modify (set_audioAccumulatorRef (acc ++ resampledData)) ;;
    (* Send every ~128ms (2048 samples) *)
    newBuffer <- gets audioAccumulatorRef ;;
    if (CHUNK_THRESHOLD <=? length newBuffer)%nat then
      let chunkToSend := newBuffer in
      modify (set_audioAccumulatorRef []) ;;
      emit (SendRealtimeInput (createPcmBlob chunkToSend))
    else ret tt.

(** ** Transcript merging: [onmessage] *)

(** The two fields of a server message the hook reads:
    [serverContent?.inputTranscription?.text] and
    [serverContent?.turnComplete] (as a truth value). *)
Record LiveServerMessage := {
  inputTranscription_text : option jsstring;
  turnComplete : bool
}.

(** Truthiness of an optional string: defined and not empty. *)
Definition truthy_text (o : option jsstring) : option jsstring :=
  match o with
  | Some t => if is_empty t then None else Some t
  | None => None
  end.

Definition is_user (r : Role) : bool :=
  match r with user => true | model => false end.

Definition is_open_partial (it : TranscriptItem) : bool :=
  is_user (role it) && isPartial it.

Definition with_text (t : jsstring) (it : TranscriptItem) : TranscriptItem :=
  {| id := id it; role := role it; text := t; timestamp := timestamp it;
     isPartial := isPartial it |}.

Definition with_isPartial (b : bool) (it : TranscriptItem) : TranscriptItem :=
  {| id := id it; role := role it; text := text it;
     timestamp := timestamp it; isPartial := b |}.

(** [Date.now().toString()] *)
Definition decimal (n : N) : jsstring :=
  str (DecimalString.NilEmpty.string_of_uint (N.to_uint n)).

(** The updater passed to [setTranscript] for a text event: update the
    existing partial user turn or create a new one.  [turn] is
    [currentTurnRef.current.user]; [now] and [date] are the clock readings
    of [Date.now()] and [new Date()].  All three are read when the updater
    runs. *)
Definition merge_partial (now date : N) (turn : jsstring)
           (prev : list TranscriptItem) : list TranscriptItem :=
  let fresh := {| id := decimal now; role := user; text := turn;
                  timestamp := date; isPartial := true |} in
  match last (map Some prev) None with
  | Some lst =>
      if is_open_partial lst
      then removelast prev ++ [with_text turn lst]
      else prev ++ [fresh]
  | None => prev ++ [fresh]
  end.

(** The updater passed to [setTranscript] at a turn completion. *)
Definition finalize_all (prev : list TranscriptItem) : list TranscriptItem :=
  map (with_isPartial false) prev.

Definition enqueue (u : TranscriptUpdater) (s : Session) : Session :=
  set_transcriptUpdates (transcriptUpdates s ++ [u]) s.

(** The handler changes the ref at once and hands its updaters to React. *)
Definition onmessage (message : LiveServerMessage) : M unit :=
  (* Handle user transcriptions only *)
  (match truthy_text (inputTranscription_text message) with
   | Some inputTx =>
       modify (fun s => set_currentTurnRef (currentTurnRef s ++ inputTx) s) ;;
       modify (enqueue update_turn)
   | None => ret tt
   end) ;;
  when (turnComplete message)
    (modify (enqueue finalize_turns) ;;
     modify (set_currentTurnRef [])).

(** ** Rendering

    When React renders, it calls the queued updaters in order, each on the
    result of the one before, and the callbacks it creates see the new
    status.  [clock i] is what the clock reads while the updater at
    position [i] of the queue runs. *)

Definition Clock : Type := nat -> N * N.

Definition run_updater (turn : jsstring) (reading : N * N)
           (u : TranscriptUpdater) (prev : list TranscriptItem)
  : list TranscriptItem :=
  match u with
  | update_turn => merge_partial (fst reading) (snd reading) turn prev
  | finalize_turns => finalize_all prev
  end.

Fixpoint run_updaters (turn : jsstring) (clock : Clock) (i : nat)
         (us : list TranscriptUpdater) (prev : list TranscriptItem)
  : list TranscriptItem :=
  match us with
  | [] => prev
  | u :: rest =>
      run_updaters turn clock (S i) rest (run_updater turn (clock i) u prev)
  end.

Definition render (clock : Clock) (s : Session) : Session :=
  set_renderedStatus (status s)
    (set_transcriptUpdates []
       (setTranscript
          (run_updaters (currentTurnRef s) clock 0 (transcriptUpdates s)
                        (transcript s))
          s)).

(** ** The other session callbacks *)

Definition onopen : M unit :=
  emit (ConsoleLog (str "Gemini Live Connected")) ;;
  modify (setStatus RECORDING) ;;
  (* processor.onaudioprocess = ...; source.connect(processor);
     processor.connect(inputCtx.destination) *)
  emit WireAudioGraph.

(** [onclose] passes [setStatus] a function that calls [disconnect] when
    the previous status is RECORDING or PAUSED; it is run here, on the
    status the updates made so far leave. *)
Definition onclose : M unit :=
  emit (ConsoleLog (str "Gemini Live Closed")) ;;
  prev <- gets status ;;
  when (is_active prev)
    (disconnect ;; modify (setStatus COMPLETED)).

Definition onerror_message (err : js_error) : jsstring :=
  let errMsg := str "接続エラーが発生しました。" in
  if is_Error err
  then errMsg ++ str " (" ++
       match message err with Some m => m | None => str "undefined" end
       ++ str ")"
  else errMsg ++
       str " (通信が切断されました - ネットワーク環境を確認して再試行してください)".

Definition onerror (err : js_error) : M unit :=
  emit (ConsoleError err) ;;
  modify (setError (Some (onerror_message err))) ;;
  disconnect ;;
  modify (setStatus ERROR).

(** ** [connect]

    [connect] is an async function with three suspension points.  Each
    segment below runs from one suspension point to the next inside the
    function's single [try]; it returns the suspension it stops at, or
    [None] once the function has returned. *)

Inductive Pending :=
| AwaitResume (inputCtx : AudioContext)
| AwaitUserMedia (inputCtx : AudioContext)
| AwaitSession (inputCtx : AudioContext) (stream : MediaStream)
               (processor : ScriptProcessorNode).

Definition Error_ (msg : jsstring) : js_error :=
  {| is_Error := true; message := Some msg |}.

(** The message the [catch] block of [connect] reports. *)
Definition connect_error_message (e : js_error) : jsstring :=
  let msg := match truthy_text (message e) with
             | Some m => m
             | None => str "セッションの開始に失敗しました。"
             end in
  if includes msg (str "GetUserMedia")
  then str "マイクへのアクセスが拒否されました。設定を確認してください。"
  else msg.

Definition connect_catch (e : js_error) : M unit :=
  emit (ConsoleError e) ;;
  modify (setError (Some (connect_error_message e))) ;;
  modify (setStatus ERROR).

Definition in_try (m : M (option Pending)) : M (option Pending) :=
  try_catch m (fun e => connect_catch e ;; ret None).

Definition running_ctx (c : AudioContext) : AudioContext :=
  {| state := running; sampleRate := sampleRate c;
     close_rejects := close_rejects c |}.

(** From [audioContextRef.current = inputCtx] to [await getUserMedia]. *)
Definition connect_request_media (inputCtx : AudioContext)
  : M (option Pending) :=
  modify (set_audioContextRef (Some inputCtx)) ;;
  emit GetUserMedia ;;
  ret (Some (AwaitUserMedia inputCtx)).

(** [API_KEY] is [process.env.API_KEY]; [new_context] is what
    [new AudioContextClass()] does. *)
Definition connect (API_KEY : option jsstring)
           (new_context : completion AudioContext) : M (option Pending) :=
  in_try
    (match truthy_text API_KEY with
     | None => throw (Error_ (str "API Keyが設定されていません。"))
     | Some _ => ret tt
     end ;;
     modify (setStatus CONNECTING) ;;
     modify (setError None) ;;
     modify (set_isPausedRef false) ;;
     modify (set_audioAccumulatorRef []) ;;
     emit NewAudioContext ;;
     inputCtx <- lift new_context ;;
     match state inputCtx with
     | suspended => emit AudioContextResume ;; ret (Some (AwaitResume inputCtx))
     | _ => connect_request_media inputCtx
     end).

(** Resumption after [await inputCtx.resume()]. *)
Definition connect_resumed (inputCtx : AudioContext) (r : completion unit)
  : M (option Pending) :=
  in_try (lift r ;; connect_request_media (running_ctx inputCtx)).

(** Resumption after [await getUserMedia(...)], up to [await
    sessionPromise]; [source] and [new_processor] are what
    [createMediaStreamSource] and [createScriptProcessor] do. *)
Definition connect_got_media (inputCtx : AudioContext)
           (r : completion MediaStream) (source : option js_error)
           (new_processor : completion ScriptProcessorNode)
  : M (option Pending) :=
  in_try
    (stream <- lift r ;;
     modify (set_mediaStreamRef (Some stream)) ;;
     call CreateMediaStreamSource source ;;
     emit CreateScriptProcessor ;;
     processor <- lift new_processor ;;
     modify (set_processorRef (Some processor)) ;;
     emit LiveConnect ;;
     ret (Some (AwaitSession inputCtx stream processor))).

(** Resumption after [await sessionPromise]. *)
Definition connect_session_settled (r : completion LiveSessionHandle)
  : M (option Pending) :=
  in_try (session <- lift r ;;
          modify (set_sessionRef (Some session)) ;;
          ret None).

(** ** [generateMinutes] *)

Definition line_feed : jsstring := [10%N].

(** Combine the full transcript, empty entries filtered out. *)
Definition fullText (items : list TranscriptItem) : jsstring :=
  join line_feed
       (map (fun t => str "発言者: " ++ text t)
            (filter (fun t => negb (is_empty (trim (text t)))) items)).

Definition minutes_prompt (full : jsstring) : jsstring :=
  line_feed
  ++ str "        以下の会議の文字起こしを分析し、構造化された議事録を生成してください。"
  ++ line_feed ++ str "        " ++ line_feed
  ++ str "        文字起こし:" ++ line_feed
  ++ str "        " ++ full ++ line_feed ++ str "        ".

Section Minutes.

(** The parsed JSON document and [JSON.parse] are left abstract. *)
Variable MeetingMinutes : Type.
Variable JSON_parse : jsstring -> completion MeetingMinutes.

(** [response] is the outcome of the awaited [generateContent] call: its
    [text] property, or the rejection.  The function reads the transcript
    before the call and touches the state after it only to set the error
    message. *)
Definition generateMinutes (response : completion (option jsstring))
  : M (option MeetingMinutes) :=
  items <- gets transcript ;;
  let full := fullText items in
  if is_empty (trim full) then ret None
  else
    try_catch
      (emit (GenerateContent (minutes_prompt full)) ;;
       r <- lift response ;;
       json <- lift (JSON_parse (match truthy_text r with
                                 | Some t => t
                                 | None => str "{}"
                                 end)) ;;
       ret (Some json))
      (fun e =>
         emit (ConsoleError e) ;;
         modify (setError (Some (str "議事録の生成に失敗しました。"))) ;;
         ret None).

End Minutes.

(** ** The lifecycle as a transition system

    A world is the hook state together with the suspended [connect], if any,
    and the audio context whose processor has been wired to the audio
    callback.  The step relation states what the environment is assumed to
    do:
    - the application starts [connect] only from IDLE, COMPLETED or ERROR and
      makes no other call on the hook while [connect] is suspended;
    - [MediaStreamTrack.stop()] and [AudioNode.disconnect()] do not throw
      (they have no failure mode in the Web platform);
    - the SDK resolves the session promise right after it has called
      [onopen], and a connection that reported an error or a close before
      opening never opens: its promise stays unsettled;
    - [onerror] and [onclose] come from the connection of the latest
      [connect];
    - React renders at any time;
    - with [stale = false], [pause] and [resume] are called only on a hook
      that React has rendered since the status last changed; with
      [stale = true] they are called at any time, also with callbacks of a
      render that shows an older status. *)

Record World := {
  hook : Session;
  pending : option Pending;
  wired : option AudioContext
}.

Definition initial_world : World :=
  {| hook := initial; pending := None; wired := None |}.

Definition tracks_stop_cleanly (ms : MediaStream) : Prop :=
  Forall (fun t => stop_throws t = None) (getTracks ms).

(** The handles held release without throwing in the two unguarded steps
    of [disconnect]. *)
Definition releases_cleanly (s : Session) : Prop :=
  (forall ms, mediaStreamRef s = Some ms -> tracks_stop_cleanly ms) /\
  (forall p, processorRef s = Some p -> disconnect_throws p = None).

(** Run a segment of [connect]: an exception escaping it ends the call. *)
Definition advance (w : World) (m : M (option Pending)) : World :=
  let o := m (hook w) in
  {| hook := final o;
     pending := match result o with Normal p => p | Throw _ => None end;
     wired := wired w |}.

(** Run a handler to its end (or to the exception that escapes it). *)
Definition handle {A} (w : World) (m : M A) : World :=
  {| hook := final (m (hook w)); pending := pending w; wired := wired w |}.

Definition drop_pending (w : World) : World :=
  {| hook := hook w; pending := None; wired := wired w |}.

Definition wire (c : AudioContext) (w : World) : World :=
  {| hook := hook w; pending := pending w; wired := Some c |}.

Definition rendered (clock : Clock) (w : World) : World :=
  {| hook := render clock (hook w); pending := pending w; wired := wired w |}.

Definition may_connect (st : SessionStatus) : bool :=
  status_eqb st IDLE || status_eqb st COMPLETED || status_eqb st ERROR.

Definition connection_alive (w : World) : Prop :=
  match pending w with
  | Some (AwaitSession _ _ _) => True
  | Some _ => False
  | None => wired w <> None
  end.

(** The hook as React has rendered it shows the current status. *)
Definition up_to_date (s : Session) : Prop := renderedStatus s = status s.

Inductive step (stale : bool) : World -> World -> Prop :=
| step_connect w key ctx :
    pending w = None -> may_connect (status (hook w)) = true ->
    step stale w (advance w (connect key ctx))
| step_resumed w c r :
    pending w = Some (AwaitResume c) ->
    step stale w (advance w (connect_resumed c r))
| step_media w c r src proc :
    pending w = Some (AwaitUserMedia c) ->
    (forall ms, r = Normal ms -> tracks_stop_cleanly ms) ->
    (forall p, proc = Normal p -> disconnect_throws p = None) ->
    step stale w (advance w (connect_got_media c r src proc))
| step_opened w c ms p session :
    pending w = Some (AwaitSession c ms p) ->
    step stale w (wire c (advance w (onopen ;;
                                     connect_session_settled (Normal session))))
| step_rejected w c ms p e :
    pending w = Some (AwaitSession c ms p) ->
    step stale w (advance w (connect_session_settled (Throw e)))
| step_onerror w err :
    connection_alive w -> step stale w (drop_pending (handle w (onerror err)))
| step_onclose w :
    connection_alive w -> step stale w (drop_pending (handle w onclose))
| step_onmessage w m :
    step stale w (handle w (onmessage m))
| step_onaudioprocess w c inputData :
    wired w = Some c ->
    step stale w (handle w (onaudioprocess inputData (sampleRate c)))
| step_disconnect w :
    pending w = None -> step stale w (handle w disconnect)
| step_pause w :
    pending w = None -> (stale = false -> up_to_date (hook w)) ->
    step stale w (handle w pause)
| step_resume w :
    pending w = None -> (stale = false -> up_to_date (hook w)) ->
    step stale w (handle w resume)
| step_generateMinutes w (T : Type) (parse : jsstring -> completion T) resp :
    step stale w (handle w (generateMinutes parse resp))
| step_render w clock :
    step stale w (rendered clock w).

Inductive reachable (stale : bool) : World -> Prop :=
| reachable_initial : reachable stale initial_world
| reachable_step w w' :
    reachable stale w -> step stale w w' -> reachable stale w'.

(** ** Running the audio callback over a sequence of blocks

    Each block comes with the sample rate of the context that delivers it.
    An exception escaping one callback does not stop the next one. *)

Fixpoint audio_run (blocks : list (list float * float)) (s : Session)
  : Session * list Effect :=
  match blocks with
  | [] => (s, [])
  | (inputData, rate) :: rest =>
      let o := onaudioprocess inputData rate s in
      let (s', t) := audio_run rest (final o) in
      (s', trace o ++ t)
  end.

(** The chunks handed to [sendRealtimeInput], in order. *)
Fixpoint sent (t : list Effect) : list Blob :=
  match t with
  | [] => []
  | SendRealtimeInput media :: rest => media :: sent rest
  | _ :: rest => sent rest
  end.

(** The accumulator as the specification words it: while the residual holds
    at least [CHUNK_THRESHOLD] samples, emit the first [CHUNK_THRESHOLD] of
    them as one chunk and retain the remainder. *)
Fixpoint spec_drain (fuel : nat) (residual : list float)
  : list (list float) * list float :=
  match fuel with
  | O => ([], residual)
  | S fuel' =>
      if (CHUNK_THRESHOLD <=? length residual)%nat then
        let (chunks, r) := spec_drain fuel' (skipn CHUNK_THRESHOLD residual) in
        (firstn CHUNK_THRESHOLD residual :: chunks, r)
      else ([], residual)
  end.

Definition spec_accumulate (residual block : list float)
  : list (list float) * list float :=
  spec_drain (length (residual ++ block)) (residual ++ block).

(** The emission rule of the specification, read on one callback that is
    not paused and whose block resamples to [resampled]. *)
Definition emits_fixed_chunks (s : Session) (inputData : list float)
           (rate : float) (resampled : list float) : Prop :=
  let o := onaudioprocess inputData rate s in
  let (chunks, residual) := spec_accumulate (audioAccumulatorRef s) resampled in
  sent (trace o) = map createPcmBlob chunks
  /\ audioAccumulatorRef (final o) = residual.

(** A block of 1000 samples at the target rate: it resamples to itself. *)
Definition block_1000 : list float := repeat 0.5 1000.

(** ** Teardown: what [disconnect] owes and leaves *)

(** The state [disconnect] leaves when it runs to its end. *)
Definition torn_down (s : Session) : Session :=
  {| status := if is_active (status s) then COMPLETED else status s;
     transcript := transcript s; volume := 0; error := error s;
     sessionRef := None; audioContextRef := None; mediaStreamRef := None;
     processorRef := None; audioAccumulatorRef := []; isPausedRef := false;
     currentTurnRef := currentTurnRef s;
     renderedStatus := renderedStatus s;
     transcriptUpdates := transcriptUpdates s |}.

(** The release calls among the effects of a run. *)
Definition is_release (e : Effect) : bool :=
  match e with
  | SessionClose | TrackStop | ProcessorDisconnect | AudioContextClose => true
  | _ => false
  end.

Definition release_calls (t : list Effect) : list Effect := filter is_release t.

(** The release calls owed for the handles held, in the fixed order of
    [disconnect]: close the session, stop every track, disconnect the
    processing node, close the audio context unless it is closed already. *)
Definition owed_releases (s : Session) : list Effect :=
  match sessionRef s with Some _ => [SessionClose] | None => [] end
  ++ match mediaStreamRef s with
     | Some ms => repeat TrackStop (length (getTracks ms))
     | None => []
     end
  ++ match processorRef s with Some _ => [ProcessorDisconnect] | None => [] end
  ++ match audioContextRef s with
     | Some ctx => match state ctx with closed => [] | _ => [AudioContextClose] end
     | None => []
     end.

(** What [console] receives from the guarded steps that failed. *)
Definition is_console (e : Effect) : bool :=
  match e with
  | ConsoleWarn _ _ | ConsoleError _ => true
  | _ => false
  end.

Definition reported_failures (s : Session) : list Effect :=
  match sessionRef s with
  | Some session =>
      match close_throws session with
      | Some e => [ConsoleWarn (str "Error closing session:") e]
      | None => []
      end
  | None => []
  end
  ++ match audioContextRef s with
     | Some ctx =>
         match state ctx, close_rejects ctx with
         | closed, _ => []
         | _, Some e => [ConsoleError e]
         | _, None => []
         end
     | None => []
     end.

Definition handles_null (s : Session) : Prop :=
  sessionRef s = None /\ audioContextRef s = None /\ mediaStreamRef s = None
  /\ processorRef s = None.

(** C6 (as stated, refuted) *)
(** A recording session whose only track throws when it is stopped. *)
Definition failing_track_session : Session :=
  {| status := RECORDING; transcript := []; volume := 0; error := None;
     sessionRef := Some {| close_throws := None |};
     audioContextRef := Some {| state := running; sampleRate := 48000;
                                close_rejects := None |};
     mediaStreamRef :=
       Some {| getTracks :=
                 [{| stop_throws := Some (Error_ (str "InvalidStateError")) |}] |};
     processorRef := Some {| disconnect_throws := None |};
     audioAccumulatorRef := []; isPausedRef := false; currentTurnRef := [];
     renderedStatus := RECORDING; transcriptUpdates := [] |}.

(** ** Runs of the transcript merger *)

(** What happens to the transcript: a server message is handled, or React
    renders. *)
Inductive Event :=
| Message (m : LiveServerMessage)
| Render (clock : Clock).

Definition run_event (e : Event) (s : Session) : Session :=
  match e with
  | Message m => final (onmessage m s)
  | Render clock => render clock s
  end.

Fixpoint run_events (es : list Event) (s : Session) : Session :=
  match es with
  | [] => s
  | e :: rest => run_events rest (run_event e s)
  end.

Fixpoint messages_of (es : list Event) : list LiveServerMessage :=
  match es with
  | [] => []
  | Message m :: rest => m :: messages_of rest
  | Render _ :: rest => messages_of rest
  end.

(** A server message that React renders before the next one is handled,
    with the clock readings of that render. *)
Definition Delivery : Type := LiveServerMessage * N * N.

Fixpoint run_messages (ds : list Delivery) (s : Session) : Session :=
  match ds with
  | [] => s
  | (m, now, date) :: rest =>
      run_messages rest (render (fun _ => (now, date)) (final (onmessage m s)))
  end.

Definition text_event (t : jsstring) : LiveServerMessage :=
  {| inputTranscription_text := Some t; turnComplete := false |}.

Definition turn_complete_event : LiveServerMessage :=
  {| inputTranscription_text := None; turnComplete := true |}.

(** The events of a turn: each fragment arrives as a text event, and React
    renders any number of times before the next event. *)
Definition turn_events (fs : list (jsstring * list Clock)) : list Event :=
  flat_map (fun f => Message (text_event (fst f)) :: map Render (snd f)) fs.

(** The item of a turn: [stamp] is the clock reading of the updater that
    created it. *)
Definition turn_item (stamp : N * N) (t : jsstring) (p : bool)
  : TranscriptItem :=
  {| id := decimal (fst stamp); role := user; text := t;
     timestamp := snd stamp; isPartial := p |}.

(** In the middle of a turn whose text so far is [acc]: until React renders
    the item of the turn is not in the transcript, and afterwards it is,
    with the text of that render. *)
Definition turn_pending (done : list TranscriptItem) (acc : jsstring)
           (s : Session) : Prop :=
  transcript s = done /\ currentTurnRef s = acc
  /\ exists k, transcriptUpdates s = repeat update_turn (S k).

Definition turn_shown (done : list TranscriptItem) (stamp : N * N)
           (acc : jsstring) (s : Session) : Prop :=
  exists txt k,
    transcript s = done ++ [turn_item stamp txt true]
    /\ currentTurnRef s = acc
    /\ transcriptUpdates s = repeat update_turn k
    /\ (k = 0%nat -> txt = acc).

(** ... and right after a render. *)
Definition turn_rendered (done : list TranscriptItem) (stamp : N * N)
           (acc : jsstring) (s : Session) : Prop :=
  transcript s = done ++ [turn_item stamp acc true]
  /\ currentTurnRef s = acc /\ transcriptUpdates s = [].

Definition has_text (m : LiveServerMessage) : bool :=
  match truthy_text (inputTranscription_text m) with
  | Some _ => true
  | None => false
  end.

(** Is a turn open after these messages: has a text event arrived since the
    most recent turn completion? *)
Fixpoint turn_open_from (open : bool) (ms : list LiveServerMessage) : bool :=
  match ms with
  | [] => open
  | m :: rest =>
      turn_open_from (if turnComplete m then false
                      else if has_text m then true else open) rest
  end.

Definition turn_open (ms : list LiveServerMessage) : bool :=
  turn_open_from false ms.

Definition last_item (items : list TranscriptItem) : option TranscriptItem :=
  last (map Some items) None.

Definition last_is_partial (items : list TranscriptItem) : bool :=
  match last_item items with
  | Some it => isPartial it
  | None => false
  end.

Definition last_is_open_partial (items : list TranscriptItem) : bool :=
  match last_item items with
  | Some it => is_open_partial it
  | None => false
  end.

Definition partial_count (items : list TranscriptItem) : nat :=
  length (filter isPartial items).

Definition settled (items : list TranscriptItem) : Prop :=
  Forall (fun it => isPartial it = false) items.

Definition all_user (items : list TranscriptItem) : Prop :=
  Forall (fun it => role it = user) items.

(** Shape of the transcript: every item is a user item; with no turn open
    nothing is partial, and with a turn open exactly the last item is. *)
Definition transcript_shape (open : bool) (items : list TranscriptItem) : Prop :=
  all_user items /\
  if open
  then exists init lst, items = init ++ [lst] /\ settled init
                        /\ isPartial lst = true
  else settled items.

(** Is the last item partial once these updaters have run? *)
Fixpoint open_after (open : bool) (us : list TranscriptUpdater) : bool :=
  match us with
  | [] => open
  | update_turn :: rest => open_after true rest
  | finalize_turns :: rest => open_after false rest
  end.

Definition merger_invariant (open : bool) (s : Session) : Prop :=
  (exists shown, transcript_shape shown (transcript s)
                 /\ open_after shown (transcriptUpdates s) = open) /\
  (open = false -> currentTurnRef s = []).

Definition next_open (open : bool) (m : LiveServerMessage) : bool :=
  if turnComplete m then false else if has_text m then true else open.

(** Empty or made of white space only. *)
Definition blank (t : jsstring) : bool := forallb is_white_space t.

(** ** Handles and status over the lifecycle *)

Definition is_live (st : SessionStatus) : bool :=
  status_eqb st CONNECTING || is_active st.

Definition handles_held (s : Session) : Prop :=
  sessionRef s <> None /\ audioContextRef s <> None /\ mediaStreamRef s <> None
  /\ processorRef s <> None.

(** The handle invariant as the specification states it. *)
Definition handles_iff_live (s : Session) : Prop :=
  (audioContextRef s <> None /\ mediaStreamRef s <> None
   /\ sessionRef s <> None) <-> is_live (status s) = true.

Definition lifecycle_invariant (stale : bool) (w : World) : Prop :=
  releases_cleanly (hook w) /\
  match pending w with
  | None =>
      (stale = false ->
       is_active (status (hook w)) = true -> handles_held (hook w)) /\
      (status (hook w) = IDLE \/ status (hook w) = COMPLETED ->
       handles_null (hook w))
  | Some (AwaitResume _) => status (hook w) = CONNECTING
  | Some (AwaitUserMedia _) =>
      status (hook w) = CONNECTING /\ audioContextRef (hook w) <> None
  | Some (AwaitSession _ _ _) =>
      status (hook w) = CONNECTING /\ audioContextRef (hook w) <> None
      /\ mediaStreamRef (hook w) <> None /\ processorRef (hook w) <> None
  end.

Definition running_context : AudioContext :=
  {| state := running; sampleRate := 48000; close_rejects := None |}.

(** [connect] with a key and a running context, stopped at
    [await getUserMedia]. *)
Definition world_awaiting_microphone : World :=
  advance initial_world (connect (Some (str "key")) (Normal running_context)).

(** ... and then the microphone is refused. *)
Definition world_microphone_refused : World :=
  advance world_awaiting_microphone
          (connect_got_media running_context
             (Throw (Error_ (str "GetUserMedia: Permission denied")))
             None (Normal {| disconnect_throws := None |})).

(** Handlers that leave the status and the handles alone. *)
Definition same_lifecycle (s s' : Session) : Prop :=
  status s' = status s /\ sessionRef s' = sessionRef s
  /\ audioContextRef s' = audioContextRef s
  /\ mediaStreamRef s' = mediaStreamRef s /\ processorRef s' = processorRef s.

(** A session recording after a successful [connect]. *)
Definition clean_stream : MediaStream :=
  {| getTracks := [{| stop_throws := None |}] |}.

Definition world_got_microphone : World :=
  advance world_awaiting_microphone
          (connect_got_media running_context (Normal clean_stream) None
                             (Normal {| disconnect_throws := None |})).

Definition world_recording : World :=
  wire running_context
       (advance world_got_microphone
                (onopen ;; connect_session_settled
                             (Normal {| close_throws := None |}))).

(** React renders the recording session; then the connection reports an
    error, and [pause] is called before React renders again. *)
Definition world_recording_rendered : World :=
  rendered (fun _ => (0, 0)%N) world_recording.

Definition world_error_unrendered : World :=
  drop_pending (handle world_recording_rendered
                       (onerror (Error_ (str "Network error")))).

Definition world_paused_after_error : World :=
  handle world_error_unrendered pause.

(** A recording session whose session close throws and whose context close
    rejects, the two guarded steps. *)
Definition guarded_failures_session : Session :=
  {| status := PAUSED; transcript := []; volume := 0; error := None;
     sessionRef := Some {| close_throws := Some (Error_ (str "closed")) |};
     audioContextRef :=
       Some {| state := running; sampleRate := 48000;
               close_rejects := Some (Error_ (str "InvalidStateError")) |};
     mediaStreamRef := Some clean_stream;
     processorRef := Some {| disconnect_throws := None |};
     audioAccumulatorRef := []; isPausedRef := true; currentTurnRef := [];
     renderedStatus := PAUSED; transcriptUpdates := [] |}.

(** A transcript of two blank items. *)
Definition blank_session : Session :=
  setTranscript
    [{| id := str "1"; role := user; text := []; timestamp := 1;
        isPartial := false |};
     {| id := str "2"; role := user; text := [32; 0x3000; 10]%N; timestamp := 2;
        isPartial := false |}]
    initial.

End LiveSession.

(* ================================================================== *)
(** * utils/audio.ts: [base64ToArrayBuffer]

    [atob] is the platform's decoder, modelled after the forgiving base64
    decoding it is specified to perform. *)
(* ================================================================== *)

Module Base64.
Import JS Audio.

(** The DOMException [atob] throws (the wording of the message is the
    engine's). *)
Definition InvalidCharacterError : js_error :=
  {| is_Error := true;
     message := Some (str "The string to be decoded is not correctly encoded.") |}.

(** ASCII whitespace: TAB, LF, FF, CR and SPACE. *)
Definition is_ascii_whitespace (c : code_unit) : bool :=
  ((c =? 9) || (c =? 10) || (c =? 12) || (c =? 13) || (c =? 32))%N.

(** The value of a character of the base64 alphabet. *)
Definition b64_value (c : code_unit) : option N :=
  (if (65 <=? c) && (c <=? 90) then Some (c - 65)
   else if (97 <=? c) && (c <=? 122) then Some (c - 71)
   else if (48 <=? c) && (c <=? 57) then Some (c + 4)
   else if c =? 43 then Some 62
   else if c =? 47 then Some 63
   else None)%N.

(** When the length is a multiple of 4, one or two [=] at the end are
    removed. *)
Definition strip_padding (d : jsstring) : jsstring :=
  if (length d mod 4 =? 0)%nat then
    match rev d with
    | c1 :: c2 :: r =>
        if (c1 =? 61)%N
        then if (c2 =? 61)%N then rev r else rev (c2 :: r)
        else d
    | [c1] => if (c1 =? 61)%N then [] else d
    | [] => d
    end
  else d.

Fixpoint b64_values (d : jsstring) : option (list N) :=
  match d with
  | [] => Some []
  | c :: rest =>
      match b64_value c, b64_values rest with
      | Some v, Some vs => Some (v :: vs)
      | _, _ => None
      end
  end.

(** Four characters give three bytes; two or three left over give one or
    two bytes, the spare bits being discarded. *)
Fixpoint decode_sextets (vs : list N) : list N :=
  match vs with
  | a :: b :: c :: d :: rest =>
      [a * 4 + b / 16; (b mod 16) * 16 + c / 4; (c mod 4) * 64 + d]%N
        ++ decode_sextets rest
  | [a; b; c] => [a * 4 + b / 16; (b mod 16) * 16 + c / 4]%N
  | [a; b] => [a * 4 + b / 16]%N
  | _ => []
  end.

(** [atob]: the forgiving base64 decoding of the HTML standard; the result
    is a binary string. *)
Definition atob (data : jsstring) : completion jsstring :=
  let d := strip_padding
             (filter (fun c => negb (is_ascii_whitespace c)) data) in
  if (length d mod 4 =? 1)%nat then Throw InvalidCharacterError
  else match b64_values d with
       | Some vs => Normal (decode_sextets vs)
       | None => Throw InvalidCharacterError
       end.

(** [base64ToArrayBuffer(base64)]: the bytes of the buffer it returns; the
    store into the [Uint8Array] keeps the low 8 bits of each char code. *)
Definition base64ToArrayBuffer (base64 : jsstring) : completion (list N) :=
  match atob base64 with
  | Normal binaryString => Normal (map (fun c => c mod 256)%N binaryString)
  | Throw e => Throw e
  end.

(** The 6-bit groups [btoa] encodes, and the padding it appends. *)
Fixpoint sextets (bs : list N) : list N :=
  match bs with
  | a :: b :: c :: rest =>
      [a / 4; (a mod 4) * 16 + b / 16; (b mod 16) * 4 + c / 64; c mod 64]%N
        ++ sextets rest
  | [a; b] => [a / 4; (a mod 4) * 16 + b / 16; (b mod 16) * 4]%N
  | [a] => [a / 4; (a mod 4) * 16]%N
  | [] => []
  end.

Definition padding (bs : list N) : nat := ((3 - length bs mod 3) mod 3)%nat.

Definition is_byte (b : N) : Prop := (b < 256)%N.

End Base64.

(* ================================================================== *)
(** * utils/audio.ts: [decodeAudioData]

    The audio context enters through its [createBuffer] method only, which
    is a parameter: the platform decides what buffer it returns and when it
    throws.  Of [data] only [data.buffer] is read, so the model takes the
    bytes of that buffer.  The number of channels is a natural number. *)
(* ================================================================== *)

Module Playback.
Import JS Audio.
Open Scope float_scope.

(** An [AudioBuffer]: one [Float32Array] for each channel. *)
Record AudioBuffer := { channels : list (list float) }.

(** The RangeError of [new Int16Array(buffer)] for a buffer of odd length,
    and the DOMException of [getChannelData] for a channel the buffer does
    not have (the wording of the messages is the engine's). *)
Definition RangeError_byteLength : js_error :=
  {| is_Error := true;
     message := Some (str "byte length of Int16Array should be a multiple of 2") |}.

Definition IndexSizeError : js_error :=
  {| is_Error := true;
     message := Some (str "The index is not in the allowed range.") |}.

(** The element of an [Int16Array] stored in two bytes, low byte first. *)
Definition int16_value (lo hi : N) : Z :=
  let u := Z.of_N (lo + 256 * hi) in
  if (u <? 32768)%Z then u else (u - 65536)%Z.

Fixpoint int16_elements (bytes : list N) : list Z :=
  match bytes with
  | lo :: hi :: rest => int16_value lo hi :: int16_elements rest
  | _ => []
  end.

(** [new Int16Array(data.buffer)] *)
Definition Int16Array_from (bytes : list N) : completion (list Z) :=
  if Nat.even (length bytes) then Normal (int16_elements bytes)
  else Throw RangeError_byteLength.

(** [dataInt16[j] / 32768.0]; an element that is not there is [undefined],
    which the division turns into NaN. *)
Definition decoded_sample (dataInt16 : list Z) (j : nat) : float :=
  match nth_error dataInt16 j with
  | Some v => of_Z v / 32768
  | None => nan
  end.

(** [a[i] = v] on a [Float32Array]: the value is rounded to binary32, and a
    store past the end does nothing. *)
Definition store32 (a : list float) (i : nat) (v : float) : list float :=
  if (i <? length a)%nat then firstn i a ++ fround v :: skipn (S i) a else a.

(** The loop [for (let i = 0; i < frameCount; i++)] over one channel, from
    [i] on; [fuel] bounds the number of iterations. *)
Fixpoint fill_channel (fuel i : nat) (frameCount : float) (dataInt16 : list Z)
         (numChannels channel : nat) (channelData : list float)
  : list float :=
  match fuel with
  | O => channelData
  | S fuel' =>
      if of_nat i <? frameCount
      then fill_channel fuel' (S i) frameCount dataInt16 numChannels channel
             (store32 channelData i
                (decoded_sample dataInt16 (i * numChannels + channel)))
      else channelData
  end.

Definition set_channel (buffer : AudioBuffer) (channel : nat)
           (channelData : list float) : AudioBuffer :=
  {| channels := firstn channel (channels buffer) ++ channelData
                   :: skipn (S channel) (channels buffer) |}.

(** The loop over the channels, from [channel] on, [count] channels being
    left; [getChannelData] throws for a channel the buffer lacks. *)
Fixpoint fill_channels (count channel fuel : nat) (frameCount : float)
         (dataInt16 : list Z) (numChannels : nat) (buffer : AudioBuffer)
  : completion AudioBuffer :=
  match count with
  | O => Normal buffer
  | S count' =>
      match nth_error (channels buffer) channel with
      | None => Throw IndexSizeError
      | Some channelData =>
          fill_channels count' (S channel) fuel frameCount dataInt16
            numChannels
            (set_channel buffer channel
               (fill_channel fuel 0 frameCount dataInt16 numChannels channel
                             channelData))
      end
  end.

(** [decodeAudioData(data, ctx, sampleRate, numChannels)]: the buffer the
    promise resolves with, or the exception it rejects with.  The inner
    loop ends after at most [dataInt16.length + 1] tests of its condition,
    because [frameCount] is at most [dataInt16.length]. *)
Definition decodeAudioData (data_buffer : list N)
           (createBuffer : nat -> float -> float -> completion AudioBuffer)
           (sampleRate : float) (numChannels : nat)
  : completion AudioBuffer :=
  match Int16Array_from data_buffer with
  | Throw e => Throw e
  | Normal dataInt16 =>
      let frameCount := of_nat (length dataInt16) / of_nat numChannels in
      match createBuffer numChannels frameCount sampleRate with
      | Throw e => Throw e
      | Normal buffer =>
          fill_channels numChannels 0 (S (length dataInt16)) frameCount
                        dataInt16 numChannels buffer
      end
  end.

(** The value stored for the 16-bit sample [k]. *)
Definition decode_value (k : Z) : float := fround (of_Z k / 32768).

(** What a decoded value owes to its 16-bit sample: it lies in [-1, 1) and
    gives the sample back when scaled by 32768. *)
Definition decodes (k : Z) : bool :=
  let v := decode_value k in
  (-1 <=? v) && (v <? 1) && (truncation (v * 32768) =? k)%Z
  && (Math_floor (v * 32768) =? v * 32768).

End Playback.

(* ================================================================== *)
(** * components/LiveView.tsx *)
(* ================================================================== *)

Module LiveView.
Import JS LiveSession.
Open Scope float_scope.

(** The height of one bar of the visualizer, in percent; [random] is the
    value [Math.random()] returned for the bar. *)
Definition bar_height (volume random : float) : float :=
  Math_max 4 (Math_min 100 ((volume * 100) * (0.5 + random))).

(** The height the bar is drawn with. *)
Definition shown_height (status : SessionStatus) (volume random : float)
  : float :=
  if status_eqb status RECORDING then bar_height volume random else 4.

End LiveView.

(* ================================================================== *)
(** * Notions used to state properties *)
(* ================================================================== *)

Module Notions.
Import JS LiveSession.

(** A number that is not negative: a zero, a positive number or [+inf]. *)
Definition not_negative (x : spec_float) : Prop :=
  match x with
  | S754_nan => False
  | S754_zero _ => True
  | S754_infinity s | S754_finite s _ _ => s = false
  end.

(** The pause flag agrees with the status, and an ERROR status has a
    message that is not empty. *)
Definition status_coherent (s : Session) : Prop :=
  (isPausedRef s = true <-> status s = PAUSED) /\
  (status s = ERROR -> exists m, error s = Some m /\ m <> []).


End Notions.

(* ================================================================== *)
(** * Properties *)
(* ================================================================== *)

Import JS Binary64 Audio LiveSession.
Open Scope float_scope.
Unset Implicit Arguments.

(** ** Chunk accumulator *)

Lemma sent_app (t1 t2 : list Effect) : sent (t1 ++ t2) = sent t1 ++ sent t2.
Proof.
  induction t1 as [|e t1 IH]; [reflexivity|].
  destruct e; simpl; rewrite IH; reflexivity.
Qed.

(** One callback, not paused, whose block resamples to [resampled]: the
    whole accumulated buffer is sent once it holds 2048 samples, and the
    residual restarts empty. *)
Lemma onaudioprocess_flush (s : Session) (inputData resampled : list float)
      (rate : float) :
  isPausedRef s = false ->
  resampleBuffer inputData rate 16000 = Normal resampled ->
  let o := onaudioprocess inputData rate s in
  let newBuffer := audioAccumulatorRef s ++ resampled in
  result o = Normal tt /\
  if (CHUNK_THRESHOLD <=? length newBuffer)%nat
  then sent (trace o) = [createPcmBlob newBuffer]
       /\ audioAccumulatorRef (final o) = []
  else sent (trace o) = [] /\ audioAccumulatorRef (final o) = newBuffer.
Proof.
  intros Hp Hr. unfold onaudioprocess, bind, gets.
  rewrite Hp, Hr. cbn [modify lift ret then_ app].
  cbn [setVolume set_audioAccumulatorRef audioAccumulatorRef].
  destruct (CHUNK_THRESHOLD <=? _)%nat; cbn; auto.
Qed.

Lemma onaudioprocess_paused (s : Session) (inputData : list float)
      (rate : float) :
  isPausedRef s = true ->
  onaudioprocess inputData rate s
  = {| result := Normal tt; final := s; trace := [] |}.
Proof.
  intros Hp. unfold onaudioprocess, bind, gets.
  rewrite Hp. reflexivity.
Qed.

Lemma onaudioprocess_residual (s : Session) (inputData : list float)
      (rate : float) :
  (length (audioAccumulatorRef s) < CHUNK_THRESHOLD)%nat ->
  (length (audioAccumulatorRef (final (onaudioprocess inputData rate s)))
   < CHUNK_THRESHOLD)%nat.
Proof.
  intros Hlt.
  destruct (isPausedRef s) eqn:Hp.
  - rewrite onaudioprocess_paused by assumption. exact Hlt.
  - destruct (resampleBuffer inputData rate 16000) as [resampled|e] eqn:Hr.
    + destruct (onaudioprocess_flush s inputData resampled rate Hp Hr)
        as [_ H].
      destruct (Nat.leb_spec CHUNK_THRESHOLD
                  (length (audioAccumulatorRef s ++ resampled))) as [Hge|Hlt'];
        destruct H as [_ ->]; [unfold CHUNK_THRESHOLD; simpl; lia | exact Hlt'].
    + unfold onaudioprocess, bind, gets.
      rewrite Hp, Hr. cbn. exact Hlt.
Qed.

Lemma audio_run_residual (blocks : list (list float * float)) :
  forall s : Session,
    (length (audioAccumulatorRef s) < CHUNK_THRESHOLD)%nat ->
    (length (audioAccumulatorRef (fst (audio_run blocks s)))
     < CHUNK_THRESHOLD)%nat.
Proof.
  induction blocks as [|[inputData rate] rest IH]; intros s Hlt; [exact Hlt|].
  cbn [audio_run].
  specialize (IH _ (onaudioprocess_residual s inputData rate Hlt)).
  destruct (audio_run rest _) as [s' t]. exact IH.
Qed.

Lemma block_1000_resamples_to_itself :
  resampleBuffer block_1000 16000 16000 = Normal block_1000.
Proof. reflexivity. Qed.

(** C1 (as stated, refuted): with 2000 samples accumulated, a third block
    of 1000 resampled samples does not emit the first 2048 samples and keep
    952: the residual is empty after the callback. *)
Lemma third_block_leaves_no_residual :
  let s2 := fst (audio_run [(block_1000, 16000); (block_1000, 16000)] initial) in
  isPausedRef s2 = false /\
  length (audioAccumulatorRef s2) = 2000%nat /\
  length (audioAccumulatorRef (final (onaudioprocess block_1000 16000 s2)))
  = 0%nat /\
  ~ emits_fixed_chunks s2 block_1000 16000 block_1000.
Proof.
  cbv zeta. repeat split; try (vm_compute; reflexivity).
  unfold emits_fixed_chunks. intros H.
  destruct (spec_accumulate _ _) as [chunks residual] eqn:Hs.
  destruct H as [_ H].
  apply (f_equal (@snd _ _)) in Hs. cbn [snd] in Hs. subst residual.
  apply (f_equal (@length _)) in H. vm_compute in H. discriminate H.
Qed.

(** C1 (amended): a callback that is not paused sends the whole accumulated
    buffer as one chunk once it holds at least 2048 samples and restarts
    the residual empty, and otherwise keeps accumulating; so after every
    callback of every sequence the residual is shorter than 2048; three
    callbacks of 1000 resampled samples send one chunk of 3000 samples and
    leave no residual. *)
Theorem accumulator_flushes_whole_buffer :
  (forall (s : Session) (inputData resampled : list float) (rate : float),
      isPausedRef s = false ->
      resampleBuffer inputData rate 16000 = Normal resampled ->
      let o := onaudioprocess inputData rate s in
      let newBuffer := audioAccumulatorRef s ++ resampled in
      result o = Normal tt /\
      if (CHUNK_THRESHOLD <=? length newBuffer)%nat
      then sent (trace o) = [createPcmBlob newBuffer]
           /\ audioAccumulatorRef (final o) = []
      else sent (trace o) = []
           /\ audioAccumulatorRef (final o) = newBuffer) /\
  (forall (blocks : list (list float * float)) (s : Session),
      (length (audioAccumulatorRef s) < CHUNK_THRESHOLD)%nat ->
      (length (audioAccumulatorRef (fst (audio_run blocks s)))
       < CHUNK_THRESHOLD)%nat) /\
  (let (s3, t) := audio_run [(block_1000, 16000); (block_1000, 16000);
                             (block_1000, 16000)] initial in
   sent t = [createPcmBlob (block_1000 ++ block_1000 ++ block_1000)]
   /\ audioAccumulatorRef s3 = []).
Proof.
  split; [|split].
  - intros s inputData resampled rate Hp Hr.
    exact (onaudioprocess_flush s inputData resampled rate Hp Hr).
  - intros blocks s. apply audio_run_residual.
  - vm_compute. split; reflexivity.
Qed.

Lemma accumulator_flushes_whole_buffer_witness :
  let s2 := fst (audio_run [(block_1000, 16000); (block_1000, 16000)] initial) in
  let o := onaudioprocess block_1000 16000 s2 in
  result o = Normal tt /\
  sent (trace o) = [createPcmBlob (audioAccumulatorRef s2 ++ block_1000)] /\
  audioAccumulatorRef (final o) = [] /\
  (length (audioAccumulatorRef
             (fst (audio_run [(block_1000, 16000%float)] initial)))
   < CHUNK_THRESHOLD)%nat.
Proof.
  cbv zeta.
  destruct accumulator_flushes_whole_buffer as [Hone [Hall _]].
  pose proof (Hone (fst (audio_run [(block_1000, 16000); (block_1000, 16000)]
                                   initial))
                   block_1000 block_1000 16000 eq_refl
                   block_1000_resamples_to_itself) as H.
  cbv zeta in H. destruct H as [Hres H].
  change (CHUNK_THRESHOLD <=? _)%nat with true in H.
  destruct H as [Hs Ha].
  repeat split; try assumption.
  apply Hall. unfold CHUNK_THRESHOLD. simpl. lia.
Defined.

(** ** Rounding of binary64 results

    Bounds on what [binary_round_aux], the rounding step of every binary64
    operation, returns. *)

Section Rounding.
Local Open Scope Z_scope.

Lemma digits2_pos_bounds (p : positive) :
  2 ^ (Zpos (digits2_pos p) - 1) <= Zpos p < 2 ^ Zpos (digits2_pos p).
Proof.
  induction p as [p IH|p IH|]; cbn [digits2_pos].
  - rewrite Pos2Z.inj_succ.
    replace (Z.succ (Zpos (digits2_pos p)) - 1) with (Zpos (digits2_pos p)) by lia.
    rewrite Z.pow_succ_r by lia.
    assert (E : 2 ^ Zpos (digits2_pos p) = 2 * 2 ^ (Zpos (digits2_pos p) - 1)).
    { rewrite <- Z.pow_succ_r by lia. f_equal. lia. }
    lia.
  - rewrite Pos2Z.inj_succ.
    replace (Z.succ (Zpos (digits2_pos p)) - 1) with (Zpos (digits2_pos p)) by lia.
    rewrite Z.pow_succ_r by lia.
    assert (E : 2 ^ Zpos (digits2_pos p) = 2 * 2 ^ (Zpos (digits2_pos p) - 1)).
    { rewrite <- Z.pow_succ_r by lia. f_equal. lia. }
    lia.
  - cbn. lia.
Qed.

(* shr_1 halves the mantissa *)
Lemma shr_1_m (mrs : shr_record) :
  0 <= shr_m mrs -> shr_m (shr_1 mrs) = shr_m mrs / 2.
Proof.
  destruct mrs as [m r s]. cbn [shr_m shr_1]. intros Hm.
  destruct m as [|p|p]; [reflexivity| |lia].
  destruct p as [p|p|]; cbn [shr_m].
  - rewrite Pos2Z.inj_xI. apply Z.div_unique with (r := 1); lia.
  - rewrite Pos2Z.inj_xO. apply Z.div_unique with (r := 0); lia.
  - reflexivity.
Qed.

Lemma shr_1_nonneg (mrs : shr_record) : 0 <= shr_m mrs -> 0 <= shr_m (shr_1 mrs).
Proof.
  intros H. rewrite shr_1_m by exact H. apply Z.div_pos; lia.
Qed.

Lemma iter_pos_shr_m (n : positive) :
  forall mrs : shr_record,
    0 <= shr_m mrs ->
    shr_m (iter_pos shr_1 n mrs) = shr_m mrs / 2 ^ Zpos n
    /\ 0 <= shr_m (iter_pos shr_1 n mrs).
Proof.
  induction n as [n IH|n IH|]; intros mrs Hm; cbn [iter_pos].
  - pose proof (shr_1_nonneg mrs Hm) as H1.
    destruct (IH (shr_1 mrs) H1) as [E2 H2].
    destruct (IH _ H2) as [E3 H3].
    split; [|exact H3].
    rewrite E3, E2, shr_1_m by exact Hm.
    rewrite !Z.div_div by lia. f_equal.
    assert (E : 2 ^ Zpos n~1 = 2 * 2 ^ Zpos n * 2 ^ Zpos n).
    { rewrite <- Z.pow_succ_r, <- Z.pow_add_r by lia. f_equal. lia. }
    lia.
  - destruct (IH mrs Hm) as [E2 H2].
    destruct (IH _ H2) as [E3 H3].
    split; [|exact H3].
    rewrite E3, E2. rewrite !Z.div_div by lia. f_equal.
    rewrite <- Z.pow_add_r by lia. f_equal. lia.
  - split; [|apply shr_1_nonneg; exact Hm].
    rewrite shr_1_m by exact Hm. reflexivity.
Qed.

Lemma loc_exact_sticky (mrs : shr_record) :
  loc_of_shr_record mrs = loc_Exact <-> sticky mrs = false.
Proof.
  destruct mrs as [m [|] [|]]; cbn; split; congruence.
Qed.

Lemma pow2_pos (n : Z) : 0 <= n -> 0 < 2 ^ n.
Proof. intros H. apply Z.pow_pos_nonneg; lia. Qed.

Lemma shr_1_exact (mrs : shr_record) :
  0 <= shr_m mrs -> sticky mrs = false -> (2 | shr_m mrs) ->
  sticky (shr_1 mrs) = false.
Proof.
  destruct mrs as [m r s]. unfold sticky. cbn [shr_m shr_r shr_s shr_1].
  intros Hm Hs [x Hx]. destruct m as [|p|p]; [|destruct p as [p|p|]|lia];
    cbn [shr_r shr_s]; try exact Hs; lia.
Qed.

Lemma divide_pow2_split (a b m : Z) :
  0 <= a -> 0 <= b -> (2 ^ (a + b) | m) ->
  (2 ^ a | m) /\ (2 ^ b | m / 2 ^ a).
Proof.
  intros Ha Hb [x Hx]. rewrite Z.pow_add_r in Hx by lia.
  pose proof (pow2_pos a Ha) as Pa.
  split.
  - exists (x * 2 ^ b). lia.
  - exists x. subst m. rewrite Z.mul_assoc, (Z.mul_comm (x * 2 ^ a)).
    rewrite Z.mul_assoc. rewrite Z.div_mul by lia. lia.
Qed.

Lemma iter_pos_exact (n : positive) :
  forall mrs : shr_record,
    0 <= shr_m mrs -> sticky mrs = false -> (2 ^ Zpos n | shr_m mrs) ->
    sticky (iter_pos shr_1 n mrs) = false.
Proof.
  induction n as [n IH|n IH|]; intros mrs Hm Hs Hd; cbn [iter_pos].
  - replace (Zpos n~1) with (1 + (Zpos n + Zpos n)) in Hd by lia.
    assert (P1 : 0 <= 1) by lia. assert (Pn : 0 <= Zpos n) by lia.
    assert (Pnn : 0 <= Zpos n + Zpos n) by lia.
    destruct (divide_pow2_split 1 (Zpos n + Zpos n) _ P1 Pnn Hd) as [D0 D1].
    destruct (divide_pow2_split (Zpos n) (Zpos n) _ Pn Pn D1) as [D2 D3].
    change (2 ^ 1) with 2 in *.
    pose proof (shr_1_nonneg mrs Hm) as H1.
    pose proof (shr_1_exact mrs Hm Hs D0) as S1.
    rewrite <- shr_1_m in D2, D3 by exact Hm.
    pose proof (IH _ H1 S1 D2) as S2.
    destruct (iter_pos_shr_m n _ H1) as [E2 H2].
    apply IH; [exact H2|exact S2|]. rewrite E2. exact D3.
  - replace (Zpos n~0) with (Zpos n + Zpos n) in Hd by lia.
    assert (Pn : 0 <= Zpos n) by lia.
    destruct (divide_pow2_split (Zpos n) (Zpos n) _ Pn Pn Hd) as [D2 D3].
    pose proof (IH _ Hm Hs D2) as S2.
    destruct (iter_pos_shr_m n _ Hm) as [E2 H2].
    apply IH; [exact H2|exact S2|]. rewrite E2. exact D3.
  - apply shr_1_exact; assumption.
Qed.

(** The exponent function of binary64. *)
Lemma fexp64_eq (x : Z) : fexp prec emax x = fexp64 x.
Proof. reflexivity. Qed.

(** What [shr_fexp] does to a non-negative mantissa: it drops [dropped m e]
    low bits; the location is unchanged when nothing is dropped and stays
    exact when the dropped bits are zero. *)
Lemma shr_fexp_spec (m e : Z) (l : location) (mrs : shr_record) (e' : Z) :
  0 <= m ->
  shr_fexp prec emax m e l = (mrs, e') ->
  e' = e + dropped m e
  /\ shr_m mrs = m / 2 ^ dropped m e
  /\ (dropped m e = 0 -> loc_of_shr_record mrs = l)
  /\ (l = loc_Exact -> (2 ^ dropped m e | m) ->
      loc_of_shr_record mrs = loc_Exact).
Proof.
  intros Hm. unfold shr_fexp, shr, dropped. rewrite fexp64_eq.
  assert (R : forall l, shr_m (shr_record_of_loc m l) = m)
    by (intros [|[]]; reflexivity).
  assert (L : forall l, loc_of_shr_record (shr_record_of_loc m l) = l)
    by (intros [|[]]; reflexivity).
  destruct (fexp64 (Zdigits2 m + e) - e) as [|p|p] eqn:E; intros H;
    injection H as <- <-.
  - cbn [Z.max Z.compare]. rewrite Z.add_0_r, R, L, Z.div_1_r. auto.
  - replace (Z.max 0 (Zpos p)) with (Zpos p) by lia.
    destruct (iter_pos_shr_m p (shr_record_of_loc m l)) as [E2 H2];
      [rewrite R; exact Hm|].
    split; [reflexivity|]. split; [rewrite E2, R; reflexivity|].
    split; [lia|].
    intros -> Hd. apply loc_exact_sticky.
    apply iter_pos_exact; [exact Hm|reflexivity|exact Hd].
  - replace (Z.max 0 (Zneg p)) with 0 by lia.
    rewrite Z.add_0_r, R, L, Z.div_1_r. auto.
Qed.

Lemma round_nearest_even_bounds (m : Z) (l : location) :
  m <= round_nearest_even m l <= m + 1
  /\ (l = loc_Exact -> round_nearest_even m l = m).
Proof.
  destruct l as [|[]]; cbn [round_nearest_even];
    try destruct (Z.even m); split; try lia; try reflexivity; discriminate.
Qed.

Lemma Zdigits2_bounds (m : Z) :
  0 < m -> 2 ^ (Zdigits2 m - 1) <= m < 2 ^ Zdigits2 m.
Proof.
  intros Hm. destruct m as [|p|p]; try lia. apply digits2_pos_bounds.
Qed.

(** A mantissa that [shr_fexp] shortens keeps 53 bits, unless the result is
    subnormal. *)
Lemma shr_fexp_normal (m e : Z) :
  0 < m -> 0 < dropped m e -> -1074 < e + dropped m e ->
  2 ^ 52 <= m / 2 ^ dropped m e.
Proof.
  unfold dropped, fexp64. intros Hm Hk He.
  pose proof (Zdigits2_bounds m Hm) as [Hlo _].
  replace (Z.max 0 (Z.max (Zdigits2 m + e - 53) (-1074) - e))
    with (Zdigits2 m - 53) by lia.
  apply Z.div_le_lower_bound; [apply pow2_pos; lia|].
  rewrite <- Z.pow_add_r by lia.
  replace (Zdigits2 m - 53 + 52) with (Zdigits2 m - 1) by lia. exact Hlo.
Qed.

(** ** Comparing [m * 2 ^ e] with an integer

    Values are compared at a common scale: [val N m e] is [m * 2 ^ e]
    multiplied by [2 ^ N], an integer as long as [0 <= e + N]. *)

Lemma val_shift (N m e k : Z) :
  0 <= m -> 0 <= k -> 0 <= e + N ->
  val N (m / 2 ^ k) (e + k) <= val N m e
  /\ (val N (m / 2 ^ k) (e + k) = val N m e -> (2 ^ k | m)).
Proof.
  intros Hm Hk He. unfold val.
  pose proof (pow2_pos k Hk) as Pk. pose proof (pow2_pos (e + N) He) as Pe.
  replace (e + k + N) with (k + (e + N)) by lia.
  rewrite Z.pow_add_r by lia.
  pose proof (Z.mul_div_le m (2 ^ k) Pk) as Hle.
  split; [nia|].
  intros E. exists (m / 2 ^ k).
  assert (E' : m / 2 ^ k * 2 ^ k = m) by nia.
  lia.
Qed.

(** Rounding a value that is at most the integer [B] (strictly below it
    when inexact) gives a number that is at most [B]. *)
Lemma round_le (N : Z) (s : bool) (m e : Z) (l : location) (B : Z) :
  0 <= m -> 0 <= e + N -> 0 <= N -> 1 <= B < 2 ^ 53 ->
  val N m e <= B * 2 ^ N ->
  (l <> loc_Exact -> val N m e < B * 2 ^ N /\ e <= 0) ->
  match binary_round_aux prec emax s m e l with
  | S754_finite s' m' e' =>
      s' = s /\ val N (Zpos m') e' <= B * 2 ^ N /\ e <= e'
  | S754_zero s' => s' = s
  | _ => False
  end.
Proof.
  intros Hm He HN HB Hle Hl. unfold binary_round_aux.
  destruct (shr_fexp prec emax m e l) as [mrs1 e1] eqn:E1.
  destruct (shr_fexp_spec m e l mrs1 e1 Hm E1) as [Ee1 [M1 [K1 X1]]].
  set (k1 := dropped m e) in *.
  assert (Hk1 : 0 <= k1) by (unfold k1, dropped; lia).
  pose proof (pow2_pos k1 Hk1) as Pk1.
  assert (Hm1 : 0 <= shr_m mrs1) by (rewrite M1; apply Z.div_pos; lia).
  destruct (val_shift N m e k1 Hm Hk1 He) as [V1 V1eq].
  rewrite <- M1, <- Ee1 in V1, V1eq.
  set (m1 := shr_m mrs1) in *.
  set (l1 := loc_of_shr_record mrs1) in *.
  destruct (round_nearest_even_bounds m1 l1) as [R2 R2x].
  set (m2 := round_nearest_even m1 l1) in *.
  assert (He1 : 0 <= e1 + N) by lia.
  pose proof (pow2_pos (e1 + N) He1) as Pe1.
  pose proof (pow2_pos N HN) as PN.
  assert (V2 : val N m2 e1 <= B * 2 ^ N).
  { destruct (Z.eq_dec m2 m1) as [->|Hne]; [lia|].
    assert (Hl1 : l1 <> loc_Exact) by (intros X; apply Hne, R2x, X).
    assert (Hstrict : val N m1 e1 < B * 2 ^ N).
    { destruct (Z.eq_dec (val N m1 e1) (val N m e)) as [Eq|Neq]; [|lia].
      destruct l as [|c].
      - exfalso. apply Hl1. apply X1; [reflexivity|]. apply V1eq, Eq.
      - destruct (Hl ltac:(discriminate)) as [Hlt _]. lia. }
    assert (He1' : e1 <= 0).
    { destruct (Z.eq_dec k1 0) as [K0|K0].
      - assert (Hll : l <> loc_Exact) by (rewrite <- (K1 K0); exact Hl1).
        destruct (Hl Hll) as [_ H0]. lia.
      - destruct (Z.le_gt_cases e1 0) as [|Hpos]; [assumption|exfalso].
        destruct (Z.eq_dec m 0) as [M0|M0].
        + subst m. unfold k1, dropped, fexp64 in *. cbn [Zdigits2] in *.
          assert (Hll : l <> loc_Exact).
          { intros X. apply Hl1. apply X1; [exact X|]. exists 0. lia. }
          destruct (Hl Hll) as [_ H0]. lia.
        + pose proof (shr_fexp_normal m e ltac:(lia) ltac:(fold k1; lia)
                                   ltac:(fold k1; lia)) as Hbig.
          fold k1 in Hbig. rewrite <- M1 in Hbig. fold m1 in Hbig.
          unfold val in Hstrict.
          assert (2 ^ (1 + N) <= 2 ^ (e1 + N))
            by (apply Z.pow_le_mono_r; lia).
          rewrite Z.pow_add_r in H by lia. change (2 ^ 1) with 2 in H.
          change (2 ^ 52) with 4503599627370496 in Hbig.
          change (2 ^ 53) with 9007199254740992 in HB.
          nia. }
    (* both sides are multiples of 2 ^ (e1 + N) *)
    assert (EB : B * 2 ^ N = B * 2 ^ (- e1) * 2 ^ (e1 + N)).
    { rewrite <- Z.mul_assoc, <- Z.pow_add_r by lia. do 2 f_equal. lia. }
    unfold val in *. rewrite EB in *.
    assert (m1 < B * 2 ^ (- e1)) by nia.
    assert (m2 <= B * 2 ^ (- e1)) by lia.
    nia. }
  assert (Hm2 : 0 <= m2) by lia.
  destruct (shr_fexp prec emax m2 e1 loc_Exact) as [mrs2 e2] eqn:E2.
  destruct (shr_fexp_spec m2 e1 loc_Exact mrs2 e2 Hm2 E2) as [Ee2 [M2 _]].
  set (k2 := dropped m2 e1) in *.
  assert (Hk2 : 0 <= k2) by (unfold k2, dropped; lia).
  destruct (val_shift N m2 e1 k2 Hm2 Hk2 He1) as [V3 _].
  rewrite <- M2, <- Ee2 in V3.
  assert (Hm3 : 0 <= shr_m mrs2)
    by (rewrite M2; apply Z.div_pos; [lia|apply pow2_pos; lia]).
  destruct (shr_m mrs2) as [|p|p] eqn:E3; [reflexivity| |lia].
  destruct (e2 <=? emax - prec) eqn:Eo.
  - split; [reflexivity|]. split; lia.
  - exfalso. apply Z.leb_gt in Eo. change (emax - prec) with 971 in Eo.
    unfold val in V2, V3.
    assert (H : 2 ^ (53 + N) <= 2 ^ (e2 + N)) by (apply Z.pow_le_mono_r; lia).
    rewrite Z.pow_add_r in H by lia.
    assert (P2 : 0 < 2 ^ (e2 + N)) by (apply pow2_pos; lia).
    assert (H1 : 2 ^ (e2 + N) <= Z.pos p * 2 ^ (e2 + N)) by nia.
    assert (H2 : B * 2 ^ N < 2 ^ 53 * 2 ^ N) by (apply Z.mul_lt_mono_pos_r; lia).
    lia.
Qed.

(** Dropping low bits keeps a value above a bound [Bm * 2 ^ Be] that lies
    on the coarser grid, or that 53 remaining bits exceed. *)
Lemma shift_ge (N m e k Bm Be : Z) :
  0 <= m -> 0 <= k -> 0 <= e + N -> 0 <= Be + N -> 0 < Bm < 2 ^ 53 ->
  Bm * 2 ^ (Be + N) <= val N m e ->
  (Be < e + k -> 2 ^ 52 <= m / 2 ^ k) ->
  Bm * 2 ^ (Be + N) <= val N (m / 2 ^ k) (e + k).
Proof.
  intros Hm Hk He HBe HB Hv Hbig. unfold val in *.
  pose proof (pow2_pos k Hk) as Pk.
  pose proof (pow2_pos (e + N) He) as Pe.
  pose proof (pow2_pos (Be + N) HBe) as PB.
  destruct (Z.le_gt_cases (e + k) Be) as [Hgrid|Hcoarse].
  - set (d := Be - (e + k)).
    assert (Hd : 0 <= d) by (unfold d; lia).
    pose proof (pow2_pos d Hd) as Pd.
    assert (E1 : 2 ^ (Be + N) = 2 ^ d * 2 ^ (e + k + N))
      by (rewrite <- Z.pow_add_r by lia; f_equal; unfold d; lia).
    assert (E2 : 2 ^ (Be + N) = 2 ^ d * 2 ^ k * 2 ^ (e + N))
      by (rewrite <- !Z.pow_add_r by lia; f_equal; unfold d; lia).
    assert (Hq : Bm * 2 ^ d <= m / 2 ^ k).
    { apply Z.div_le_lower_bound; [exact Pk|].
      rewrite E2, !Z.mul_assoc in Hv.
      apply Z.mul_le_mono_pos_r in Hv; [lia|exact Pe]. }
    rewrite E1, Z.mul_assoc.
    apply Z.mul_le_mono_nonneg_r; [apply Z.pow_nonneg; lia|exact Hq].
  - specialize (Hbig Hcoarse).
    assert (P : 2 ^ 53 * 2 ^ (Be + N) <= 2 ^ 52 * 2 ^ (e + k + N)).
    { rewrite <- !Z.pow_add_r by lia. apply Z.pow_le_mono_r; lia. }
    pose proof (pow2_pos (e + k + N) ltac:(lia)) as Pc.
    change (2 ^ 53) with 9007199254740992 in *.
    change (2 ^ 52) with 4503599627370496 in *.
    nia.
Qed.

(** Rounding is monotone: a value at least [Bm * 2 ^ Be], a number binary64
    represents, is rounded to a number at least that, or overflows. *)
Lemma round_ge (N : Z) (s : bool) (m e : Z) (l : location) (Bm Be : Z) :
  0 <= m -> 0 <= e + N -> 0 <= Be + N -> -1074 <= Be -> 0 < Bm < 2 ^ 53 ->
  Bm * 2 ^ (Be + N) <= val N m e ->
  match binary_round_aux prec emax s m e l with
  | S754_finite s' m' e' => s' = s /\ Bm * 2 ^ (Be + N) <= val N (Zpos m') e'
  | S754_infinity s' => s' = s
  | _ => False
  end.
Proof.
  intros Hm He HBe HBe' HB Hv. unfold binary_round_aux.
  pose proof (pow2_pos (Be + N) HBe) as PB.
  assert (forall m e, 0 <= m -> 0 <= e + N ->
            Bm * 2 ^ (Be + N) <= val N m e ->
            0 <= dropped m e /\
            Bm * 2 ^ (Be + N)
            <= val N (m / 2 ^ dropped m e) (e + dropped m e)) as Drop.
  { intros m0 e0 Hm0 He0 Hv0.
    assert (Hk : 0 <= dropped m0 e0) by (unfold dropped; lia).
    split; [exact Hk|].
    assert (Hpos : 0 < m0).
    { unfold val in Hv0. pose proof (pow2_pos (e0 + N) He0). nia. }
    destruct (Z.eq_dec (dropped m0 e0) 0) as [K0|K0].
    - rewrite K0. change (2 ^ 0) with 1. rewrite Z.div_1_r, Z.add_0_r.
      exact Hv0.
    - apply shift_ge; try assumption.
      intros Hgt. apply shr_fexp_normal; lia. }
  destruct (shr_fexp prec emax m e l) as [mrs1 e1] eqn:E1.
  destruct (shr_fexp_spec m e l mrs1 e1 Hm E1) as [Ee1 [M1 _]].
  destruct (Drop m e Hm He Hv) as [Hk1 V1]. rewrite <- M1, <- Ee1 in V1.
  set (m1 := shr_m mrs1) in *.
  destruct (round_nearest_even_bounds m1 (loc_of_shr_record mrs1)) as [R2 _].
  set (m2 := round_nearest_even m1 (loc_of_shr_record mrs1)) in *.
  assert (He1 : 0 <= e1 + N) by lia.
  pose proof (pow2_pos (e1 + N) He1) as Pe1.
  assert (Hm1 : 0 <= m1).
  { rewrite M1. apply Z.div_pos; [lia|apply pow2_pos; lia]. }
  assert (V2 : Bm * 2 ^ (Be + N) <= val N m2 e1) by (unfold val in *; nia).
  assert (Hm2 : 0 <= m2) by lia.
  destruct (shr_fexp prec emax m2 e1 loc_Exact) as [mrs2 e2] eqn:E2.
  destruct (shr_fexp_spec m2 e1 loc_Exact mrs2 e2 Hm2 E2) as [Ee2 [M2 _]].
  destruct (Drop m2 e1 Hm2 He1 V2) as [Hk2 V3]. rewrite <- M2, <- Ee2 in V3.
  destruct (shr_m mrs2) as [|p|p] eqn:E3.
  - unfold val in V3. nia.
  - destruct (e2 <=? emax - prec); [split; [reflexivity|exact V3]|reflexivity].
  - unfold val in V3. assert (0 <= 2 ^ (e2 + N)) by (apply Z.pow_nonneg; lia).
    nia.
Qed.

(** Rounding moves a value by less than two units of the last place. *)
Lemma round_rel (N : Z) (s : bool) (m e : Z) (l : location) :
  0 <= m -> 0 <= e + N ->
  match binary_round_aux prec emax s m e l with
  | S754_finite s' m' e' =>
      s' = s /\ e <= e'
      /\ val N (Zpos m') e' <= val N m e + 2 ^ (e' + N)
      /\ val N m e < val N (Zpos m') e' + 2 * 2 ^ (e' + N)
  | _ => True
  end.
Proof.
  intros Hm He. unfold binary_round_aux.
  destruct (shr_fexp prec emax m e l) as [mrs1 e1] eqn:E1.
  destruct (shr_fexp_spec m e l mrs1 e1 Hm E1) as [Ee1 [M1 _]].
  set (k1 := dropped m e) in *.
  assert (Hk1 : 0 <= k1) by (unfold k1, dropped; lia).
  pose proof (pow2_pos k1 Hk1) as Pk1.
  set (m1 := shr_m mrs1) in *.
  destruct (round_nearest_even_bounds m1 (loc_of_shr_record mrs1)) as [R2 _].
  set (m2 := round_nearest_even m1 (loc_of_shr_record mrs1)) in *.
  assert (Hm1 : 0 <= m1) by (rewrite M1; apply Z.div_pos; lia).
  assert (Hm2 : 0 <= m2) by lia.
  destruct (shr_fexp prec emax m2 e1 loc_Exact) as [mrs2 e2] eqn:E2.
  destruct (shr_fexp_spec m2 e1 loc_Exact mrs2 e2 Hm2 E2) as [Ee2 [M2 _]].
  set (k2 := dropped m2 e1) in *.
  assert (Hk2 : 0 <= k2) by (unfold k2, dropped; lia).
  pose proof (pow2_pos k2 Hk2) as Pk2.
  destruct (shr_m mrs2) as [|p|p] eqn:E3; try exact I.
  destruct (e2 <=? emax - prec); [|exact I].
  split; [reflexivity|]. split; [lia|]. unfold val.
  pose proof (pow2_pos (e + N) He) as Pe.
  assert (X1 : 2 ^ (e1 + N) = 2 ^ k1 * 2 ^ (e + N))
    by (rewrite <- Z.pow_add_r by lia; f_equal; lia).
  assert (X2 : 2 ^ (e2 + N) = 2 ^ k2 * 2 ^ (e1 + N))
    by (rewrite <- Z.pow_add_r by lia; f_equal; lia).
  pose proof (Z.mul_div_le m (2 ^ k1) Pk1) as D1.
  pose proof (Z.mul_succ_div_gt m (2 ^ k1) Pk1) as D1'.
  pose proof (Z.mul_div_le m2 (2 ^ k2) Pk2) as D2.
  pose proof (Z.mul_succ_div_gt m2 (2 ^ k2) Pk2) as D2'.
  rewrite <- M1 in D1, D1'. rewrite <- M2 in D2, D2'.
  set (u := 2 ^ (e + N)) in *. set (a := 2 ^ k1) in *. set (b := 2 ^ k2) in *.
  rewrite X2, X1.
  assert (A1 : 1 <= a) by lia. assert (B1 : 1 <= b) by lia.
  split.
  - (* p b a u <= m u + b a u *)
    assert (Zpos p * b <= m2) by lia.
    assert (m1 * a <= m) by lia.
    assert (Zpos p * b * a <= m + a) by nia.
    assert (Zpos p * (b * (a * u)) = Zpos p * b * a * u) by ring.
    assert (m * u + b * (a * u) >= (m + a) * u) by nia.
    nia.
  - assert (m < (m1 + 1) * a) by lia.
    assert (m2 < (Zpos p + 1) * b) by lia.
    assert (m < (Zpos p * b + b + 1) * a) by nia.
    assert (m * u < (Zpos p * b + b + 1) * a * u) by nia.
    assert ((Zpos p * b + b + 1) * a * u
            <= Zpos p * (b * (a * u)) + 2 * (b * (a * u))) by nia.
    lia.
Qed.

(** ** Division *)

Lemma new_location_exact (n r : Z) :
  new_location n r = loc_Exact <-> r = 0.
Proof.
  unfold new_location, new_location_even, new_location_odd.
  destruct (Z.even n); destruct (Z.eqb_spec r 0) as [E|E];
    split; intros H; try reflexivity; try assumption; try discriminate H;
    contradiction.
Qed.

(** The integer quotient [SFdiv_core_binary] hands to the rounding step,
    with [s] the number of bits the dividend was shifted by. *)
Lemma div_core_spec (m1 e1 m2 e2 q e' : Z) (l : location) :
  0 < m1 -> 0 < m2 ->
  SFdiv_core_binary prec emax m1 e1 m2 e2 = (q, e', l) ->
  e' = Z.min (fexp64 (Zdigits2 m1 + e1 - (Zdigits2 m2 + e2))) (e1 - e2)
  /\ 0 <= q
  /\ q * m2 <= m1 * 2 ^ (e1 - e2 - e') < (q + 1) * m2
  /\ (l <> loc_Exact -> q * m2 < m1 * 2 ^ (e1 - e2 - e')).
Proof.
  intros H1 H2. unfold SFdiv_core_binary. rewrite fexp64_eq.
  set (f := fexp64 (Zdigits2 m1 + e1 - (Zdigits2 m2 + e2))).
  set (e0 := Z.min f (e1 - e2)).
  set (s := e1 - e2 - e0).
  assert (Hs : 0 <= s) by (unfold s, e0; lia).
  set (m' := match s with Z0 => m1 | Zpos _ => Z.shiftl m1 s | Zneg _ => 0 end).
  assert (Em : m' = m1 * 2 ^ s).
  { unfold m'. destruct s as [|p|p] eqn:Es.
    - change (2 ^ 0) with 1. lia.
    - apply Z.shiftl_mul_pow2. lia.
    - lia. }
  pose proof (Z_div_mod m' m2 ltac:(lia)) as D.
  destruct (Z.div_eucl m' m2) as [q0 r0]. destruct D as [D R].
  intros H. injection H as <- <- <-. fold s.
  assert (0 <= m') by (rewrite Em; apply Z.mul_nonneg_nonneg;
                       [lia|apply Z.pow_nonneg; lia]).
  split; [reflexivity|]. split; [nia|]. split; [nia|].
  intros Hl. assert (r0 <> 0) by (intros X; apply Hl, new_location_exact, X).
  nia.
Qed.

Lemma val_le_rescale (N N' m e B : Z) :
  0 <= e + N -> 0 <= N -> 0 <= e + N' -> 0 <= N' ->
  val N m e <= B * 2 ^ N -> val N' m e <= B * 2 ^ N'.
Proof.
  intros He HN He' HN' H. unfold val in *.
  destruct (Z.le_gt_cases N N') as [L|L].
  - assert (E1 : 2 ^ (e + N') = 2 ^ (e + N) * 2 ^ (N' - N))
      by (rewrite <- Z.pow_add_r by lia; f_equal; lia).
    assert (E2 : 2 ^ N' = 2 ^ N * 2 ^ (N' - N))
      by (rewrite <- Z.pow_add_r by lia; f_equal; lia).
    rewrite E1, E2, !Z.mul_assoc.
    apply Z.mul_le_mono_nonneg_r; [apply Z.pow_nonneg; lia|exact H].
  - assert (E1 : 2 ^ (e + N) = 2 ^ (e + N') * 2 ^ (N - N'))
      by (rewrite <- Z.pow_add_r by lia; f_equal; lia).
    assert (E2 : 2 ^ N = 2 ^ N' * 2 ^ (N - N'))
      by (rewrite <- Z.pow_add_r by lia; f_equal; lia).
    rewrite E1, E2, !Z.mul_assoc in H.
    apply Z.mul_le_mono_pos_r in H; [exact H|apply pow2_pos; lia].
Qed.

Lemma SFdiv_ge (N Bm Be : Z) (mx : positive) (ex : Z) (my : positive) (ey : Z) :
  -1074 <= ex <= 971 -> -1074 <= ey <= 971 -> 3200 <= N ->
  Zpos (digits2_pos mx) <= 53 ->
  0 < Bm < 2 ^ 53 -> -1074 <= Be <= 971 ->
  Bm * 2 ^ (Be + N) * val N (Zpos my) ey <= val N (Zpos mx) ex * 2 ^ N ->
  match SFdiv prec emax (S754_finite false mx ex) (S754_finite false my ey) with
  | S754_finite s m e => s = false /\ Bm * 2 ^ (Be + N) <= val N (Zpos m) e
  | S754_infinity s => s = false
  | _ => False
  end.
Proof.
  intros Hex Hey HN Hdx HB HBe Hv. unfold SFdiv.
  destruct (SFdiv_core_binary prec emax (Zpos mx) ex (Zpos my) ey)
    as [[q e0] l] eqn:E.
  destruct (div_core_spec _ _ _ _ _ _ _ (Pos2Z.is_pos mx) (Pos2Z.is_pos my) E)
    as [Ee [Hq [[Hlo Hhi] _]]].
  set (sh := ex - ey - e0) in *.
  cbn [Zdigits2] in Ee.
  set (t := Zpos (digits2_pos mx) + ex - (Zpos (digits2_pos my) + ey)) in *.
  assert (Hf : -1074 <= fexp64 t) by (unfold fexp64; lia).
  assert (Hs : 0 <= sh) by (unfold sh; lia).
  pose proof (pow2_pos sh Hs) as Ps.
  set (c := e0 + ey + N).
  assert (Hc : 0 <= c) by (unfold c; lia).
  pose proof (pow2_pos c Hc) as Pc.
  pose proof (pow2_pos N ltac:(lia)) as PN.
  apply (round_ge N (xorb false false) q e0 l Bm Be); try lia.
  unfold val in *.
  assert (Ex : 2 ^ (ex + N) = 2 ^ sh * 2 ^ c)
    by (rewrite <- Z.pow_add_r by lia; f_equal; unfold sh, c; lia).
  destruct (Z.le_gt_cases e0 Be) as [Hgrid|Hcoarse].
  - set (d := Be - e0).
    assert (Hd : 0 <= d) by (unfold d; lia).
    pose proof (pow2_pos d Hd) as Pd.
    assert (E1 : 2 ^ (Be + N) * 2 ^ (ey + N) = 2 ^ d * (2 ^ c * 2 ^ N))
      by (rewrite <- !Z.pow_add_r by lia; f_equal; unfold d, c; lia).
    assert (E2 : 2 ^ (Be + N) = 2 ^ d * 2 ^ (e0 + N))
      by (rewrite <- Z.pow_add_r by lia; f_equal; unfold d; lia).
    assert (H1 : Bm * 2 ^ d * Zpos my * (2 ^ c * 2 ^ N)
                 <= Zpos mx * 2 ^ sh * (2 ^ c * 2 ^ N)).
    { rewrite Ex in Hv.
      replace (Bm * 2 ^ d * Zpos my * (2 ^ c * 2 ^ N))
        with (Bm * (2 ^ d * (2 ^ c * 2 ^ N)) * Zpos my) by ring.
      rewrite <- E1. lia. }
    apply Z.mul_le_mono_pos_r in H1; [|lia].
    assert (H2 : Bm * 2 ^ d <= q) by nia.
    rewrite E2, Z.mul_assoc.
    apply Z.mul_le_mono_nonneg_r; [apply Z.pow_nonneg; lia|exact H2].
  - destruct (digits2_pos_bounds mx) as [Lx _].
    destruct (digits2_pos_bounds my) as [_ Uy].
    assert (Hsh : sh = 53 + Zpos (digits2_pos my) - Zpos (digits2_pos mx))
      by (unfold sh, t, fexp64 in *; lia).
    assert (P1 : 2 ^ 52 * 2 ^ Zpos (digits2_pos my)
                 = 2 ^ (Zpos (digits2_pos mx) - 1) * 2 ^ sh)
      by (rewrite <- !Z.pow_add_r by lia; f_equal; lia).
    assert (H2 : 2 ^ 52 <= q) by nia.
    assert (P : 2 ^ 53 * 2 ^ (Be + N) <= 2 ^ 52 * 2 ^ (e0 + N)).
    { rewrite <- !Z.pow_add_r by lia. apply Z.pow_le_mono_r; lia. }
    pose proof (pow2_pos (Be + N) ltac:(lia)).
    pose proof (pow2_pos (e0 + N) ltac:(lia)).
    change (2 ^ 53) with 9007199254740992 in *.
    change (2 ^ 52) with 4503599627370496 in *.
    nia.
Qed.

(** The quotient is within three units of its last place of the exact
    quotient. *)
Lemma SFdiv_rel (N : Z) (mx : positive) (ex : Z) (my : positive) (ey : Z) :
  -1074 <= ex <= 971 -> -1074 <= ey <= 971 -> 3200 <= N ->
  match SFdiv prec emax (S754_finite false mx ex) (S754_finite false my ey) with
  | S754_finite s m e =>
      s = false /\ 0 <= e + N
      /\ (val N (Zpos m) e - 2 ^ (e + N)) * val N (Zpos my) ey
         <= val N (Zpos mx) ex * 2 ^ N
      /\ val N (Zpos mx) ex * 2 ^ N
         < (val N (Zpos m) e + 3 * 2 ^ (e + N)) * val N (Zpos my) ey
  | _ => True
  end.
Proof.
  intros Hex Hey HN. unfold SFdiv.
  destruct (SFdiv_core_binary prec emax (Zpos mx) ex (Zpos my) ey)
    as [[q e0] l] eqn:E.
  destruct (div_core_spec _ _ _ _ _ _ _ (Pos2Z.is_pos mx) (Pos2Z.is_pos my) E)
    as [Ee [Hq [[Hlo Hhi] _]]].
  set (sh := ex - ey - e0) in *.
  cbn [Zdigits2] in Ee.
  set (t := Zpos (digits2_pos mx) + ex - (Zpos (digits2_pos my) + ey)) in *.
  assert (Hf : -1074 <= fexp64 t) by (unfold fexp64; lia).
  assert (Hs : 0 <= sh) by (unfold sh; lia).
  pose proof (pow2_pos sh Hs) as Ps.
  set (c := e0 + ey + N).
  assert (Hc : 0 <= c) by (unfold c; lia).
  pose proof (pow2_pos c Hc) as Pc.
  pose proof (pow2_pos N ltac:(lia)) as PN.
  pose proof (round_rel N (xorb false false) q e0 l Hq ltac:(lia)) as R.
  destruct (binary_round_aux prec emax (xorb false false) q e0 l)
    as [sz|sz| |sz mz ez]; try exact I.
  destruct R as [Rs [Re [Rhi Rlo]]].
  split; [exact Rs|]. split; [lia|].
  unfold val in *.
  assert (Ex : 2 ^ (ex + N) = 2 ^ sh * 2 ^ c)
    by (rewrite <- Z.pow_add_r by lia; f_equal; unfold sh, c; lia).
  assert (Ey : 2 ^ (e0 + N) * 2 ^ (ey + N) = 2 ^ c * 2 ^ N)
    by (rewrite <- !Z.pow_add_r by lia; f_equal; unfold c; lia).
  pose proof (pow2_pos (ey + N) ltac:(lia)) as Py.
  pose proof (pow2_pos (ez + N) ltac:(lia)) as Pz.
  pose proof (pow2_pos (e0 + N) ltac:(lia)) as P0.
  assert (P0z : 2 ^ (e0 + N) <= 2 ^ (ez + N)) by (apply Z.pow_le_mono_r; lia).
  set (R := Zpos mz * 2 ^ (ez + N)) in *.
  set (u := 2 ^ (ez + N)) in *. set (u0 := 2 ^ (e0 + N)) in *.
  set (vy := Zpos my * 2 ^ (ey + N)).
  assert (Hvy : 0 < vy) by (unfold vy; nia).
  assert (Q1 : q * u0 * vy <= Zpos mx * 2 ^ (ex + N) * 2 ^ N).
  { unfold vy. rewrite Ex.
    replace (q * u0 * (Zpos my * 2 ^ (ey + N)))
      with (q * Zpos my * (u0 * 2 ^ (ey + N))) by ring.
    rewrite Ey.
    replace (Zpos mx * (2 ^ sh * 2 ^ c) * 2 ^ N)
      with (Zpos mx * 2 ^ sh * (2 ^ c * 2 ^ N)) by ring.
    apply Z.mul_le_mono_nonneg_r; [nia|exact Hlo]. }
  assert (Q2 : Zpos mx * 2 ^ (ex + N) * 2 ^ N < (q + 1) * u0 * vy).
  { unfold vy. rewrite Ex.
    replace ((q + 1) * u0 * (Zpos my * 2 ^ (ey + N)))
      with ((q + 1) * Zpos my * (u0 * 2 ^ (ey + N))) by ring.
    rewrite Ey.
    replace (Zpos mx * (2 ^ sh * 2 ^ c) * 2 ^ N)
      with (Zpos mx * 2 ^ sh * (2 ^ c * 2 ^ N)) by ring.
    apply Z.mul_lt_mono_pos_r; [nia|exact Hhi]. }
  split.
  - assert ((R - u) * vy <= q * u0 * vy)
      by (apply Z.mul_le_mono_nonneg_r; lia).
    lia.
  - assert ((q + 1) * u0 * vy <= (R + 3 * u) * vy)
      by (apply Z.mul_le_mono_nonneg_r; lia).
    lia.
Qed.

(** The quotient of a dividend that is at most [B] times the divisor is at
    most [B]. *)
Lemma SFdiv_le (N B : Z) (mx : positive) (ex : Z) (my : positive) (ey : Z) :
  -1074 <= ex <= 971 -> -1074 <= ey <= 971 -> 3200 <= N ->
  1 <= B < 2 ^ 53 ->
  val N (Zpos mx) ex <= B * val N (Zpos my) ey ->
  match SFdiv prec emax (S754_finite false mx ex) (S754_finite false my ey) with
  | S754_finite s m e =>
      s = false /\ 0 <= e + N /\ val N (Zpos m) e <= B * 2 ^ N
  | S754_zero s => s = false
  | _ => False
  end.
Proof.
  intros Hex Hey HN HB Hv. unfold SFdiv.
  destruct (SFdiv_core_binary prec emax (Zpos mx) ex (Zpos my) ey)
    as [[q e0] l] eqn:E.
  destruct (div_core_spec _ _ _ _ _ _ _ (Pos2Z.is_pos mx) (Pos2Z.is_pos my) E)
    as [Ee [Hq [[Hlo Hhi] Hstrict]]].
  set (sh := ex - ey - e0) in *.
  cbn [Zdigits2] in Ee.
  set (t := Zpos (digits2_pos mx) + ex - (Zpos (digits2_pos my) + ey)) in *.
  assert (Hf : -1074 <= fexp64 t) by (unfold fexp64; lia).
  assert (Hs : 0 <= sh) by (unfold sh; lia).
  pose proof (pow2_pos sh Hs) as Ps.
  set (c := e0 + ey + N).
  assert (Hc : 0 <= c) by (unfold c; lia).
  pose proof (pow2_pos c Hc) as Pc.
  pose proof (pow2_pos (ey + N) ltac:(lia)) as Py.
  unfold val in Hv.
  assert (Ex : 2 ^ (ex + N) = 2 ^ sh * 2 ^ c)
    by (rewrite <- Z.pow_add_r by lia; f_equal; unfold sh, c; lia).
  assert (Hf0 : fexp64 t <= 0).
  { destruct (digits2_pos_bounds mx) as [Lx _].
    destruct (digits2_pos_bounds my) as [_ Uy].
    pose proof (pow2_pos (ex + N) ltac:(lia)) as Px.
    assert (H1 : 2 ^ (Zpos (digits2_pos mx) - 1) * 2 ^ (ex + N)
                 < 2 ^ 53 * (2 ^ Zpos (digits2_pos my) * 2 ^ (ey + N))).
    { eapply Z.le_lt_trans;
        [apply Z.mul_le_mono_nonneg_r; [lia|exact Lx]|].
      eapply Z.le_lt_trans; [exact Hv|].
      assert (S1 : B * (Zpos my * 2 ^ (ey + N))
                   <= B * (2 ^ Zpos (digits2_pos my) * 2 ^ (ey + N))).
      { apply Z.mul_le_mono_nonneg_l; [lia|].
        apply Z.mul_le_mono_nonneg_r; lia. }
      eapply Z.le_lt_trans; [exact S1|].
      apply Z.mul_lt_mono_pos_r; [|lia].
      apply Z.mul_pos_pos; [apply pow2_pos; lia|exact Py]. }
    rewrite <- !Z.pow_add_r in H1 by lia.
    apply Z.pow_lt_mono_r_iff in H1; [|lia|lia].
    unfold t, fexp64. lia. }
  pose proof (round_le (N + ey) (xorb false false) q e0 l B
                Hq ltac:(lia) ltac:(lia) HB) as R.
  unfold val in R. replace (e0 + (N + ey)) with c in R by (unfold c; lia).
  replace (N + ey) with (ey + N) in R by lia.
  rewrite Ex in Hv.
  assert (A1 : q * 2 ^ c <= B * 2 ^ (ey + N)) by nia.
  assert (A2 : l <> loc_Exact ->
               q * 2 ^ c < B * 2 ^ (ey + N) /\ e0 <= 0).
  { intros Hl. specialize (Hstrict Hl). split; [nia|lia]. }
  specialize (R A1 A2).
  destruct (binary_round_aux prec emax (xorb false false) q e0 l)
    as [sz| | |sz mz ez]; try exact R.
  destruct R as [Rs [Rv Re]]. split; [exact Rs|]. split; [lia|].
  apply (val_le_rescale (ey + N) N); try lia. exact Rv.
Qed.

(** ** Ordering of valid numbers *)

Lemma bounded_facts (m : positive) (e : Z) :
  bounded prec emax m e = true ->
  -1074 <= e <= 971
  /\ Zpos (digits2_pos m) <= 53
  /\ (-1074 < e -> Zpos (digits2_pos m) = 53).
Proof.
  unfold bounded, canonical_mantissa. rewrite fexp64_eq. intros H.
  apply andb_prop in H as [C B]. apply Z.eqb_eq in C. apply Z.leb_le in B.
  change (emax - prec) with 971 in B. unfold fexp64 in C. lia.
Qed.

Lemma SFleb_val (N : Z) (m1 : positive) (e1 : Z) (m2 : positive) (e2 : Z) :
  bounded prec emax m1 e1 = true -> bounded prec emax m2 e2 = true ->
  1074 <= N ->
  SFleb (S754_finite false m1 e1) (S754_finite false m2 e2) = true ->
  val N (Zpos m1) e1 <= val N (Zpos m2) e2.
Proof.
  intros B1 B2 HN. apply bounded_facts in B1 as [R1 [D1 _]].
  apply bounded_facts in B2 as [R2 [_ D2]].
  unfold SFleb, SFcompare, val.
  destruct (Z.compare_spec e1 e2) as [->|Hlt|Hgt].
  - fold (Pos.compare m1 m2).
    destruct (Pos.compare_spec m1 m2) as [->|L|L]; intros H;
      try discriminate H; [lia|].
    apply Z.mul_le_mono_nonneg_r; [apply Z.pow_nonneg; lia|lia].
  - intros _.
    destruct (digits2_pos_bounds m1) as [_ U1].
    destruct (digits2_pos_bounds m2) as [L2 _].
    rewrite (D2 ltac:(lia)) in L2. change (53 - 1) with 52 in L2.
    assert (U1' : Zpos m1 < 2 ^ 53).
    { eapply Z.lt_le_trans; [exact U1|]. apply Z.pow_le_mono_r; lia. }
    assert (P : 2 ^ 53 * 2 ^ (e1 + N) <= 2 ^ 52 * 2 ^ (e2 + N)).
    { rewrite <- !Z.pow_add_r by lia. apply Z.pow_le_mono_r; lia. }
    pose proof (pow2_pos (e1 + N) ltac:(lia)).
    pose proof (pow2_pos (e2 + N) ltac:(lia)).
    change (2 ^ 53) with 9007199254740992 in *.
    change (2 ^ 52) with 4503599627370496 in *.
    nia.
  - intros H. discriminate H.
Qed.

Lemma canonical_lt (N : Z) (m1 : positive) (e1 : Z) (m2 : positive) (e2 : Z) :
  bounded prec emax m1 e1 = true -> bounded prec emax m2 e2 = true ->
  1074 <= N -> e1 < e2 ->
  val N (Zpos m1) e1 <= val N (Zpos m2) e2.
Proof.
  intros B1 B2 HN Hlt. apply bounded_facts in B1 as [R1 [D1 _]].
  apply bounded_facts in B2 as [R2 [_ D2]]. unfold val.
  destruct (digits2_pos_bounds m1) as [_ U1].
  destruct (digits2_pos_bounds m2) as [L2 _].
  rewrite (D2 ltac:(lia)) in L2. change (53 - 1) with 52 in L2.
  assert (U1' : Zpos m1 < 2 ^ 53).
  { eapply Z.lt_le_trans; [exact U1|]. apply Z.pow_le_mono_r; lia. }
  assert (P : 2 ^ 53 * 2 ^ (e1 + N) <= 2 ^ 52 * 2 ^ (e2 + N)).
  { rewrite <- !Z.pow_add_r by lia. apply Z.pow_le_mono_r; lia. }
  pose proof (pow2_pos (e1 + N) ltac:(lia)).
  pose proof (pow2_pos (e2 + N) ltac:(lia)).
  change (2 ^ 53) with 9007199254740992 in *.
  change (2 ^ 52) with 4503599627370496 in *.
  nia.
Qed.

Lemma SFleb_val_neg (N : Z) (m1 : positive) (e1 : Z) (m2 : positive) (e2 : Z) :
  bounded prec emax m1 e1 = true -> bounded prec emax m2 e2 = true ->
  1074 <= N ->
  SFleb (S754_finite true m1 e1) (S754_finite true m2 e2) = true ->
  val N (Zpos m2) e2 <= val N (Zpos m1) e1.
Proof.
  intros B1 B2 HN. unfold SFleb, SFcompare.
  destruct (Z.compare_spec e1 e2) as [->|Hlt|Hgt].
  - fold (Pos.compare m1 m2). apply bounded_facts in B1 as [R1 _].
    destruct (Pos.compare_spec m1 m2) as [->|L|L]; intros H;
      try discriminate H; [lia|].
    apply Z.mul_le_mono_nonneg_r; [apply Z.pow_nonneg; lia|lia].
  - intros H. discriminate H.
  - intros _. apply canonical_lt; assumption.
Qed.

Lemma shiftl_le (N m e B : Z) :
  0 <= m -> 0 <= e + N -> 0 <= N ->
  val N m e <= B * 2 ^ N -> 0 <= Z.shiftl m e <= B.
Proof.
  intros Hm He HN Hv. unfold val in Hv.
  pose proof (pow2_pos N HN) as PN.
  destruct (Z.le_gt_cases 0 e) as [Hpos|Hneg].
  - rewrite Z.shiftl_mul_pow2 by exact Hpos.
    pose proof (pow2_pos e Hpos) as Pe.
    rewrite Z.pow_add_r, Z.mul_assoc in Hv by lia.
    apply Z.mul_le_mono_pos_r in Hv; [|exact PN]. nia.
  - rewrite Z.shiftl_div_pow2 by lia.
    pose proof (pow2_pos (- e) ltac:(lia)) as Pe.
    pose proof (pow2_pos (e + N) He) as Pc.
    assert (EN : 2 ^ N = 2 ^ (- e) * 2 ^ (e + N))
      by (rewrite <- Z.pow_add_r by lia; f_equal; lia).
    rewrite EN, Z.mul_assoc in Hv.
    apply Z.mul_le_mono_pos_r in Hv; [|exact Pc].
    split; [apply Z.div_pos; lia|].
    apply Z.div_le_upper_bound; lia.
Qed.

(** Multiplying a number of magnitude at most 1 by the integer [B],
    given as the mantissa [M] at the exponent [E]. *)
Lemma SFmul_le (N B : Z) (s : bool) (m : positive) (e : Z)
      (M : positive) (E : Z) :
  E <= 0 -> Zpos M = B * 2 ^ (- E) -> 1 <= B < 2 ^ 53 ->
  0 <= N -> 0 <= e + E + N ->
  val N (Zpos m) e <= 2 ^ N ->
  match SFmul prec emax (S754_finite s m e) (S754_finite false M E) with
  | S754_finite s' m' e' =>
      s' = s /\ 0 <= Z.shiftl (Zpos m') e' <= B
  | S754_zero _ => True
  | _ => False
  end.
Proof.
  intros HE HM HB HN He Hv. unfold SFmul.
  pose proof (round_le N (xorb s false) (Zpos (m * M)) (e + E) loc_Exact B
                ltac:(lia) He HN HB) as R.
  assert (A : val N (Zpos (m * M)) (e + E) <= B * 2 ^ N).
  { unfold val in *. rewrite Pos2Z.inj_mul, HM.
    assert (Ee : 2 ^ (e + N) = 2 ^ (- E) * 2 ^ (e + E + N))
      by (rewrite <- Z.pow_add_r by lia; f_equal; lia).
    rewrite Ee in Hv.
    pose proof (pow2_pos (- E) ltac:(lia)).
    pose proof (pow2_pos (e + E + N) He). nia. }
  specialize (R A ltac:(congruence)).
  destruct (binary_round_aux prec emax (xorb s false) (Zpos (m * M)) (e + E)
              loc_Exact) as [sz| | |sz mz ez]; try exact R; [exact I|].
  destruct R as [Rs [Rv Re]]. split; [destruct s; exact Rs|].
  apply (shiftl_le N); lia.
Qed.

(** ** Integers as binary64 numbers *)

Lemma digits_le_53 (p : positive) : Zpos p < 2 ^ 53 -> Zpos (digits2_pos p) <= 53.
Proof.
  intros H. destruct (digits2_pos_bounds p) as [L _].
  assert (X : 2 ^ (Zpos (digits2_pos p) - 1) < 2 ^ 53) by lia.
  apply Z.pow_lt_mono_r_iff in X; lia.
Qed.

(** An integer below [2 ^ 53] is converted exactly. *)
Lemma of_Z_val (N z : Z) :
  0 < z < 2 ^ 53 -> 1074 <= N ->
  exists m e, Prim2SF (of_Z z) = S754_finite false m e
              /\ -1074 <= e <= 971
              /\ Zpos (digits2_pos m) <= 53
              /\ val N (Zpos m) e = z * 2 ^ N.
Proof.
  intros Hz HN. destruct z as [|p|p]; try lia.
  pose proof (Prim2SF_valid (of_Z (Zpos p))) as V.
  unfold of_Z in *. rewrite of_uint63_spec in *.
  rewrite Uint63.of_Z_spec in *.
  rewrite Z.mod_small in * by (change Uint63.wB with (2 ^ 63); split; [lia|];
    eapply Z.lt_trans; [apply Hz|reflexivity]).
  cbn [binary_normalize] in *. unfold binary_round in *.
  rewrite fexp64_eq in *.
  pose proof (digits_le_53 p ltac:(lia)) as Hd.
  assert (Hal : exists mz ez,
             shl_align p 0 (fexp64 (Zpos (digits2_pos p) + 0)) = (mz, ez)
             /\ -1074 <= ez <= 0 /\ val N (Zpos mz) ez = Zpos p * 2 ^ N).
  { unfold shl_align, fexp64. rewrite Z.add_0_r, Z.sub_0_r.
    replace (Z.max (Zpos (digits2_pos p) - 53) (-1074))
      with (Zpos (digits2_pos p) - 53) by lia.
    destruct (Zpos (digits2_pos p) - 53) as [|d|d] eqn:Ed; try lia.
    - exists p, 0. split; [reflexivity|]. split; [lia|].
      unfold val. rewrite Z.add_0_l. reflexivity.
    - eexists _, _. split; [reflexivity|]. split; [lia|].
      unfold val. fold (shift_pos d p).
      rewrite shift_pos_correct, Z.pow_pos_fold.
      replace (2 ^ Zpos d * Zpos p * 2 ^ (Zneg d + N))
        with (Zpos p * (2 ^ Zpos d * 2 ^ (Zneg d + N))) by ring.
      rewrite <- Z.pow_add_r by lia. do 2 f_equal. lia. }
  destruct Hal as [mz [ez [Hal [Hez Hval]]]]. rewrite Hal in *.
  pose proof (round_le N false (Zpos mz) ez loc_Exact (Zpos p)
                ltac:(lia) ltac:(lia) ltac:(lia) ltac:(lia)
                ltac:(rewrite Hval; lia) ltac:(congruence)) as Rle.
  pose proof (round_ge N false (Zpos mz) ez loc_Exact (Zpos p) 0
                ltac:(lia) ltac:(lia) ltac:(lia) ltac:(lia) ltac:(lia)
                ltac:(rewrite Hval, Z.add_0_l; lia)) as Rge.
  destruct (binary_round_aux prec emax false (Zpos mz) ez loc_Exact)
    as [sz|sz| |sz m e]; try contradiction.
  destruct Rle as [-> [Rle _]]. destruct Rge as [_ Rge].
  rewrite Z.add_0_l in Rge.
  cbn [valid_binary] in V. apply bounded_facts in V as [Re [Rd _]].
  exists m, e. split; [reflexivity|]. split; [exact Re|].
  split; [exact Rd|]. lia.
Qed.

Lemma ToIndexZ_of_Z (z : Z) :
  0 <= z < 2 ^ 53 -> ToIndexZ (of_Z z) = Some z.
Proof.
  intros Hz. destruct (Z.eq_dec z 0) as [->|Hnz]; [reflexivity|].
  destruct (of_Z_val 1074 z ltac:(lia) ltac:(lia)) as [m [e [E [Re [_ Hv]]]]].
  unfold ToIndexZ. rewrite E. unfold truncZ.
  assert (Hs : Z.shiftl (Zpos m) e = z).
  { unfold val in Hv. pose proof (pow2_pos (e + 1074) ltac:(lia)) as Pe.
    destruct (Z.le_gt_cases 0 e) as [Hpos|Hneg].
    - rewrite Z.shiftl_mul_pow2 by exact Hpos.
      rewrite Z.pow_add_r in Hv by lia.
      pose proof (pow2_pos 1074 ltac:(lia)).
      pose proof (pow2_pos e Hpos). nia.
    - rewrite Z.shiftl_div_pow2 by lia.
      assert (EN : 2 ^ 1074 = 2 ^ (- e) * 2 ^ (e + 1074))
        by (rewrite <- Z.pow_add_r by lia; f_equal; lia).
      rewrite EN in Hv.
      pose proof (pow2_pos (- e) ltac:(lia)).
      assert (Zpos m = z * 2 ^ (- e)) by nia.
      rewrite H0. apply Z.div_mul. lia. }
  rewrite Hs.
  destruct (Z.ltb_spec z 0); [lia|].
  unfold max_safe_integer.
  destruct (Z.ltb_spec (2 ^ 53 - 1) z); [lia|reflexivity].
Qed.

(** ** The floor of a number between two consecutive integers *)

Lemma floor_val (N K : Z) (q : float) (m : positive) (e : Z) :
  Prim2SF q = S754_finite false m e ->
  0 <= e + N -> 0 <= N -> 0 <= K < 2 ^ 53 ->
  K * 2 ^ N <= val N (Zpos m) e < (K + 1) * 2 ^ N ->
  ToIndexZ (Math_floor q) = Some K.
Proof.
  intros E He HN HK [Hlo Hhi]. unfold Math_floor. rewrite E.
  unfold val in *.
  pose proof (pow2_pos N HN) as PN.
  pose proof (pow2_pos (e + N) He) as Pe.
  destruct (Z.leb_spec 0 e) as [Hpos|Hneg].
  - unfold ToIndexZ. rewrite E. unfold truncZ.
    rewrite Z.shiftl_mul_pow2 by exact Hpos.
    rewrite Z.pow_add_r in Hlo, Hhi by lia.
    assert (Hk : Zpos m * 2 ^ e = K) by nia.
    rewrite Hk.
    destruct (Z.ltb_spec K 0); [lia|].
    unfold max_safe_integer.
    destruct (Z.ltb_spec (2 ^ 53 - 1) K); [lia|reflexivity].
  - unfold signed. rewrite Z.shiftl_div_pow2 by lia.
    assert (EN : 2 ^ N = 2 ^ (- e) * 2 ^ (e + N))
      by (rewrite <- Z.pow_add_r by lia; f_equal; lia).
    pose proof (pow2_pos (- e) ltac:(lia)) as Pn.
    rewrite EN in Hlo, Hhi.
    assert (H1 : K * 2 ^ (- e) <= Zpos m) by nia.
    assert (H2 : Zpos m < (K + 1) * 2 ^ (- e)) by nia.
    assert (Hk : Zpos m / 2 ^ (- e) = K).
    { symmetry. apply (Z.div_unique _ _ K (Zpos m - K * 2 ^ (- e))); lia. }
    rewrite Hk. apply ToIndexZ_of_Z. exact HK.
Qed.

(** ** Rounding to nearest

    [binary_round_aux] returns the binary64 number nearest to the exact
    value; the location says on which side of the midpoint the value
    lies. *)

Lemma iter_pos_iter {A : Type} (f : A -> A) (n : positive) :
  forall x : A, iter_pos f n x = Nat.iter (Pos.to_nat n) f x.
Proof.
  induction n as [n IH|n IH|]; intros x; cbn [iter_pos].
  - rewrite !IH, Pos2Nat.inj_xI.
    replace (S (2 * Pos.to_nat n))%nat
      with (Pos.to_nat n + (Pos.to_nat n + 1))%nat by lia.
    rewrite !Nat.iter_add. reflexivity.
  - rewrite !IH, Pos2Nat.inj_xO.
    replace (2 * Pos.to_nat n)%nat with (Pos.to_nat n + Pos.to_nat n)%nat
      by lia.
    rewrite Nat.iter_add. reflexivity.
  - reflexivity.
Qed.

(** One shift: the bit that leaves the mantissa moves the location to the
    finer half it selects. *)
Lemma shr_1_loc (mrs : shr_record) (r d : Z) :
  0 <= shr_m mrs -> 0 <= r < d ->
  loc_of_shr_record mrs = loc_of r d ->
  shr_m (shr_1 mrs) = shr_m mrs / 2
  /\ loc_of_shr_record (shr_1 mrs)
     = loc_of (shr_m mrs mod 2 * d + r) (2 * d).
Proof.
  intros Hm Hr Hl. split; [apply shr_1_m; exact Hm|].
  assert (S : shr_r mrs || shr_s mrs = negb (r =? 0)).
  { unfold loc_of in Hl. destruct mrs as [m [|] [|]]; cbn in Hl |- *;
      destruct (r =? 0); try reflexivity; discriminate Hl. }
  destruct mrs as [m rb sb]. cbn [shr_m shr_r shr_s] in *.
  unfold loc_of.
  destruct m as [|p|p]; [|destruct p as [p|p|]|lia];
    cbn [shr_1 loc_of_shr_record]; rewrite S.
  - change (0 mod 2) with 0. rewrite Z.mul_0_l, Z.add_0_l.
    destruct (Z.eqb_spec r 0) as [E|E]; cbn [negb]; [reflexivity|].
    replace (2 * r ?= 2 * d) with Lt; [reflexivity|].
    symmetry. apply Z.compare_lt_iff. lia.
  - replace (Zpos p~1 mod 2) with 1
      by (rewrite Pos2Z.inj_xI, Z.add_comm, Z.mul_comm, Z.mod_add; [reflexivity|lia]).
    destruct (Z.eqb_spec (1 * d + r) 0) as [E|E]; [lia|].
    destruct (Z.eqb_spec r 0) as [E0|E0]; cbn [negb].
    + replace (2 * (1 * d + r) ?= 2 * d) with Eq; [reflexivity|].
      symmetry. apply Z.compare_eq_iff. lia.
    + replace (2 * (1 * d + r) ?= 2 * d) with Gt; [reflexivity|].
      symmetry. apply Z.compare_gt_iff. lia.
  - replace (Zpos p~0 mod 2) with 0
      by (rewrite Pos2Z.inj_xO, Z.mul_comm, Z.mod_mul; [reflexivity|lia]).
    rewrite Z.mul_0_l, Z.add_0_l.
    destruct (Z.eqb_spec r 0) as [E|E]; cbn [negb]; [reflexivity|].
    replace (2 * r ?= 2 * d) with Lt; [reflexivity|].
    symmetry. apply Z.compare_lt_iff. lia.
  - change (1 mod 2) with 1.
    destruct (Z.eqb_spec (1 * d + r) 0) as [E|E]; [lia|].
    destruct (Z.eqb_spec r 0) as [E0|E0]; cbn [negb].
    + replace (2 * (1 * d + r) ?= 2 * d) with Eq; [reflexivity|].
      symmetry. apply Z.compare_eq_iff. lia.
    + replace (2 * (1 * d + r) ?= 2 * d) with Gt; [reflexivity|].
      symmetry. apply Z.compare_gt_iff. lia.
Qed.

Lemma iter_shr_loc (k : nat) (mrs : shr_record) (r d : Z) :
  0 <= shr_m mrs -> 0 <= r < d ->
  loc_of_shr_record mrs = loc_of r d ->
  shr_m (Nat.iter k shr_1 mrs) = shr_m mrs / 2 ^ Z.of_nat k
  /\ loc_of_shr_record (Nat.iter k shr_1 mrs)
     = loc_of (shr_m mrs mod 2 ^ Z.of_nat k * d + r) (2 ^ Z.of_nat k * d).
Proof.
  intros Hm Hr Hl. induction k as [|k [IHm IHl]].
  - cbn [Nat.iter Z.of_nat]. change (2 ^ 0) with 1.
    rewrite Z.div_1_r, Z.mod_1_r, Z.mul_0_l, Z.add_0_l, Z.mul_1_l.
    split; [reflexivity|exact Hl].
  - change (Nat.iter (S k) shr_1 mrs) with (shr_1 (Nat.iter k shr_1 mrs)).
    rewrite Nat2Z.inj_succ, Z.pow_succ_r by lia.
    set (K := 2 ^ Z.of_nat k) in *.
    assert (PK : 0 < K) by (apply pow2_pos; lia).
    assert (Hm' : 0 <= shr_m (Nat.iter k shr_1 mrs))
      by (rewrite IHm; apply Z.div_pos; lia).
    assert (Hr' : 0 <= shr_m mrs mod K * d + r < K * d).
    { pose proof (Z.mod_pos_bound (shr_m mrs) K PK). nia. }
    destruct (shr_1_loc _ _ _ Hm' Hr' IHl) as [Sm Sl].
    rewrite Sm, Sl, IHm. split.
    + rewrite Z.div_div by lia. f_equal. lia.
    + f_equal; [|lia].
      rewrite (Z.mul_comm 2 K), Z.rem_mul_r by lia. ring.
Qed.

(** The location after [shr_fexp]: that of the dropped bits and what was
    below them. *)
Lemma shr_fexp_loc (m e r d : Z) (mrs : shr_record) (e' : Z) :
  0 <= m -> 0 <= r < d ->
  shr_fexp prec emax m e (loc_of r d) = (mrs, e') ->
  loc_of_shr_record mrs
  = loc_of (m mod 2 ^ dropped m e * d + r) (2 ^ dropped m e * d).
Proof.
  intros Hm Hr. unfold shr_fexp, shr, dropped. rewrite fexp64_eq.
  assert (R : forall l, shr_m (shr_record_of_loc m l) = m)
    by (intros [|[]]; reflexivity).
  assert (L : forall l, loc_of_shr_record (shr_record_of_loc m l) = l)
    by (intros [|[]]; reflexivity).
  destruct (fexp64 (Zdigits2 m + e) - e) as [|p|p] eqn:E; intros H;
    injection H as <- <-.
  - cbn [Z.max Z.compare]. change (2 ^ 0) with 1.
    rewrite Z.mod_1_r, Z.mul_0_l, Z.add_0_l, Z.mul_1_l. apply L.
  - replace (Z.max 0 (Zpos p)) with (Zpos p) by lia.
    rewrite iter_pos_iter.
    destruct (iter_shr_loc (Pos.to_nat p) (shr_record_of_loc m (loc_of r d))
                           r d) as [_ Hl];
      [rewrite R; exact Hm|exact Hr|apply L|].
    rewrite Hl, R, positive_nat_Z. reflexivity.
  - replace (Z.max 0 (Zneg p)) with 0 by lia. change (2 ^ 0) with 1.
    rewrite Z.mod_1_r, Z.mul_0_l, Z.add_0_l, Z.mul_1_l. apply L.
Qed.

(** Rounding to nearest: the new mantissa is the nearer neighbour. *)
Lemma round_nearest_even_near (m r d : Z) :
  0 <= r < d ->
  let m' := round_nearest_even m (loc_of r d) in
  (m' = m \/ m' = m + 1)
  /\ 2 * (m' * d) <= 2 * (m * d + r) + d
  /\ 2 * (m * d + r) <= 2 * (m' * d) + d.
Proof.
  intros Hr. unfold loc_of. cbv zeta.
  destruct (Z.eqb_spec r 0) as [E|E]; cbn [round_nearest_even].
  - split; [left; reflexivity|]. lia.
  - destruct (Z.compare_spec (2 * r) d) as [C|C|C].
    + destruct (Z.even m); [split; [left; reflexivity|lia]
                           |split; [right; reflexivity|lia]].
    + split; [left; reflexivity|lia].
    + split; [right; reflexivity|lia].
Qed.

Lemma Zdigits2_le (a n : Z) : 0 <= n -> 0 <= a < 2 ^ n -> Zdigits2 a <= n.
Proof.
  intros Hn [H0 Ha]. destruct (Z.eq_dec a 0) as [->|Hne]; [exact Hn|].
  destruct (Zdigits2_bounds a ltac:(lia)) as [Lo _].
  assert (H : 2 ^ (Zdigits2 a - 1) < 2 ^ n) by lia.
  apply Z.pow_lt_mono_r_iff in H; lia.
Qed.

(** What [shr_fexp] leaves has at most 53 bits. *)
Lemma dropped_fits (m e : Z) :
  0 <= m -> m / 2 ^ dropped m e < 2 ^ 53 /\ -1074 <= e + dropped m e.
Proof.
  intros Hm. split; [|unfold dropped, fexp64; lia].
  assert (Hk : 0 <= dropped m e) by (unfold dropped; lia).
  pose proof (pow2_pos _ Hk) as Pk.
  destruct (Z.eq_dec m 0) as [->|Hne]; [rewrite Z.div_0_l by lia; lia|].
  destruct (Zdigits2_bounds m ltac:(lia)) as [Lo Hi].
  apply Z.div_lt_upper_bound; [exact Pk|].
  rewrite <- Z.pow_add_r by lia.
  eapply Z.lt_le_trans; [exact Hi|].
  apply Z.pow_le_mono_r; [lia|]. unfold dropped, fexp64. lia.
Qed.

(** A mantissa that rounding has carried to [2 ^ 53] loses one bit, which
    is zero. *)
Lemma carry_exact (m e : Z) :
  0 <= m <= 2 ^ 53 -> -1074 <= e ->
  0 <= dropped m e /\ m / 2 ^ dropped m e * 2 ^ dropped m e = m.
Proof.
  intros [H0 Hm] He. split; [unfold dropped; lia|].
  destruct (Z.eq_dec m (2 ^ 53)) as [->|Hne].
  - unfold dropped, fexp64. change (Zdigits2 (2 ^ 53)) with 54.
    replace (Z.max 0 (Z.max (54 + e - 53) (-1074) - e)) with 1 by lia.
    reflexivity.
  - pose proof (Zdigits2_le m 53 ltac:(lia) ltac:(lia)) as Hd.
    unfold dropped, fexp64.
    replace (Z.max 0 (Z.max (Zdigits2 m + e - 53) (-1074) - e)) with 0 by lia.
    change (2 ^ 0) with 1. rewrite Z.div_1_r. lia.
Qed.

(** Rounding to nearest: [binary_round_aux] on [m + r / d] at exponent [e]
    returns [m2] at the exponent [e + dropped m e] of the result, with [m2]
    within half a unit of the exact value. *)
Lemma round_nearest (N : Z) (s : bool) (m e r d : Z) :
  0 <= m -> 0 <= r < d -> 0 <= e + N ->
  exists m2 : Z,
    0 <= m2 /\
    2 * (m2 * (2 ^ dropped m e * d))
    <= 2 * (m * d + r) + 2 ^ dropped m e * d /\
    2 * (m * d + r)
    <= 2 * (m2 * (2 ^ dropped m e * d)) + 2 ^ dropped m e * d /\
    match binary_round_aux prec emax s m e (loc_of r d) with
    | S754_finite s' m' e' =>
        s' = s /\ e + dropped m e <= e'
        /\ val N (Zpos m') e' = val N m2 (e + dropped m e)
    | S754_zero s' => s' = s /\ m2 = 0
    | S754_infinity s' =>
        s' = s /\ 2 ^ (972 + N) <= val N m2 (e + dropped m e)
        /\ 971 < e + dropped m e + dropped m2 (e + dropped m e)
    | S754_nan => False
    end.
Proof.
  intros Hm Hr He. unfold binary_round_aux.
  destruct (shr_fexp prec emax m e (loc_of r d)) as [mrs1 e1] eqn:E1.
  destruct (shr_fexp_spec m e _ mrs1 e1 Hm E1) as [Ee1 [M1 _]].
  pose proof (shr_fexp_loc m e r d mrs1 e1 Hm Hr E1) as L1.
  set (k := dropped m e) in *.
  assert (Hk : 0 <= k) by (unfold k, dropped; lia).
  pose proof (pow2_pos k Hk) as Pk.
  set (m1 := shr_m mrs1) in *.
  set (r1 := m mod 2 ^ k * d + r) in *.
  set (d1 := 2 ^ k * d) in *.
  assert (Hr1 : 0 <= r1 < d1).
  { unfold r1, d1. pose proof (Z.mod_pos_bound m (2 ^ k) Pk). nia. }
  assert (EX : m * d + r = m1 * d1 + r1).
  { unfold r1, d1. rewrite M1.
    pose proof (Z.div_mod m (2 ^ k) ltac:(lia)) as D. nia. }
  rewrite L1.
  destruct (round_nearest_even_near m1 r1 d1 Hr1) as [Hm2 [Hup Hdn]].
  set (m2 := round_nearest_even m1 (loc_of r1 d1)) in *.
  destruct (dropped_fits m e Hm) as [F1 F2]. fold k in F1, F2.
  rewrite <- M1 in F1. fold m1 in F1.
  assert (Hm1 : 0 <= m1) by (rewrite M1; apply Z.div_pos; lia).
  assert (H2 : 0 <= m2 <= 2 ^ 53) by lia.
  exists m2. split; [lia|]. rewrite EX. split; [exact Hup|].
  split; [exact Hdn|].
  destruct (shr_fexp prec emax m2 e1 loc_Exact) as [mrs2 e2] eqn:E2.
  destruct (shr_fexp_spec m2 e1 loc_Exact mrs2 e2 ltac:(lia) E2)
    as [Ee2 [M2 _]].
  destruct (carry_exact m2 e1 H2 ltac:(lia)) as [Hk2 C].
  set (k2 := dropped m2 e1) in *. rewrite <- M2 in C.
  pose proof (pow2_pos k2 Hk2) as Pk2.
  assert (V : val N (shr_m mrs2) e2 = val N m2 e1).
  { unfold val. rewrite Ee2, <- C.
    replace (e1 + k2 + N) with (k2 + (e1 + N)) by lia.
    rewrite Z.pow_add_r by lia. ring. }
  rewrite <- Ee1.
  destruct (shr_m mrs2) as [|p|p] eqn:E3.
  - split; [reflexivity|]. lia.
  - destruct (e2 <=? emax - prec) eqn:Eo.
    + split; [reflexivity|]. split; [lia|exact V].
    + split; [reflexivity|].
      apply Z.leb_gt in Eo. change (emax - prec) with 971 in Eo.
      split; [|lia]. rewrite <- V. unfold val.
      assert (P : 2 ^ (972 + N) <= 2 ^ (e2 + N))
        by (apply Z.pow_le_mono_r; lia).
      pose proof (pow2_pos (e2 + N) ltac:(lia)). nia.
  - pose proof (Z.div_pos m2 (2 ^ k2) ltac:(lia) Pk2). lia.
Qed.

Lemma new_location_loc (n r : Z) :
  0 <= r < n -> new_location n r = loc_of r n.
Proof.
  intros Hr. unfold new_location, new_location_even, new_location_odd, loc_of.
  destruct (Z.even n) eqn:En; destruct (Z.eqb_spec r 0) as [E|E];
    try reflexivity.
  f_equal.
  assert (Hodd : Z.odd n = true) by (rewrite <- Z.negb_even, En; reflexivity).
  apply Z.odd_spec in Hodd as [j Hj].
  destruct (Z.compare_spec (2 * r + 1) n) as [C|C|C];
    symmetry; [apply Z.compare_lt_iff|apply Z.compare_lt_iff
               |apply Z.compare_gt_iff]; lia.
Qed.

(** The quotient [SFdiv_core_binary] hands to the rounding step, with the
    location of the exact quotient given by the remainder. *)
Lemma div_core_loc (m1 e1 m2 e2 q e' : Z) (l : location) :
  0 < m1 -> 0 < m2 ->
  SFdiv_core_binary prec emax m1 e1 m2 e2 = (q, e', l) ->
  exists r : Z,
    0 <= r < m2 /\ q * m2 + r = m1 * 2 ^ (e1 - e2 - e') /\ l = loc_of r m2.
Proof.
  intros H1 H2. unfold SFdiv_core_binary. rewrite fexp64_eq.
  set (f := fexp64 (Zdigits2 m1 + e1 - (Zdigits2 m2 + e2))).
  set (e0 := Z.min f (e1 - e2)).
  set (s := e1 - e2 - e0).
  assert (Hs : 0 <= s) by (unfold s, e0; lia).
  set (m' := match s with Z0 => m1 | Zpos _ => Z.shiftl m1 s | Zneg _ => 0 end).
  assert (Em : m' = m1 * 2 ^ s).
  { unfold m'. destruct s as [|p|p] eqn:Es.
    - change (2 ^ 0) with 1. lia.
    - apply Z.shiftl_mul_pow2. lia.
    - lia. }
  pose proof (Z_div_mod m' m2 ltac:(lia)) as D.
  destruct (Z.div_eucl m' m2) as [q0 r0]. destruct D as [D R].
  intros H. injection H as <- <- <-. fold s.
  exists r0. split; [lia|]. split; [lia|].
  apply new_location_loc. lia.
Qed.

(** Division rounds to nearest: for a quotient below [2 ^ E], the result
    [v] is within [h / 2] of it, where [h] is at most the unit in the last
    place of numbers below [2 ^ E]. *)
Lemma SFdiv_nearest (N E : Z) (mx : positive) (ex : Z) (my : positive)
      (ey : Z) :
  -1074 <= ex <= 971 -> -1074 <= ey <= 971 -> 3200 <= N ->
  -1100 <= E <= 1100 ->
  val N (Zpos mx) ex < val N (Zpos my) (ey + E) ->
  exists v h : Z,
    0 <= v /\ 0 < h <= 2 ^ (fexp64 E + N) /\
    2 * v * val N (Zpos my) ey
    <= 2 * (val N (Zpos mx) ex * 2 ^ N) + h * val N (Zpos my) ey /\
    2 * (val N (Zpos mx) ex * 2 ^ N)
    <= 2 * v * val N (Zpos my) ey + h * val N (Zpos my) ey /\
    match SFdiv prec emax (S754_finite false mx ex) (S754_finite false my ey)
    with
    | S754_finite s m e => s = false /\ 0 <= e + N /\ val N (Zpos m) e = v
    | S754_zero s => s = false /\ v = 0
    | S754_infinity s => s = false /\ 2 ^ (972 + N) <= v
    | S754_nan => False
    end.
Proof.
  intros Hex Hey HN HE Hlt. unfold SFdiv.
  destruct (SFdiv_core_binary prec emax (Zpos mx) ex (Zpos my) ey)
    as [[q e0] l] eqn:C.
  destruct (div_core_spec _ _ _ _ _ _ _ (Pos2Z.is_pos mx) (Pos2Z.is_pos my) C)
    as [Ee [Hq _]].
  destruct (div_core_loc _ _ _ _ _ _ _ (Pos2Z.is_pos mx) (Pos2Z.is_pos my) C)
    as [r [Hr [Eq ->]]].
  set (sh := ex - ey - e0) in *.
  cbn [Zdigits2] in Ee.
  set (t := Zpos (digits2_pos mx) + ex - (Zpos (digits2_pos my) + ey)) in *.
  assert (Hf : -1074 <= fexp64 t) by (unfold fexp64; lia).
  assert (Hs : 0 <= sh) by (unfold sh; lia).
  pose proof (pow2_pos sh Hs) as Ps.
  assert (He0 : 0 <= e0 + N) by lia.
  destruct (round_nearest N (xorb false false) q e0 r (Zpos my) Hq Hr He0)
    as [m2 [Hm2 [Hup [Hdn Hres]]]].
  set (k := dropped q e0) in *.
  assert (Hk : 0 <= k) by (unfold k, dropped; lia).
  pose proof (pow2_pos k Hk) as Pk.
  pose proof (pow2_pos (e0 + N) He0) as P0.
  pose proof (pow2_pos (ey + N) ltac:(lia)) as Py.
  pose proof (pow2_pos N ltac:(lia)) as PN.
  (* the exponent of the result *)
  destruct (digits2_pos_bounds mx) as [Lx Ux].
  destruct (digits2_pos_bounds my) as [Ly Uy].
  unfold val in Hlt.
  assert (Ht : t <= E).
  { assert (H1 : 2 ^ (Zpos (digits2_pos mx) - 1 + (ex + N))
                 < 2 ^ (Zpos (digits2_pos my) + (ey + E + N))).
    { rewrite (Z.pow_add_r 2 (Zpos (digits2_pos mx) - 1) (ex + N)),
        (Z.pow_add_r 2 (Zpos (digits2_pos my)) (ey + E + N)) by lia.
      pose proof (pow2_pos (ex + N) ltac:(lia)) as Px.
      pose proof (pow2_pos (ey + E + N) ltac:(lia)) as PE.
      assert (A : 2 ^ (Zpos (digits2_pos mx) - 1) * 2 ^ (ex + N)
                  <= Zpos mx * 2 ^ (ex + N))
        by (apply Z.mul_le_mono_nonneg_r; lia).
      assert (B : Zpos my * 2 ^ (ey + E + N)
                  < 2 ^ Zpos (digits2_pos my) * 2 ^ (ey + E + N))
        by (apply Z.mul_lt_mono_pos_r; lia).
      lia. }
    apply Z.pow_lt_mono_r_iff in H1; [|lia|lia]. unfold t. lia. }
  assert (Hqe : q = 0 \/ Zdigits2 q + e0 <= E).
  { destruct (Z.eq_dec q 0) as [Q0|Q0]; [left; exact Q0|right].
    destruct (Zdigits2_bounds q ltac:(lia)) as [Lq _].
    assert (Dq : 1 <= Zdigits2 q) by (destruct q; cbn [Zdigits2]; lia).
    assert (Ex : 2 ^ (ex + N) = 2 ^ sh * 2 ^ (e0 + (ey + N)))
      by (rewrite <- Z.pow_add_r by lia; f_equal; unfold sh; lia).
    assert (H1 : q * 2 ^ (e0 + (ey + N)) < 2 ^ (ey + E + N)).
    { pose proof (pow2_pos (e0 + (ey + N)) ltac:(lia)) as Pc.
      pose proof (pow2_pos (ey + E + N) ltac:(lia)) as PE.
      rewrite Ex in Hlt.
      assert (A : q * Zpos my * 2 ^ (e0 + (ey + N))
                  <= Zpos mx * 2 ^ sh * 2 ^ (e0 + (ey + N)))
        by (apply Z.mul_le_mono_nonneg_r; lia).
      assert (B : q * 2 ^ (e0 + (ey + N)) * Zpos my
                  < 2 ^ (ey + E + N) * Zpos my) by lia.
      apply Z.mul_lt_mono_pos_r in B; lia. }
    assert (H2 : 2 ^ (Zdigits2 q - 1 + (e0 + (ey + N))) < 2 ^ (ey + E + N)).
    { rewrite (Z.pow_add_r 2 (Zdigits2 q - 1) (e0 + (ey + N))) by lia.
      pose proof (pow2_pos (e0 + (ey + N)) ltac:(lia)) as Pc.
      assert (A : 2 ^ (Zdigits2 q - 1) * 2 ^ (e0 + (ey + N))
                  <= q * 2 ^ (e0 + (ey + N)))
        by (apply Z.mul_le_mono_nonneg_r; lia).
      lia. }
    apply Z.pow_lt_mono_r_iff in H2; lia. }
  assert (He1 : e0 + k <= fexp64 E).
  { unfold k, dropped. destruct Hqe as [->|Hqe].
    - cbn [Zdigits2]. unfold fexp64 in *. lia.
    - unfold fexp64 in *. lia. }
  exists (val N m2 (e0 + k)), (2 ^ (e0 + k + N)).
  split; [unfold val; apply Z.mul_nonneg_nonneg; [lia|apply Z.pow_nonneg; lia]|].
  split; [split; [apply pow2_pos; lia|apply Z.pow_le_mono_r; lia]|].
  assert (Ek : 2 ^ (e0 + k + N) = 2 ^ k * 2 ^ (e0 + N))
    by (rewrite <- Z.pow_add_r by lia; f_equal; lia).
  assert (Ex : 2 ^ (ex + N) * 2 ^ N
               = 2 ^ sh * (2 ^ (e0 + N) * 2 ^ (ey + N)))
    by (rewrite <- !Z.pow_add_r by lia; f_equal; unfold sh; lia).
  set (c := 2 ^ (e0 + N) * 2 ^ (ey + N)) in *.
  assert (Pc : 0 <= c) by (unfold c; apply Z.mul_nonneg_nonneg; lia).
  assert (EX : Zpos mx * 2 ^ (ex + N) * 2 ^ N = (q * Zpos my + r) * c)
    by (rewrite <- (Z.mul_assoc (Zpos mx) (2 ^ (ex + N)) (2 ^ N)), Ex, Eq;
        ring).
  pose proof (Z.mul_le_mono_nonneg_r _ _ c Pc Hup) as U.
  pose proof (Z.mul_le_mono_nonneg_r _ _ c Pc Hdn) as D.
  split.
  { unfold val. rewrite Ek, EX. unfold c in *. lia. }
  split.
  { unfold val. rewrite Ek, EX. unfold c in *. lia. }
  cbn [xorb] in Hres |- *.
  destruct (binary_round_aux prec emax false q e0 (loc_of r (Zpos my)))
    as [sz|sz| |sz mz ez]; try exact Hres.
  - destruct Hres as [A ->]. split; [exact A|reflexivity].
  - destruct Hres as [A [B _]]. split; assumption.
  - destruct Hres as [A [B V]]. split; [exact A|]. split; [lia|exact V].
Qed.

Lemma bounded_lt_53 (m : positive) (e : Z) :
  bounded prec emax m e = true -> Zpos m < 2 ^ 53.
Proof.
  intros B. apply bounded_facts in B as [_ [D _]].
  destruct (digits2_pos_bounds m) as [_ U].
  eapply Z.lt_le_trans; [exact U|]. apply Z.pow_le_mono_r; lia.
Qed.

Lemma SFltb_val (N : Z) (m1 : positive) (e1 : Z) (m2 : positive) (e2 : Z) :
  bounded prec emax m1 e1 = true -> bounded prec emax m2 e2 = true ->
  1074 <= N ->
  SFltb (S754_finite false m1 e1) (S754_finite false m2 e2) = true ->
  val N (Zpos m1) e1 < val N (Zpos m2) e2.
Proof.
  intros B1 B2 HN. pose proof (bounded_lt_53 _ _ B1) as U1.
  apply bounded_facts in B1 as [R1 _].
  apply bounded_facts in B2 as [R2 [_ D2]].
  unfold SFltb, SFcompare, val.
  destruct (Z.compare_spec e1 e2) as [->|Hlt|Hgt].
  - fold (Pos.compare m1 m2).
    destruct (Pos.compare_spec m1 m2) as [->|L|L]; intros H;
      try discriminate H.
    apply Z.mul_lt_mono_pos_r; [apply pow2_pos; lia|lia].
  - intros _.
    destruct (digits2_pos_bounds m2) as [L2 _].
    rewrite (D2 ltac:(lia)) in L2. change (53 - 1) with 52 in L2.
    assert (P : 2 ^ 53 * 2 ^ (e1 + N) <= 2 ^ 52 * 2 ^ (e2 + N)).
    { rewrite <- !Z.pow_add_r by lia. apply Z.pow_le_mono_r; lia. }
    pose proof (pow2_pos (e1 + N) ltac:(lia)) as P1.
    pose proof (pow2_pos (e2 + N) ltac:(lia)) as P2.
    assert (A : Zpos m1 * 2 ^ (e1 + N) < 2 ^ 53 * 2 ^ (e1 + N))
      by (apply Z.mul_lt_mono_pos_r; lia).
    assert (B : 2 ^ 52 * 2 ^ (e2 + N) <= Zpos m2 * 2 ^ (e2 + N))
      by (apply Z.mul_le_mono_nonneg_r; lia).
    lia.
  - intros H. discriminate H.
Qed.

(** Twice the part of [2 a] above [b] exceeds the last place of [b]: the
    quotient [a / b] of two numbers with [a < b < 2 a] is above the midpoint
    of 1/2 and its successor. *)
Lemma above_half_grid (N : Z) (ma : positive) (ea : Z) (mb : positive)
      (eb : Z) :
  -1074 <= ea -> -1074 <= eb -> 1074 <= N ->
  Zpos ma < 2 ^ 53 -> Zpos mb < 2 ^ 53 ->
  val N (Zpos mb) eb < 2 * val N (Zpos ma) ea ->
  val N (Zpos mb) eb
  < 2 ^ 53 * (2 * val N (Zpos ma) ea - val N (Zpos mb) eb).
Proof.
  intros Ha Hb HN Ua Ub Hlt. unfold val in *.
  destruct (Z.le_gt_cases (ea + 1) eb) as [C|C].
  - set (g := 2 ^ (ea + 1 + N)).
    assert (Pg : 0 < g) by (apply pow2_pos; lia).
    assert (Ea : 2 * (Zpos ma * 2 ^ (ea + N)) = Zpos ma * g).
    { unfold g. replace (ea + 1 + N) with (1 + (ea + N)) by lia.
      rewrite (Z.pow_add_r 2 1 (ea + N)) by lia. change (2 ^ 1) with 2.
      ring. }
    assert (Eb : Zpos mb * 2 ^ (eb + N) = Zpos mb * 2 ^ (eb - ea - 1) * g).
    { unfold g. rewrite <- Z.mul_assoc, <- Z.pow_add_r by lia.
      do 2 f_equal. lia. }
    rewrite Ea, Eb in *.
    set (j := Zpos mb * 2 ^ (eb - ea - 1)) in *.
    assert (J : j < Zpos ma) by nia.
    assert (D : 1 * g <= (Zpos ma - j) * g)
      by (apply Z.mul_le_mono_nonneg_r; lia).
    assert (U : j * g < 2 ^ 53 * g) by nia.
    nia.
  - set (g := 2 ^ (eb + N)).
    assert (Pg : 0 < g) by (apply pow2_pos; lia).
    assert (Ea : 2 * (Zpos ma * 2 ^ (ea + N))
                 = Zpos ma * 2 ^ (ea + 1 - eb) * g).
    { unfold g. rewrite <- !Z.mul_assoc, <- Z.pow_add_r by lia.
      replace (ea + 1 - eb + (eb + N)) with (1 + (ea + N)) by lia.
      rewrite (Z.pow_add_r 2 1 (ea + N)) by lia. change (2 ^ 1) with 2.
      ring. }
    rewrite Ea in *.
    set (j := Zpos ma * 2 ^ (ea + 1 - eb)) in *.
    assert (J : Zpos mb < j) by nia.
    assert (D : 1 * g <= (j - Zpos mb) * g)
      by (apply Z.mul_le_mono_nonneg_r; lia).
    nia.
Qed.

Section HalfUlp.
Variable N : Z.
Hypothesis HN : 3200 <= N.

(** [a / b] for [a < b < 2 a] is above 1/2 and at most 1. *)
Lemma ratio_above_half (ma : positive) (ea : Z) (mb : positive) (eb : Z) :
  bounded prec emax ma ea = true -> bounded prec emax mb eb = true ->
  val N (Zpos ma) ea < val N (Zpos mb) eb ->
  val N (Zpos mb) eb < 2 * val N (Zpos ma) ea ->
  match SFdiv prec emax (S754_finite false ma ea) (S754_finite false mb eb)
  with
  | S754_finite s m e =>
      s = false /\ 2 ^ N < 2 * val N (Zpos m) e /\ val N (Zpos m) e <= 2 ^ N
  | _ => False
  end.
Proof.
  intros Ba Bb Hab Hba.
  pose proof (bounded_lt_53 _ _ Ba) as Ua.
  pose proof (bounded_lt_53 _ _ Bb) as Ub.
  apply bounded_facts in Ba as [Ra _]. apply bounded_facts in Bb as [Rb _].
  pose proof (above_half_grid N ma ea mb eb ltac:(lia) ltac:(lia) ltac:(lia)
                Ua Ub Hba) as G.
  pose proof (SFdiv_le N 1 ma ea mb eb Ra Rb HN ltac:(lia) ltac:(lia)) as L.
  destruct (SFdiv_nearest N 0 ma ea mb eb Ra Rb HN ltac:(lia)
              ltac:(rewrite Z.add_0_r; exact Hab))
    as [v [h [Hv [[Hh0 Hh] [_ [Hdn Hres]]]]]].
  change (fexp64 0) with (-53) in Hh.
  set (A := val N (Zpos ma) ea) in *. set (B := val N (Zpos mb) eb) in *.
  assert (PB : 0 < B) by lia.
  set (Q := 2 ^ (-53 + N)) in *.
  assert (PQ : 0 < Q) by (apply pow2_pos; lia).
  assert (EP : 2 ^ N = 2 ^ 53 * Q).
  { unfold Q. rewrite <- Z.pow_add_r by lia. f_equal. lia. }
  assert (Hv2 : 2 ^ N < 2 * v).
  { destruct (Z.lt_ge_cases (2 ^ N) (2 * v)) as [|C]; [assumption|exfalso].
    assert (S1 : h * B <= Q * B) by (apply Z.mul_le_mono_nonneg_r; lia).
    assert (S2 : 2 * v * B <= 2 ^ N * B)
      by (apply Z.mul_le_mono_nonneg_r; lia).
    rewrite EP in *.
    assert (S3 : (2 ^ 53 * (2 * A - B) - B) * Q <= 0) by lia.
    assert (S4 : 0 < (2 ^ 53 * (2 * A - B) - B) * Q)
      by (apply Z.mul_pos_pos; lia).
    lia. }
  destruct (SFdiv prec emax (S754_finite false ma ea)
                  (S754_finite false mb eb)) as [sz|sz| |sz mz ez];
    try contradiction.
  - destruct Hres as [_ V]. lia.
  - destruct Hres as [_ [_ V]]. destruct L as [Ls [_ Lv]].
    rewrite V. split; [exact Ls|]. split; [exact Hv2|lia].
Qed.

(** [1 / r] for a number [r] above 1/2 and at most 1 is at least 1 and
    below 2. *)
Lemma inverse_below_two (mr : positive) (er : Z) :
  bounded prec emax mr er = true ->
  2 ^ N < 2 * val N (Zpos mr) er -> val N (Zpos mr) er <= 2 ^ N ->
  match SFdiv prec emax SF_one (S754_finite false mr er) with
  | S754_finite s m e =>
      s = false /\ 0 <= e + N
      /\ 1 * 2 ^ N <= val N (Zpos m) e < (1 + 1) * 2 ^ N
  | _ => False
  end.
Proof.
  intros Br Hlo Hhi.
  pose proof (bounded_lt_53 _ _ Br) as Ur.
  apply bounded_facts in Br as [Rr _].
  set (Q := 2 ^ (-53 + N)).
  assert (PQ : 0 < Q) by (apply pow2_pos; lia).
  assert (EP : 2 ^ N = 2 ^ 53 * Q).
  { unfold Q. rewrite <- Z.pow_add_r by lia. f_equal. lia. }
  assert (E1 : val N 4503599627370496 (-52) = 2 ^ N).
  { unfold val. change 4503599627370496 with (2 ^ 52).
    rewrite <- Z.pow_add_r by lia. f_equal. lia. }
  (* [r] is a binary64 number above 1/2 *)
  assert (Hr : (2 ^ 52 + 1) * Q <= val N (Zpos mr) er).
  { unfold val in *. destruct (Z.le_gt_cases (-53) er) as [C|C].
    - assert (Er : 2 ^ (er + N) = 2 ^ (er + 53) * Q).
      { unfold Q. rewrite <- Z.pow_add_r by lia. f_equal. lia. }
      rewrite Er, EP in *. rewrite Z.mul_assoc in *.
      set (j := Zpos mr * 2 ^ (er + 53)) in *.
      assert (J : 2 ^ 53 < 2 * j) by nia.
      apply Z.mul_le_mono_nonneg_r; lia.
    - exfalso.
      assert (P : 2 ^ (er + N) <= 2 ^ (-54 + N))
        by (apply Z.pow_le_mono_r; lia).
      assert (E54 : 2 ^ N = 2 ^ 54 * 2 ^ (-54 + N)).
      { rewrite <- Z.pow_add_r by lia. f_equal. lia. }
      pose proof (pow2_pos (er + N) ltac:(lia)) as Pe.
      assert (S1 : Zpos mr * 2 ^ (er + N) < 2 ^ 53 * 2 ^ (er + N))
        by (apply Z.mul_lt_mono_pos_r; lia).
      assert (S2 : 2 ^ 53 * 2 ^ (er + N) <= 2 ^ 53 * 2 ^ (-54 + N))
        by (apply Z.mul_le_mono_nonneg_l; lia).
      lia. }
  pose proof (SFdiv_ge N 1 0 4503599627370496 (-52) mr er ltac:(lia) Rr HN
                ltac:(cbn; lia) ltac:(lia) ltac:(lia)) as G.
  rewrite E1, Z.add_0_l in G.
  specialize (G ltac:(rewrite Z.mul_1_l, (Z.mul_comm (2 ^ N));
                      apply Z.mul_le_mono_nonneg_r;
                      [apply Z.pow_nonneg; lia|exact Hhi])).
  destruct (SFdiv_nearest N 1 4503599627370496 (-52) mr er ltac:(lia) Rr HN
              ltac:(lia))
    as [v [h [Hv [[Hh0 Hh] [Hup [_ Hres]]]]]].
  { rewrite E1. unfold val in *.
    replace (er + 1 + N) with (1 + (er + N)) by lia.
    rewrite (Z.pow_add_r 2 1 (er + N)) by lia. change (2 ^ 1) with 2. lia. }
  change (fexp64 1) with (-52) in Hh. rewrite E1 in Hup.
  assert (Eh : 2 ^ (-52 + N) = 2 * Q).
  { unfold Q. replace (-52 + N) with (1 + (-53 + N)) by lia.
    rewrite (Z.pow_add_r 2 1 (-53 + N)) by lia. reflexivity. }
  rewrite Eh in Hh.
  set (R := val N (Zpos mr) er) in *.
  assert (Hv2 : v < 2 * 2 ^ N).
  { destruct (Z.lt_ge_cases v (2 * 2 ^ N)) as [|C]; [assumption|exfalso].
    assert (PR : 0 < R) by lia.
    assert (S1 : h * R <= 2 * Q * R) by (apply Z.mul_le_mono_nonneg_r; lia).
    assert (S2 : 2 * (2 * 2 ^ N) * R <= 2 * v * R)
      by (apply Z.mul_le_mono_nonneg_r; lia).
    rewrite EP in *.
    assert (S3 : R * (2 ^ 55 - 2) * Q <= 2 ^ 107 * Q * Q) by lia.
    assert (S4 : (2 ^ 52 + 1) * Q * (2 ^ 55 - 2) <= R * (2 ^ 55 - 2))
      by (apply Z.mul_le_mono_nonneg_r; lia).
    assert (S5 : (2 ^ 52 + 1) * (2 ^ 55 - 2) * Q * Q <= 2 ^ 107 * Q * Q).
    { assert (X : (2 ^ 52 + 1) * Q * (2 ^ 55 - 2) * Q
                  <= R * (2 ^ 55 - 2) * Q)
        by (apply Z.mul_le_mono_nonneg_r; lia).
      lia. }
    assert (S6 : 0 < Q * Q) by (apply Z.mul_pos_pos; lia).
    assert (S7 : 2 ^ 107 * (Q * Q) < (2 ^ 52 + 1) * (2 ^ 55 - 2) * (Q * Q))
      by (apply Z.mul_lt_mono_pos_r; [exact S6|reflexivity]).
    lia. }
  unfold SF_one.
  destruct (SFdiv prec emax (S754_finite false 4503599627370496 (-52))
                  (S754_finite false mr er)) as [sz|sz| |sz mz ez];
    try contradiction.
  - destruct Hres as [_ V].
    assert (2 ^ (1 + N) <= 2 ^ (972 + N)) by (apply Z.pow_le_mono_r; lia).
    rewrite (Z.pow_add_r 2 1 N) in H by lia. change (2 ^ 1) with 2 in H. lia.
  - destruct Hres as [Rs [Re V]]. destruct G as [_ Gv].
    rewrite Z.mul_1_l in Gv. rewrite V in *.
    split; [exact Rs|]. split; [exact Re|]. lia.
Qed.

(** Doubling is exact, unless it overflows. *)
Lemma SFmul_two (s : bool) (mi : positive) (ei : Z) :
  bounded prec emax mi ei = true ->
  match SFmul prec emax (S754_finite false 4503599627370496 (-51))
              (S754_finite s mi ei) with
  | S754_finite s' m e =>
      s' = s /\ val N (Zpos m) e = 2 * val N (Zpos mi) ei
  | S754_infinity s' => s' = s /\ 2 ^ (1024 + N) <= 2 * val N (Zpos mi) ei
  | _ => False
  end.
Proof.
  intros Bi. pose proof (bounded_lt_53 _ _ Bi) as Ui.
  apply bounded_facts in Bi as [Ri [Di Dn]].
  unfold SFmul. cbn [xorb].
  change loc_Exact with (loc_of 0 1).
  set (m := Zpos (4503599627370496 * mi)). set (e := -51 + ei).
  assert (Em : m = 2 ^ 52 * Zpos mi) by reflexivity.
  destruct (round_nearest N s m e 0 1 ltac:(lia) ltac:(lia) ltac:(lia))
    as [m2 [Hm2 [Hup [Hdn Hres]]]].
  set (k := dropped m e) in *.
  assert (Dm : Zdigits2 m <= 52 + Zpos (digits2_pos mi)).
  { apply Zdigits2_le; [lia|]. split; [lia|].
    rewrite Em, Z.pow_add_r by lia.
    destruct (digits2_pos_bounds mi) as [_ U].
    apply Z.mul_lt_mono_pos_l; [reflexivity|exact U]. }
  assert (Dlo : 52 + Zpos (digits2_pos mi) <= Zdigits2 m).
  { destruct (Zdigits2_bounds m ltac:(lia)) as [_ U].
    destruct (digits2_pos_bounds mi) as [L _].
    assert (H : 2 ^ (52 + (Zpos (digits2_pos mi) - 1)) < 2 ^ Zdigits2 m).
    { rewrite Z.pow_add_r by lia. rewrite Em in U.
      eapply Z.le_lt_trans; [|exact U].
      apply Z.mul_le_mono_nonneg_l; [lia|exact L]. }
    apply Z.pow_lt_mono_r_iff in H; [lia|lia|].
    unfold m. cbn [Zdigits2]. lia. }
  assert (Hk : 0 <= k <= 52) by (unfold k, dropped, fexp64, e; lia).
  pose proof (pow2_pos k ltac:(lia)) as Pk.
  assert (Ej : m = 2 ^ (52 - k) * Zpos mi * 2 ^ k).
  { rewrite Em. replace 52 with (52 - k + k) at 1 by lia.
    rewrite Z.pow_add_r by lia. ring. }
  set (j := 2 ^ (52 - k) * Zpos mi) in *.
  assert (Pj : 0 < j)
    by (unfold j; apply Z.mul_pos_pos; [apply pow2_pos; lia|lia]).
  assert (E2 : m2 = j) by nia.
  assert (V : val N m2 (e + k) = 2 * val N (Zpos mi) ei).
  { rewrite E2. unfold val, j.
    assert (X : 2 ^ (52 - k) * 2 ^ (e + k + N) = 2 * 2 ^ (ei + N)).
    { rewrite <- Z.pow_add_r by (unfold e; lia).
      replace (52 - k + (e + k + N)) with (1 + (ei + N)) by (unfold e; lia).
      rewrite (Z.pow_add_r 2 1 (ei + N)) by lia. reflexivity. }
    replace (2 * (Zpos mi * 2 ^ (ei + N)))
      with (Zpos mi * (2 * 2 ^ (ei + N))) by ring.
    rewrite <- X. ring. }
  assert (K2 : dropped m2 (e + k) = 0).
  { assert (U2 : m2 < 2 ^ 53).
    { rewrite E2. unfold j.
      destruct (digits2_pos_bounds mi) as [_ U].
      assert (D : Zpos (digits2_pos mi) <= k + 1)
        by (unfold k, dropped, fexp64, e; lia).
      assert (P : 2 ^ Zpos (digits2_pos mi) <= 2 ^ (k + 1))
        by (apply Z.pow_le_mono_r; lia).
      assert (X : 2 ^ (52 - k) * 2 ^ (k + 1) = 2 ^ 53)
        by (rewrite <- Z.pow_add_r by lia; f_equal; lia).
      rewrite <- X. apply Z.mul_lt_mono_pos_l; [apply pow2_pos; lia|lia]. }
    pose proof (Zdigits2_le m2 53 ltac:(lia) ltac:(lia)) as D2.
    unfold dropped, fexp64 in *. unfold k, dropped, fexp64, e. lia. }
  rewrite V, K2 in Hres.
  destruct (binary_round_aux prec emax s m e (loc_of 0 1))
    as [sz|sz| |sz mz ez]; try exact Hres.
  - destruct Hres as [_ Z0]. lia.
  - destruct Hres as [Rs [_ Ho]]. split; [exact Rs|].
    assert (Ek : ei = 971 /\ k = 52) by (unfold e in *; lia).
    destruct Ek as [-> Ek].
    assert (D53 : Zpos (digits2_pos mi) = 53) by (apply Dn; lia).
    destruct (digits2_pos_bounds mi) as [L _]. rewrite D53 in L.
    unfold val.
    assert (X : 2 ^ (1024 + N) = 2 * (2 ^ (53 - 1) * 2 ^ (971 + N))).
    { rewrite <- Z.pow_add_r by lia.
      replace (1024 + N) with (1 + (53 - 1 + (971 + N))) by lia.
      rewrite (Z.pow_add_r 2 1) by lia. reflexivity. }
    rewrite X.
    apply Z.mul_le_mono_nonneg_l; [lia|].
    apply Z.mul_le_mono_nonneg_r; [apply Z.pow_nonneg; lia|exact L].
  - destruct Hres as [Rs [_ Rv]]. split; assumption.
Qed.

(** [1 / (a / b)] for [0 < a < b < 2 a], on the level of [spec_float]; [r]
    is the quotient [a / b] and [p] the product [2 a] as the hardware
    returns them. *)
Lemma SF_single_ratio_up (a b r p : spec_float) :
  valid_binary a = true ->
  valid_binary b = true ->
  valid_binary r = true ->
  valid_binary p = true ->
  r = SFdiv prec emax a b ->
  p = SFmul prec emax (S754_finite false 4503599627370496 (-51)) a ->
  SFltb (S754_zero false) b = true ->
  SFltb a b = true ->
  SFltb b p = true ->
  match SFdiv prec emax SF_one r with
  | S754_finite s m e =>
      s = false /\ 0 <= e + N
      /\ 1 * 2 ^ N <= val N (Zpos m) e < (1 + 1) * 2 ^ N
  | _ => False
  end.
Proof.
  intros Va Vb Vr Vp Er Ep Hb Hab Hba.
  destruct b as [sb|[|]| |[|] mb eb]; try discriminate Hb.
  - exfalso. destruct p as [sp|[|]| |[|] mp ep]; discriminate Hba.
  - destruct a as [sa|[|]| |[|] ma ea]; try discriminate Hab.
    + subst p. discriminate Hba.
    + subst p. discriminate Hba.
    + exfalso. pose proof (SFmul_two true ma ea Va) as M.
      rewrite <- Ep in M.
      destruct p as [sp|sp| |sp mp ep]; try contradiction;
        destruct M as [-> _]; discriminate Hba.
    + cbn [valid_binary] in Va, Vb.
      pose proof (SFltb_val N ma ea mb eb Va Vb ltac:(lia) Hab) as Hlt.
      assert (Hlt2 : val N (Zpos mb) eb < 2 * val N (Zpos ma) ea).
      { pose proof (SFmul_two false ma ea Va) as M. rewrite <- Ep in M.
        destruct p as [sp|sp| |sp mp ep]; try contradiction.
        - destruct M as [_ M].
          pose proof (bounded_lt_53 _ _ Vb) as Ub.
          apply bounded_facts in Vb as [Rb _]. unfold val in *.
          assert (P : 2 ^ (eb + N) <= 2 ^ (971 + N))
            by (apply Z.pow_le_mono_r; lia).
          assert (X : 2 ^ (1024 + N) = 2 ^ 53 * 2 ^ (971 + N))
            by (rewrite <- Z.pow_add_r by lia; f_equal; lia).
          pose proof (pow2_pos (eb + N) ltac:(lia)) as Pe.
          assert (S1 : Zpos mb * 2 ^ (eb + N) < 2 ^ 53 * 2 ^ (eb + N))
            by (apply Z.mul_lt_mono_pos_r; lia).
          assert (S2 : 2 ^ 53 * 2 ^ (eb + N) <= 2 ^ 53 * 2 ^ (971 + N))
            by (apply Z.mul_le_mono_nonneg_l; lia).
          lia.
        - destruct M as [-> M]. rewrite <- M. cbn [valid_binary] in Vp.
          exact (SFltb_val N mb eb mp ep Vb Vp ltac:(lia) Hba). }
      pose proof (ratio_above_half ma ea mb eb Va Vb Hlt Hlt2) as R.
      rewrite <- Er in R.
      destruct r as [sr|sr| |sr mr er]; try contradiction.
      destruct R as [-> [R1 R2]]. cbn [valid_binary] in Vr.
      exact (inverse_below_two mr er Vr R1 R2).
Qed.

(** [a / b] for [2 a <= b] is at most 1/2, or a zero. *)
Lemma ratio_at_most_half (ma : positive) (ea : Z) (mb : positive) (eb : Z)
      (r : spec_float) :
  bounded prec emax ma ea = true -> bounded prec emax mb eb = true ->
  valid_binary r = true ->
  r = SFdiv prec emax (S754_finite false ma ea) (S754_finite false mb eb) ->
  2 * val N (Zpos ma) ea <= val N (Zpos mb) eb ->
  match r with
  | S754_finite s m e => s = false /\ 2 * val N (Zpos m) e <= 2 ^ N
  | S754_zero s => s = false
  | _ => False
  end.
Proof.
  intros Ba Bb Vr Er Hab.
  apply bounded_facts in Ba as [Ra _]. apply bounded_facts in Bb as [Rb _].
  pose proof (pow2_pos (ea + N) ltac:(lia)) as Pa.
  assert (PA : 0 < val N (Zpos ma) ea) by (unfold val; nia).
  pose proof (SFdiv_le N 1 ma ea mb eb Ra Rb HN ltac:(lia) ltac:(lia)) as L.
  destruct (SFdiv_nearest N 0 ma ea mb eb Ra Rb HN ltac:(lia)
              ltac:(rewrite Z.add_0_r; lia))
    as [v [h [Hv [[Hh0 Hh] [Hup [_ Hres]]]]]].
  change (fexp64 0) with (-53) in Hh.
  set (A := val N (Zpos ma) ea) in *. set (B := val N (Zpos mb) eb) in *.
  set (Q := 2 ^ (-53 + N)) in *.
  assert (PQ : 0 < Q) by (apply pow2_pos; lia).
  assert (EP : 2 ^ N = 2 ^ 53 * Q).
  { unfold Q. rewrite <- Z.pow_add_r by lia. f_equal. lia. }
  assert (Hv2 : 2 * v <= 2 ^ 53 * Q + Q).
  { assert (S1 : h * B <= Q * B) by (apply Z.mul_le_mono_nonneg_r; lia).
    assert (S2 : 2 * (A * 2 ^ N) <= B * 2 ^ N)
      by (rewrite Z.mul_assoc; apply Z.mul_le_mono_nonneg_r; lia).
    rewrite EP in *.
    assert (S3 : 2 * v * B <= (2 ^ 53 * Q + Q) * B) by lia.
    apply Z.mul_le_mono_pos_r in S3; lia. }
  rewrite <- Er in L, Hres.
  destruct r as [sr|sr| |sr mr er]; try contradiction.
  - exact L.
  - destruct Hres as [_ [He V]]. destruct L as [Ls _].
    split; [exact Ls|]. rewrite V, EP.
    cbn [valid_binary] in Vr. pose proof (bounded_lt_53 _ _ Vr) as Ur.
    subst v. unfold val in *.
    destruct (Z.le_gt_cases (-53) er) as [C|C].
    + assert (Ee : 2 ^ (er + N) = 2 ^ (er + 53) * Q).
      { unfold Q. rewrite <- Z.pow_add_r by lia. f_equal. lia. }
      rewrite Ee in *.
      set (j := Zpos mr * 2 ^ (er + 53)).
      assert (Hj : 2 * j * Q <= (2 ^ 53 + 1) * Q) by (unfold j; lia).
      apply Z.mul_le_mono_pos_r in Hj; [|exact PQ].
      assert (J : 2 * j <= 2 ^ 53) by lia.
      assert (X : 2 * j * Q <= 2 ^ 53 * Q)
        by (apply Z.mul_le_mono_nonneg_r; lia).
      unfold j in X. lia.
    + assert (P : 2 ^ (er + N) <= 2 ^ (-54 + N))
        by (apply Z.pow_le_mono_r; lia).
      assert (E54 : Q = 2 * 2 ^ (-54 + N)).
      { unfold Q. replace (-53 + N) with (1 + (-54 + N)) by lia.
        rewrite (Z.pow_add_r 2 1 (-54 + N)) by lia. reflexivity. }
      pose proof (pow2_pos (er + N) ltac:(lia)) as Pe.
      assert (S1 : Zpos mr * 2 ^ (er + N) <= 2 ^ 53 * 2 ^ (er + N))
        by (apply Z.mul_le_mono_nonneg_r; lia).
      assert (S2 : 2 ^ 53 * 2 ^ (er + N) <= 2 ^ 53 * 2 ^ (-54 + N))
        by (apply Z.mul_le_mono_nonneg_l; lia).
      lia.
Qed.

(** [1 / r] for a positive [r] that is at most 1/2 is at least 2, or
    infinite. *)
Lemma inverse_at_least_two (mr : positive) (er : Z) :
  bounded prec emax mr er = true ->
  2 * val N (Zpos mr) er <= 2 ^ N ->
  match SFdiv prec emax SF_one (S754_finite false mr er) with
  | S754_finite s m e =>
      s = false /\ 0 <= e + N /\ 2 * 2 ^ N <= val N (Zpos m) e
  | S754_infinity s => s = false
  | _ => False
  end.
Proof.
  intros Br Hr. apply bounded_facts in Br as [Rr _].
  assert (E1 : val N 4503599627370496 (-52) = 2 ^ N).
  { unfold val. change 4503599627370496 with (2 ^ 52).
    rewrite <- Z.pow_add_r by lia. f_equal. lia. }
  pose proof (SFdiv_ge N 2 0 4503599627370496 (-52) mr er ltac:(lia) Rr HN
                ltac:(cbn; lia) ltac:(lia) ltac:(lia)) as G.
  rewrite E1, Z.add_0_l in G.
  specialize (G ltac:(rewrite (Z.mul_comm 2), <- Z.mul_assoc;
                      apply Z.mul_le_mono_nonneg_l;
                      [apply Z.pow_nonneg; lia|exact Hr])).
  pose proof (SFdiv_rel N 4503599627370496 (-52) mr er ltac:(lia) Rr HN) as R.
  unfold SF_one.
  destruct (SFdiv prec emax (S754_finite false 4503599627370496 (-52))
                  (S754_finite false mr er)) as [sz|sz| |sz mz ez];
    try contradiction; [exact G|].
  destruct G as [Gs Gv]. destruct R as [_ [Re _]].
  split; [exact Gs|]. split; [exact Re|exact Gv].
Qed.

(** [1 / (a / b)] for [0 < a] and [2 a <= b]. *)
Lemma SF_single_ratio_far (a b r p : spec_float) :
  valid_binary a = true ->
  valid_binary b = true ->
  valid_binary r = true ->
  valid_binary p = true ->
  r = SFdiv prec emax a b ->
  p = SFmul prec emax (S754_finite false 4503599627370496 (-51)) a ->
  SFltb (S754_zero false) a = true ->
  SFleb p b = true ->
  SFeqb a b = false ->
  match SFdiv prec emax SF_one r with
  | S754_finite s m e =>
      s = false /\ 0 <= e + N /\ 2 * 2 ^ N <= val N (Zpos m) e
  | S754_infinity s => s = false
  | _ => False
  end.
Proof.
  intros Va Vb Vr Vp Er Ep Ha Hpb Hne.
  destruct a as [sa|[|]| |[|] ma ea]; try discriminate Ha.
  - exfalso. subst p. cbn [SFmul xorb] in Hpb.
    destruct b as [sb|[|]| |sb mb eb]; try discriminate Hpb.
    discriminate Hne.
  - cbn [valid_binary] in Va.
    pose proof (SFmul_two false ma ea Va) as M. rewrite <- Ep in M.
    destruct b as [sb|[|]| |[|] mb eb];
      try (destruct p as [sp|sp| |sp mp ep]; try contradiction;
           destruct M as [-> _]; discriminate Hpb).
    + subst r. reflexivity.
    + cbn [valid_binary] in Vb.
      assert (Hab : 2 * val N (Zpos ma) ea <= val N (Zpos mb) eb).
      { destruct p as [sp|sp| |sp mp ep]; try contradiction;
          destruct M as [-> M]; [discriminate Hpb|].
        rewrite <- M. cbn [valid_binary] in Vp.
        exact (SFleb_val N mp ep mb eb Vp Vb ltac:(lia) Hpb). }
      pose proof (ratio_at_most_half ma ea mb eb r Va Vb Vr Er Hab) as R.
      destruct r as [sr|sr| |sr mr er]; try contradiction.
      * subst sr. reflexivity.
      * destruct R as [-> R]. cbn [valid_binary] in Vr.
        exact (inverse_at_least_two mr er Vr R).
Qed.

End HalfUlp.

(** The floor of a number that is at least 2 is no valid length, or a
    length of at least 2. *)
Lemma floor_at_least_two (N : Z) (q : float) (m : positive) (e : Z) :
  Prim2SF q = S754_finite false m e ->
  0 <= e + N -> 0 <= N ->
  2 * 2 ^ N <= val N (Zpos m) e ->
  ToIndexZ (Math_floor q) = None
  \/ exists k, ToIndexZ (Math_floor q) = Some k /\ 2 <= k.
Proof.
  intros E He HN Hv. unfold Math_floor. rewrite E.
  pose proof (Prim2SF_valid q) as V. rewrite E in V. cbn [valid_binary] in V.
  pose proof (bounded_lt_53 _ _ V) as U.
  unfold val in Hv.
  pose proof (pow2_pos N HN) as PN.
  pose proof (pow2_pos (e + N) He) as Pe.
  destruct (Z.leb_spec 0 e) as [Hpos|Hneg].
  - unfold ToIndexZ. rewrite E. unfold truncZ.
    rewrite Z.shiftl_mul_pow2 by exact Hpos.
    pose proof (pow2_pos e Hpos) as P.
    rewrite (Z.pow_add_r 2 e N) in Hv by lia.
    assert (Hk : 2 <= Zpos m * 2 ^ e) by nia.
    destruct (Z.ltb_spec (Zpos m * 2 ^ e) 0); [lia|].
    destruct (max_safe_integer <? Zpos m * 2 ^ e); [left; reflexivity|].
    right. eexists. split; [reflexivity|exact Hk].
  - unfold signed. rewrite Z.shiftl_div_pow2 by lia.
    assert (EN : 2 ^ N = 2 ^ (- e) * 2 ^ (e + N))
      by (rewrite <- Z.pow_add_r by lia; f_equal; lia).
    pose proof (pow2_pos (- e) ltac:(lia)) as Pn.
    rewrite EN in Hv.
    assert (H1 : 2 * 2 ^ (- e) <= Zpos m) by nia.
    assert (Hk : 2 <= Zpos m / 2 ^ (- e))
      by (apply Z.div_le_lower_bound; lia).
    assert (Hu : Zpos m / 2 ^ (- e) < 2 ^ 53).
    { apply Z.div_lt_upper_bound; [lia|]. nia. }
    right. exists (Zpos m / 2 ^ (- e)). split; [|exact Hk].
    apply ToIndexZ_of_Z. lia.
Qed.

Lemma SFcompare_antisym (a b : spec_float) (c : comparison) :
  SFcompare a b = Some c -> SFcompare b a = Some (CompOpp c).
Proof.
  destruct a as [sa|sa| |sa ma ea], b as [sb|sb| |sb mb eb]; cbn;
    try discriminate; intros H; injection H as <-;
    try (destruct sa; reflexivity); try (destruct sb; reflexivity);
    try (destruct sa, sb; reflexivity).
  destruct sa, sb; try reflexivity;
    rewrite (Z.compare_antisym ea eb); destruct (ea ?= eb)%Z; cbn; try reflexivity;
    rewrite (Pos.compare_cont_antisym); try rewrite CompOpp_involutive; reflexivity.
Qed.

(** With a positive target rate below twice the source rate, the source
    rate is below the target rate or not. *)
Lemma SFltb_false_leb (a b p : spec_float) :
  valid_binary a = true ->
  p = SFmul prec emax (S754_finite false 4503599627370496 (-51)) a ->
  SFltb (S754_zero false) b = true ->
  SFltb b p = true ->
  SFltb a b = false ->
  SFleb b a = true.
Proof.
  intros Va Ep Hb Hbp Hab.
  destruct b as [sb|[|]| |[|] mb eb]; try discriminate Hb.
  - destruct p as [sp|[|]| |[|] mp ep]; discriminate Hbp.
  - destruct a as [sa|[|]| |[|] ma ea]; try (subst p; discriminate Hbp).
    + reflexivity.
    + exfalso. pose proof (SFmul_two 3200 ltac:(lia) true ma ea Va) as M.
      rewrite <- Ep in M.
      destruct p as [sp|sp| |sp mp ep]; try contradiction;
        destruct M as [-> _]; discriminate Hbp.
    + unfold SFltb in Hab. unfold SFleb.
      destruct (SFcompare (S754_finite false ma ea) (S754_finite false mb eb))
        as [c|] eqn:Hc; [|discriminate Hc].
      rewrite (SFcompare_antisym _ _ _ Hc).
      destruct c; try reflexivity. discriminate Hab.
Qed.

End Rounding.

(** ** Resampler *)

Lemma forall_from_spec (f : Z -> bool) (count : nat) :
  forall lo : Z,
    forall_from f lo count = true ->
    forall z : Z, (lo <= z < lo + Z.of_nat count)%Z -> f z = true.
Proof.
  induction count as [|c IH]; intros lo H z Hz; [lia|].
  cbn [forall_from] in H. destruct (f lo) eqn:H0; [|discriminate H].
  destruct (Z.eq_dec z lo) as [->|Hne]; [exact H0|].
  apply (IH (lo + 1)%Z H). lia.
Qed.

(** What [resampleBuffer] returns is an array of [output_length] samples, or
    a RangeError when there is no such length. *)
Lemma resampleBuffer_shape (buffer : list float) (inputRate outputRate : float) :
  match output_length (Z.of_nat (length buffer)) inputRate outputRate with
  | Some n => exists out, resampleBuffer buffer inputRate outputRate = Normal out
                          /\ Z.of_nat (length out) = n
  | None => resampleBuffer buffer inputRate outputRate = Throw RangeError
  end.
Proof.
  unfold output_length, resampleBuffer, ToIndex.
  destruct (inputRate =? outputRate).
  - exists buffer. split; reflexivity.
  - destruct (ToIndexZ _) as [n|] eqn:Hn; cbn [option_map]; [|reflexivity].
    eexists. split; [reflexivity|].
    rewrite length_map, length_seq.
    apply Z2Nat.id.
    unfold ToIndexZ in Hn.
    destruct (Prim2SF _); try (injection Hn as <-; lia).
    + discriminate Hn.
    + destruct (truncZ s m e <? 0)%Z eqn:Hneg; [discriminate Hn|].
      destruct (max_safe_integer <? _)%Z; [discriminate Hn|].
      injection Hn as <-. apply Z.ltb_ge in Hneg. exact Hneg.
Qed.

Section SingleSample.
Local Open Scope Z_scope.

(** The floor of a number between 0 and 1 allocates no element or one. *)
Lemma floor_index (N : Z) (q : float) :
  0 <= N ->
  match Prim2SF q with
  | S754_zero false => True
  | S754_finite false m e => 0 <= e + N /\ val N (Zpos m) e <= 2 ^ N
  | _ => False
  end ->
  ToIndexZ (Math_floor q) = Some 0 \/ ToIndexZ (Math_floor q) = Some 1.
Proof.
  intros HN. unfold Math_floor.
  destruct (Prim2SF q) as [[|]| | |[|] m e] eqn:E; try contradiction.
  - intros _. left. unfold ToIndexZ. rewrite E. reflexivity.
  - intros [He Hv]. unfold val in Hv.
    pose proof (pow2_pos (e + N) He) as Pe.
    destruct (Z.leb_spec 0 e) as [Hpos|Hneg].
    + right. unfold ToIndexZ. rewrite E. unfold truncZ.
      rewrite Z.shiftl_mul_pow2 by exact Hpos.
      pose proof (pow2_pos e Hpos) as P.
      rewrite Z.pow_add_r in Hv by lia.
      pose proof (pow2_pos N HN) as PN.
      assert (Zpos m * 2 ^ e = 1) by nia.
      rewrite H. reflexivity.
    + unfold signed. rewrite Z.shiftl_div_pow2 by lia.
      assert (EN : 2 ^ N = 2 ^ (- e) * 2 ^ (e + N))
        by (rewrite <- Z.pow_add_r by lia; f_equal; lia).
      pose proof (pow2_pos (- e) ltac:(lia)) as Pn.
      assert (Hm : Zpos m <= 2 ^ (- e)) by nia.
      assert (Hd : 0 <= Zpos m / 2 ^ (- e) <= 1).
      { split; [apply Z.div_pos; lia|].
        apply Z.div_le_upper_bound; lia. }
      destruct (Z.eq_dec (Zpos m / 2 ^ (- e)) 0) as [->|Hnz];
        [left; reflexivity|].
      replace (Zpos m / 2 ^ (- e)) with 1 by lia. right. reflexivity.
Qed.

(** [1 / (a / b)] for [0 < b <= a], on the level of [spec_float]; [r] is
    the quotient [a / b] as the hardware returns it. *)
Lemma SF_single_ratio (a b r : spec_float) :
  valid_binary a = true ->
  valid_binary b = true ->
  valid_binary r = true ->
  r = SFdiv prec emax a b ->
  SFltb (S754_zero false) b = true ->
  SFleb b a = true ->
  SFeqb a b = false ->
  match SFdiv prec emax SF_one r with
  | S754_zero false => True
  | S754_finite false m e => 0 <= e + 3200 /\ val 3200 (Zpos m) e <= 2 ^ 3200
  | _ => False
  end.
Proof.
  intros Va Vb Vr Er Hb Hle Hne.
  destruct b as [sb|[|]| |[|] mb eb]; try discriminate Hb.
  - destruct a as [sa|[|]| |sa ma ea]; try discriminate Hle; discriminate Hne.
  - destruct a as [sa|[|]| |[|] ma ea]; try discriminate Hle.
    + subst r. exact I.
    + cbn [valid_binary] in Va, Vb.
      pose proof (SFleb_val 3200 mb eb ma ea Vb Va ltac:(lia) Hle) as Hv.
      pose proof (bounded_facts _ _ Va) as [Ra [Da _]].
      pose proof (bounded_facts _ _ Vb) as [Rb _].
      pose proof (pow2_pos 3200 ltac:(lia)) as PW.
      pose proof (SFdiv_ge 3200 1 0 ma ea mb eb Ra Rb ltac:(lia) Da
                    ltac:(lia) ltac:(lia)) as G.
      rewrite Z.mul_1_l, Z.add_0_l in G.
      specialize (G ltac:(rewrite (Z.mul_comm (2 ^ 3200));
                          apply Z.mul_le_mono_nonneg_r; lia)).
      rewrite <- Er in G.
      destruct r as [sr|sr| |sr mr er]; try contradiction.
      * subst sr. exact I.
      * destruct G as [-> G]. cbn [valid_binary] in Vr.
        pose proof (bounded_facts _ _ Vr) as [Rr _].
        assert (H1 : val 3200 4503599627370496 (-52) <= val 3200 (Zpos mr) er).
        { unfold val in *. replace (-52 + 3200) with 3148 by lia.
          change (4503599627370496 * 2 ^ 3148) with (2 ^ 3200). exact G. }
        pose proof (SFdiv_le 3200 1 4503599627370496 (-52) mr er
                      ltac:(lia) Rr ltac:(lia) ltac:(lia)) as L.
        rewrite !Z.mul_1_l in L. specialize (L H1).
        unfold SF_one.
        destruct (SFdiv prec emax (S754_finite false 4503599627370496 (-52))
                    (S754_finite false mr er)) as [sz| | |sz mz ez];
          try contradiction.
        -- subst sz. exact I.
        -- destruct L as [-> L]. exact L.
Qed.

Lemma single_sample_index (i o : float) :
  (0 <? o)%float = true -> (o <=? i)%float = true ->
  (i =? o)%float = false ->
  ToIndexZ (newLength 1 i o) = Some 0 \/ ToIndexZ (newLength 1 i o) = Some 1.
Proof.
  rewrite ltb_spec, leb_spec, eqb_spec. intros Ho Hle Hne.
  unfold newLength. apply (floor_index 3200); [lia|].
  rewrite div_spec.
  apply (SF_single_ratio (Prim2SF i) (Prim2SF o) (Prim2SF (i / o)));
    try apply Prim2SF_valid; try assumption.
  apply div_spec.
Qed.

Lemma single_sample_index_up (i o : float) :
  (0 <? o)%float = true -> (i <? o)%float = true ->
  (o <? 2 * i)%float = true ->
  ToIndexZ (newLength 1 i o) = Some 1.
Proof.
  rewrite !ltb_spec. intros Ho Hio Hoi.
  unfold newLength.
  pose proof (SF_single_ratio_up 3200 ltac:(lia)
                (Prim2SF i) (Prim2SF o) (Prim2SF (i / o)) (Prim2SF (2 * i))
                (Prim2SF_valid i) (Prim2SF_valid o) (Prim2SF_valid (i / o))
                (Prim2SF_valid (2 * i))
                (div_spec i o) (mul_spec 2 i) Ho Hio Hoi) as H.
  pose proof (div_spec (of_Z 1) (i / o)) as E.
  change (Prim2SF (of_Z 1)) with SF_one in E. unfold SF64div in E.
  rewrite <- E in H.
  destruct (Prim2SF (of_Z 1 / (i / o))) as [sz|sz| |sz mz ez] eqn:Eq;
    try contradiction.
  destruct H as [-> [He Hv]].
  exact (floor_val 3200 1 _ mz ez Eq He ltac:(lia) ltac:(lia) Hv).
Qed.

Lemma single_sample_index_far (i o : float) :
  (0 <? i)%float = true -> (2 * i <=? o)%float = true ->
  (i =? o)%float = false ->
  ToIndexZ (newLength 1 i o) = None
  \/ exists k, ToIndexZ (newLength 1 i o) = Some k /\ 2 <= k.
Proof.
  rewrite ltb_spec, leb_spec, eqb_spec. intros Hi Hio Hne.
  unfold newLength.
  pose proof (SF_single_ratio_far 3200 ltac:(lia)
                (Prim2SF i) (Prim2SF o) (Prim2SF (i / o)) (Prim2SF (2 * i))
                (Prim2SF_valid i) (Prim2SF_valid o) (Prim2SF_valid (i / o))
                (Prim2SF_valid (2 * i))
                (div_spec i o) (mul_spec 2 i) Hi Hio Hne) as H.
  pose proof (div_spec (of_Z 1) (i / o)) as E.
  change (Prim2SF (of_Z 1)) with SF_one in E. unfold SF64div in E.
  rewrite <- E in H.
  destruct (Prim2SF (of_Z 1 / (i / o))) as [sz|sz| |sz mz ez] eqn:Eq;
    try contradiction.
  - left. unfold Math_floor, ToIndexZ. rewrite Eq. rewrite Eq. reflexivity.
  - destruct H as [-> [He Hv]].
    exact (floor_at_least_two 3200 _ mz ez Eq He ltac:(lia) Hv).
Qed.

Lemma single_sample_index_near (i o : float) :
  (0 <? o)%float = true -> (o <? 2 * i)%float = true ->
  (i =? o)%float = false ->
  ToIndexZ (newLength 1 i o) = Some 0%Z \/ ToIndexZ (newLength 1 i o) = Some 1%Z.
Proof.
  intros Ho Hoi Hne. destruct (i <? o)%float eqn:Hio.
  - right. apply single_sample_index_up; assumption.
  - apply single_sample_index; [exact Ho| |exact Hne].
    rewrite ltb_spec in Ho, Hoi, Hio. rewrite leb_spec.
    exact (SFltb_false_leb _ _ _ (Prim2SF_valid i) (mul_spec 2 i) Ho Hoi Hio).
Qed.

End SingleSample.

Lemma device_rates_checked :
  forallb (fun r => forall_from (length_agrees r) 0 (Z.to_nat 16385))
          device_rates = true.
Proof. vm_cast_no_check (eq_refl true). Qed.

(** C7 (as stated, refuted): up-sampling one sample from 8000 Hz to
    16000 Hz returns two samples; and with a source rate of 1 Hz and a
    target rate of 2^60 Hz the requested length is no valid array length,
    so the call throws. *)
Lemma single_sample_upsampled_to_two :
  resampleBuffer [0.5] 8000 16000 = Normal [0.5; 0.5] /\
  ~ single_sample_bounded 0.5 8000 16000 /\
  resampleBuffer [0.5] 1 (of_Z (2 ^ 60)) = Throw RangeError.
Proof.
  split; [vm_compute; reflexivity|]. split; [|vm_compute; reflexivity].
  intros [out [H Hlen]].
  assert (E : resampleBuffer [0.5] 8000 16000 = Normal [0.5; 0.5])
    by (vm_compute; reflexivity).
  rewrite E in H. injection H as <-. simpl in Hlen. lia.
Qed.

(** C7 (amended): for every single-sample buffer, with a positive target
    rate below twice the source rate the resampler returns without
    throwing, and what it returns has at most one sample; with a positive
    source rate and a target rate above it and at least twice it, the
    resampler throws or returns at least two samples. *)
Theorem single_sample_length (x inputRate outputRate : float) :
  ((0 <? outputRate) = true -> (outputRate <? 2 * inputRate) = true ->
   exists out, resampleBuffer [x] inputRate outputRate = Normal out
               /\ (length out <= 1)%nat) /\
  ((0 <? inputRate) = true -> (inputRate <? outputRate) = true ->
   (2 * inputRate <=? outputRate) = true ->
   resampleBuffer [x] inputRate outputRate = Throw RangeError
   \/ exists out, resampleBuffer [x] inputRate outputRate = Normal out
                  /\ (2 <= length out)%nat).
Proof.
  split.
  - intros Ho Hoi. unfold resampleBuffer.
    destruct (inputRate =? outputRate) eqn:Eq.
    + exists [x]. split; [reflexivity|apply le_n].
    + change (Z.of_nat (length [x])) with 1%Z. unfold ToIndex.
      destruct (single_sample_index_near inputRate outputRate Ho Hoi Eq)
        as [-> | ->];
        cbn [option_map]; eexists; (split; [reflexivity|]);
        rewrite length_map, length_seq.
      * apply Nat.le_0_l.
      * apply le_n.
  - intros Hi Hio Hoi. unfold resampleBuffer.
    assert (Eq : (inputRate =? outputRate) = false).
    { rewrite ltb_spec in Hio. rewrite eqb_spec.
      unfold SFltb in Hio. unfold SFeqb.
      destruct (SFcompare _ _) as [[| |]|]; try discriminate Hio;
        reflexivity. }
    rewrite Eq. change (Z.of_nat (length [x])) with 1%Z. unfold ToIndex.
    destruct (single_sample_index_far inputRate outputRate Hi Hoi Eq)
      as [-> | [k [-> Hk]]]; cbn [option_map].
    + left. reflexivity.
    + right. eexists. split; [reflexivity|].
      rewrite length_map, length_seq. lia.
Qed.

Lemma single_sample_length_witness :
  (exists out, resampleBuffer [0.5] 11025 PCM_SAMPLE_RATE = Normal out
               /\ (length out <= 1)%nat) /\
  (resampleBuffer [0.5] 8000 PCM_SAMPLE_RATE = Throw RangeError
   \/ exists out, resampleBuffer [0.5] 8000 PCM_SAMPLE_RATE = Normal out
                  /\ (2 <= length out)%nat).
Proof.
  split.
  - apply (proj1 (single_sample_length 0.5 11025 PCM_SAMPLE_RATE));
      reflexivity.
  - apply (proj2 (single_sample_length 0.5 8000 PCM_SAMPLE_RATE));
      reflexivity.
Defined.

Section LengthFormula.
Local Open Scope Z_scope.

Lemma arith_lower (E n s t J R W : Z) :
  0 < t -> 0 < s -> 0 <= R -> 0 < W -> 0 <= J -> 1 < E ->
  R * t * (E - 1) <= E * s * W ->
  J * E * s <= n * t * (E - 1) ->
  J * R <= n * W.
Proof.
  intros Ht Hs HR HW HJ HE A H.
  assert (H1 : J * (R * t * (E - 1)) <= J * (E * s * W))
    by (apply Z.mul_le_mono_nonneg_l; assumption).
  assert (H2 : J * E * s * W <= n * t * (E - 1) * W)
    by (apply Z.mul_le_mono_nonneg_r; lia).
  assert (H3 : J * R * (t * (E - 1)) <= n * W * (t * (E - 1))).
  { replace (J * R * (t * (E - 1))) with (J * (R * t * (E - 1))) by ring.
    replace (n * W * (t * (E - 1))) with (n * t * (E - 1) * W) by ring.
    replace (J * (E * s * W)) with (J * E * s * W) in H1 by ring. lia. }
  apply Z.mul_le_mono_pos_r in H3; [exact H3|].
  apply Z.mul_pos_pos; lia.
Qed.

Lemma arith_upper (E n s t J R W : Z) :
  0 < t -> 0 < s -> 0 <= R -> 0 < W -> 0 <= n -> 1 < E ->
  E * s * W < R * t * (E + 3) ->
  n * t * (E + 3) <= J * s * E ->
  n * W <= J * R.
Proof.
  intros Ht Hs HR HW Hn HE B H.
  assert (H1 : n * (E * s * W) <= n * (R * t * (E + 3)))
    by (apply Z.mul_le_mono_nonneg_l; lia).
  assert (H2 : n * t * (E + 3) * R <= J * s * E * R)
    by (apply Z.mul_le_mono_nonneg_r; lia).
  assert (H3 : n * W * (s * E) <= J * R * (s * E)).
  { replace (n * W * (s * E)) with (n * (E * s * W)) by ring.
    replace (J * R * (s * E)) with (J * s * E * R) by ring.
    replace (n * (R * t * (E + 3))) with (n * t * (E + 3) * R) in H1 by ring.
    lia. }
  apply Z.mul_le_mono_pos_r in H3; [exact H3|].
  apply Z.mul_pos_pos; lia.
Qed.

Lemma arith_strict (E n s t J R W Q : Z) :
  0 < t -> 0 < s -> 0 < R -> 0 < W -> 0 <= n -> 1 < E -> 0 < J ->
  Q * (E - 1) * R <= E * n * W * W ->
  E * s * W < R * t * (E + 3) ->
  n * t * (E + 3) <= J * (E - 1) * s ->
  Q < J * W.
Proof.
  intros Ht Hs HR HW Hn HE HJ A B H.
  destruct (Z.lt_ge_cases Q (J * W)) as [|Hge]; [assumption|exfalso].
  assert (H1 : J * W * ((E - 1) * R) <= Q * ((E - 1) * R))
    by (apply Z.mul_le_mono_nonneg_r; [apply Z.mul_nonneg_nonneg; lia|lia]).
  assert (H2 : J * (E - 1) * R * W <= E * n * W * W).
  { replace (J * (E - 1) * R * W) with (J * W * ((E - 1) * R)) by ring.
    replace (Q * ((E - 1) * R)) with (Q * (E - 1) * R) in H1 by ring. lia. }
  apply Z.mul_le_mono_pos_r in H2; [|exact HW].
  assert (H3 : J * (E - 1) * R * (t * (E + 3)) <= E * n * W * (t * (E + 3)))
    by (apply Z.mul_le_mono_nonneg_r; lia).
  assert (H4 : J * (E - 1) * (E * s * W) < J * (E - 1) * (R * t * (E + 3)))
    by (apply Z.mul_lt_mono_pos_l; [apply Z.mul_pos_pos; lia|exact B]).
  assert (H5 : J * (E - 1) * s * (E * W) < n * t * (E + 3) * (E * W)).
  { replace (J * (E - 1) * s * (E * W)) with (J * (E - 1) * (E * s * W))
      by ring.
    replace (n * t * (E + 3) * (E * W)) with (E * n * W * (t * (E + 3)))
      by ring.
    replace (J * (E - 1) * (R * t * (E + 3)))
      with (J * (E - 1) * R * (t * (E + 3))) in H4 by ring. lia. }
  apply Z.mul_lt_mono_pos_r in H5; [lia|].
  apply Z.mul_pos_pos; lia.
Qed.

(** A normal number is at least [2 ^ 52] units of its last place. *)
Lemma normal_ulp (N : Z) (m : positive) (e : Z) :
  bounded prec emax m e = true -> 1074 <= N ->
  2 ^ (N - 1000) <= val N (Zpos m) e ->
  2 ^ 52 * 2 ^ (e + N) <= val N (Zpos m) e.
Proof.
  intros Hb HN Hv. pose proof (bounded_facts _ _ Hb) as [Re [Hd Hn]].
  destruct (digits2_pos_bounds m) as [L U].
  assert (He : -1074 < e).
  { destruct (Z.eq_dec e (-1074)) as [->|]; [exfalso|lia].
    unfold val in Hv.
    assert (U' : Zpos m < 2 ^ 53).
    { eapply Z.lt_le_trans; [exact U|]. apply Z.pow_le_mono_r; lia. }
    pose proof (pow2_pos (-1074 + N) ltac:(lia)) as P.
    assert (X : 2 ^ (N - 1000) < 2 ^ 53 * 2 ^ (-1074 + N)).
    { eapply Z.le_lt_trans; [exact Hv|].
      apply Z.mul_lt_mono_pos_r; assumption. }
    rewrite <- Z.pow_add_r in X by lia.
    apply Z.pow_lt_mono_r_iff in X; lia. }
  rewrite (Hn He) in L. change (53 - 1) with 52 in L.
  unfold val. apply Z.mul_le_mono_nonneg_r; [apply Z.pow_nonneg; lia|exact L].
Qed.

(** The error of a normal quotient, relative to the quotient. *)
Lemma SFdiv_normal_rel (N : Z) (mx : positive) (ex : Z) (my : positive)
      (ey : Z) (m : positive) (e : Z) :
  -1074 <= ex <= 971 -> -1074 <= ey <= 971 -> 3200 <= N ->
  SFdiv prec emax (S754_finite false mx ex) (S754_finite false my ey)
  = S754_finite false m e ->
  bounded prec emax m e = true ->
  2 ^ (N - 1000) <= val N (Zpos m) e ->
  val N (Zpos m) e * val N (Zpos my) ey * (2 ^ 52 - 1)
  <= 2 ^ 52 * val N (Zpos mx) ex * 2 ^ N
  /\ 2 ^ 52 * val N (Zpos mx) ex * 2 ^ N
     < val N (Zpos m) e * val N (Zpos my) ey * (2 ^ 52 + 3).
Proof.
  intros Hex Hey HN E Hb Hv.
  pose proof (SFdiv_rel N mx ex my ey Hex Hey HN) as R. rewrite E in R.
  destruct R as [_ [He [Rlo Rhi]]].
  pose proof (normal_ulp N m e Hb ltac:(lia) Hv) as Hu.
  set (Rv := val N (Zpos m) e) in *. set (u := 2 ^ (e + N)) in *.
  set (vy := val N (Zpos my) ey) in *. set (vx := val N (Zpos mx) ex) in *.
  set (W := 2 ^ N) in *.
  assert (Hvy : 0 < vy).
  { unfold vy, val. apply Z.mul_pos_pos; [lia|apply pow2_pos; lia]. }
  change (2 ^ 52) with 4503599627370496 in *.
  split.
  - assert (H1 : (4503599627370496 - 1) * Rv * vy
                 <= 4503599627370496 * (Rv - u) * vy)
      by (apply Z.mul_le_mono_nonneg_r; lia).
    assert (H2 : 4503599627370496 * ((Rv - u) * vy)
                 <= 4503599627370496 * (vx * W))
      by (apply Z.mul_le_mono_nonneg_l; lia).
    replace (Rv * vy * (4503599627370496 - 1))
      with ((4503599627370496 - 1) * Rv * vy) by ring.
    replace (4503599627370496 * vx * W)
      with (4503599627370496 * (vx * W)) by ring.
    replace (4503599627370496 * (Rv - u) * vy)
      with (4503599627370496 * ((Rv - u) * vy)) in H1 by ring.
    lia.
  - assert (H1 : 4503599627370496 * (Rv + 3 * u) * vy
                 <= (4503599627370496 + 3) * Rv * vy)
      by (apply Z.mul_le_mono_nonneg_r; lia).
    assert (H2 : 4503599627370496 * (vx * W)
                 < 4503599627370496 * ((Rv + 3 * u) * vy))
      by (apply Z.mul_lt_mono_pos_l; lia).
    replace (Rv * vy * (4503599627370496 + 3))
      with ((4503599627370496 + 3) * Rv * vy) by ring.
    replace (4503599627370496 * vx * W)
      with (4503599627370496 * (vx * W)) by ring.
    replace (4503599627370496 * (Rv + 3 * u) * vy)
      with (4503599627370496 * ((Rv + 3 * u) * vy)) in H1 by ring.
    lia.
Qed.

Section Scale.

(** The scale at which values are compared; any large enough one will do. *)
Variable N : Z.
Hypothesis HN : 3200 <= N.

(** The ratio [inputRate / outputRate] of two integer rates. *)
Lemma ratio_bounds (s t : Z) :
  0 < s < 2 ^ 53 -> 0 < t < 2 ^ 53 ->
  exists mr er,
    Prim2SF (of_Z s / of_Z t) = S754_finite false mr er
    /\ -1074 <= er <= 971
    /\ 0 < val N (Zpos mr) er
    /\ val N (Zpos mr) er * t * (2 ^ 52 - 1) <= 2 ^ 52 * s * 2 ^ N
    /\ 2 ^ 52 * s * 2 ^ N < val N (Zpos mr) er * t * (2 ^ 52 + 3).
Proof.
  intros Hs Ht.
  destruct (of_Z_val N s Hs ltac:(lia)) as [ms [es [Es [Rs [Ds Vs]]]]].
  destruct (of_Z_val N t Ht ltac:(lia)) as [mt [et [Et [Rt [Dt Vt]]]]].
  pose proof (Prim2SF_valid (of_Z s / of_Z t)) as V.
  rewrite div_spec in *. unfold SF64div in *. rewrite Es, Et in *.
  set (W := 2 ^ N) in *.
  assert (PW : 0 < W) by (apply pow2_pos; lia).
  pose proof (SFdiv_le N s ms es mt et Rs Rt ltac:(lia) ltac:(lia)) as Le.
  rewrite Vs, Vt in Le. specialize (Le ltac:(fold W; nia)).
  pose proof (SFdiv_ge N 1 (-53) ms es mt et Rs Rt ltac:(lia) Ds
                ltac:(lia) ltac:(lia)) as Ge.
  rewrite Vs, Vt in Ge.
  assert (P53 : 2 ^ N = 2 ^ 53 * 2 ^ (-53 + N))
    by (rewrite <- Z.pow_add_r by lia; f_equal; lia).
  assert (G : 1 * 2 ^ (-53 + N) * (t * 2 ^ N) <= s * 2 ^ N * 2 ^ N).
  { fold W. fold W in P53.
    pose proof (pow2_pos (-53 + N) ltac:(lia)) as P.
    set (w := 2 ^ (-53 + N)) in *.
    assert (t * w <= s * W).
    { rewrite P53. destruct Ht as [_ Ht].
      assert (t * w <= 2 ^ 53 * w) by (apply Z.mul_le_mono_nonneg_r; lia).
      assert (1 * (2 ^ 53 * w) <= s * (2 ^ 53 * w))
        by (apply Z.mul_le_mono_nonneg_r; lia).
      lia. }
    replace (1 * w * (t * W)) with (t * w * W) by ring.
    apply Z.mul_le_mono_nonneg_r; lia. }
  specialize (Ge G).
  destruct (SFdiv prec emax (S754_finite false ms es) (S754_finite false mt et))
    as [sz|sz| |sz mr er] eqn:Er; try contradiction.
  destruct Le as [-> [He Le]]. destruct Ge as [_ Ge].
  cbn [valid_binary] in V.
  pose proof (bounded_facts _ _ V) as [Rr _].
  assert (Hv : 2 ^ (N - 1000) <= val N (Zpos mr) er).
  { eapply Z.le_trans; [|exact Ge]. rewrite Z.mul_1_l.
    apply Z.pow_le_mono_r; lia. }
  pose proof (SFdiv_normal_rel N ms es mt et mr er Rs Rt ltac:(lia)
                Er V Hv) as [A B].
  rewrite Vs, Vt in A, B. fold W in A, B.
  exists mr, er. split; [reflexivity|]. split; [exact Rr|].
  assert (Hpos : 0 < val N (Zpos mr) er).
  { unfold val. apply Z.mul_pos_pos; [lia|apply pow2_pos; lia]. }
  split; [exact Hpos|].
  set (R := val N (Zpos mr) er) in *.
  change (2 ^ 52) with 4503599627370496 in *.
  split.
  - replace (R * (t * W) * (4503599627370496 - 1))
      with (R * t * (4503599627370496 - 1) * W) in A by ring.
    replace (4503599627370496 * (s * W) * W)
      with (4503599627370496 * s * W * W) in A by ring.
    apply Z.mul_le_mono_pos_r in A; [exact A|exact PW].
  - replace (R * (t * W) * (4503599627370496 + 3))
      with (R * t * (4503599627370496 + 3) * W) in B by ring.
    replace (4503599627370496 * (s * W) * W)
      with (4503599627370496 * s * W * W) in B by ring.
    apply Z.mul_lt_mono_pos_r in B; [exact B|exact PW].
Qed.

Lemma floor_zero (q : float) (s : bool) :
  Prim2SF q = S754_zero s -> ToIndexZ (Math_floor q) = Some 0.
Proof.
  intros E. unfold Math_floor. rewrite E. unfold ToIndexZ. rewrite E.
  reflexivity.
Qed.

(** For integer rates the computed length is the exact one, except that it
    may be one less when the exact quotient is an integer. *)
Lemma length_general_at (n s t : Z) :
  0 <= n -> 0 < s -> 0 < t < 2 ^ 53 -> n * t + s <= 2 ^ 50 ->
  exists k,
    ToIndexZ (newLength n (of_Z s) (of_Z t)) = Some k
    /\ exact_length n s t - 1 <= k <= exact_length n s t
    /\ (~ (s | n * t) -> k = exact_length n s t).
Proof.
  intros Hn Hs Ht Hb.
  assert (Hnt : 0 <= n * t) by (apply Z.mul_nonneg_nonneg; lia).
  assert (Hs53 : s < 2 ^ 53)
    by (change (2 ^ 50) with 1125899906842624 in Hb;
        change (2 ^ 53) with 9007199254740992; lia).
  destruct (ratio_bounds s t ltac:(lia) Ht) as [mr [er [Er [Rr [Rpos [A B]]]]]].
  unfold newLength, exact_length.
  pose proof (Prim2SF_valid (of_Z n / (of_Z s / of_Z t))) as V.
  pose proof (div_spec (of_Z n) (of_Z s / of_Z t)) as Eq.
  unfold SF64div in Eq. rewrite Er in Eq.
  set (q := (of_Z n / (of_Z s / of_Z t))%float) in *.
  set (K := n * t / s).
  pose proof (Z.mul_div_le (n * t) s Hs) as K1.
  pose proof (Z.mul_succ_div_gt (n * t) s Hs) as K2.
  fold K in K1, K2.
  assert (HK : 0 <= K) by (apply Z.div_pos; lia).
  destruct (Z.eq_dec n 0) as [->|Hn0].
  { exists 0. change (of_Z 0) with 0%float in *. cbn in Eq.
    split; [apply (floor_zero q _ Eq)|].
    assert (K = 0) by (unfold K; reflexivity). lia. }
  assert (Hn53 : 0 < n < 2 ^ 53).
  { change (2 ^ 50) with 1125899906842624 in Hb.
    change (2 ^ 53) with 9007199254740992. nia. }
  destruct (of_Z_val N n Hn53 ltac:(lia)) as [mn [en [En [Rn [Dn Vn]]]]].
  rewrite En in Eq.
  set (W := 2 ^ N) in *. set (R := val N (Zpos mr) er) in *.
  assert (PW : 0 < W) by (apply pow2_pos; lia).
  change (2 ^ 52) with 4503599627370496 in A, B.
  change (2 ^ 50) with 1125899906842624 in Hb.
  set (X := n * t) in *. set (Y := s * K) in *.
  assert (HKs : K * s = Y) by (unfold Y; ring).
  (* the quotient is at most K + 1 *)
  assert (Up : n * W <= (K + 1) * R).
  { assert (Hc : X * (4503599627370496 + 3) <= (K + 1) * s * 4503599627370496).
    { replace ((K + 1) * s * 4503599627370496)
        with ((Y + s) * 4503599627370496) by (rewrite <- HKs; ring). lia. }
    apply (arith_upper 4503599627370496 n s t (K + 1) R W); try lia;
      exact Hc. }
  pose proof (SFdiv_le N (K + 1) mn en mr er Rn Rr ltac:(lia)) as Le.
  rewrite Vn in Le. fold R W in Le.
  assert (HK53 : 1 <= K + 1 < 2 ^ 53).
  { change (2 ^ 53) with 9007199254740992. nia. }
  specialize (Le HK53 Up). rewrite <- Eq in Le.
  (* the quotient is at least J, for J = K - 1, and for J = K when the
     exact quotient is no integer *)
  assert (Low : forall J, 1 <= J <= K ->
            J * 4503599627370496 * s <= X * (4503599627370496 - 1) ->
            match Prim2SF q with
            | S754_finite _ m e => J * W <= val N (Zpos m) e
            | S754_zero _ => False
            | _ => True
            end).
  { intros J HJ HJs.
    pose proof (arith_lower 4503599627370496 n s t J R W
                  ltac:(lia) Hs ltac:(lia) PW ltac:(lia) ltac:(lia) A HJs)
      as HJR.
    pose proof (SFdiv_ge N J 0 mn en mr er Rn Rr ltac:(lia) Dn) as Ge.
    rewrite Vn, Z.add_0_l in Ge. fold R W in Ge.
    assert (HJ53 : 0 < J < 2 ^ 53)
      by (change (2 ^ 53) with 9007199254740992; nia).
    specialize (Ge HJ53 ltac:(lia)).
    assert (G : J * W * R <= n * W * W).
    { replace (J * W * R) with (J * R * W) by ring.
      apply Z.mul_le_mono_nonneg_r; lia. }
    specialize (Ge G). rewrite <- Eq in Ge.
    destruct (Prim2SF q) as [sz|sz| |sz mq eq]; try exact I;
      try contradiction.
    apply Ge. }
  assert (Low1 : 2 <= K ->
            match Prim2SF q with
            | S754_finite _ m e => (K - 1) * W <= val N (Zpos m) e
            | S754_zero _ => False
            | _ => True
            end).
  { intros HK2. apply Low; [lia|].
    replace ((K - 1) * 4503599627370496 * s)
      with ((Y - s) * 4503599627370496) by (rewrite <- HKs; ring).
    lia. }
  assert (Low2 : 1 <= K -> ~ (s | X) ->
            match Prim2SF q with
            | S754_finite _ m e => K * W <= val N (Zpos m) e
            | S754_zero _ => False
            | _ => True
            end).
  { intros HK1 Hnd. apply Low; [lia|].
    assert (X <> Y) by (intros HX; apply Hnd; exists K; lia).
    replace (K * 4503599627370496 * s) with (Y * 4503599627370496)
      by (rewrite <- HKs; ring).
    lia. }
  destruct (Prim2SF q) as [sz|sz| |sz mq eq] eqn:Pq; try contradiction.
  - (* the quotient underflows to zero *)
    exists 0. split; [apply (floor_zero q sz Pq)|].
    split.
    + destruct (Z.le_gt_cases 2 K) as [H2|H2]; [destruct (Low1 H2)|lia].
    + intros Hnd.
      destruct (Z.le_gt_cases 1 K) as [H1|H1]; [destruct (Low2 H1 Hnd)|lia].
  - destruct Le as [-> [He Le]].
    set (Q := val N (Zpos mq) eq) in *.
    assert (HQ : 0 < Q).
    { unfold Q, val. apply Z.mul_pos_pos; [lia|apply pow2_pos; lia]. }
    assert (Strict : Q < (K + 1) * W).
    { destruct (Z.lt_ge_cases Q (2 ^ (N - 1000))) as [Small|Big].
      - assert (2 ^ (N - 1000) <= W)
          by (apply Z.pow_le_mono_r; lia).
        nia.
      - cbn [valid_binary] in V.
        pose proof (SFdiv_normal_rel N mn en mr er mq eq Rn Rr
                      ltac:(lia) (eq_sym Eq) V Big) as [Aq _].
        rewrite Vn in Aq. fold Q R W in Aq.
        change (2 ^ 52) with 4503599627370496 in Aq.
        assert (Hc : X * (4503599627370496 + 3)
                     <= (K + 1) * (4503599627370496 - 1) * s).
        { replace ((K + 1) * (4503599627370496 - 1) * s)
            with ((Y + s) * (4503599627370496 - 1))
            by (rewrite <- HKs; ring).
          lia. }
        apply (arith_strict 4503599627370496 n s t (K + 1) R W Q);
          try lia; exact Hc. }
    exists (Q / W).
    pose proof (Z.mul_div_le Q W PW) as D1.
    pose proof (Z.mul_succ_div_gt Q W PW) as D2.
    assert (Dk : 0 <= Q / W <= K).
    { split; [apply Z.div_pos; lia|].
      assert (Q / W < K + 1) by (apply Z.div_lt_upper_bound; lia). lia. }
    split.
    + assert (F1 : 0 <= Q / W < 2 ^ 53)
        by (change (2 ^ 53) with 9007199254740992; nia).
      assert (F2 : Q / W * W <= Q < (Q / W + 1) * W) by lia.
      apply (floor_val N (Q / W) q mq eq Pq He ltac:(lia) F1 F2).
    + split.
      * split; [|lia].
        destruct (Z.le_gt_cases 2 K) as [H2|H2]; [|lia].
        specialize (Low1 H2). cbv iota in Low1. fold Q in Low1.
        assert (K - 1 <= Q / W) by (apply Z.div_le_lower_bound; lia). lia.
      * intros Hnd.
        destruct (Z.le_gt_cases 1 K) as [H1|H1]; [|lia].
        specialize (Low2 H1 Hnd). cbv iota in Low2. fold Q in Low2.
        assert (K <= Q / W) by (apply Z.div_le_lower_bound; lia). lia.
Qed.

Lemma of_Z_eqb_at (s t : Z) :
  0 < s < 2 ^ 53 -> 0 < t < 2 ^ 53 -> s <> t ->
  (of_Z s =? of_Z t)%float = false.
Proof.
  intros Hs Ht Hne.
  destruct (of_Z_val N s Hs ltac:(lia)) as [ms [es [Es [_ [_ Vs]]]]].
  destruct (of_Z_val N t Ht ltac:(lia)) as [mt [et [Et [_ [_ Vt]]]]].
  rewrite eqb_spec, Es, Et. unfold SFeqb, SFcompare.
  destruct (Z.compare_spec es et) as [->|_|_]; try reflexivity.
  fold (Pos.compare ms mt).
  destruct (Pos.compare_spec ms mt) as [->|_|_]; try reflexivity.
  exfalso. apply Hne. rewrite Vs in Vt.
  pose proof (pow2_pos N ltac:(lia)). nia.
Qed.

End Scale.

Lemma length_general (n s t : Z) :
  0 <= n -> 0 < s -> 0 < t < 2 ^ 53 -> n * t + s <= 2 ^ 50 ->
  exists k,
    ToIndexZ (newLength n (of_Z s) (of_Z t)) = Some k
    /\ exact_length n s t - 1 <= k <= exact_length n s t
    /\ (~ (s | n * t) -> k = exact_length n s t).
Proof. exact (length_general_at 3200 (Z.le_refl 3200) n s t). Qed.

Lemma of_Z_eqb (s t : Z) :
  0 < s < 2 ^ 53 -> 0 < t < 2 ^ 53 -> s <> t ->
  (of_Z s =? of_Z t)%float = false.
Proof. exact (of_Z_eqb_at 3200 (Z.le_refl 3200) s t). Qed.

(** The length of the resampled buffer, for integer rates. *)
Lemma resampled_length_integer_rates (buffer : list float) (s t : Z) :
  0 < s -> 0 < t < 2 ^ 53 -> s <> t ->
  Z.of_nat (length buffer) * t + s <= 2 ^ 50 ->
  exists out,
    resampleBuffer buffer (of_Z s) (of_Z t) = Normal out
    /\ exact_length (Z.of_nat (length buffer)) s t - 1
       <= Z.of_nat (length out)
       <= exact_length (Z.of_nat (length buffer)) s t
    /\ (~ (s | Z.of_nat (length buffer) * t) ->
        Z.of_nat (length out)
        = exact_length (Z.of_nat (length buffer)) s t).
Proof.
  intros Hs Ht Hne Hb.
  assert (Hs53 : 0 < s < 2 ^ 53)
    by (change (2 ^ 50) with 1125899906842624 in Hb;
        change (2 ^ 53) with 9007199254740992; nia).
  destruct (length_general (Z.of_nat (length buffer)) s t
              ltac:(lia) Hs Ht Hb) as [k [Ek Hk]].
  pose proof (resampleBuffer_shape buffer (of_Z s) (of_Z t)) as S.
  unfold output_length in S.
  rewrite (of_Z_eqb s t Hs53 Ht Hne), Ek in S.
  destruct S as [out [E L]]. exists out. rewrite L. split; assumption.
Qed.

End LengthFormula.

(** C8 (as stated, refuted): three samples from 3 Hz to 59 Hz come out as
    58 samples, not floor (3 * 59 / 3) = 59: the quotient 3 / 59 is rounded
    before it divides the length. *)
Lemma rounded_ratio_loses_a_sample :
  exists out, resampleBuffer [0.5; 0.5; 0.5] (of_Z 3) (of_Z 59) = Normal out
              /\ length out = 58%nat
              /\ exact_length 3 3 59 = 59%Z.
Proof.
  pose proof (resampleBuffer_shape [0.5; 0.5; 0.5] (of_Z 3) (of_Z 59)) as S.
  assert (E : output_length 3 (of_Z 3) (of_Z 59) = Some 58%Z)
    by (vm_compute; reflexivity).
  cbn [length Z.of_nat Pos.of_succ_nat Pos.succ] in S. rewrite E in S.
  destruct S as [out [H L]]. exists out. repeat split; [exact H|lia].
Qed.

(** C8 (amended): when the rates differ, the output has
    floor (length / (inputRate / outputRate)) samples with both divisions
    in double precision; for integer rates, with length * outputRate +
    inputRate at most 2 ^ 50, this is floor (length * outputRate /
    inputRate) or one less, and one less only when inputRate divides
    length * outputRate; for blocks of up to 16384 samples at the common
    device rates and the target 16000 it is floor (length * 16000 /
    rate). *)
Theorem resampled_length :
  (forall (buffer out : list float) (inputRate outputRate : float),
      (inputRate =? outputRate) = false ->
      resampleBuffer buffer inputRate outputRate = Normal out ->
      ToIndexZ (Math_floor (of_Z (Z.of_nat (length buffer))
                            / (inputRate / outputRate)))
      = Some (Z.of_nat (length out))) /\
  (forall (buffer : list float) (inputRate outputRate : Z),
      (0 < inputRate)%Z -> (0 < outputRate < 2 ^ 53)%Z ->
      inputRate <> outputRate ->
      (Z.of_nat (length buffer) * outputRate + inputRate <= 2 ^ 50)%Z ->
      exists out,
        resampleBuffer buffer (of_Z inputRate) (of_Z outputRate) = Normal out
        /\ (exact_length (Z.of_nat (length buffer)) inputRate outputRate - 1
            <= Z.of_nat (length out)
            <= exact_length (Z.of_nat (length buffer)) inputRate outputRate)%Z
        /\ (~ (inputRate | Z.of_nat (length buffer) * outputRate)%Z ->
            Z.of_nat (length out)
            = exact_length (Z.of_nat (length buffer)) inputRate outputRate)) /\
  (forall (buffer : list float) (inputRate : Z),
      In inputRate device_rates ->
      (Z.of_nat (length buffer) <= MAX_BLOCK)%Z ->
      exists out,
        resampleBuffer buffer (of_Z inputRate) PCM_SAMPLE_RATE = Normal out
        /\ Z.of_nat (length out)
           = exact_length (Z.of_nat (length buffer)) inputRate 16000).
Proof.
  split.
  - intros buffer out inputRate outputRate Hne H.
    pose proof (resampleBuffer_shape buffer inputRate outputRate) as S.
    unfold output_length, newLength in S. rewrite Hne in S.
    destruct (ToIndexZ _) as [n|].
    + destruct S as [out' [E L]]. rewrite E in H. injection H as <-.
      rewrite L. reflexivity.
    + rewrite S in H. discriminate H.
  - split; [exact resampled_length_integer_rates|].
    intros buffer inputRate Hin Hlen.
    pose proof device_rates_checked as C.
    rewrite forallb_forall in C. specialize (C _ Hin).
    pose proof (forall_from_spec _ _ _ C (Z.of_nat (length buffer))) as H.
    rewrite Z2Nat.id in H by lia.
    specialize (H ltac:(unfold MAX_BLOCK in Hlen; lia)).
    unfold length_agrees in H.
    pose proof (resampleBuffer_shape buffer (of_Z inputRate) PCM_SAMPLE_RATE)
      as S.
    destruct (output_length _ _ _) as [k|]; [|discriminate H].
    destruct S as [out [E L]]. exists out. split; [exact E|].
    apply Z.eqb_eq in H. lia.
Qed.

Lemma resampled_length_witness :
  (exists out,
      resampleBuffer (repeat 0.5 4096) (of_Z 44100) PCM_SAMPLE_RATE = Normal out
      /\ Z.of_nat (length out) = 1486%Z) /\
  (exists out,
      resampleBuffer [0.5; 0.5; 0.5] (of_Z 3) (of_Z 59) = Normal out
      /\ (58 <= Z.of_nat (length out) <= 59)%Z).
Proof.
  destruct resampled_length as [_ [G H]]. split.
  - destruct (H (repeat 0.5 4096) 44100%Z) as [out [E L]].
    + unfold device_rates. simpl. tauto.
    + rewrite repeat_length. unfold MAX_BLOCK. lia.
    + exists out. split; [exact E|]. rewrite L, repeat_length. reflexivity.
  - destruct (G [0.5; 0.5; 0.5] 3%Z 59%Z) as [out [E [L _]]].
    + lia.
    + split; reflexivity.
    + lia.
    + simpl. change (2 ^ 50)%Z with 1125899906842624%Z. lia.
    + exists out. split; [exact E|exact L].
Defined.

(** ** Order of binary64 numbers *)

Lemma SFcompare_total (a b : spec_float) :
  a <> S754_nan -> b <> S754_nan -> exists c, SFcompare a b = Some c.
Proof.
  destruct a, b; cbn; intros Ha Hb; try congruence; eexists; reflexivity.
Qed.

Lemma SFcompare_refl (s : bool) (m : positive) (e : Z) :
  SFcompare (S754_finite s m e) (S754_finite s m e) = Some Eq.
Proof.
  cbn. rewrite Z.compare_refl, Pos.compare_cont_refl. destruct s; reflexivity.
Qed.

Lemma is_nan_spec (x : float) : is_nan x = false <-> Prim2SF x <> S754_nan.
Proof.
  unfold is_nan. rewrite eqb_spec. unfold SFeqb.
  destruct (Prim2SF x) as [s|s| |s m e].
  - cbn. split; [congruence|reflexivity].
  - destruct s; cbn; split; (congruence || reflexivity).
  - cbn. split; [discriminate|congruence].
  - rewrite SFcompare_refl. cbn. split; [congruence|reflexivity].
Qed.

Lemma ltb_false_leb (x y : float) :
  is_nan x = false -> is_nan y = false -> (x <? y) = false -> (y <=? x) = true.
Proof.
  rewrite !is_nan_spec, ltb_spec, leb_spec. unfold SFltb, SFleb.
  intros Hx Hy. destruct (SFcompare_total _ _ Hx Hy) as [c Hc].
  rewrite Hc, (SFcompare_antisym _ _ _ Hc). destruct c; cbn; congruence.
Qed.

Lemma leb_ltb_false (x y : float) : (x <=? y) = true -> (y <? x) = false.
Proof.
  rewrite ltb_spec, leb_spec. unfold SFltb, SFleb.
  destruct (SFcompare (Prim2SF x) (Prim2SF y)) as [c|] eqn:Hc; [|discriminate].
  rewrite (SFcompare_antisym _ _ _ Hc). destruct c; cbn; congruence.
Qed.

Lemma leb_not_nan (x y : float) : (x <=? y) = true -> is_nan x = false /\ is_nan y = false.
Proof.
  rewrite !is_nan_spec, leb_spec. unfold SFleb.
  destruct (Prim2SF x), (Prim2SF y); cbn; try discriminate; split; congruence.
Qed.

(** Two numbers that compare equal are the same number, unless they are zeros. *)
Lemma leb_antisym_finite (x y : float) (s : bool) (m : positive) (e : Z) :
  Prim2SF y = S754_finite s m e -> (x <=? y) = true -> (y <=? x) = true -> x = y.
Proof.
  intros Hy. rewrite !leb_spec. unfold SFleb. intros H1 H2.
  apply Prim2SF_inj. rewrite Hy in *.
  destruct (SFcompare (Prim2SF x) _) as [c|] eqn:Hc; [|discriminate].
  rewrite (SFcompare_antisym _ _ _ Hc) in H2.
  destruct c; try discriminate. clear H1 H2.
  destruct (Prim2SF x) as [sx|sx| |sx mx ex]; cbn in Hc.
  - destruct s; discriminate Hc.
  - destruct sx; discriminate Hc.
  - discriminate Hc.
  - assert (E : sx = s /\ ex = e /\ mx = m).
    { destruct sx, s; try discriminate Hc.
      all: destruct (Z.compare_spec ex e) as [Heq| |]; try discriminate Hc.
      all: injection Hc as Hc.
      all: rewrite Pos.compare_cont_spec in Hc; cbn [Pos.switch_Eq] in Hc.
      all: destruct (Pos.compare_spec mx m) as [Hm| |]; try discriminate Hc.
      all: repeat split; assumption. }
    destruct E as [-> [-> ->]]. reflexivity.
Qed.

(** ** Frame encoder *)

Lemma Math_min_1 (x : float) :
  is_nan x = false -> Math_min 1 x = if 1 <? x then 1 else x.
Proof.
  intros Hx. unfold Math_min. rewrite Hx.
  change (is_nan 1) with false. cbn [orb].
  destruct (1 <? x); [reflexivity|].
  destruct (x <? 1); reflexivity.
Qed.

Lemma clamp_sample_nan (x : float) :
  is_nan x = true -> clamp_sample x = nan.
Proof.
  intros Hx. unfold clamp_sample, Math_min. rewrite Hx.
  rewrite orb_true_r. reflexivity.
Qed.

Lemma clamp_sample_high (x : float) :
  (1 <=? x) = true -> clamp_sample x = 1.
Proof.
  intros H. destruct (leb_not_nan _ _ H) as [_ Hx].
  unfold clamp_sample. rewrite (Math_min_1 x Hx).
  destruct (1 <? x) eqn:Hlt; [reflexivity|].
  assert (E : x = 1).
  { apply (leb_antisym_finite x 1 false 4503599627370496%positive (-52)%Z);
      [reflexivity| |exact H].
    apply ltb_false_leb; [reflexivity|exact Hx|exact Hlt]. }
  rewrite E. reflexivity.
Qed.

Lemma Math_max_m1 (x : float) :
  is_nan x = false -> Math_max (-1) x = if -1 <? x then x else -1.
Proof.
  intros Hx. unfold Math_max. rewrite Hx.
  change (is_nan (-1)) with false. cbn [orb].
  destruct (-1 <? x); [reflexivity|].
  destruct (x <? -1); reflexivity.
Qed.

Lemma clamp_sample_low (x : float) :
  (x <=? -1) = true -> clamp_sample x = -1.
Proof.
  intros H. destruct (leb_not_nan _ _ H) as [Hx _].
  unfold clamp_sample. rewrite (Math_min_1 x Hx).
  assert (H1 : (1 <? x) = false).
  { rewrite ltb_spec. rewrite leb_spec in H. unfold SFltb, SFleb in *.
    change (Prim2SF 1) with (S754_finite false 4503599627370496 (-52)).
    change (Prim2SF (-1)) with (S754_finite true 4503599627370496 (-52)) in H.
    clear Hx.
    destruct (Prim2SF x) as [s|s| |s m e]; try destruct s;
      cbn [SFcompare] in H |- *; try reflexivity; discriminate H. }
  rewrite H1, (Math_max_m1 x Hx), (leb_ltb_false _ _ H). reflexivity.
Qed.

Lemma clamp_sample_inside (x : float) :
  (-1 <=? x) = true -> (x <=? 1) = true -> clamp_sample x = x.
Proof.
  intros Hlo Hhi. destruct (leb_not_nan _ _ Hlo) as [_ Hx].
  unfold clamp_sample.
  rewrite (Math_min_1 x Hx), (leb_ltb_false _ _ Hhi), (Math_max_m1 x Hx).
  destruct (-1 <? x) eqn:Hlt; [reflexivity|].
  symmetry.
  apply (leb_antisym_finite x (-1) true 4503599627370496%positive (-52)%Z);
    [reflexivity| |exact Hlo].
  apply ltb_false_leb; [reflexivity|exact Hx|exact Hlt].
Qed.

Lemma clamp_sample_range (x : float) :
  is_nan x = false ->
  (-1 <=? clamp_sample x) = true /\ (clamp_sample x <=? 1) = true.
Proof.
  intros Hx.
  destruct (1 <=? x) eqn:Hhi.
  - rewrite (clamp_sample_high _ Hhi). split; reflexivity.
  - destruct (x <=? -1) eqn:Hlo.
    + rewrite (clamp_sample_low _ Hlo). split; reflexivity.
    + assert (A : (x <=? 1) = true).
      { apply ltb_false_leb; [reflexivity|exact Hx|].
        destruct (1 <? x) eqn:E; [|reflexivity].
        rewrite ltb_spec in E. rewrite leb_spec in Hhi.
        unfold SFltb, SFleb in *.
        destruct (SFcompare _ _) as [[]|]; discriminate. }
      assert (B : (-1 <=? x) = true).
      { apply ltb_false_leb; [exact Hx|reflexivity|].
        destruct (x <? -1) eqn:E; [|reflexivity].
        rewrite ltb_spec in E. rewrite leb_spec in Hlo.
        unfold SFltb, SFleb in *.
        destruct (SFcompare _ _) as [[]|]; discriminate. }
      rewrite (clamp_sample_inside _ B A). split; assumption.
Qed.

Lemma wrap16_range (v : Z) : (-32768 <= wrap16 v <= 32767)%Z.
Proof.
  unfold wrap16. pose proof (Z.mod_pos_bound (v + 32768) 65536). lia.
Qed.

Lemma ToInt16_range (x : float) : (-32768 <= ToInt16 x <= 32767)%Z.
Proof.
  unfold ToInt16. destruct (Prim2SF x); try lia. apply wrap16_range.
Qed.

Section Store.
Local Open Scope Z_scope.

(** The product [scale_sample] computes from a clamped sample, on the level
    of [spec_float]: its integer part fits 16 bits. *)
Lemma SF_scale_range (c : spec_float) :
  valid_binary c = true ->
  SFleb SF_minus_one c = true -> SFleb c SF_one = true ->
  match (if SFltb c (S754_zero false)
         then SFmul prec emax c SF_32768 else SFmul prec emax c SF_32767) with
  | S754_finite s m e => -32768 <= truncZ s m e <= 32767
  | _ => True
  end.
Proof.
  intros Vc Hlo Hhi.
  destruct c as [sc|[|]| |[|] mc ec]; try discriminate Hlo;
    try discriminate Hhi.
  - destruct sc; exact I.
  - cbn [valid_binary] in Vc.
    pose proof (bounded_facts _ _ Vc) as [Rc _].
    pose proof (SFleb_val_neg 3200 4503599627370496 (-52) mc ec
                  eq_refl Vc ltac:(lia) Hlo) as Hv.
    change (val 3200 4503599627370496 (-52)) with (2 ^ 3200) in Hv.
    pose proof (SFmul_le 3200 32768 true mc ec 4503599627370496 (-37)
                  ltac:(lia) eq_refl ltac:(lia) ltac:(lia) ltac:(lia) Hv) as M.
    change (SFltb (S754_finite true mc ec) (S754_zero false)) with true.
    cbv iota. unfold SF_32768.
    destruct (SFmul prec emax (S754_finite true mc ec)
                (S754_finite false 4503599627370496 (-37)))
      as [sz| | |sz mz ez]; try exact I.
    destruct M as [-> M]. unfold truncZ. lia.
  - cbn [valid_binary] in Vc.
    pose proof (bounded_facts _ _ Vc) as [Rc _].
    pose proof (SFleb_val 3200 mc ec 4503599627370496 (-52)
                  Vc eq_refl ltac:(lia) Hhi) as Hv.
    change (val 3200 4503599627370496 (-52)) with (2 ^ 3200) in Hv.
    pose proof (SFmul_le 3200 32767 false mc ec 9006924376834048 (-38)
                  ltac:(lia) eq_refl ltac:(lia) ltac:(lia) ltac:(lia) Hv) as M.
    change (SFltb (S754_finite false mc ec) (S754_zero false)) with false.
    cbv iota. unfold SF_32767.
    destruct (SFmul prec emax (S754_finite false mc ec)
                (S754_finite false 9006924376834048 (-38)))
      as [sz| | |sz mz ez]; try exact I.
    destruct M as [-> M]. unfold truncZ. lia.
Qed.

Lemma wrap16_small (v : Z) : -32768 <= v <= 32767 -> wrap16 v = v.
Proof. intros H. unfold wrap16. rewrite Z.mod_small; lia. Qed.

(** The store into the [Int16Array] never wraps: the element is the integer
    part of the scaled sample. *)
Lemma encode_sample_truncates (x : float) :
  encode_sample x = truncation (scale_sample (clamp_sample x)).
Proof.
  unfold encode_sample, ToInt16, truncation.
  destruct (is_nan x) eqn:Hx.
  - rewrite (clamp_sample_nan x Hx). reflexivity.
  - destruct (clamp_sample_range x Hx) as [Hlo Hhi].
    rewrite leb_spec in Hlo, Hhi.
    pose proof (SF_scale_range (Prim2SF (clamp_sample x))
                  (Prim2SF_valid _) Hlo Hhi) as R.
    unfold scale_sample. rewrite ltb_spec.
    change (Prim2SF 0) with (S754_zero false).
    destruct (SFltb (Prim2SF (clamp_sample x)) (S754_zero false));
      rewrite mul_spec; unfold SF64mul.
    + change (Prim2SF 32768) with SF_32768.
      destruct (SFmul prec emax (Prim2SF (clamp_sample x)) SF_32768);
        try reflexivity. apply wrap16_small, R.
    + change (Prim2SF 32767) with SF_32767.
      destruct (SFmul prec emax (Prim2SF (clamp_sample x)) SF_32767);
        try reflexivity. apply wrap16_small, R.
Qed.

End Store.

(** C9 (as stated, refuted): a NaN sample is not clamped to [-1, 1]:
    [Math.min] and [Math.max] return NaN, which is neither at least -1 nor at
    most 1; the element stored for it is 0. *)
Lemma nan_sample_is_not_clamped :
  is_nan (clamp_sample nan) = true /\
  (-1 <=? clamp_sample nan) = false /\
  (clamp_sample nan <=? 1) = false /\
  int16_samples [nan] = [0%Z].
Proof. repeat split. Qed.

(** C9 (amended): [createPcmBlob] encodes every sample on its own and keeps
    the order: its payload is the base64 text of the 16-bit elements, two
    bytes each, and element [i] is the encoding of sample [i].  The encoding
    clamps a sample that is not NaN to [-1, 1] (a NaN stays NaN and encodes
    to 0), multiplies a negative clamped value by 32768 and any other by
    32767, and stores the product as a signed 16-bit integer; the store
    never wraps, the element is the integer part of the product; samples of
    1 and above encode to 32767 and samples of -1 and below to -32768. *)
Theorem frames_clamp_and_scale (samples : list float) :
  data (createPcmBlob samples)
  = arrayBufferToBase64 (flat_map int16_bytes (int16_samples samples)) /\
  mimeType (createPcmBlob samples) = str "audio/pcm;rate=16000" /\
  length (int16_samples samples) = length samples /\
  (forall (i : nat) (x : float),
      nth_error samples i = Some x ->
      nth_error (int16_samples samples) i = Some (encode_sample x)) /\
  (forall x : float,
      encode_sample x
      = ToInt16 (if clamp_sample x <? 0 then clamp_sample x * 32768
                 else clamp_sample x * 32767) /\
      encode_sample x = truncation (scale_sample (clamp_sample x)) /\
      (-32768 <= encode_sample x <= 32767)%Z /\
      (is_nan x = false ->
       (-1 <=? clamp_sample x) = true /\ (clamp_sample x <=? 1) = true) /\
      ((-1 <=? x) = true -> (x <=? 1) = true -> clamp_sample x = x) /\
      ((1 <=? x) = true -> encode_sample x = 32767%Z) /\
      ((x <=? -1) = true -> encode_sample x = (-32768)%Z) /\
      (is_nan x = true -> encode_sample x = 0%Z)) /\
  int16_samples [1; -1] = [32767; -32768]%Z.
Proof.
  split; [reflexivity|]. split; [reflexivity|].
  split; [apply length_map|].
  split; [intros i x H; apply map_nth_error; exact H|].
  split; [|reflexivity].
  intros x.
  split; [reflexivity|]. split; [apply encode_sample_truncates|].
  split; [apply ToInt16_range|].
  split; [apply clamp_sample_range|]. split; [apply clamp_sample_inside|].
  split; [|split].
  - intros H. unfold encode_sample. rewrite (clamp_sample_high _ H). reflexivity.
  - intros H. unfold encode_sample. rewrite (clamp_sample_low _ H). reflexivity.
  - intros H. unfold encode_sample. rewrite (clamp_sample_nan _ H). reflexivity.
Qed.

Lemma frames_clamp_and_scale_witness :
  nth_error (int16_samples [2; 0.5; -3]) 2 = Some (-32768)%Z /\
  encode_sample 2 = 32767%Z /\ clamp_sample 0.5 = 0.5.
Proof.
  destruct (frames_clamp_and_scale [2; 0.5; -3]) as [_ [_ [_ [N [E _]]]]].
  destruct (E 2) as [_ [_ [_ [_ [_ [H _]]]]]].
  destruct (E 0.5) as [_ [_ [_ [_ [I _]]]]].
  destruct (E (-3)) as [_ [_ [_ [_ [_ [_ [L _]]]]]]].
  split; [rewrite (N 2%nat (-3) eq_refl), L; reflexivity|].
  split; [apply H|apply I]; reflexivity.
Defined.

(** ** Teardown *)

Lemma forEach_stop_clean (tracks : list MediaStreamTrack) (s : Session) :
  Forall (fun t => stop_throws t = None) tracks ->
  forEach (fun track => call TrackStop (stop_throws track)) tracks s
  = {| result := Normal tt; final := s;
       trace := repeat TrackStop (length tracks) |}.
Proof.
  induction 1 as [|t rest Ht _ IH]; [reflexivity|].
  cbn [forEach length repeat]. unfold bind at 1. unfold call at 1.
  rewrite Ht. unfold bind at 1. cbn [emit ret then_ app]. rewrite IH.
  reflexivity.
Qed.

Lemma bind_run {A B : Type} (m : M A) (k : A -> M B) (s s1 : Session)
      (a : A) (t1 : list Effect) :
  m s = {| result := Normal a; final := s1; trace := t1 |} ->
  bind m k s = then_ t1 (k a s1).
Proof. intros H. unfold bind. rewrite H. reflexivity. Qed.

Lemma bind_throw {A B : Type} (m : M A) (k : A -> M B) (s s1 : Session)
      (e : js_error) (t1 : list Effect) :
  m s = {| result := Throw e; final := s1; trace := t1 |} ->
  bind m k s = {| result := Throw e; final := s1; trace := t1 |}.
Proof. intros H. unfold bind. rewrite H. reflexivity. Qed.

(** Closing the session never lets an exception out. *)
Lemma close_session_run (s : Session) :
  close_session s
  = {| result := Normal tt; final := set_sessionRef None s;
       trace := match sessionRef s with
                | Some session =>
                    SessionClose ::
                    match close_throws session with
                    | Some e => [ConsoleWarn (str "Error closing session:") e]
                    | None => []
                    end
                | None => []
                end |}.
Proof.
  unfold close_session, bind, try_catch, gets, call, emit, modify.
  destruct (sessionRef s) as [[[e|]]|]; reflexivity.
Qed.

Lemma stop_tracks_clean (s : Session) :
  (forall ms, mediaStreamRef s = Some ms -> tracks_stop_cleanly ms) ->
  stop_tracks s
  = {| result := Normal tt; final := set_mediaStreamRef None s;
       trace := match mediaStreamRef s with
                | Some ms => repeat TrackStop (length (getTracks ms))
                | None => []
                end |}.
Proof.
  intros H. unfold stop_tracks. unfold bind at 1. unfold gets.
  destruct (mediaStreamRef s) as [ms|] eqn:E.
  - rewrite (bind_run _ _ _ _ _ _ (forEach_stop_clean _ s (H ms eq_refl))).
    unfold modify, then_. rewrite app_nil_r. reflexivity.
  - unfold ret, then_. destruct s. cbn in E. subst. reflexivity.
Qed.

Lemma disconnect_nodes_clean (s : Session) :
  (forall p, processorRef s = Some p -> disconnect_throws p = None) ->
  disconnect_nodes s
  = {| result := Normal tt; final := set_processorRef None s;
       trace := match processorRef s with
                | Some _ => [ProcessorDisconnect]
                | None => []
                end |}.
Proof.
  intros H. unfold disconnect_nodes, bind, gets, call, emit, modify.
  destruct (processorRef s) as [p|] eqn:E.
  - rewrite (H p eq_refl). reflexivity.
  - unfold ret, then_. destruct s. cbn in E. subst. reflexivity.
Qed.

(** Closing the context never lets an exception out either. *)
Lemma close_context_run (s : Session) :
  close_context s
  = {| result := Normal tt; final := set_audioContextRef None s;
       trace := match audioContextRef s with
                | Some ctx =>
                    match state ctx with
                    | closed => []
                    | _ => AudioContextClose ::
                           match close_rejects ctx with
                           | Some e => [ConsoleError e]
                           | None => []
                           end
                    end
                | None => []
                end |}.
Proof.
  unfold close_context, bind, gets, emit, modify.
  destruct (audioContextRef s) as [[st rate [e|]]|] eqn:E;
    try (destruct st; reflexivity).
  unfold ret, then_. destruct s. cbn in E. subst. reflexivity.
Qed.

Lemma filter_stops_release (n : nat) :
  filter is_release (repeat TrackStop n) = repeat TrackStop n.
Proof. induction n as [|n IH]; [reflexivity|]. cbn. rewrite IH. reflexivity. Qed.

Lemma filter_stops_console (n : nat) :
  filter is_console (repeat TrackStop n) = [].
Proof. induction n as [|n IH]; [reflexivity|]. cbn. exact IH. Qed.

(** With handles that release cleanly in the unguarded steps, [disconnect]
    runs to its end whatever the guarded steps do. *)
Lemma disconnect_clean (s : Session) :
  releases_cleanly s ->
  exists t,
    disconnect s = {| result := Normal tt; final := torn_down s; trace := t |}
    /\ release_calls t = owed_releases s
    /\ filter is_console t = reported_failures s.
Proof.
  intros [Hms Hp]. unfold disconnect.
  unfold bind at 1. cbn [emit].
  rewrite (bind_run _ _ _ _ _ _ (close_session_run s)).
  rewrite (bind_run _ _ _ _ _ _
             (stop_tracks_clean (set_sessionRef None s) Hms)).
  rewrite (bind_run _ _ _ _ _ _
             (disconnect_nodes_clean
                (set_mediaStreamRef None (set_sessionRef None s)) Hp)).
  rewrite (bind_run _ _ _ _ _ _ (close_context_run _)).
  unfold bind, modify, then_.
  cbn [result final trace sessionRef mediaStreamRef processorRef
       audioContextRef set_sessionRef set_mediaStreamRef set_processorRef].
  eexists. split; [destruct s; reflexivity|].
  unfold release_calls, owed_releases, reported_failures.
  rewrite !app_nil_r.
  cbn [app filter is_release is_console].
  rewrite !filter_app.
  destruct (sessionRef s) as [[[e|]]|], (mediaStreamRef s) as [[tracks]|],
           (processorRef s) as [pr|],
           (audioContextRef s) as [[[| |] rate [e'|]]|];
    cbn [filter is_release is_console app close_throws getTracks state
         close_rejects];
    rewrite ?filter_stops_release, ?filter_stops_console, ?app_nil_r;
    split; reflexivity.
Qed.

Lemma failing_track_stop_aborts_teardown :
  let o := disconnect failing_track_session in
  result o = Throw (Error_ (str "InvalidStateError")) /\
  release_calls (trace o) = [SessionClose; TrackStop] /\
  owed_releases failing_track_session
  = [SessionClose; TrackStop; ProcessorDisconnect; AudioContextClose] /\
  processorRef (final o) <> None /\ audioContextRef (final o) <> None /\
  status (final o) = RECORDING.
Proof.
  cbv zeta. repeat split; try (vm_compute; reflexivity);
    vm_compute; discriminate.
Qed.

(** C6 (amended): whatever closing the remote session and closing the audio
    context do (throw, reject or succeed), [disconnect] returns normally,
    each failure is reported to the console and not propagated, every
    release step owed for the handles held is attempted in the fixed order,
    and all handles end up null; this holds when stopping the tracks and
    disconnecting the processing node, which are not guarded, do not
    throw. *)
Theorem disconnect_suppresses_guarded_failures (s : Session) :
  releases_cleanly s ->
  let o := disconnect s in
  result o = Normal tt /\
  release_calls (trace o) = owed_releases s /\
  filter is_console (trace o) = reported_failures s /\
  handles_null (final o).
Proof.
  intros H. destruct (disconnect_clean s H) as [t [E [R C]]].
  cbv zeta. rewrite E. cbn [result final trace].
  repeat split; assumption.
Qed.

Lemma guarded_failures_release_cleanly :
  releases_cleanly guarded_failures_session.
Proof.
  split.
  - intros ms E. injection E as <-. repeat constructor.
  - intros p E. injection E as <-. reflexivity.
Qed.

Lemma disconnect_suppresses_guarded_failures_witness :
  let o := disconnect guarded_failures_session in
  result o = Normal tt /\
  release_calls (trace o)
  = [SessionClose; TrackStop; ProcessorDisconnect; AudioContextClose] /\
  length (filter is_console (trace o)) = 2%nat /\
  handles_null (final o).
Proof.
  destruct (disconnect_suppresses_guarded_failures
              guarded_failures_session guarded_failures_release_cleanly)
    as [H1 [H2 [H3 H4]]].
  cbv zeta. rewrite H2, H3.
  split; [exact H1|]. split; [reflexivity|]. split; [reflexivity|exact H4].
Defined.





(** ** Transcript merger *)

Lemma last_item_snoc (items : list TranscriptItem) (it : TranscriptItem) :
  last_item (items ++ [it]) = Some it.
Proof.
  unfold last_item. rewrite map_app. cbn [map]. apply last_last.
Qed.

Lemma onmessage_final (m : LiveServerMessage) (s : Session) :
  onmessage m s =
  let s1 := match truthy_text (inputTranscription_text m) with
            | Some inputTx =>
                enqueue update_turn
                        (set_currentTurnRef (currentTurnRef s ++ inputTx) s)
            | None => s
            end in
  {| result := Normal tt;
     final := if turnComplete m
              then set_currentTurnRef [] (enqueue finalize_turns s1)
              else s1;
     trace := [] |}.
Proof.
  unfold onmessage, bind, when, modify, ret.
  destruct (truthy_text _); destruct (turnComplete m); reflexivity.
Qed.

Lemma merge_partial_settled (now date : N) (turn : jsstring)
      (items : list TranscriptItem) :
  settled items ->
  merge_partial now date turn items
  = items ++ [{| id := decimal now; role := user; text := turn;
                 timestamp := date; isPartial := true |}].
Proof.
  intros H. unfold merge_partial.
  destruct (last (map Some items) None) as [lst|] eqn:E; [|reflexivity].
  assert (Hin : In lst items).
  { destruct items as [|a items']; [discriminate E|].
    assert (I : In (Some lst) (map Some (a :: items'))).
    { rewrite <- E.
      destruct (@exists_last _ (map Some (a :: items')) ltac:(discriminate))
        as [init [x Hx]].
      rewrite Hx, last_last. apply in_or_app. right. left. reflexivity. }
    apply in_map_iff in I. destruct I as [y [Hy Iy]]. injection Hy as ->.
    exact Iy. }
  unfold settled in H. rewrite Forall_forall in H.
  unfold is_open_partial. rewrite (H _ Hin), andb_false_r. reflexivity.
Qed.

Lemma merge_partial_open (now date : N) (turn : jsstring)
      (init : list TranscriptItem) (lst : TranscriptItem) :
  is_open_partial lst = true ->
  merge_partial now date turn (init ++ [lst]) = init ++ [with_text turn lst].
Proof.
  intros H. unfold merge_partial.
  rewrite map_app. cbn [map]. rewrite last_last, H, removelast_last.
  reflexivity.
Qed.

Lemma finalize_all_settled (items : list TranscriptItem) :
  settled (finalize_all items).
Proof.
  unfold settled, finalize_all. apply Forall_forall. intros it Hin.
  apply in_map_iff in Hin. destruct Hin as [x [<- _]]. reflexivity.
Qed.

Lemma finalize_all_user (items : list TranscriptItem) :
  all_user items -> all_user (finalize_all items).
Proof.
  unfold all_user, finalize_all. rewrite !Forall_forall. intros H it Hin.
  apply in_map_iff in Hin. destruct Hin as [x [<- Hx]]. exact (H _ Hx).
Qed.

Lemma finalize_all_id (items : list TranscriptItem) :
  settled items -> finalize_all items = items.
Proof.
  unfold settled, finalize_all. induction 1 as [|it rest H _ IH]; [reflexivity|].
  cbn [map]. rewrite IH. destruct it as [i r t ts p]. cbn in H. subst p.
  reflexivity.
Qed.

Lemma merge_partial_shape (open : bool) (now date : N) (turn : jsstring)
      (items : list TranscriptItem) :
  transcript_shape open items ->
  transcript_shape true (merge_partial now date turn items).
Proof.
  intros [Hu Hs]. destruct open.
  - destruct Hs as [init [lst [-> [Hi Hl]]]].
    assert (Hl' : is_open_partial lst = true).
    { unfold is_open_partial. rewrite Hl.
      apply Forall_app in Hu. destruct Hu as [_ Hu].
      inversion Hu as [|? ? Hr _]; subst. rewrite Hr. reflexivity. }
    rewrite (merge_partial_open _ _ _ _ _ Hl'). split.
    + apply Forall_app in Hu. destruct Hu as [Hu1 Hu2].
      apply Forall_app. split; [exact Hu1|].
      constructor; [|constructor]. inversion Hu2; subst. assumption.
    + exists init, (with_text turn lst). split; [reflexivity|].
      split; assumption.
  - rewrite (merge_partial_settled _ _ _ _ Hs). split.
    + apply Forall_app. split; [exact Hu|]. constructor; [reflexivity|constructor].
    + eexists _, _. split; [reflexivity|]. split; [exact Hs|reflexivity].
Qed.

Lemma open_after_app (open : bool) (a b : list TranscriptUpdater) :
  open_after open (a ++ b) = open_after (open_after open a) b.
Proof.
  revert open. induction a as [|[|] a IH]; intros open;
    cbn [app open_after]; auto.
Qed.

Lemma finalize_all_shape (open : bool) (items : list TranscriptItem) :
  transcript_shape open items -> transcript_shape false (finalize_all items).
Proof.
  intros [Hu _]. split; [apply finalize_all_user, Hu|apply finalize_all_settled].
Qed.

(** The flags the queued updaters leave depend on the queue alone. *)
Lemma run_updaters_shape (turn : jsstring) (clock : Clock)
      (us : list TranscriptUpdater) :
  forall (i : nat) (open : bool) (items : list TranscriptItem),
    transcript_shape open items ->
    transcript_shape (open_after open us) (run_updaters turn clock i us items).
Proof.
  induction us as [|[|] us IH]; intros i open items H;
    cbn [run_updaters open_after run_updater].
  - exact H.
  - apply IH. exact (merge_partial_shape open _ _ _ _ H).
  - apply IH. exact (finalize_all_shape open _ H).
Qed.

Lemma onmessage_invariant (open : bool) (m : LiveServerMessage) (s : Session) :
  merger_invariant open s ->
  merger_invariant (next_open open m) (final (onmessage m s)).
Proof.
  intros [[shown [Hshape Hq]] Hturn]. rewrite onmessage_final. cbv zeta.
  cbn [final]. unfold next_open, has_text.
  destruct (truthy_text (inputTranscription_text m)) as [inputTx|] eqn:Htx;
    destruct (turnComplete m);
    (split; [exists shown; split; [exact Hshape|]|]);
    cbn [transcriptUpdates currentTurnRef enqueue set_currentTurnRef
         set_transcriptUpdates];
    rewrite ?open_after_app; try reflexivity; try assumption;
    try discriminate.
Qed.

Lemma render_invariant (open : bool) (clock : Clock) (s : Session) :
  merger_invariant open s -> merger_invariant open (render clock s).
Proof.
  intros [[shown [Hshape Hq]] Hturn]. split; [|exact Hturn].
  exists open. split; [|reflexivity].
  cbn [render transcript set_renderedStatus set_transcriptUpdates
       setTranscript].
  rewrite <- Hq. apply run_updaters_shape. exact Hshape.
Qed.

Lemma run_events_invariant (es : list Event) :
  forall (open : bool) (s : Session),
    merger_invariant open s ->
    merger_invariant (turn_open_from open (messages_of es)) (run_events es s).
Proof.
  induction es as [|[m|c] rest IH]; intros open s H; [exact H| |];
    cbn [run_events run_event messages_of turn_open_from].
  - apply (IH (next_open open m)). apply onmessage_invariant. exact H.
  - apply IH. apply render_invariant. exact H.
Qed.

Lemma run_messages_invariant (ds : list Delivery) :
  forall (open : bool) (s : Session),
    merger_invariant open s ->
    merger_invariant (turn_open_from open (map (fun d => fst (fst d)) ds))
                     (run_messages ds s).
Proof.
  induction ds as [|[[m now] date] rest IH]; intros open s H; [exact H|].
  cbn [run_messages map fst turn_open_from].
  apply (IH (next_open open m)). apply render_invariant, onmessage_invariant.
  exact H.
Qed.

Lemma run_messages_rendered (ds : list Delivery) :
  forall s : Session,
    transcriptUpdates s = [] -> transcriptUpdates (run_messages ds s) = [].
Proof.
  induction ds as [|[[m now] date] rest IH]; intros s H; [exact H|].
  cbn [run_messages]. apply IH. reflexivity.
Qed.

Lemma empty_invariant (s : Session) :
  transcript s = [] -> currentTurnRef s = [] -> transcriptUpdates s = [] ->
  merger_invariant false s.
Proof.
  intros Ht Hc Hq. split; [|intros _; exact Hc].
  exists false. rewrite Ht, Hq. split; [split; constructor|reflexivity].
Qed.

(** Once rendered, the transcript has the shape the messages call for. *)
Lemma rendered_shape (open : bool) (s : Session) :
  merger_invariant open s -> transcriptUpdates s = [] ->
  transcript_shape open (transcript s).
Proof.
  intros [[shown [Hshape Hq]] _] E. rewrite E in Hq. cbn in Hq. subst shown.
  exact Hshape.
Qed.

Lemma last_item_In (items : list TranscriptItem) (it : TranscriptItem) :
  last_item items = Some it -> In it items.
Proof.
  unfold last_item. intros E.
  destruct items as [|a items']; [discriminate E|].
  destruct (@exists_last _ (a :: items') ltac:(discriminate)) as [init [x Hx]].
  rewrite Hx in *. rewrite map_app in E. cbn [map] in E.
  rewrite last_last in E. injection E as ->.
  apply in_or_app. right. left. reflexivity.
Qed.

Lemma settled_no_partial (items : list TranscriptItem) :
  settled items -> filter isPartial items = [].
Proof.
  induction 1 as [|it rest H _ IH]; [reflexivity|].
  cbn [filter]. rewrite H. exact IH.
Qed.

Lemma shape_facts (open : bool) (items : list TranscriptItem) :
  transcript_shape open items ->
  (partial_count items <= 1)%nat /\
  (forall i it, nth_error items i = Some it -> isPartial it = true ->
                S i = length items) /\
  last_is_partial items = open /\
  last_is_open_partial items = open.
Proof.
  intros [Hu Hs]. destruct open.
  - destruct Hs as [init [lst [-> [Hi Hl]]]].
    assert (Hr : role lst = user).
    { apply Forall_app in Hu. destruct Hu as [_ Hu].
      inversion Hu; subst. assumption. }
    unfold partial_count, last_is_partial, last_is_open_partial, is_open_partial.
    rewrite filter_app, (settled_no_partial init Hi), last_item_snoc.
    cbn [filter]. rewrite Hl, Hr. cbn. repeat split; try lia.
    intros i it Hn Hp. rewrite length_app. cbn [length].
    destruct (Nat.lt_ge_cases i (length init)) as [Hlt|Hge].
    + rewrite nth_error_app1 in Hn by exact Hlt.
      apply nth_error_In in Hn. unfold settled in Hi.
      rewrite Forall_forall in Hi. rewrite (Hi _ Hn) in Hp. discriminate Hp.
    + assert (Hb : (i < length (init ++ [lst]))%nat)
        by (apply nth_error_Some; congruence).
      rewrite length_app in Hb. cbn [length] in Hb. lia.
  - unfold partial_count, last_is_partial, last_is_open_partial, is_open_partial.
    rewrite (settled_no_partial items Hs). unfold settled in Hs.
    rewrite Forall_forall in Hs. cbn [length]. repeat split; try lia.
    + intros i it Hn Hp. apply nth_error_In in Hn.
      rewrite (Hs _ Hn) in Hp. discriminate Hp.
    + destruct (last_item items) as [it|] eqn:E; [|reflexivity].
      apply Hs. apply last_item_In. exact E.
    + destruct (last_item items) as [it|] eqn:E; [|reflexivity].
      rewrite (Hs _ (last_item_In _ _ E)). apply andb_false_r.
Qed.

(** C4: whatever messages arrive on an empty transcript with no pending
    turn, and whenever React renders in between, the transcript React shows
    at its next render has at most one partial item, a partial item is the
    last one, and the last item is partial exactly when a turn is open, that
    is when a text event (with non-empty text) has arrived since the last
    turn completion.  The same holds when React renders after each message;
    and at every moment the transcript of the last render has at most one
    partial item, which is its last. *)
Theorem at_most_one_trailing_partial (s : Session) :
  transcript s = [] -> currentTurnRef s = [] -> transcriptUpdates s = [] ->
  (forall (es : list Event) (clock : Clock),
      let items := transcript (render clock (run_events es s)) in
      (partial_count items <= 1)%nat /\
      (forall i it, nth_error items i = Some it -> isPartial it = true ->
                    S i = length items) /\
      last_is_partial items = turn_open (messages_of es)) /\
  (forall ds : list Delivery,
      let items := transcript (run_messages ds s) in
      (partial_count items <= 1)%nat /\
      (forall i it, nth_error items i = Some it -> isPartial it = true ->
                    S i = length items) /\
      last_is_partial items = turn_open (map (fun d => fst (fst d)) ds)) /\
  (forall es : list Event,
      let items := transcript (run_events es s) in
      (partial_count items <= 1)%nat /\
      (forall i it, nth_error items i = Some it -> isPartial it = true ->
                    S i = length items)).
Proof.
  intros Ht Hc Hq. pose proof (empty_invariant s Ht Hc Hq) as I0.
  split; [|split].
  - intros es clock items.
    pose proof (render_invariant _ clock _ (run_events_invariant es false s I0))
      as I.
    pose proof (rendered_shape _ _ I eq_refl) as Hshape.
    destruct (shape_facts _ _ Hshape) as [H1 [H2 [H3 _]]].
    repeat split; assumption.
  - intros ds items.
    pose proof (run_messages_invariant ds false s I0) as I.
    pose proof (rendered_shape _ _ I (run_messages_rendered ds s Hq)) as Hshape.
    destruct (shape_facts _ _ Hshape) as [H1 [H2 [H3 _]]].
    repeat split; assumption.
  - intros es items.
    destruct (run_events_invariant es false s I0) as [[shown [Hshape _]] _].
    destruct (shape_facts _ _ Hshape) as [H1 [H2 _]].
    split; assumption.
Qed.

Lemma at_most_one_trailing_partial_witness :
  last_is_partial
    (transcript (render (fun _ => (3, 3)%N)
                        (run_events [Message turn_complete_event;
                                     Message (text_event (str "A"));
                                     Message (text_event (str "B"))]
                                    initial)))
  = true /\
  last_is_partial
    (transcript (run_messages [(turn_complete_event, 1%N, 1%N);
                               (text_event (str "A"), 2%N, 2%N)] initial))
  = true.
Proof.
  destruct (at_most_one_trailing_partial initial eq_refl eq_refl eq_refl)
    as [H1 [H2 _]].
  split.
  - destruct (H1 [Message turn_complete_event;
                  Message (text_event (str "A"));
                  Message (text_event (str "B"))] (fun _ => (3, 3)%N))
      as [_ [_ H]].
    exact H.
  - destruct (H2 [(turn_complete_event, 1%N, 1%N);
                  (text_event (str "A"), 2%N, 2%N)]) as [_ [_ H]].
    exact H.
Defined.

(** *** One turn, step by step *)

Lemma run_events_app (a b : list Event) (s : Session) :
  run_events (a ++ b) s = run_events b (run_events a s).
Proof.
  revert s. induction a as [|e a IH]; intros s; [reflexivity|].
  cbn [app run_events]. apply IH.
Qed.

Lemma repeat_snoc {A : Type} (x : A) (k : nat) :
  repeat x k ++ [x] = repeat x (S k).
Proof.
  induction k as [|k IH]; [reflexivity|].
  cbn [repeat app]. rewrite IH. reflexivity.
Qed.

Lemma text_step (s : Session) (t : jsstring) :
  t <> [] ->
  final (onmessage (text_event t) s)
  = enqueue update_turn (set_currentTurnRef (currentTurnRef s ++ t) s).
Proof.
  intros Ht. rewrite onmessage_final. destruct t; [congruence|reflexivity].
Qed.

Lemma complete_step (s : Session) :
  final (onmessage turn_complete_event s)
  = set_currentTurnRef [] (enqueue finalize_turns s).
Proof. rewrite onmessage_final. reflexivity. Qed.

(** Updaters of text events on a transcript that ends with the open item:
    each one overwrites its text. *)
Lemma run_updaters_open (turn : jsstring) (clock : Clock) (k : nat) :
  forall (i : nat) (init : list TranscriptItem) (lst : TranscriptItem),
    is_open_partial lst = true ->
    run_updaters turn clock i (repeat update_turn k) (init ++ [lst])
    = init ++ [match k with O => lst | S _ => with_text turn lst end].
Proof.
  induction k as [|k IH]; intros i init lst H; [reflexivity|].
  cbn [repeat run_updaters run_updater].
  rewrite (merge_partial_open _ _ _ _ _ H), IH by exact H.
  destruct k; reflexivity.
Qed.

(** ... and on a settled transcript: the first one creates the item. *)
Lemma run_updaters_settled (turn : jsstring) (clock : Clock) (k i : nat)
      (items : list TranscriptItem) :
  settled items ->
  run_updaters turn clock i (repeat update_turn (S k)) items
  = items ++ [turn_item (clock i) turn true].
Proof.
  intros H. cbn [repeat run_updaters run_updater].
  rewrite (merge_partial_settled _ _ _ _ H).
  fold (turn_item (clock i) turn true).
  rewrite run_updaters_open by reflexivity. destruct k; reflexivity.
Qed.

Lemma text_from_rest (s : Session) (t : jsstring) :
  t <> [] -> currentTurnRef s = [] -> transcriptUpdates s = [] ->
  turn_pending (transcript s) t (final (onmessage (text_event t) s)).
Proof.
  intros Ht Hc Hq. rewrite (text_step s t Ht). unfold turn_pending.
  cbn [transcript currentTurnRef transcriptUpdates enqueue set_currentTurnRef
       set_transcriptUpdates].
  rewrite Hc, Hq. split; [reflexivity|]. split; [reflexivity|].
  exists 0%nat. reflexivity.
Qed.

Lemma text_while_pending (done : list TranscriptItem) (acc t : jsstring)
      (s : Session) :
  t <> [] -> turn_pending done acc s ->
  turn_pending done (acc ++ t) (final (onmessage (text_event t) s)).
Proof.
  intros Ht [HT [Hc [k Hq]]]. rewrite (text_step s t Ht). unfold turn_pending.
  cbn [transcript currentTurnRef transcriptUpdates enqueue set_currentTurnRef
       set_transcriptUpdates].
  rewrite Hc, Hq. split; [exact HT|]. split; [reflexivity|].
  exists (S k). apply (repeat_snoc update_turn (S k)).
Qed.

Lemma text_while_shown (done : list TranscriptItem) (stamp : N * N)
      (acc t : jsstring) (s : Session) :
  t <> [] -> turn_shown done stamp acc s ->
  turn_shown done stamp (acc ++ t) (final (onmessage (text_event t) s)).
Proof.
  intros Ht [txt [k [HT [Hc [Hq Hk]]]]]. rewrite (text_step s t Ht).
  exists txt, (S k).
  cbn [transcript currentTurnRef transcriptUpdates enqueue set_currentTurnRef
       set_transcriptUpdates].
  rewrite Hc, Hq. split; [exact HT|]. split; [reflexivity|].
  split; [apply repeat_snoc|discriminate].
Qed.

Lemma render_while_pending (done : list TranscriptItem) (acc : jsstring)
      (clock : Clock) (s : Session) :
  settled done -> turn_pending done acc s ->
  turn_rendered done (clock 0%nat) acc (render clock s).
Proof.
  intros Hd [HT [Hc [k Hq]]]. unfold turn_rendered.
  cbn [render transcript currentTurnRef transcriptUpdates set_renderedStatus
       set_transcriptUpdates setTranscript].
  rewrite Hc, Hq, HT, (run_updaters_settled _ _ _ _ _ Hd).
  repeat split.
Qed.

Lemma render_while_shown (done : list TranscriptItem) (stamp : N * N)
      (acc : jsstring) (clock : Clock) (s : Session) :
  turn_shown done stamp acc s ->
  turn_rendered done stamp acc (render clock s).
Proof.
  intros [txt [k [HT [Hc [Hq Hk]]]]]. unfold turn_rendered.
  cbn [render transcript currentTurnRef transcriptUpdates set_renderedStatus
       set_transcriptUpdates setTranscript].
  rewrite Hc, Hq, HT, run_updaters_open by reflexivity.
  split; [|split; reflexivity].
  destruct k; [rewrite (Hk eq_refl)|]; reflexivity.
Qed.

Lemma rendered_is_shown (done : list TranscriptItem) (stamp : N * N)
      (acc : jsstring) (s : Session) :
  turn_rendered done stamp acc s -> turn_shown done stamp acc s.
Proof.
  intros [HT [Hc Hq]]. exists acc, 0%nat. rewrite Hq. repeat split; assumption.
Qed.

Lemma renders_while_shown (done : list TranscriptItem) (stamp : N * N)
      (acc : jsstring) (rs : list Clock) :
  forall s : Session,
    turn_shown done stamp acc s ->
    turn_shown done stamp acc (run_events (map Render rs) s).
Proof.
  induction rs as [|c rs IH]; intros s H; [exact H|].
  cbn [map run_events run_event]. apply IH, rendered_is_shown.
  apply render_while_shown. exact H.
Qed.

Lemma turn_while_shown (done : list TranscriptItem) (stamp : N * N)
      (fs : list (jsstring * list Clock)) :
  Forall (fun f => fst f <> []) fs ->
  forall (acc : jsstring) (s : Session),
    turn_shown done stamp acc s ->
    turn_shown done stamp (acc ++ concat (map fst fs))
               (run_events (turn_events fs) s).
Proof.
  induction 1 as [|[t rs] fs Ht _ IH]; intros acc s H.
  - cbn [map concat turn_events flat_map run_events].
    rewrite app_nil_r. exact H.
  - cbn [map concat turn_events flat_map fst snd].
    fold (turn_events fs).
    change ((Message (text_event t) :: map Render rs) ++ turn_events fs)
      with (Message (text_event t) :: (map Render rs ++ turn_events fs)).
    cbn [run_events run_event]. rewrite run_events_app, app_assoc.
    apply IH, renders_while_shown, text_while_shown; assumption.
Qed.

(** A turn from its first fragment on: when React renders at the end, the
    transcript ends with the item of the turn, its text is the fragments in
    order, and its stamp is that of the first render after the first
    fragment. *)
Lemma turn_while_pending (done : list TranscriptItem) (closing : Clock)
      (fs : list (jsstring * list Clock)) :
  settled done ->
  Forall (fun f => fst f <> []) fs ->
  forall (rs : list Clock) (acc : jsstring) (s : Session),
    turn_pending done acc s ->
    turn_rendered done (hd closing (rs ++ flat_map snd fs) 0%nat)
                  (acc ++ concat (map fst fs))
                  (run_events (map Render rs ++ turn_events fs
                               ++ [Render closing]) s).
Proof.
  intros Hd Hf. induction Hf as [|[t rs1] fs Ht Hfs IH]; intros rs acc s H.
  - cbn [map concat turn_events flat_map]. rewrite !app_nil_r.
    destruct rs as [|c rs].
    + cbn [map app run_events run_event hd].
      apply render_while_pending; assumption.
    + cbn [map app run_events run_event hd]. rewrite run_events_app.
      cbn [run_events run_event].
      apply render_while_shown, renders_while_shown, rendered_is_shown.
      apply render_while_pending; assumption.
  - destruct rs as [|c rs].
    + cbn [map app flat_map concat turn_events fst snd].
      fold (turn_events fs).
      change (((Message (text_event t) :: map Render rs1) ++ turn_events fs)
              ++ [Render closing])
        with (Message (text_event t)
              :: ((map Render rs1 ++ turn_events fs) ++ [Render closing])).
      cbn [run_events run_event]. rewrite <- app_assoc, app_assoc.
      apply IH. apply text_while_pending; assumption.
    + cbn [map app hd run_events run_event].
      rewrite !run_events_app. cbn [run_events run_event].
      apply render_while_shown.
      apply (turn_while_shown done (c 0%nat) ((t, rs1) :: fs));
        [constructor; assumption|].
      apply renders_while_shown, rendered_is_shown.
      apply render_while_pending; assumption.
Qed.

(** The whole turn, from a transcript that React has rendered. *)
Lemma turn_run (s : Session) (t : jsstring) (rs : list Clock)
      (fs : list (jsstring * list Clock)) (closing : Clock) :
  settled (transcript s) -> currentTurnRef s = [] ->
  transcriptUpdates s = [] ->
  t <> [] -> Forall (fun f => fst f <> []) fs ->
  turn_rendered (transcript s) (hd closing (rs ++ flat_map snd fs) 0%nat)
                (t ++ concat (map fst fs))
                (run_events (turn_events ((t, rs) :: fs) ++ [Render closing]) s).
Proof.
  intros Hs Hc Hq Ht Hf.
  cbn [turn_events flat_map fst snd]. fold (turn_events fs).
  change (((Message (text_event t) :: map Render rs) ++ turn_events fs)
          ++ [Render closing])
    with (Message (text_event t)
          :: ((map Render rs ++ turn_events fs) ++ [Render closing])).
  cbn [run_events run_event]. rewrite <- app_assoc.
  apply (turn_while_pending (transcript s) closing fs Hs Hf rs t).
  apply text_from_rest; assumption.
Qed.

(** A turn completion that React renders finalises what is shown. *)
Lemma renders_after_completion (shown : list TranscriptItem)
      (rs : list Clock) :
  forall s : Session,
    (transcriptUpdates s = [finalize_turns] /\ transcript s = shown)
    \/ (transcriptUpdates s = [] /\ transcript s = finalize_all shown) ->
    rs <> [] ->
    transcript (run_events (map Render rs) s) = finalize_all shown
    /\ transcriptUpdates (run_events (map Render rs) s) = []
    /\ currentTurnRef (run_events (map Render rs) s) = currentTurnRef s.
Proof.
  induction rs as [|c rs IH]; intros s H Hne; [congruence|].
  cbn [map run_events run_event].
  assert (H' : transcriptUpdates (render c s) = []
               /\ transcript (render c s) = finalize_all shown).
  { split; [reflexivity|].
    cbn [render transcript set_renderedStatus set_transcriptUpdates
         setTranscript].
    destruct H as [[-> ->]|[-> ->]]; reflexivity. }
  destruct rs as [|c' rs].
  - cbn [map run_events]. destruct H' as [Hq HT].
    split; [exact HT|]. split; [exact Hq|reflexivity].
  - destruct (IH (render c s) (or_intror H') ltac:(discriminate))
      as [A [B C]].
    split; [exact A|]. split; [exact B|]. rewrite C. reflexivity.
Qed.

Lemma completion_run (s : Session) (rs : list Clock) (closing : Clock) :
  transcriptUpdates s = [] ->
  let s' := run_events (Message turn_complete_event
                        :: map Render rs ++ [Render closing]) s in
  transcript s' = finalize_all (transcript s)
  /\ transcriptUpdates s' = [] /\ currentTurnRef s' = [].
Proof.
  intros Hq. cbv zeta. cbn [run_events run_event].
  rewrite complete_step.
  change [Render closing] with (map Render [closing]).
  rewrite <- map_app.
  destruct (renders_after_completion (transcript s) (rs ++ [closing])
              (set_currentTurnRef [] (enqueue finalize_turns s)))
    as [A [B C]].
  - left. cbn [transcriptUpdates transcript enqueue set_currentTurnRef
               set_transcriptUpdates].
    rewrite Hq. split; reflexivity.
  - destruct rs; discriminate.
  - split; [exact A|]. split; [exact B|]. rewrite C. reflexivity.
Qed.

Lemma finalize_turn (done : list TranscriptItem) (stamp : N * N)
      (t : jsstring) :
  settled done ->
  finalize_all (done ++ [turn_item stamp t true])
  = done ++ [turn_item stamp t false].
Proof.
  intros H. unfold finalize_all. rewrite map_app.
  fold (finalize_all done). rewrite (finalize_all_id _ H). reflexivity.
Qed.





(** ** Minutes generation *)

Lemma trim_start_blank (t : jsstring) : blank t = true -> trim_start t = [].
Proof.
  induction t as [|c t IH]; [reflexivity|].
  cbn [blank forallb trim_start]. intros H.
  apply andb_true_iff in H. destruct H as [Hc Ht]. rewrite Hc. exact (IH Ht).
Qed.

Lemma trim_blank (t : jsstring) : blank t = true -> trim t = [].
Proof. intros H. unfold trim. rewrite (trim_start_blank t H). reflexivity. Qed.

Lemma fullText_blank (items : list TranscriptItem) :
  Forall (fun it => blank (text it) = true) items -> fullText items = [].
Proof.
  intros H. unfold fullText.
  replace (filter _ items) with (@nil TranscriptItem); [reflexivity|].
  induction H as [|it rest Hit _ IH]; [reflexivity|].
  cbn [filter]. rewrite (trim_blank _ Hit). exact IH.
Qed.

(** C10: when every transcript item is empty or white space only (also
    when there is none), [generateMinutes] returns null, issues no request
    and leaves the whole state as it is. *)
Theorem generateMinutes_blank_transcript
        (MeetingMinutes : Type) (JSON_parse : jsstring -> completion MeetingMinutes)
        (response : completion (option jsstring)) (s : Session) :
  Forall (fun it => blank (text it) = true) (transcript s) ->
  generateMinutes JSON_parse response s
  = {| result := Normal None; final := s; trace := [] |}.
Proof.
  intros H. unfold generateMinutes, bind, gets.
  rewrite (fullText_blank _ H). reflexivity.
Qed.

Lemma generateMinutes_blank_transcript_witness :
  generateMinutes (fun _ : jsstring => Normal tt) (Normal None) blank_session
  = {| result := Normal None; final := blank_session; trace := [] |}.
Proof.
  apply generateMinutes_blank_transcript.
  repeat constructor.
Defined.

Lemma trim_start_keeps (c : code_unit) (t : jsstring) :
  is_white_space c = false -> trim_start (c :: t) = c :: t.
Proof. intros H. cbn [trim_start]. rewrite H. reflexivity. Qed.

Lemma trim_start_nonempty (t : jsstring) :
  trim_start t <> [] <-> blank t = false.
Proof.
  induction t as [|c t IH]; cbn [trim_start blank forallb].
  - split; [congruence|discriminate].
  - destruct (is_white_space c); cbn [andb]; [exact IH|].
    split; [reflexivity|discriminate].
Qed.


(** ** Lifecycle invariant *)

Lemma invariant_same_lifecycle (stale : bool) (w : World) (s' : Session) :
  same_lifecycle (hook w) s' ->
  lifecycle_invariant stale w ->
  lifecycle_invariant stale {| hook := s'; pending := pending w; wired := wired w |}.
Proof.
  intros [Hst [Hse [Hc [Hm Hp]]]] [Hrel Hinv].
  unfold lifecycle_invariant, releases_cleanly, handles_held, handles_null in *.
  cbn [hook pending]. rewrite Hst, Hse, Hc, Hm, Hp. split; assumption.
Qed.

Lemma onmessage_same (m : LiveServerMessage) (s : Session) :
  same_lifecycle s (final (onmessage m s)).
Proof.
  rewrite onmessage_final. cbv zeta. cbn [final].
  destruct (truthy_text _), (turnComplete m); repeat split.
Qed.

Lemma render_same (clock : Clock) (s : Session) :
  same_lifecycle s (render clock s).
Proof. repeat split. Qed.

Lemma onaudioprocess_same (inputData : list float) (rate : float) (s : Session) :
  same_lifecycle s (final (onaudioprocess inputData rate s)).
Proof.
  unfold onaudioprocess, bind, gets.
  destruct (isPausedRef s); [repeat split|].
  unfold modify. destruct (resampleBuffer _ _ _); cbn [lift ret throw then_ final].
  - cbn [audioAccumulatorRef setVolume set_audioAccumulatorRef].
    destruct (Nat.leb _ _); repeat split.
  - repeat split.
Qed.

Lemma generateMinutes_same (T : Type) (parse : jsstring -> completion T)
      (resp : completion (option jsstring)) (s : Session) :
  same_lifecycle s (final (generateMinutes parse resp s)).
Proof.
  unfold generateMinutes, bind, gets.
  destruct (is_empty _); [repeat split|].
  unfold try_catch, emit, modify.
  destruct resp as [r|e]; cbn [lift ret throw then_ final].
  - destruct (parse _); cbn [lift ret throw then_ final]; repeat split.
  - repeat split.
Qed.

Lemma connect_catch_run (e : js_error) (s : Session) :
  connect_catch e s
  = {| result := Normal tt;
       final := setStatus ERROR (setError (Some (connect_error_message e)) s);
       trace := [ConsoleError e] |}.
Proof. reflexivity. Qed.

(** A failed segment of [connect] ends in ERROR with the handles as they
    were when the exception was thrown. *)
Lemma failed_invariant (stale : bool) (w : World) (s : Session) (msg : option jsstring) :
  releases_cleanly s ->
  lifecycle_invariant stale {| hook := setStatus ERROR (setError msg s);
                         pending := None; wired := wired w |}.
Proof.
  intros Hrel. split; [exact Hrel|]. cbn.
  split; [discriminate|]. intros [H|H]; discriminate H.
Qed.

Ltac inv_done :=
  repeat match goal with
         | |- _ /\ _ => split
         | |- _ -> _ => intro
         | H : _ \/ _ |- _ => destruct H
         | H : _ /\ _ |- _ => destruct H
         end;
  cbn in *; try discriminate; try congruence; auto.

Lemma step_connect_invariant (stale : bool) (w : World) (key : option jsstring)
      (ctx : completion AudioContext) :
  pending w = None ->
  lifecycle_invariant stale w ->
  lifecycle_invariant stale (advance w (connect key ctx)).
Proof.
  intros Hp [Hrel _]. unfold advance, connect, in_try, try_catch, bind.
  destruct (truthy_text key); cbn [throw ret then_ modify emit lift].
  - destruct ctx as [c|e]; cbn [throw ret then_ modify emit lift result final].
    + unfold connect_request_media, bind, modify, emit, ret.
      destruct (state c); cbn [then_ result final];
        (split; [exact Hrel|]); cbn; inv_done.
    + rewrite connect_catch_run. cbn [then_ result final].
      apply failed_invariant. exact Hrel.
  - rewrite connect_catch_run. cbn [then_ result final].
    apply failed_invariant. exact Hrel.
Qed.

Lemma step_resumed_invariant (stale : bool) (w : World) (c : AudioContext)
      (r : completion unit) :
  pending w = Some (AwaitResume c) ->
  lifecycle_invariant stale w ->
  lifecycle_invariant stale (advance w (connect_resumed c r)).
Proof.
  intros Hp [Hrel Hinv]. rewrite Hp in Hinv.
  unfold advance, connect_resumed, in_try, try_catch, bind.
  destruct r as [[]|e]; cbn [throw ret then_ modify emit lift result final].
  - unfold connect_request_media, bind, modify, emit, ret.
    cbn [then_ result final]. split; [exact Hrel|]. cbn. inv_done.
  - rewrite connect_catch_run. cbn [then_ result final].
    apply failed_invariant. exact Hrel.
Qed.

Lemma step_media_invariant (stale : bool) (w : World) (c : AudioContext)
      (r : completion MediaStream) (src : option js_error)
      (proc : completion ScriptProcessorNode) :
  pending w = Some (AwaitUserMedia c) ->
  (forall ms, r = Normal ms -> tracks_stop_cleanly ms) ->
  (forall p, proc = Normal p -> disconnect_throws p = None) ->
  lifecycle_invariant stale w ->
  lifecycle_invariant stale (advance w (connect_got_media c r src proc)).
Proof.
  intros Hp Hms Hproc [[Hrel1 Hrel2] Hinv]. rewrite Hp in Hinv.
  destruct Hinv as [Hst Hctx].
  unfold advance, connect_got_media, in_try, try_catch, call, bind.
  destruct r as [ms|e]; cbn [throw ret then_ modify emit lift result final].
  - assert (Hrel' : releases_cleanly (set_mediaStreamRef (Some ms) (hook w))).
    { split; cbn; [intros ms' E; injection E as <-; apply Hms; reflexivity
                  |exact Hrel2]. }
    destruct src as [e|]; cbn [throw ret then_ modify emit lift result final].
    + rewrite connect_catch_run. cbn [then_ result final].
      apply failed_invariant. exact Hrel'.
    + destruct proc as [p|e];
        cbn [throw ret then_ modify emit lift result final].
      * split.
        -- split; cbn; [apply Hrel'|].
           intros p' E. injection E as <-. apply Hproc. reflexivity.
        -- cbn. inv_done.
      * rewrite connect_catch_run. cbn [then_ result final].
        apply failed_invariant. exact Hrel'.
  - rewrite connect_catch_run. cbn [then_ result final].
    apply failed_invariant. split; assumption.
Qed.

Lemma step_opened_invariant (stale : bool) (w : World) (c : AudioContext) (ms : MediaStream)
      (p : ScriptProcessorNode) (session : LiveSessionHandle) :
  pending w = Some (AwaitSession c ms p) ->
  lifecycle_invariant stale w ->
  lifecycle_invariant stale
    (wire c (advance w (onopen ;; connect_session_settled (Normal session)))).
Proof.
  intros Hp [Hrel Hinv]. rewrite Hp in Hinv.
  destruct Hinv as [Hst [Hctx [Hms Hproc]]].
  unfold wire, advance, onopen, connect_session_settled, in_try, try_catch,
    bind, modify, emit, lift, ret.
  cbn [then_ result final hook pending].
  split; [exact Hrel|]. cbn.
  split; [intros _; repeat split; (discriminate || assumption)|].
  intros [H|H]; discriminate H.
Qed.

Lemma step_rejected_invariant (stale : bool) (w : World) (e : js_error) :
  lifecycle_invariant stale w ->
  lifecycle_invariant stale (advance w (connect_session_settled (Throw e))).
Proof.
  intros [Hrel _].
  unfold advance, connect_session_settled, in_try, try_catch, bind, lift, throw.
  rewrite connect_catch_run. cbn [then_ result final].
  apply failed_invariant. exact Hrel.
Qed.

Lemma torn_down_null (s : Session) : handles_null (torn_down s).
Proof. repeat split. Qed.

Lemma disconnect_final (s : Session) :
  releases_cleanly s ->
  disconnect s = {| result := Normal tt; final := torn_down s;
                    trace := trace (disconnect s) |}.
Proof.
  intros H. destruct (disconnect_clean s H) as [t [E _]].
  rewrite E at 2. cbn [trace]. exact E.
Qed.

Lemma step_disconnect_invariant (stale : bool) (w : World) :
  pending w = None ->
  lifecycle_invariant stale w ->
  lifecycle_invariant stale (handle w disconnect).
Proof.
  intros Hp [Hrel Hinv]. unfold handle. rewrite Hp in *.
  rewrite (disconnect_final _ Hrel). cbn [final].
  split; [split; discriminate|].
  split; [|intros _; apply torn_down_null].
  cbn. destruct (is_active (status (hook w))) eqn:A; [discriminate|].
  rewrite A. discriminate.
Qed.

Lemma step_onerror_invariant (stale : bool) (w : World) (err : js_error) :
  lifecycle_invariant stale w ->
  lifecycle_invariant stale (drop_pending (handle w (onerror err))).
Proof.
  intros [Hrel _]. unfold drop_pending, handle, onerror.
  cbn [hook pending wired].
  unfold bind at 1. cbn [emit]. unfold bind at 1. cbn [modify].
  assert (Hrel' : releases_cleanly
                    (setError (Some (onerror_message err)) (hook w)))
    by exact Hrel.
  rewrite (bind_run _ _ _ _ _ _ (disconnect_final _ Hrel')).
  unfold modify, then_. cbn [final].
  split; [split; discriminate|]. cbn.
  split; [discriminate|]. intros [H|H]; discriminate H.
Qed.

Lemma step_onclose_invariant (stale : bool) (w : World) :
  lifecycle_invariant stale w ->
  lifecycle_invariant stale (drop_pending (handle w onclose)).
Proof.
  intros [Hrel Hinv]. unfold drop_pending, handle, onclose.
  cbn [hook pending wired].
  unfold bind at 1. cbn [emit]. unfold bind at 1. unfold gets, when.
  destruct (is_active (status (hook w))) eqn:A.
  - rewrite (bind_run _ _ _ _ _ _ (disconnect_final _ Hrel)).
    unfold modify, then_. cbn [final].
    split; [split; discriminate|]. cbn.
    split; [discriminate|]. intros _. repeat split.
  - cbn [ret then_ final]. split; [exact Hrel|]. cbn [hook pending].
    split; [intros _ A'; rewrite A in A'; discriminate A'|].
    destruct (pending w) as [[c|c|c ms p]|].
    + intros [H|H]; rewrite Hinv in H; discriminate H.
    + destruct Hinv as [Hst _]. intros [H|H]; rewrite Hst in H; discriminate H.
    + destruct Hinv as [Hst _]. intros [H|H]; rewrite Hst in H; discriminate H.
    + apply Hinv.
Qed.

Lemma step_pause_invariant (stale : bool) (w : World) :
  pending w = None ->
  (stale = false -> up_to_date (hook w)) ->
  lifecycle_invariant stale w ->
  lifecycle_invariant stale (handle w pause).
Proof.
  intros Hp Hfresh [Hrel Hinv]. unfold handle, pause, bind, gets, when.
  rewrite Hp in *.
  destruct (status_eqb (renderedStatus (hook w)) RECORDING) eqn:E.
  - unfold modify. cbn [then_ final]. split; [exact Hrel|]. cbn.
    destruct Hinv as [Ha _].
    split; [|intros [H|H]; discriminate H].
    intros Hs _. apply (Ha Hs). rewrite <- (Hfresh Hs).
    unfold is_active. rewrite E. reflexivity.
  - cbn [ret then_ final]. split; assumption.
Qed.

Lemma step_resume_invariant (stale : bool) (w : World) :
  pending w = None ->
  (stale = false -> up_to_date (hook w)) ->
  lifecycle_invariant stale w ->
  lifecycle_invariant stale (handle w resume).
Proof.
  intros Hp Hfresh [Hrel Hinv]. unfold handle, resume, bind, gets, when.
  rewrite Hp in *.
  destruct (status_eqb (renderedStatus (hook w)) PAUSED) eqn:E.
  - unfold modify. cbn [then_ final]. split; [exact Hrel|]. cbn.
    destruct Hinv as [Ha _].
    split; [|intros [H|H]; discriminate H].
    intros Hs _. apply (Ha Hs). rewrite <- (Hfresh Hs).
    unfold is_active. rewrite E. apply orb_true_r.
  - cbn [ret then_ final]. split; assumption.
Qed.

Lemma initial_invariant (stale : bool) : lifecycle_invariant stale initial_world.
Proof.
  split; [split; discriminate|]. cbn. split; [discriminate|].
  intros _. repeat split.
Qed.

Lemma reachable_invariant (stale : bool) (w : World) :
  reachable stale w -> lifecycle_invariant stale w.
Proof.
  induction 1 as [|w w' _ IH Hstep]; [apply initial_invariant|].
  destruct Hstep.
  - apply step_connect_invariant; assumption.
  - eapply step_resumed_invariant; eassumption.
  - eapply step_media_invariant; eassumption.
  - eapply step_opened_invariant; eassumption.
  - apply step_rejected_invariant; assumption.
  - apply step_onerror_invariant; assumption.
  - apply step_onclose_invariant; assumption.
  - apply invariant_same_lifecycle; [apply onmessage_same|assumption].
  - apply invariant_same_lifecycle; [apply onaudioprocess_same|assumption].
  - apply step_disconnect_invariant; assumption.
  - apply step_pause_invariant; assumption.
  - apply step_resume_invariant; assumption.
  - apply invariant_same_lifecycle; [apply generateMinutes_same|assumption].
  - apply invariant_same_lifecycle; [apply render_same|assumption].
Qed.

Lemma reachable_awaiting_microphone (stale : bool) :
  reachable stale world_awaiting_microphone.
Proof.
  apply (@reachable_step stale initial_world); [apply reachable_initial|].
  apply step_connect; reflexivity.
Qed.

Lemma reachable_recording (stale : bool) : reachable stale world_recording.
Proof.
  apply (@reachable_step stale world_got_microphone).
  - apply (@reachable_step stale world_awaiting_microphone);
      [apply reachable_awaiting_microphone|].
    apply step_media; [reflexivity| |].
    + intros ms E. injection E as <-. repeat constructor.
    + intros p E. injection E as <-. reflexivity.
  - apply (@step_opened stale world_got_microphone running_context clean_stream
                       {| disconnect_throws := None |}).
    reflexivity.
Qed.

Lemma reachable_paused_after_error : reachable true world_paused_after_error.
Proof.
  apply (@reachable_step true world_error_unrendered).
  - apply (@reachable_step true world_recording_rendered).
    + apply (@reachable_step true world_recording);
        [apply reachable_recording|apply step_render].
    + apply step_onerror. discriminate.
  - apply step_pause; [reflexivity|discriminate].
Qed.

(** C2 (as stated, refuted): right after [connect] has set CONNECTING the
    capture stream and the session are still null; when the microphone is
    then refused the status is ERROR while the audio context is still held;
    and when the connection reports an error while recording and [pause] is
    called before React renders again, the status is PAUSED with all handles
    null. *)
Lemma handles_lag_behind_status :
  (forall stale : bool,
      reachable stale world_awaiting_microphone /\
      status (hook world_awaiting_microphone) = CONNECTING /\
      mediaStreamRef (hook world_awaiting_microphone) = None /\
      ~ handles_iff_live (hook world_awaiting_microphone) /\
      reachable stale world_microphone_refused /\
      status (hook world_microphone_refused) = ERROR /\
      audioContextRef (hook world_microphone_refused) <> None) /\
  reachable true world_paused_after_error /\
  status (hook world_paused_after_error) = PAUSED /\
  handles_null (hook world_paused_after_error) /\
  ~ handles_iff_live (hook world_paused_after_error).
Proof.
  split.
  { intros stale.
    split; [apply reachable_awaiting_microphone|].
    split; [reflexivity|]. split; [reflexivity|].
    split.
    { intros [_ H]. destruct (H eq_refl) as [_ [Hms _]]. apply Hms.
      reflexivity. }
    split.
    { apply (@reachable_step stale world_awaiting_microphone);
        [apply reachable_awaiting_microphone|].
      apply step_media; [reflexivity| |].
      - intros ms E. discriminate E.
      - intros p E. injection E as <-. reflexivity. }
    split; [reflexivity|]. discriminate. }
  split; [apply reachable_paused_after_error|].
  split; [reflexivity|]. split; [repeat split|].
  intros [_ H]. destruct (H eq_refl) as [Hc _]. apply Hc. reflexivity.
Qed.

(** C2 (amended): at every point of the lifecycle reached with [pause] and
    [resume] called only on a hook that React has rendered since the status
    last changed, RECORDING and PAUSED imply that the session, audio
    context, capture stream and processing node handles are all non-null;
    and at every reachable point, whenever [pause] and [resume] are called,
    IDLE and COMPLETED imply that they are all null. *)
Theorem handles_follow_status :
  (forall w : World,
      reachable false w ->
      is_active (status (hook w)) = true -> handles_held (hook w)) /\
  (forall (stale : bool) (w : World),
      reachable stale w ->
      status (hook w) = IDLE \/ status (hook w) = COMPLETED ->
      handles_null (hook w)).
Proof.
  split.
  - intros w H A. destruct (reachable_invariant false w H) as [_ Hinv].
    destruct (pending w) as [[c|c|c ms p]|].
    + rewrite Hinv in A. discriminate A.
    + destruct Hinv as [Hst _]. rewrite Hst in A. discriminate A.
    + destruct Hinv as [Hst _]. rewrite Hst in A. discriminate A.
    + exact (proj1 Hinv eq_refl A).
  - intros stale w H. destruct (reachable_invariant stale w H) as [_ Hinv].
    destruct (pending w) as [[c|c|c ms p]|].
    + intros [E|E]; rewrite Hinv in E; discriminate E.
    + destruct Hinv as [Hst _]. intros [E|E]; rewrite Hst in E; discriminate E.
    + destruct Hinv as [Hst _]. intros [E|E]; rewrite Hst in E; discriminate E.
    + exact (proj2 Hinv).
Qed.

Lemma handles_follow_status_witness :
  status (hook world_recording) = RECORDING /\ handles_held (hook world_recording).
Proof.
  split; [reflexivity|].
  apply (proj1 handles_follow_status world_recording
               (reachable_recording false)).
  reflexivity.
Defined.

(* ================================================================== *)
(** * Further properties of the audio utilities *)
(* ================================================================== *)

Import Notions Base64 LiveView.

(** ** Resampling: empty input, and downsampling in general *)

Section Downsampling.
Local Open Scope Z_scope.

(** [0 / r] is a zero or NaN, whatever [r] is. *)
Lemma zero_quotient_index (r : float) :
  ToIndexZ (Math_floor (0 / r)) = Some 0.
Proof.
  pose proof (div_spec 0 r) as E. unfold SF64div in E.
  change (Prim2SF 0) with (S754_zero false) in E.
  unfold Math_floor, ToIndexZ.
  destruct (Prim2SF r) as [sr|sr| |sr mr er]; cbn [SFdiv] in E;
    rewrite E; rewrite ?E; reflexivity.
Qed.

Variable N : Z.
Hypothesis HN : 3200 <= N.

(** The ratio of a source rate to a positive target rate that is not
    larger: at least 1, perhaps infinite. *)
Lemma SF_ratio_ge1 (a b r : spec_float) :
  valid_binary a = true -> valid_binary b = true ->
  r = SFdiv prec emax a b ->
  SFltb (S754_zero false) b = true ->
  SFleb b a = true ->
  SFeqb a b = false ->
  match r with
  | S754_infinity s => s = false
  | S754_finite s m e => s = false /\ 2 ^ N <= val N (Zpos m) e
  | _ => False
  end.
Proof.
  intros Va Vb Er Hb Hle Hne.
  destruct b as [sb|[|]| |[|] mb eb]; try discriminate Hb.
  - destruct a as [sa|[|]| |sa ma ea]; try discriminate Hle; discriminate Hne.
  - destruct a as [sa|[|]| |[|] ma ea]; try discriminate Hle.
    + subst r. reflexivity.
    + cbn [valid_binary] in Va, Vb.
      pose proof (SFleb_val N mb eb ma ea Vb Va ltac:(lia) Hle) as Hv.
      pose proof (bounded_facts _ _ Va) as [Ra [Da _]].
      pose proof (bounded_facts _ _ Vb) as [Rb _].
      pose proof (pow2_pos N ltac:(lia)) as PW.
      pose proof (SFdiv_ge N 1 0 ma ea mb eb Ra Rb HN Da
                    ltac:(lia) ltac:(lia)) as G.
      rewrite Z.mul_1_l, Z.add_0_l in G.
      specialize (G ltac:(rewrite (Z.mul_comm (2 ^ N));
                          apply Z.mul_le_mono_nonneg_r; lia)).
      rewrite <- Er in G. exact G.
Qed.

(** Dividing a length by a ratio of at least 1 and taking the floor gives
    a valid array length, not above the length. *)
Lemma downsampled_index (n : Z) (i o : float) :
  0 <= n < 2 ^ 53 ->
  (0 <? o)%float = true -> (o <=? i)%float = true ->
  (i =? o)%float = false ->
  exists k, ToIndexZ (newLength n i o) = Some k /\ 0 <= k <= n.
Proof.
  intros Hn Ho Hle Hne. rewrite ltb_spec in Ho. rewrite leb_spec in Hle.
  rewrite eqb_spec in Hne. unfold newLength.
  destruct (Z.eq_dec n 0) as [->|Hn0].
  { exists 0. split; [apply zero_quotient_index|lia]. }
  destruct (of_Z_val N n ltac:(lia) ltac:(lia)) as [mn [en [En [Rn [Dn Vn]]]]].
  pose proof (SF_ratio_ge1 _ _ _ (Prim2SF_valid i) (Prim2SF_valid o)
                (div_spec i o) Ho Hle Hne) as G.
  pose proof (Prim2SF_valid (i / o)) as Vr.
  pose proof (div_spec (of_Z n) (i / o)) as Eq. unfold SF64div in Eq.
  rewrite En in Eq.
  set (q := (of_Z n / (i / o))%float) in *.
  pose proof (pow2_pos N ltac:(lia)) as PW.
  destruct (Prim2SF (i / o)) as [sr|sr| |sr mr er]; try contradiction.
  - (* infinite ratio *)
    exists 0. cbn [SFdiv] in Eq. split; [|lia].
    unfold Math_floor, ToIndexZ. rewrite Eq, ?Eq. reflexivity.
  - destruct G as [-> G]. cbn [valid_binary] in Vr.
    pose proof (bounded_facts _ _ Vr) as [Rr _].
    pose proof (SFdiv_le N n mn en mr er Rn Rr HN ltac:(lia)) as L.
    rewrite Vn in L.
    specialize (L ltac:(apply Z.mul_le_mono_nonneg_l; lia)).
    rewrite <- Eq in L.
    destruct (Prim2SF q) as [sz|sz| |sz mq eq] eqn:Pq; try contradiction.
    + exists 0. split; [|lia].
      unfold Math_floor, ToIndexZ. rewrite Pq, ?Pq. reflexivity.
    + destruct L as [-> [He L]].
      set (Q := val N (Zpos mq) eq) in *. set (W := 2 ^ N) in *.
      assert (HQ : 0 < Q).
      { unfold Q, val. apply Z.mul_pos_pos; [lia|apply pow2_pos; lia]. }
      pose proof (Z.mul_div_le Q W PW) as D1.
      pose proof (Z.mul_succ_div_gt Q W PW) as D2.
      assert (Dk : 0 <= Q / W <= n).
      { split; [apply Z.div_pos; lia|].
        apply Z.div_le_upper_bound; lia. }
      exists (Q / W). split; [|exact Dk].
      apply (floor_val N (Q / W) q mq eq Pq He); [lia|lia|].
      fold Q W. lia.
Qed.

End Downsampling.

(** X1: Resampling the empty buffer gives the empty buffer, whatever the two
    rates are (zero, negative, infinite or NaN included). *)
Theorem resample_empty (inputRate outputRate : float) :
  resampleBuffer [] inputRate outputRate = Normal [].
Proof.
  unfold resampleBuffer. destruct (inputRate =? outputRate); [reflexivity|].
  unfold ToIndex, newLength. cbn [length Z.of_nat]. change (of_Z 0) with 0.
  rewrite zero_quotient_index. reflexivity.
Qed.

Lemma resample_down (buffer : list float) (inputRate outputRate : float) :
  (Z.of_nat (length buffer) < 2 ^ 53)%Z ->
  (0 <? outputRate) = true -> (outputRate <=? inputRate) = true ->
  exists out, resampleBuffer buffer inputRate outputRate = Normal out
              /\ (length out <= length buffer)%nat.
Proof.
  intros Hn Ho Hle. unfold resampleBuffer.
  destruct (inputRate =? outputRate) eqn:Eq.
  - exists buffer. split; [reflexivity|apply le_n].
  - destruct (downsampled_index 3200 (Z.le_refl 3200)
                (Z.of_nat (length buffer)) inputRate outputRate
                ltac:(lia) Ho Hle Eq) as [k [Ek Hk]].
    unfold ToIndex. rewrite Ek. cbn [option_map]. eexists.
    split; [reflexivity|]. rewrite length_map, length_seq. lia.
Qed.

(** X2: Downsampling never throws and never returns more samples than it was
    given: for every buffer and every positive target rate that is at most
    the source rate. *)
Theorem downsampling_never_lengthens
        (buffer : list float) (inputRate outputRate : float) :
  (Z.of_nat (length buffer) < 2 ^ 53)%Z ->
  (0 <? outputRate) = true -> (outputRate <=? inputRate) = true ->
  exists out, resampleBuffer buffer inputRate outputRate = Normal out
              /\ (length out <= length buffer)%nat.
Proof. exact (resample_down buffer inputRate outputRate). Qed.

Lemma downsampling_never_lengthens_witness :
  exists out, resampleBuffer [0.5; 0.25; 0.125] 48000 16000 = Normal out
              /\ (length out <= 3)%nat.
Proof.
  apply (downsampling_never_lengthens [0.5; 0.25; 0.125] 48000 16000);
    reflexivity.
Defined.

(* ================================================================== *)
(** * Further properties of the hook *)
(* ================================================================== *)

(** ** The audio callback *)

(** X3: On a device that samples at 16 kHz or faster the audio callback never
    throws, and a chunk it sends holds at least 2048 samples and at most
    the residual plus the block. *)
Theorem audio_callback_never_throws
        (s : Session) (inputData : list float) (rate : float) :
  (Z.of_nat (length inputData) < 2 ^ 53)%Z ->
  (16000 <=? rate) = true ->
  let o := onaudioprocess inputData rate s in
  result o = Normal tt /\
  match sent (trace o) with
  | [] => True
  | [media] =>
      exists chunk,
        media = createPcmBlob chunk
        /\ (CHUNK_THRESHOLD <= length chunk
            <= length (audioAccumulatorRef s) + length inputData)%nat
  | _ => False
  end.
Proof.
  intros Hn Hr. cbv zeta.
  destruct (isPausedRef s) eqn:Hp.
  - rewrite (onaudioprocess_paused s inputData rate Hp). split; [reflexivity|exact I].
  - destruct (resample_down inputData rate 16000 Hn eq_refl Hr)
      as [out [E L]].
    destruct (onaudioprocess_flush s inputData out rate Hp E) as [R F].
    split; [exact R|]. cbv zeta in F.
    destruct (CHUNK_THRESHOLD <=? length (audioAccumulatorRef s ++ out))%nat
      eqn:T.
    + destruct F as [-> _]. eexists. split; [reflexivity|].
      apply Nat.leb_le in T. rewrite length_app in *. lia.
    + destruct F as [-> _]. exact I.
Qed.

Lemma audio_callback_never_throws_witness :
  result (onaudioprocess [0.5; 0.25; 0.125] 48000 initial) = Normal tt.
Proof.
  destruct (audio_callback_never_throws initial [0.5; 0.25; 0.125] 48000)
    as [H _]; [reflexivity|reflexivity|exact H].
Defined.

(** X4: While the session is paused no audio leaves: whatever blocks arrive,
    the callback sends nothing and leaves the whole state as it is, volume
    and residual included. *)
Theorem paused_audio_is_dropped
        (blocks : list (list float * float)) (s : Session) :
  isPausedRef s = true -> audio_run blocks s = (s, []).
Proof.
  intros Hp. induction blocks as [|[inputData rate] rest IH]; [reflexivity|].
  cbn [audio_run]. rewrite (onaudioprocess_paused s inputData rate Hp).
  cbn [final trace]. rewrite IH. reflexivity.
Qed.

Lemma paused_audio_is_dropped_witness :
  audio_run [(block_1000, 48000); (block_1000, 48000); (block_1000, 48000)]
            (set_isPausedRef true initial)
  = (set_isPausedRef true initial, []).
Proof. apply paused_audio_is_dropped. reflexivity. Defined.

(** ** [pause] and [resume] *)

(** X5: Pausing a recording that React has rendered, and resuming it once
    React has rendered the pause, gives back after the next render the state
    it started from, but for the volume, which pausing resets; neither call
    has an effect outside the hook.  A [resume] called with the callback of
    the render before the pause does nothing: the hook stays paused. *)
Theorem pause_resume_round_trip (s : Session) (c1 c2 : Clock) :
  status s = RECORDING -> renderedStatus s = RECORDING ->
  isPausedRef s = false ->
  let o1 := pause s in
  let o2 := resume (render c1 (final o1)) in
  result o1 = Normal tt /\ trace o1 = [] /\
  status (final o1) = PAUSED /\ isPausedRef (final o1) = true /\
  result o2 = Normal tt /\ trace o2 = [] /\
  status (final o2) = RECORDING /\ isPausedRef (final o2) = false /\
  render c2 (final o2) = setVolume 0 (render c1 s) /\
  resume (final o1)
  = {| result := Normal tt; final := final o1; trace := [] |}.
Proof.
  intros Hs Hr Hp. destruct s. cbn in Hs, Hr, Hp. subst.
  repeat split; reflexivity.
Qed.

Lemma pause_resume_round_trip_witness :
  let clock : Clock := fun _ => (0, 0)%N in
  let s := hook world_recording_rendered in
  render clock (final (resume (render clock (final (pause s)))))
  = setVolume 0 (render clock s)
  /\ status (final (resume (final (pause s)))) = PAUSED.
Proof.
  cbv zeta.
  destruct (pause_resume_round_trip (hook world_recording_rendered)
              (fun _ => (0, 0)%N) (fun _ => (0, 0)%N)
              eq_refl eq_refl eq_refl)
    as [_ [_ [H3 [_ [_ [_ [_ [_ [H9 H10]]]]]]]]].
  split; [exact H9|]. rewrite H10. exact H3.
Defined.

(** ** Teardown *)

Lemma sent_repeat_stop (n : nat) : sent (repeat TrackStop n) = [].
Proof. induction n as [|n IH]; [reflexivity|exact IH]. Qed.

Lemma disconnect_sends_nothing (s : Session) :
  releases_cleanly s -> sent (trace (disconnect s)) = [].
Proof.
  intros [Hms Hp]. unfold disconnect.
  unfold bind at 1. cbn [emit].
  rewrite (bind_run _ _ _ _ _ _ (close_session_run s)).
  rewrite (bind_run _ _ _ _ _ _
             (stop_tracks_clean (set_sessionRef None s) Hms)).
  rewrite (bind_run _ _ _ _ _ _
             (disconnect_nodes_clean
                (set_mediaStreamRef None (set_sessionRef None s)) Hp)).
  rewrite (bind_run _ _ _ _ _ _ (close_context_run _)).
  unfold bind, modify, then_.
  cbn [result final trace sessionRef mediaStreamRef processorRef
       audioContextRef set_sessionRef set_mediaStreamRef set_processorRef].
  rewrite !app_nil_r. cbn [app sent]. rewrite !sent_app.
  destruct (sessionRef s) as [[[e|]]|], (mediaStreamRef s) as [[tracks]|],
           (processorRef s) as [pr|],
           (audioContextRef s) as [[[| |] rate [e'|]]|];
    cbn [sent app close_throws getTracks state close_rejects];
    rewrite ?sent_repeat_stop; reflexivity.
Qed.

(** X6: [disconnect] drops the residual: the samples accumulated but not yet
    sent (up to 2047 of them) are never sent, the accumulator restarts
    empty, pause and volume are reset, and the transcript, the error
    message and the open turn are left as they are. *)
Theorem disconnect_drops_residual (s : Session) :
  releases_cleanly s ->
  let o := disconnect s in
  sent (trace o) = [] /\
  audioAccumulatorRef (final o) = [] /\
  isPausedRef (final o) = false /\
  volume (final o) = 0 /\
  transcript (final o) = transcript s /\
  error (final o) = error s /\
  currentTurnRef (final o) = currentTurnRef s.
Proof.
  intros H. cbv zeta. split; [exact (disconnect_sends_nothing s H)|].
  rewrite (disconnect_final s H). cbn [final]. repeat split.
Qed.

Lemma disconnect_drops_residual_witness :
  sent (trace (disconnect (set_audioAccumulatorRef block_1000 world_recording.(hook))))
  = [] /\
  audioAccumulatorRef
    (final (disconnect (set_audioAccumulatorRef block_1000 world_recording.(hook))))
  = [].
Proof.
  destruct (disconnect_drops_residual
              (set_audioAccumulatorRef block_1000 world_recording.(hook)))
    as [H1 [H2 _]].
  - split.
    + intros ms E. injection E as <-. repeat constructor.
    + intros p E. injection E as <-. reflexivity.
  - split; [exact H1|exact H2].
Defined.

(** ** Errors of the connection *)

Lemma onerror_message_nonempty (err : js_error) : onerror_message err <> [].
Proof.
  unfold onerror_message. destruct (is_Error err); discriminate.
Qed.

Lemma onerror_run (err : js_error) (s : Session) :
  releases_cleanly s ->
  exists t,
    onerror err s
    = {| result := Normal tt;
         final := setStatus ERROR
                    (torn_down (setError (Some (onerror_message err)) s));
         trace := t |}.
Proof.
  intros H. unfold onerror. unfold bind at 1. cbn [emit].
  unfold bind at 1. cbn [modify].
  assert (H' : releases_cleanly (setError (Some (onerror_message err)) s))
    by exact H.
  rewrite (bind_run _ _ _ _ _ _ (disconnect_final _ H')).
  eexists. reflexivity.
Qed.

(** X7: An error of the connection ends the session in ERROR with its message
    set and every handle released, whatever the status was; the close event
    that follows changes nothing further, so the ERROR status and the
    message stay. *)
Theorem error_then_close (err : js_error) (s : Session) :
  releases_cleanly s ->
  let o := onerror err s in
  result o = Normal tt /\
  status (final o) = ERROR /\
  error (final o) = Some (onerror_message err) /\
  onerror_message err <> [] /\
  handles_null (final o) /\
  transcript (final o) = transcript s /\
  result (onclose (final o)) = Normal tt /\
  final (onclose (final o)) = final o.
Proof.
  intros H. cbv zeta. destruct (onerror_run err s H) as [t E].
  rewrite E. cbn [result final]. repeat split.
  apply onerror_message_nonempty.
Qed.

Lemma error_then_close_witness :
  status (final (onerror (Error_ (str "network")) world_recording.(hook)))
  = ERROR.
Proof.
  destruct (error_then_close (Error_ (str "network")) world_recording.(hook))
    as [_ [H _]]; [|exact H].
  split.
  - intros ms E. injection E as <-. repeat constructor.
  - intros p E. injection E as <-. reflexivity.
Defined.

(** ** [connect] without an API key *)

(** X8: With no API key, or an empty one, [connect] fails before it touches
    anything: the only effect is the console message, the status goes to
    ERROR with the fixed message, and no handle, flag or buffer changes
    (the status is never CONNECTING, no audio context is created). *)
Theorem connect_without_key
        (key : option jsstring) (new_context : completion AudioContext)
        (s : Session) :
  truthy_text key = None ->
  connect key new_context s
  = {| result := Normal None;
       final := setStatus ERROR
                  (setError (Some (str "API Keyが設定されていません。")) s);
       trace := [ConsoleError (Error_ (str "API Keyが設定されていません。"))] |}.
Proof.
  intros H. unfold connect, in_try, try_catch. unfold bind at 1.
  rewrite H. reflexivity.
Qed.

Lemma connect_without_key_witness :
  status (final (connect (Some []) (Normal running_context) initial)) = ERROR.
Proof.
  rewrite (connect_without_key (Some []) (Normal running_context) initial);
    reflexivity.
Defined.

(** ** Status, pause flag and error message over the lifecycle *)

Lemma truthy_text_nonempty (o : option jsstring) (m : jsstring) :
  truthy_text o = Some m -> m <> [].
Proof.
  destruct o as [[|c t]|]; cbn; intros H; try discriminate H.
  injection H as <-. discriminate.
Qed.

Lemma connect_error_message_nonempty (e : js_error) :
  connect_error_message e <> [].
Proof.
  unfold connect_error_message.
  destruct (truthy_text (message e)) as [m|] eqn:E.
  - destruct (includes m _); [discriminate|].
    exact (truthy_text_nonempty _ _ E).
  - destruct (includes _ _); discriminate.
Qed.

Lemma coherent_failed (s : Session) (m : jsstring) :
  m <> [] -> isPausedRef s = false ->
  status_coherent (setStatus ERROR (setError (Some m) s)).
Proof.
  intros Hm Hp. split; cbn.
  - rewrite Hp. split; discriminate.
  - intros _. exists m. split; [reflexivity|exact Hm].
Qed.

Lemma coherent_not_paused (s : Session) :
  status_coherent s -> status s <> PAUSED -> isPausedRef s = false.
Proof.
  intros [[H _] _] Hs. destruct (isPausedRef s); [|reflexivity].
  exfalso. apply Hs, H. reflexivity.
Qed.

Lemma coherent_torn_down (s : Session) :
  status_coherent s -> status_coherent (torn_down s).
Proof.
  intros [Hp He]. split; cbn.
  - split; [discriminate|].
    destruct (is_active (status s)) eqn:A; [discriminate|].
    intros E. rewrite E in A. discriminate A.
  - destruct (is_active (status s)); [discriminate|exact He].
Qed.

Lemma coherent_same (s s' : Session) :
  status s' = status s -> isPausedRef s' = isPausedRef s ->
  error s' = error s ->
  status_coherent s -> status_coherent s'.
Proof.
  intros Hs Hp He [H1 H2]. unfold status_coherent.
  rewrite Hs, Hp, He. split; assumption.
Qed.

Ltac coherent_done :=
  split; cbn;
  [split; (discriminate || congruence || auto)
  |try discriminate; try congruence; auto].

Lemma step_coherent (stale : bool) (w w' : World) :
  lifecycle_invariant stale w -> status_coherent (hook w) -> step stale w w' ->
  status_coherent (hook w').
Proof.
  intros [Hrel Hinv] Hc Hstep. destruct Hstep.
  - (* connect *)
    assert (Hnp : isPausedRef (hook w) = false).
    { apply coherent_not_paused; [exact Hc|].
      intros E. rewrite E in H0. discriminate H0. }
    unfold advance, connect, in_try, try_catch, bind. cbn [hook].
    destruct (truthy_text key); cbn [throw ret then_ modify emit lift].
    + destruct ctx as [c|e];
        cbn [throw ret then_ modify emit lift result final].
      * unfold connect_request_media, bind, modify, emit, ret.
        destruct (state c); cbn [then_ result final]; coherent_done.
      * rewrite connect_catch_run. cbn [then_ result final].
        apply coherent_failed; [apply connect_error_message_nonempty|].
        reflexivity.
    + rewrite connect_catch_run. cbn [then_ result final].
      apply coherent_failed; [apply connect_error_message_nonempty|].
      exact Hnp.
  - (* resumed *)
    rewrite H in Hinv.
    assert (Hnp : isPausedRef (hook w) = false)
      by (apply coherent_not_paused; [exact Hc|rewrite Hinv; discriminate]).
    unfold advance, connect_resumed, in_try, try_catch, bind. cbn [hook].
    destruct r as [[]|e]; cbn [throw ret then_ modify emit lift result final].
    + unfold connect_request_media, bind, modify, emit, ret.
      cbn [then_ result final]. exact Hc.
    + rewrite connect_catch_run. cbn [then_ result final].
      apply coherent_failed; [apply connect_error_message_nonempty|].
      exact Hnp.
  - (* media *)
    rewrite H in Hinv. destruct Hinv as [Hst _].
    assert (Hnp : isPausedRef (hook w) = false)
      by (apply coherent_not_paused; [exact Hc|rewrite Hst; discriminate]).
    unfold advance, connect_got_media, in_try, try_catch, call, bind.
    cbn [hook].
    destruct r as [ms|e]; cbn [throw ret then_ modify emit lift result final].
    + destruct src as [e|];
        cbn [throw ret then_ modify emit lift result final].
      * rewrite connect_catch_run. cbn [then_ result final].
        apply coherent_failed; [apply connect_error_message_nonempty|].
        exact Hnp.
      * destruct proc as [p|e];
          cbn [throw ret then_ modify emit lift result final].
        -- exact Hc.
        -- rewrite connect_catch_run. cbn [then_ result final].
           apply coherent_failed; [apply connect_error_message_nonempty|].
           exact Hnp.
    + rewrite connect_catch_run. cbn [then_ result final].
      apply coherent_failed; [apply connect_error_message_nonempty|].
      exact Hnp.
  - (* opened *)
    rewrite H in Hinv. destruct Hinv as [Hst _].
    assert (Hnp : isPausedRef (hook w) = false)
      by (apply coherent_not_paused; [exact Hc|rewrite Hst; discriminate]).
    unfold wire, advance, onopen, connect_session_settled, in_try, try_catch,
      bind, modify, emit, lift, ret.
    cbn [then_ result final hook]. split; cbn.
    + rewrite Hnp. split; discriminate.
    + discriminate.
  - (* rejected *)
    rewrite H in Hinv. destruct Hinv as [Hst _].
    assert (Hnp : isPausedRef (hook w) = false)
      by (apply coherent_not_paused; [exact Hc|rewrite Hst; discriminate]).
    unfold advance, connect_session_settled, in_try, try_catch, bind, lift,
      throw.
    rewrite connect_catch_run. cbn [then_ result final hook].
    apply coherent_failed; [apply connect_error_message_nonempty|exact Hnp].
  - (* onerror *)
    unfold drop_pending, handle, onerror. cbn [hook].
    unfold bind at 1. cbn [emit]. unfold bind at 1. cbn [modify].
    assert (Hrel' : releases_cleanly
                      (setError (Some (onerror_message err)) (hook w)))
      by exact Hrel.
    rewrite (bind_run _ _ _ _ _ _ (disconnect_final _ Hrel')).
    unfold modify, then_. cbn [final]. split; cbn.
    + split; discriminate.
    + intros _. eexists. split; [reflexivity|].
      unfold onerror_message. destruct (is_Error err); discriminate.
  - (* onclose *)
    unfold drop_pending, handle, onclose. cbn [hook].
    unfold bind at 1. cbn [emit]. unfold bind at 1. unfold gets, when.
    destruct (is_active (status (hook w))) eqn:A.
    + rewrite (bind_run _ _ _ _ _ _ (disconnect_final _ Hrel)).
      unfold modify, then_. cbn [final]. split; cbn.
      * split; discriminate.
      * discriminate.
    + cbn [ret then_ final]. exact Hc.
  - (* onmessage *)
    unfold handle. cbn [hook]. rewrite onmessage_final. cbv zeta.
    apply (coherent_same (hook w)); [| | |exact Hc];
      destruct (truthy_text _), (turnComplete m); reflexivity.
  - (* onaudioprocess *)
    unfold handle. cbn [hook].
    apply (coherent_same (hook w)); [| | |exact Hc];
      unfold onaudioprocess, bind, gets;
      (destruct (isPausedRef (hook w)) eqn:P; [cbn; congruence|]);
      unfold modify;
      (destruct (resampleBuffer _ _ _);
       cbn [lift ret throw then_ final]; [|cbn; congruence]);
      cbn [audioAccumulatorRef setVolume set_audioAccumulatorRef];
      destruct (Nat.leb _ _); cbn; congruence.
  - (* disconnect *)
    unfold handle. cbn [hook]. rewrite (disconnect_final _ Hrel). cbn [final].
    apply coherent_torn_down. exact Hc.
  - (* pause *)
    unfold handle, pause, bind, gets, when. cbn [hook].
    destruct (status_eqb (renderedStatus (hook w)) RECORDING) eqn:E.
    + unfold modify. cbn [then_ final]. split; cbn.
      * split; reflexivity.
      * discriminate.
    + cbn [ret then_ final]. exact Hc.
  - (* resume *)
    unfold handle, resume, bind, gets, when. cbn [hook].
    destruct (status_eqb (renderedStatus (hook w)) PAUSED) eqn:E.
    + unfold modify. cbn [then_ final]. split; cbn.
      * split; discriminate.
      * discriminate.
    + cbn [ret then_ final]. exact Hc.
  - (* generateMinutes *)
    unfold handle. cbn [hook]. destruct Hc as [Hp He].
    unfold generateMinutes, bind, gets.
    destruct (is_empty _); [split; assumption|].
    unfold try_catch, emit, modify.
    destruct resp as [r|e]; cbn [lift ret throw then_ final].
    + destruct (parse _); cbn [lift ret throw then_ final]; split; cbn;
        try assumption;
        intros _; eexists; (split; [reflexivity|discriminate]).
    + split; cbn; try assumption.
      intros _. eexists. split; [reflexivity|discriminate].
  - (* render *)
    apply (coherent_same (hook w)); [reflexivity..|exact Hc].
Qed.

Lemma reachable_coherent (stale : bool) (w : World) :
  reachable stale w -> status_coherent (hook w).
Proof.
  induction 1 as [|w w' Hr IH Hstep].
  - split; cbn; [split; discriminate|discriminate].
  - exact (step_coherent stale w w' (reachable_invariant stale w Hr) IH Hstep).
Qed.


(** X10: At every reachable point of the lifecycle, whenever [pause] and
    [resume] are called, an ERROR status comes with an error message to
    show, and the message is not empty. *)
Theorem error_status_has_message (stale : bool) (w : World) :
  reachable stale w ->
  status (hook w) = ERROR ->
  exists m, error (hook w) = Some m /\ m <> [].
Proof. intros H. exact (proj2 (reachable_coherent stale w H)). Qed.

Lemma reachable_microphone_refused (stale : bool) :
  reachable stale world_microphone_refused.
Proof.
  apply (@reachable_step stale world_awaiting_microphone);
    [apply reachable_awaiting_microphone|].
  apply step_media; [reflexivity| |].
  - intros ms E. discriminate E.
  - intros p E. injection E as <-. reflexivity.
Qed.


Lemma error_status_has_message_witness :
  exists m, error (hook world_microphone_refused) = Some m /\ m <> [].
Proof.
  apply (error_status_has_message true);
    [exact (reachable_microphone_refused true)|reflexivity].
Defined.

(** ** The transcript: what later messages cannot change *)

Lemma merge_partial_prefix (now date : N) (turn : jsstring)
      (done rest : list TranscriptItem) :
  settled done ->
  exists rest', merge_partial now date turn (done ++ rest) = done ++ rest'.
Proof.
  intros Hd. destruct rest as [|a rest'] using rev_ind.
  - rewrite app_nil_r, (merge_partial_settled _ _ _ _ Hd). eexists. reflexivity.
  - clear IHrest'. rewrite app_assoc.
    destruct (is_open_partial a) eqn:O.
    + rewrite (merge_partial_open _ _ _ _ _ O), <- app_assoc.
      eexists. reflexivity.
    + unfold merge_partial. rewrite map_app. cbn [map].
      rewrite last_last, O, <- !app_assoc. eexists. reflexivity.
Qed.

Lemma run_updaters_prefix (turn : jsstring) (clock : Clock)
      (us : list TranscriptUpdater) (done : list TranscriptItem) :
  settled done ->
  forall (i : nat) (rest : list TranscriptItem),
  exists rest', run_updaters turn clock i us (done ++ rest) = done ++ rest'.
Proof.
  intros Hd. induction us as [|[|] us IH]; intros i rest;
    cbn [run_updaters run_updater].
  - exists rest. reflexivity.
  - destruct (merge_partial_prefix (fst (clock i)) (snd (clock i)) turn
                                   done rest Hd) as [r1 ->].
    apply IH.
  - unfold finalize_all. rewrite map_app. fold (finalize_all done).
    rewrite (finalize_all_id done Hd). apply IH.
Qed.

Lemma onmessage_transcript (m : LiveServerMessage) (s : Session) :
  transcript (final (onmessage m s)) = transcript s.
Proof.
  rewrite onmessage_final. cbv zeta. cbn [final].
  destruct (truthy_text _), (turnComplete m); reflexivity.
Qed.

Lemma render_prefix (clock : Clock) (s : Session)
      (done rest : list TranscriptItem) :
  settled done -> transcript s = done ++ rest ->
  exists rest', transcript (render clock s) = done ++ rest'.
Proof.
  intros Hd E.
  cbn [render transcript set_renderedStatus set_transcriptUpdates
       setTranscript].
  rewrite E. apply run_updaters_prefix. exact Hd.
Qed.

(** X11: Finalised items are never changed, removed or reordered by later
    messages: a settled initial part of the transcript stays an initial
    part of it, whatever the server sends and whenever React renders. *)
Theorem finalized_items_are_kept
        (s : Session) (done rest : list TranscriptItem) :
  settled done -> transcript s = done ++ rest ->
  (forall es : list Event,
      exists rest', transcript (run_events es s) = done ++ rest') /\
  (forall ds : list Delivery,
      exists rest', transcript (run_messages ds s) = done ++ rest').
Proof.
  intros Hd E. split.
  - intros es. revert s rest E.
    induction es as [|[m|c] es IH]; intros s rest E.
    + exists rest. exact E.
    + cbn [run_events run_event]. apply (IH _ rest).
      rewrite onmessage_transcript. exact E.
    + cbn [run_events run_event].
      destruct (render_prefix c s done rest Hd E) as [r1 E1].
      exact (IH _ r1 E1).
  - intros ds. revert s rest E.
    induction ds as [|[[m now] date] ds IH]; intros s rest E.
    + exists rest. exact E.
    + cbn [run_messages].
      destruct (render_prefix (fun _ => (now, date)) (final (onmessage m s))
                              done rest Hd) as [r1 E1].
      * rewrite onmessage_transcript. exact E.
      * exact (IH _ r1 E1).
Qed.

Lemma finalized_items_are_kept_witness :
  exists rest',
    transcript (run_messages [(text_event (str "A"), 1%N, 2%N);
                              (turn_complete_event, 3%N, 4%N)] blank_session)
    = transcript blank_session ++ rest'.
Proof.
  apply (finalized_items_are_kept blank_session (transcript blank_session) []).
  - repeat constructor.
  - rewrite app_nil_r. reflexivity.
Defined.

(** X12: A turn becomes one item whose text is its fragments joined in
    order, provided React renders after the last fragment, before the turn
    completion is handled; the id and the timestamp are the clock readings
    of the first render after the first fragment.  While the turn is open
    the item is partial, and the turn completion, once rendered, finalises
    it. *)
Theorem turn_text_is_concatenation
        (s : Session) (t : jsstring) (rs : list Clock)
        (fs : list (jsstring * list Clock)) (closing : Clock)
        (rsT : list Clock) (closingT : Clock) :
  settled (transcript s) -> currentTurnRef s = [] ->
  transcriptUpdates s = [] ->
  Forall (fun f => fst f <> []) ((t, rs) :: fs) ->
  let item (p : bool) :=
    turn_item (hd closing (rs ++ flat_map snd fs) 0%nat)
              (concat (map fst ((t, rs) :: fs))) p in
  let s1 := run_events (turn_events ((t, rs) :: fs) ++ [Render closing]) s in
  transcript s1 = transcript s ++ [item true] /\
  transcript (run_events (Message turn_complete_event
                          :: map Render rsT ++ [Render closingT]) s1)
  = transcript s ++ [item false].
Proof.
  intros Hs Ht Hq Hf. cbv zeta. inversion Hf as [|? ? Hf1 Hfs]; subst.
  destruct (turn_run s t rs fs closing Hs Ht Hq Hf1 Hfs) as [T1 [C1 Q1]].
  cbn [map concat fst]. split; [exact T1|].
  destruct (completion_run _ rsT closingT Q1) as [T2 _]. cbv zeta in T2.
  rewrite T2, T1. apply finalize_turn, Hs.
Qed.

Lemma turn_text_is_concatenation_witness :
  transcript (run_events
                (turn_events [(str "Hello", []); (str ", world", [])]
                 ++ [Render (fun _ => (1, 2)%N)])
                initial)
  = [turn_item (1, 2)%N (str "Hello" ++ str ", world" ++ []) true].
Proof.
  destruct (turn_text_is_concatenation
              initial (str "Hello") [] [(str ", world", [])]
              (fun _ => (1, 2)%N) [] (fun _ => (3, 4)%N)) as [H _].
  - constructor.
  - reflexivity.
  - reflexivity.
  - repeat constructor; discriminate.
  - exact H.
Defined.

(** ** [generateMinutes] *)

Lemma blank_app (a b : jsstring) : blank (a ++ b) = blank a && blank b.
Proof. unfold blank. apply forallb_app. Qed.

Lemma blank_rev (t : jsstring) : blank (rev t) = blank t.
Proof.
  induction t as [|c t IH]; [reflexivity|].
  cbn [rev]. rewrite blank_app, IH. cbn [blank forallb].
  rewrite andb_true_r. apply andb_comm.
Qed.

Lemma trim_start_head (t : jsstring) :
  blank t = false ->
  exists c u, trim_start t = c :: u /\ is_white_space c = false.
Proof.
  induction t as [|c t IH]; cbn [blank forallb trim_start]; [discriminate|].
  destruct (is_white_space c) eqn:W; cbn [andb].
  - exact IH.
  - intros _. exists c, t. split; [reflexivity|exact W].
Qed.

(** [trim] leaves nothing exactly of the blank strings. *)
Lemma trim_empty_iff (t : jsstring) : is_empty (trim t) = blank t.
Proof.
  destruct (blank t) eqn:B; [rewrite (trim_blank t B); reflexivity|].
  destruct (trim_start_head t B) as [c [u [E W]]].
  unfold trim. rewrite E.
  assert (H : trim_start (rev (c :: u)) <> []).
  { apply trim_start_nonempty. rewrite blank_rev. cbn [blank forallb].
    rewrite W. reflexivity. }
  destruct (trim_start (rev (c :: u))) as [|d v]; [congruence|].
  cbn [rev]. destruct (rev v); reflexivity.
Qed.

Lemma join_head_speech (sep x : jsstring) (rest : list jsstring) :
  blank x = false -> blank (join sep (x :: rest)) = false.
Proof.
  intros H. destruct rest as [|y rest]; cbn [join]; [exact H|].
  rewrite blank_app, H. reflexivity.
Qed.

(** With an item that has text, the combined transcript has text. *)
Lemma fullText_speech (items : list TranscriptItem) :
  Exists (fun it => blank (text it) = false) items ->
  blank (fullText items) = false.
Proof.
  unfold fullText. induction items as [|a items IH]; intros H.
  - inversion H.
  - cbn [filter]. rewrite trim_empty_iff.
    destruct (blank (text a)) eqn:B; cbn [negb].
    + apply IH. inversion H as [? ? Ha|? ? Hr]; subst;
        [congruence|exact Hr].
    + cbn [map]. apply join_head_speech. rewrite blank_app. reflexivity.
Qed.

(** X13: [generateMinutes] never rejects.  When some transcript item has text it
    sends exactly one request, with the prompt built from the transcript;
    then either it returns the parsed document and leaves the state as it
    is, or the failure (of the request or of the parsing) is logged, the
    error message is set, and it returns null.  The status and the
    transcript never change. *)
Theorem generateMinutes_outcome
        (T : Type) (parse : jsstring -> completion T)
        (response : completion (option jsstring)) (s : Session) :
  let o := generateMinutes parse response s in
  let prompt := minutes_prompt (fullText (transcript s)) in
  (exists r, result o = Normal r) /\
  status (final o) = status s /\
  transcript (final o) = transcript s /\
  (Exists (fun it => blank (text it) = false) (transcript s) ->
   (exists json,
       o = {| result := Normal (Some json); final := s;
              trace := [GenerateContent prompt] |})
   \/ (exists e,
          o = {| result := Normal None;
                 final := setError (Some (str "議事録の生成に失敗しました。")) s;
                 trace := [GenerateContent prompt; ConsoleError e] |})).
Proof.
  cbv zeta. unfold generateMinutes, bind, gets.
  rewrite trim_empty_iff.
  destruct (blank (fullText (transcript s))) eqn:B.
  - split; [eexists; reflexivity|]. split; [reflexivity|].
    split; [reflexivity|]. intros H.
    rewrite (fullText_speech _ H) in B. discriminate B.
  - unfold try_catch, emit, modify.
    destruct response as [r|e]; cbn [lift ret throw then_ final result trace].
    + destruct (parse _) as [json|e];
        cbn [lift ret throw then_ final result trace app].
      * split; [eexists; reflexivity|]. split; [reflexivity|].
        split; [reflexivity|]. intros _. left. eexists. reflexivity.
      * split; [eexists; reflexivity|]. split; [reflexivity|].
        split; [reflexivity|]. intros _. right. eexists. reflexivity.
    + split; [eexists; reflexivity|]. split; [reflexivity|].
      split; [reflexivity|]. intros _. right. eexists. reflexivity.
Qed.

Lemma generateMinutes_outcome_witness :
  exists e,
    generateMinutes (fun _ => Normal tt) (Throw (Error_ (str "503")))
                    (setTranscript
                       [{| id := str "1"; role := user; text := str "hello";
                           timestamp := 1%N; isPartial := false |}] initial)
    = {| result := Normal None;
         final := setError (Some (str "議事録の生成に失敗しました。"))
                    (setTranscript
                       [{| id := str "1"; role := user; text := str "hello";
                           timestamp := 1%N; isPartial := false |}] initial);
         trace := [GenerateContent
                     (minutes_prompt
                        (fullText [{| id := str "1"; role := user;
                                      text := str "hello"; timestamp := 1%N;
                                      isPartial := false |}]));
                   ConsoleError e] |}.
Proof.
  destruct (generateMinutes_outcome unit (fun _ => Normal tt)
              (Throw (Error_ (str "503")))
              (setTranscript
                 [{| id := str "1"; role := user; text := str "hello";
                     timestamp := 1%N; isPartial := false |}] initial))
    as [_ [_ [_ H]]].
  destruct H as [[json H]|H].
  - constructor. reflexivity.
  - discriminate H.
  - exact H.
Defined.

(** ** The volume shown by the visualizer *)

Section Volume.
Local Open Scope Z_scope.

(** The rounding step keeps the sign it is given. *)
Lemma round_sign (s : bool) (m e : Z) (l : location) :
  match binary_round_aux prec emax s m e l with
  | S754_nan => True
  | S754_zero s' | S754_infinity s' | S754_finite s' _ _ => s' = s
  end.
Proof.
  unfold binary_round_aux.
  destruct (shr_fexp prec emax m e l) as [mrs1 e1].
  destruct (shr_fexp prec emax _ e1 loc_Exact) as [mrs2 e2].
  destruct (shr_m mrs2); [reflexivity| |exact I].
  destruct (e2 <=? emax - prec); reflexivity.
Qed.

(** ... and returns a number when the mantissa is not negative. *)
Lemma round_number (s : bool) (m e : Z) (l : location) :
  0 <= m -> binary_round_aux prec emax s m e l <> S754_nan.
Proof.
  intros Hm. unfold binary_round_aux.
  destruct (shr_fexp prec emax m e l) as [mrs1 e1] eqn:E1.
  destruct (shr_fexp_spec m e l mrs1 e1 Hm E1) as [_ [M1 _]].
  assert (Hm1 : 0 <= shr_m mrs1).
  { rewrite M1. apply Z.div_pos; [lia|apply pow2_pos].
    unfold dropped. lia. }
  destruct (round_nearest_even_bounds (shr_m mrs1) (loc_of_shr_record mrs1))
    as [R2 _].
  set (m2 := round_nearest_even _ _) in *.
  assert (Hm2 : 0 <= m2) by lia.
  destruct (shr_fexp prec emax m2 e1 loc_Exact) as [mrs2 e2] eqn:E2.
  destruct (shr_fexp_spec m2 e1 loc_Exact mrs2 e2 Hm2 E2) as [_ [M2 _]].
  assert (Hm3 : 0 <= shr_m mrs2).
  { rewrite M2. apply Z.div_pos; [lia|apply pow2_pos].
    unfold dropped. lia. }
  destruct (shr_m mrs2); [discriminate| |lia].
  destruct (e2 <=? emax - prec); discriminate.
Qed.

Lemma round_not_negative (m e : Z) (l : location) :
  0 <= m -> not_negative (binary_round_aux prec emax false m e l).
Proof.
  intros Hm. pose proof (round_sign false m e l) as S.
  pose proof (round_number false m e l Hm) as Nn.
  destruct (binary_round_aux prec emax false m e l); try exact S;
    [exact I|congruence].
Qed.

(** A square root is NaN or not negative. *)
Lemma SFsqrt_range (x : spec_float) :
  SFsqrt prec emax x = S754_nan \/ not_negative (SFsqrt prec emax x).
Proof.
  destruct x as [s|[|]| |[|] m e]; cbn [SFsqrt not_negative]; auto.
  destruct (SFsqrt_core_binary prec emax (Zpos m) e) as [[q e'] l].
  pose proof (round_sign false q e' l) as S.
  destruct (binary_round_aux prec emax false q e' l); cbn [not_negative];
    auto.
Qed.

Lemma SFsqrt_not_negative (x : spec_float) :
  not_negative x -> not_negative (SFsqrt prec emax x).
Proof.
  destruct x as [s|[|]| |[|] m e]; cbn [SFsqrt not_negative];
    try discriminate; auto.
  intros _. unfold SFsqrt_core_binary.
  set (m' := match _ with 0 => Zpos m | Zpos _ => _ | Zneg _ => 0 end).
  assert (Hm' : 0 <= m').
  { unfold m'. destruct (e - 2 * _); try lia. apply Z.shiftl_nonneg. lia. }
  pose proof (Z.sqrtrem_spec m' Hm') as Q.
  destruct (Z.sqrtrem m') as [q r]. apply round_not_negative. lia.
Qed.

(** Multiplying and dividing by a positive number keep a number that is not
    negative as such; so does squaring any number. *)
Lemma SFmul_not_negative (x : spec_float) (M : positive) (E : Z) :
  not_negative x ->
  not_negative (SFmul prec emax x (S754_finite false M E)).
Proof.
  destruct x as [s|[|]| |[|] m e]; cbn [SFmul not_negative xorb];
    try discriminate; auto.
  intros _. apply round_not_negative. lia.
Qed.

Lemma SFmul_range (x : spec_float) (M : positive) (E : Z) :
  x = S754_nan \/ not_negative x ->
  SFmul prec emax x (S754_finite false M E) = S754_nan
  \/ not_negative (SFmul prec emax x (S754_finite false M E)).
Proof.
  intros [->|H]; [left; reflexivity|right].
  apply SFmul_not_negative. exact H.
Qed.

Lemma SFsquare_not_negative (x : spec_float) :
  x <> S754_nan -> not_negative (SFmul prec emax x x).
Proof.
  destruct x as [s|s| |s m e]; cbn [SFmul not_negative]; try congruence;
    intros _; try (destruct s; reflexivity).
  replace (xorb s s) with false by (destruct s; reflexivity).
  apply round_not_negative. lia.
Qed.

Lemma SFdiv_not_negative (x : spec_float) (M : positive) (E : Z) :
  not_negative x ->
  not_negative (SFdiv prec emax x (S754_finite false M E)).
Proof.
  destruct x as [s|[|]| |[|] m e]; cbn [SFdiv not_negative xorb];
    try discriminate; auto.
  intros _.
  destruct (SFdiv_core_binary prec emax (Zpos m) e (Zpos M) E)
    as [[q e'] l] eqn:Ec.
  destruct (div_core_spec _ _ _ _ _ _ _ (Pos2Z.is_pos m) (Pos2Z.is_pos M) Ec)
    as [_ [Hq _]].
  apply round_not_negative. exact Hq.
Qed.

Lemma SFadd_not_negative (x y : spec_float) :
  not_negative x -> not_negative y -> not_negative (SFadd prec emax x y).
Proof.
  destruct x as [sx|[|]| |[|] mx ex]; cbn [not_negative];
    try discriminate; try contradiction;
    destruct y as [sy|[|]| |[|] my ey]; cbn [not_negative SFadd];
    try discriminate; try contradiction; auto.
  - intros _ _. destruct sx, sy; exact I.
  - intros _ _. cbn [cond_Zopp Z.add binary_normalize]. unfold binary_round.
    destruct (shl_align _ _ _) as [mz ez]. apply round_not_negative. lia.
Qed.

End Volume.

Lemma not_negative_geb (y : float) :
  not_negative (Prim2SF y) -> (0 <=? y) = true.
Proof.
  rewrite leb_spec. change (Prim2SF 0) with (S754_zero false).
  destruct (Prim2SF y) as [s|[|]| |[|] m e]; cbn [not_negative];
    try discriminate; try contradiction; reflexivity.
Qed.

(** [Math.min(y, 1)] of a number that is NaN or not negative. *)
Lemma min_one_range (y : float) :
  Prim2SF y = S754_nan \/ not_negative (Prim2SF y) ->
  is_nan (Math_min y 1) = true
  \/ ((0 <=? Math_min y 1) = true /\ (Math_min y 1 <=? 1) = true).
Proof.
  intros H. unfold Math_min.
  destruct (is_nan y) eqn:Ny; [left; reflexivity|].
  change (is_nan 1) with false. cbn [orb]. right.
  apply is_nan_spec in Ny. destruct H as [H|H]; [contradiction|].
  destruct (y <? 1) eqn:L1.
  - split; [apply not_negative_geb; exact H|].
    rewrite ltb_spec in L1. rewrite leb_spec. unfold SFltb, SFleb in *.
    destruct (SFcompare _ _) as [[]|]; try discriminate; reflexivity.
  - destruct (1 <? y); [split; reflexivity|].
    destruct (is_neg_zero y) eqn:Z; [|split; reflexivity].
    split; [apply not_negative_geb; exact H|].
    unfold is_neg_zero in Z. rewrite leb_spec.
    destruct (Prim2SF y) as [[|]| | |]; try discriminate Z. reflexivity.
Qed.

Lemma min_one_number (y : float) :
  is_nan y = false -> is_nan (Math_min y 1) = false.
Proof.
  intros Ny. unfold Math_min. rewrite Ny. change (is_nan 1) with false.
  cbn [orb]. destruct (y <? 1); [exact Ny|].
  destruct (1 <? y); [reflexivity|].
  destruct (is_neg_zero y); [exact Ny|reflexivity].
Qed.

Lemma not_negative_number (x : float) :
  not_negative (Prim2SF x) -> is_nan x = false.
Proof.
  intros H. apply is_nan_spec. intros E. rewrite E in H. exact H.
Qed.

(** The sum of squares of samples that are numbers is a number that is not
    negative. *)
Lemma volume_sum_not_negative (inputData : list float) :
  Forall (fun x => is_nan x = false) inputData ->
  not_negative (Prim2SF (volume_sum inputData)).
Proof.
  intros Hd. unfold volume_sum.
  assert (Hi : Forall (fun i => (i < length inputData)%nat)
                      (map (fun k => (10 * k)%nat)
                           (seq 0 ((length inputData + 9) / 10)))).
  { apply Forall_forall. intros i Hin. apply in_map_iff in Hin.
    destruct Hin as [k [<- Hk]]. apply in_seq in Hk.
    pose proof (Nat.div_mod_eq (length inputData + 9) 10).
    pose proof (Nat.mod_upper_bound (length inputData + 9) 10 ltac:(lia)).
    lia. }
  assert (H0 : not_negative (Prim2SF 0)) by exact I.
  revert H0. generalize 0 as acc.
  induction Hi as [|i idxs Hlt _ IH]; intros acc Ha; [exact Ha|].
  cbn [fold_left]. apply IH.
  rewrite add_spec, mul_spec. unfold SF64add, SF64mul.
  apply SFadd_not_negative; [exact Ha|].
  apply SFsquare_not_negative. apply is_nan_spec.
  rewrite Forall_forall in Hd. apply Hd. apply nth_In. exact Hlt.
Qed.

Section VolumeScale.
Local Open Scope Z_scope.

Variable N : Z.
Hypothesis HN : 3200 <= N.

(** [length / 10] is a positive number. *)
Lemma tenth_positive (n : Z) :
  0 < n < 2 ^ 53 ->
  exists m e, Prim2SF (of_Z n / 10) = S754_finite false m e.
Proof.
  intros Hn.
  destruct (of_Z_val N n Hn ltac:(lia)) as [mn [en [En [Rn [Dn Vn]]]]].
  pose proof (div_spec (of_Z n) 10) as E. unfold SF64div in E.
  rewrite En in E.
  change (Prim2SF 10) with (S754_finite false 5629499534213120 (-49)) in E.
  assert (V10 : val N 5629499534213120 (-49) = 10 * 2 ^ N).
  { unfold val. change 5629499534213120 with (10 * 2 ^ 49).
    rewrite <- Z.mul_assoc, <- Z.pow_add_r by lia. do 2 f_equal. lia. }
  pose proof (pow2_pos N ltac:(lia)) as PW.
  pose proof (SFdiv_le N n mn en 5629499534213120 (-49) Rn ltac:(lia) HN
                ltac:(lia)) as Le.
  rewrite Vn, V10 in Le.
  specialize (Le ltac:(set (W := 2 ^ N) in *; nia)).
  pose proof (SFdiv_ge N 1 (-4) mn en 5629499534213120 (-49) Rn ltac:(lia)
                HN Dn ltac:(lia) ltac:(lia)) as Ge.
  rewrite Vn, V10 in Ge.
  assert (P4 : 2 ^ N = 16 * 2 ^ (-4 + N)).
  { change 16 with (2 ^ 4). rewrite <- Z.pow_add_r by lia. f_equal. lia. }
  pose proof (pow2_pos (-4 + N) ltac:(lia)) as Pw.
  specialize (Ge ltac:(set (w := 2 ^ (-4 + N)) in *;
                       set (W := 2 ^ N) in *; nia)).
  rewrite <- E in Le, Ge.
  destruct (Prim2SF (of_Z n / 10)) as [s|s| |s m e]; try contradiction.
  destruct Le as [-> _]. exists m, e. reflexivity.
Qed.

End VolumeScale.

(** X14: The volume the audio callback sets is NaN or lies between 0 and 1; it
    is NaN for an empty block (0 / 0), and a number between 0 and 1 for
    every block that is not empty and holds no NaN sample. *)
Theorem volume_level_range :
  (forall inputData : list float,
      is_nan (volume_level inputData) = true
      \/ ((0 <=? volume_level inputData) = true
          /\ (volume_level inputData <=? 1) = true)) /\
  is_nan (volume_level []) = true /\
  (forall inputData : list float,
      inputData <> [] ->
      (Z.of_nat (length inputData) < 2 ^ 53)%Z ->
      Forall (fun x => is_nan x = false) inputData ->
      is_nan (volume_level inputData) = false).
Proof.
  split; [|split].
  - intros inputData. unfold volume_level. apply min_one_range.
    rewrite mul_spec, sqrt_spec. unfold SF64mul, SF64sqrt.
    change (Prim2SF 10) with (S754_finite false 5629499534213120 (-49)).
    apply SFmul_range.
    destruct (SFsqrt_range
                (Prim2SF (volume_sum inputData
                          / (of_nat (length inputData) / 10))));
      [left|right]; assumption.
  - reflexivity.
  - intros inputData Hne Hlen Hd. unfold volume_level.
    apply min_one_number, not_negative_number.
    rewrite mul_spec, sqrt_spec, div_spec.
    unfold SF64mul, SF64sqrt, SF64div.
    change (Prim2SF 10) with (S754_finite false 5629499534213120 (-49)).
    apply SFmul_not_negative, SFsqrt_not_negative.
    destruct (tenth_positive 3200 (Z.le_refl 3200)
                (Z.of_nat (length inputData))) as [m [e E]].
    { destruct inputData; [congruence|]. cbn [length] in *. lia. }
    unfold of_nat. rewrite E.
    apply SFdiv_not_negative, volume_sum_not_negative. exact Hd.
Qed.

Lemma volume_level_range_witness :
  is_nan (volume_level [0.5; 0.25]) = false.
Proof.
  destruct volume_level_range as [_ [_ H]].
  apply (H [0.5; 0.25]).
  - discriminate.
  - reflexivity.
  - repeat constructor.
Defined.


(** ** Base64 *)

Lemma list_ind3 {A : Type} (P : list A -> Prop) :
  P [] -> (forall a, P [a]) -> (forall a b, P [a; b]) ->
  (forall a b c rest, P rest -> P (a :: b :: c :: rest)) ->
  forall l, P l.
Proof.
  intros H0 H1 H2 H3.
  fix IH 1. intros l.
  destruct l as [|a l1]; [exact H0|].
  destruct l1 as [|b l2]; [exact (H1 a)|].
  destruct l2 as [|c rest]; [exact (H2 a b)|].
  exact (H3 a b c rest (IH rest)).
Qed.

Lemma alphabet_checked :
  forallb (fun n => match b64_value (b64_char n) with
                    | Some v => (v =? n)%N
                    | None => false
                    end
                    && negb (is_ascii_whitespace (b64_char n))
                    && negb (b64_char n =? 61)%N)
          (map N.of_nat (seq 0 64)) = true.
Proof. reflexivity. Qed.

Lemma alphabet (n : N) :
  (n < 64)%N ->
  b64_value (b64_char n) = Some n
  /\ is_ascii_whitespace (b64_char n) = false
  /\ (b64_char n =? 61)%N = false.
Proof.
  intros H. pose proof alphabet_checked as C. rewrite forallb_forall in C.
  specialize (C n). 
  assert (I : In n (map N.of_nat (seq 0 64))).
  { apply in_map_iff. exists (N.to_nat n). split; [apply N2Nat.id|].
    apply in_seq. lia. }
  specialize (C I). apply andb_true_iff in C. destruct C as [C C3].
  apply andb_true_iff in C. destruct C as [C1 C2].
  destruct (b64_value (b64_char n)) as [v|]; [|discriminate C1].
  apply N.eqb_eq in C1. subst v.
  split; [reflexivity|]. split; apply negb_true_iff; assumption.
Qed.

Ltac divlia := zify; Z.to_euclidean_division_equations; lia.

Lemma sextets_small (bs : list N) :
  Forall is_byte bs -> Forall (fun v => (v < 64)%N) (sextets bs).
Proof.
  unfold is_byte. induction bs as [| a | a b | a b c rest IH] using list_ind3;
    intros H; cbn [sextets app].
  - apply Forall_nil.
  - inversion H; subst.
    apply Forall_cons; [divlia|]. apply Forall_cons; [divlia|]. apply Forall_nil.
  - inversion H as [|? ? Ha H']; subst. inversion H'; subst.
    apply Forall_cons; [divlia|]. apply Forall_cons; [divlia|].
    apply Forall_cons; [divlia|]. apply Forall_nil.
  - inversion H as [|? ? Ha H1]; subst. inversion H1 as [|? ? Hb H2]; subst.
    inversion H2 as [|? ? Hc H3]; subst.
    apply Forall_cons; [divlia|]. apply Forall_cons; [divlia|].
    apply Forall_cons; [divlia|]. apply Forall_cons; [divlia|]. exact (IH H3).
Qed.

Lemma btoa_sextets (bs : list N) :
  btoa bs = map b64_char (sextets bs) ++ repeat 61%N (padding bs).
Proof.
  induction bs as [| a | a b | a b c rest IH] using list_ind3.
  - reflexivity.
  - reflexivity.
  - reflexivity.
  - cbn [btoa sextets map app]. rewrite IH.
    replace (padding (a :: b :: c :: rest)) with (padding rest);
      [reflexivity|].
    unfold padding. cbn [length].
    replace (S (S (S (length rest)))) with (length rest + 1 * 3)%nat by lia.
    rewrite Nat.Div0.mod_add. reflexivity.
Qed.

Lemma decode_sextets_encode (bs : list N) :
  Forall is_byte bs -> decode_sextets (sextets bs) = bs.
Proof.
  unfold is_byte. induction bs as [| a | a b | a b c rest IH] using list_ind3;
    intros H; cbn [sextets decode_sextets app].
  - reflexivity.
  - inversion H; subst. f_equal. divlia.
  - inversion H as [|? ? Ha H']; subst. inversion H'; subst.
    f_equal; [divlia|]. f_equal. divlia.
  - inversion H as [|? ? Ha H1]; subst. inversion H1 as [|? ? Hb H2]; subst.
    inversion H2 as [|? ? Hc H3]; subst.
    rewrite (IH H3). f_equal; [divlia|]. f_equal; [divlia|]. f_equal. divlia.
Qed.

Lemma btoa_length (bs : list N) :
  length (btoa bs) = (4 * ((length bs + 2) / 3))%nat.
Proof.
  induction bs as [| a | a b | a b c rest IH] using list_ind3.
  - reflexivity.
  - reflexivity.
  - reflexivity.
  - cbn [btoa app length]. rewrite IH.
    replace (S (S (S (length rest))) + 2)%nat
      with (length rest + 2 + 1 * 3)%nat by lia.
    rewrite Nat.div_add by lia. lia.
Qed.

Lemma padding_le (bs : list N) : (padding bs <= 2)%nat.
Proof.
  unfold padding.
  pose proof (Nat.mod_upper_bound (length bs) 3 ltac:(lia)).
  pose proof (Nat.mod_upper_bound (3 - length bs mod 3) 3 ltac:(lia)).
  lia.
Qed.

Lemma b64_values_alphabet (vs : list N) :
  Forall (fun v => (v < 64)%N) vs -> b64_values (map b64_char vs) = Some vs.
Proof.
  induction 1 as [|v vs Hv _ IH]; [reflexivity|].
  cbn [map b64_values]. destruct (alphabet v Hv) as [-> _]. rewrite IH.
  reflexivity.
Qed.

Lemma filter_all {A : Type} (f : A -> bool) (l : list A) :
  Forall (fun x => f x = true) l -> filter f l = l.
Proof.
  induction 1 as [|x l Hx _ IH]; [reflexivity|].
  cbn [filter]. rewrite Hx, IH. reflexivity.
Qed.

Lemma strip_padding_spec (l : jsstring) (k : nat) :
  Forall (fun c => (c =? 61)%N = false) l ->
  (k <= 2)%nat ->
  ((length l + k) mod 4 = 0)%nat ->
  strip_padding (l ++ repeat 61%N k) = l.
Proof.
  intros Hl Hk Hm. unfold strip_padding.
  rewrite length_app, repeat_length, Hm. cbn [Nat.eqb].
  assert (Hr : Forall (fun c => (c =? 61)%N = false) (rev l))
    by (apply Forall_rev; exact Hl).
  destruct k as [|[|[|k]]]; [| | |lia]; cbn [repeat].
  - rewrite app_nil_r.
    destruct (rev l) as [|c1 [|c2 r]]; [reflexivity| |];
      inversion Hr as [|? ? H1 _]; subst; rewrite H1; reflexivity.
  - rewrite rev_app_distr. cbn [rev app].
    destruct (rev l) as [|c2 r] eqn:E.
    + apply (f_equal (@rev _)) in E. rewrite rev_involutive in E.
      subst l. reflexivity.
    + inversion Hr as [|? ? H1 _]; subst. cbn [N.eqb Pos.eqb]. rewrite H1.
      change (rev (c2 :: r) = l). rewrite <- E. apply rev_involutive.
  - rewrite rev_app_distr. cbn [rev app N.eqb Pos.eqb].
    apply rev_involutive.
Qed.

Lemma encoded_characters (vs : list N) :
  Forall (fun v => (v < 64)%N) vs ->
  Forall (fun c => (c =? 61)%N = false) (map b64_char vs)
  /\ Forall (fun c => negb (is_ascii_whitespace c) = true) (map b64_char vs).
Proof.
  induction 1 as [|v vs Hv _ [IH1 IH2]]; [split; constructor|].
  destruct (alphabet v Hv) as (_ & W & P).
  split; cbn [map]; constructor; try assumption.
  rewrite W. reflexivity.
Qed.

(** Decoding what [btoa] produced from bytes gives the bytes back. *)
Lemma atob_btoa (bs : list N) :
  Forall is_byte bs -> atob (btoa bs) = Normal bs.
Proof.
  intros Hb. pose proof (sextets_small bs Hb) as Hs.
  destruct (encoded_characters _ Hs) as [Hp Hw].
  pose proof (btoa_length bs) as Hlen.
  rewrite btoa_sextets in Hlen |- *.
  rewrite length_app, repeat_length in Hlen.
  pose proof (padding_le bs) as Hk.
  assert (Hm : ((length (map b64_char (sextets bs)) + padding bs) mod 4 = 0)%nat).
  { rewrite Hlen, Nat.mul_comm. apply Nat.Div0.mod_mul. }
  unfold atob.
  rewrite filter_all.
  2:{ apply Forall_app. split; [exact Hw|].
      apply Forall_forall. intros c Hc. apply repeat_spec in Hc. subst c.
      reflexivity. }
  rewrite (strip_padding_spec _ _ Hp Hk Hm).
  assert (H1 : (length (map b64_char (sextets bs)) mod 4 =? 1)%nat = false).
  { apply Nat.eqb_neq. intros C.
    set (n := length (map b64_char (sextets bs))) in *.
    rewrite Nat.Div0.add_mod, C in Hm.
    destruct (padding bs) as [|[|[|k]]]; [| | |lia]; discriminate Hm. }
  rewrite H1, (b64_values_alphabet _ Hs), (decode_sextets_encode _ Hb).
  reflexivity.
Qed.

Lemma low_bytes (bs : list N) :
  Forall is_byte bs -> map (fun c => c mod 256)%N bs = bs.
Proof.
  induction 1 as [|b bs Hb _ IH]; [reflexivity|].
  cbn [map]. rewrite IH, N.mod_small by exact Hb. reflexivity.
Qed.

Lemma int16_bytes_are_bytes (vs : list Z) :
  Forall is_byte (flat_map int16_bytes vs).
Proof.
  induction vs as [|v vs IH]; [constructor|].
  cbn [flat_map]. apply Forall_app. split; [|exact IH].
  unfold int16_bytes, is_byte.
  pose proof (Z.mod_pos_bound v 65536 ltac:(lia)).
  repeat constructor.
  - apply N.mod_lt. discriminate.
  - apply N.Div0.div_lt_upper_bound. lia.
Qed.

(** X15: [base64ToArrayBuffer] undoes [arrayBufferToBase64]: encoding a
    buffer of bytes and decoding the text gives the same bytes back. *)
Theorem base64_round_trip (bytes : list N) :
  Forall is_byte bytes ->
  base64ToArrayBuffer (arrayBufferToBase64 bytes) = Normal bytes.
Proof.
  intros Hb. unfold base64ToArrayBuffer, arrayBufferToBase64.
  rewrite (atob_btoa _ Hb), (low_bytes _ Hb). reflexivity.
Qed.

Lemma base64_round_trip_witness :
  Forall is_byte [0; 255; 16; 7]%N
  /\ base64ToArrayBuffer (arrayBufferToBase64 [0; 255; 16; 7]%N)
     = Normal [0; 255; 16; 7]%N.
Proof.
  assert (H : Forall is_byte [0; 255; 16; 7]%N)
    by (repeat constructor).
  split; [exact H | exact (base64_round_trip _ H)].
Defined.

(** X16: the payload [createPcmBlob] builds always decodes, with
    [base64ToArrayBuffer], to two bytes per input sample: the 16-bit
    values of the samples, low byte first.  Its text has four characters
    for every three bytes, rounded up. *)
Theorem pcm_payload_decodes (samples : list float) :
  base64ToArrayBuffer (data (createPcmBlob samples))
  = Normal (flat_map int16_bytes (map encode_sample samples))
  /\ length (flat_map int16_bytes (map encode_sample samples))
     = (2 * length samples)%nat
  /\ length (data (createPcmBlob samples))
     = (4 * ((2 * length samples + 2) / 3))%nat.
Proof.
  assert (L : length (flat_map int16_bytes (map encode_sample samples))
              = (2 * length samples)%nat).
  { induction samples as [|x xs IH]; [reflexivity|].
    cbn [map flat_map]. rewrite length_app, IH. cbn [int16_bytes length].
    lia. }
  pose proof (int16_bytes_are_bytes (map encode_sample samples)) as Hb.
  unfold createPcmBlob, int16_samples, arrayBufferToBase64. cbn [data].
  split; [|split].
  - unfold base64ToArrayBuffer.
    rewrite (atob_btoa _ Hb), (low_bytes _ Hb). reflexivity.
  - exact L.
  - rewrite btoa_length, L. reflexivity.
Qed.

Lemma b64_values_invalid (c : code_unit) (d : jsstring) :
  In c d -> b64_value c = None -> b64_values d = None.
Proof.
  intros Hin Hc. induction d as [|x d IH]; [destruct Hin|].
  cbn [b64_values]. destruct Hin as [->|Hin].
  - rewrite Hc. reflexivity.
  - rewrite (IH Hin). destruct (b64_value x); reflexivity.
Qed.

Lemma strip_padding_keeps (c : code_unit) (d : jsstring) :
  In c d -> (c =? 61)%N = false -> In c (strip_padding d).
Proof.
  intros Hin Hc. unfold strip_padding.
  destruct (length d mod 4 =? 0)%nat; [|exact Hin].
  assert (Hr : In c (rev d)) by (apply in_rev; rewrite rev_involutive; exact Hin).
  destruct (rev d) as [|c1 [|c2 r]] eqn:E; [exact Hin| |].
  - destruct (c1 =? 61)%N eqn:E1; [|exact Hin].
    destruct Hr as [->|[]]. congruence.
  - destruct (c1 =? 61)%N eqn:E1; [|exact Hin].
    destruct Hr as [->|Hr]; [congruence|].
    destruct (c2 =? 61)%N eqn:E2.
    + destruct Hr as [->|Hr]; [congruence|]. apply in_rev in Hr. exact Hr.
    + apply in_rev in Hr. exact Hr.
Qed.

(** X17: [base64ToArrayBuffer] does not guard its input: a text with a
    character that is neither of the base64 alphabet, nor [=], nor white
    space makes it throw, and no buffer is returned. *)
Theorem base64ToArrayBuffer_rejects (base64 : jsstring) (c : code_unit) :
  In c base64 ->
  b64_value c = None -> (c =? 61)%N = false ->
  is_ascii_whitespace c = false ->
  base64ToArrayBuffer base64 = Throw InvalidCharacterError.
Proof.
  intros Hin Hv Hp Hw. unfold base64ToArrayBuffer, atob.
  set (d := strip_padding _).
  assert (Hd : In c d).
  { apply strip_padding_keeps; [|exact Hp].
    apply filter_In. split; [exact Hin|]. rewrite Hw. reflexivity. }
  destruct (length d mod 4 =? 1)%nat; [reflexivity|].
  rewrite (b64_values_invalid c d Hd Hv). reflexivity.
Qed.

Lemma base64ToArrayBuffer_rejects_witness :
  base64ToArrayBuffer (str "AB*D") = Throw InvalidCharacterError.
Proof.
  apply (base64ToArrayBuffer_rejects (str "AB*D") 42%N);
    [right; right; left; reflexivity | reflexivity | reflexivity
    | reflexivity].
Defined.


(** ** Visualizer *)

Lemma ltb_leb (x y : float) : (x <? y) = true -> (x <=? y) = true.
Proof.
  rewrite ltb_spec, leb_spec. unfold SFltb, SFleb.
  destruct (SFcompare (Prim2SF x) (Prim2SF y)) as [[| |]|]; congruence.
Qed.

(** Clamping into [4, 100] keeps NaN and nothing else out of range. *)
Lemma clamp_4_100 (y : float) :
  let h := Math_max 4 (Math_min 100 y) in
  is_nan h = is_nan y
  /\ (is_nan y = false -> (4 <=? h) = true /\ (h <=? 100) = true).
Proof.
  cbv zeta. unfold Math_min. change (is_nan 100) with false. cbn [orb].
  destruct (is_nan y) eqn:Ny.
  - split; [reflexivity|discriminate].
  - assert (M : forall m, is_nan m = false -> (m <=? 100) = true ->
                let h := Math_max 4 m in
                is_nan h = false /\ (4 <=? h) = true /\ (h <=? 100) = true).
    { intros m Nm Hm. cbv zeta. unfold Math_max. rewrite Nm.
      change (is_nan 4) with false. cbn [orb].
      destruct (4 <? m) eqn:L1.
      - split; [exact Nm|]. split; [apply ltb_leb; exact L1|exact Hm].
      - destruct (m <? 4); [split; [reflexivity|split; reflexivity]|].
        change (is_neg_zero 4) with false. cbv iota.
        split; [reflexivity|split; reflexivity]. }
    destruct (100 <? y) eqn:L1.
    + destruct (M 100 eq_refl eq_refl) as [A B]. split; [exact A|].
      intros _. exact B.
    + assert (Hy : (y <=? 100) = true)
        by (apply ltb_false_leb; [reflexivity|exact Ny|exact L1]).
      assert (E : (if y <? 100 then y
                   else if is_neg_zero 100 then 100 else y) = y)
        by (destruct (y <? 100); reflexivity).
      rewrite E. destruct (M y Ny Hy) as [A B]. split; [exact A|].
      intros _. exact B.
Qed.

Lemma shl_align_val (N : Z) (m : positive) (e e' : Z) :
  (0 <= e' + N)%Z ->
  val N (Zpos (fst (shl_align m e e'))) (snd (shl_align m e e'))
  = val N (Zpos m) e
  /\ snd (shl_align m e e') = Z.min e e'.
Proof.
  intros He. unfold shl_align.
  destruct (e' - e)%Z as [|d|d] eqn:Ed; cbn [fst snd].
  - split; [reflexivity|lia].
  - split; [reflexivity|lia].
  - split; [|lia]. unfold val. fold (shift_pos d m).
    rewrite shift_pos_correct, Z.pow_pos_fold.
    replace (e + N)%Z with (Zpos d + (e' + N))%Z by lia.
    rewrite (Z.pow_add_r 2 (Zpos d) (e' + N)) by lia. ring.
Qed.

Section BarScale.
Local Open Scope Z_scope.

Variable N : Z.
Hypothesis HN : 3200 <= N.

(** The sum of two positive numbers that add up to at most [B] is a number
    that is not infinite. *)
Lemma SFadd_le (B : Z) (mx : positive) (ex : Z) (my : positive) (ey : Z) :
  -1074 <= ex -> -1074 <= ey -> 1 <= B < 2 ^ 53 ->
  val N (Zpos mx) ex + val N (Zpos my) ey <= B * 2 ^ N ->
  match SFadd prec emax (S754_finite false mx ex) (S754_finite false my ey)
  with
  | S754_finite s _ _ | S754_zero s => s = false
  | _ => False
  end.
Proof.
  intros Hex Hey HB Hv. cbn [SFadd].
  set (ez := Z.min ex ey).
  destruct (shl_align_val N mx ex ez ltac:(lia)) as [Vx Sx].
  destruct (shl_align_val N my ey ez ltac:(lia)) as [Vy Sy].
  replace (snd (shl_align mx ex ez)) with ez in Vx by lia.
  replace (snd (shl_align my ey ez)) with ez in Vy by lia.
  cbn [cond_Zopp Z.add binary_normalize]. unfold binary_round.
  set (M := (fst (shl_align mx ex ez) + fst (shl_align my ey ez))%positive)
    in *.
  assert (VM : val N (Zpos M) ez <= B * 2 ^ N).
  { unfold val in *. unfold M. rewrite Pos2Z.inj_add. lia. }
  rewrite fexp64_eq.
  set (e' := fexp64 (Zpos (digits2_pos M) + ez)).
  assert (He' : -1074 <= e') by (unfold e', fexp64; lia).
  destruct (shl_align_val N M ez e' ltac:(lia)) as [Vz Sz].
  destruct (shl_align M ez e') as [mz ez'] eqn:Ea. cbn [fst snd] in Vz, Sz.
  pose proof (round_le N false (Zpos mz) ez' loc_Exact B
                ltac:(lia) ltac:(lia) ltac:(lia) HB
                ltac:(lia) ltac:(congruence)) as R.
  destruct (binary_round_aux prec emax false (Zpos mz) ez' loc_Exact);
    try exact R. destruct R as [R _]. exact R.
Qed.

(** A number between 0 and 1. *)
Lemma unit_interval (x : float) :
  (0 <=? x)%float = true -> (x <=? 1)%float = true ->
  (exists s, Prim2SF x = S754_zero s)
  \/ (exists m e, Prim2SF x = S754_finite false m e
                  /\ -1074 <= e /\ val N (Zpos m) e <= 2 ^ N).
Proof.
  intros H0 H1. pose proof (Prim2SF_valid x) as V.
  rewrite leb_spec in H0, H1.
  change (Prim2SF 0) with (S754_zero false) in H0.
  change (Prim2SF 1) with SF_one in H1.
  destruct (Prim2SF x) as [s|[|]| |[|] m e]; try discriminate.
  - left. exists s. reflexivity.
  - right. exists m, e. split; [reflexivity|].
    cbn [valid_binary] in V.
    pose proof (bounded_facts m e V) as [Re _].
    split; [lia|].
    pose proof (SFleb_val N m e 4503599627370496 (-52) V eq_refl
                  ltac:(lia) H1) as L.
    replace (val N 4503599627370496 (-52)) with (2 ^ N) in L; [exact L|].
    unfold val. change 4503599627370496 with (2 ^ 52).
    rewrite <- Z.pow_add_r by lia. f_equal. lia.
Qed.

Lemma bar_product_number (volume random : float) :
  (0 <=? volume)%float = true -> (volume <=? 1)%float = true ->
  (0 <=? random)%float = true -> (random <? 1)%float = true ->
  is_nan ((volume * 100) * (0.5 + random))%float = false.
Proof.
  intros V0 V1 R0 R1. apply ltb_leb in R1.
  apply is_nan_spec. rewrite mul_spec. unfold SF64mul.
  (* the random factor *)
  assert (W : match Prim2SF (0.5 + random)%float with
              | S754_finite s _ _ | S754_zero s => s = false
              | _ => False
              end).
  { rewrite add_spec. unfold SF64add.
    change (Prim2SF 0.5) with (S754_finite false 4503599627370496 (-53)).
    destruct (unit_interval random R0 R1) as [[s E]|[m [e [E [He Hv]]]]];
      rewrite E.
    - reflexivity.
    - apply (SFadd_le 2); try lia.
      assert (H5 : val N 4503599627370496 (-53) <= 2 ^ N).
      { unfold val. change 4503599627370496 with (2 ^ 52).
        rewrite <- Z.pow_add_r by lia. apply Z.pow_le_mono_r; lia. }
      lia. }
  (* the volume factor *)
  assert (U : match Prim2SF (volume * 100)%float with
              | S754_finite _ _ _ | S754_zero _ => True
              | _ => False
              end).
  { rewrite mul_spec. unfold SF64mul.
    change (Prim2SF 100) with (S754_finite false 7036874417766400 (-46)).
    destruct (unit_interval volume V0 V1) as [[s E]|[m [e [E [He Hv]]]]];
      rewrite E.
    - exact I.
    - pose proof (SFmul_le N 100 false m e 7036874417766400 (-46)
                    ltac:(lia) eq_refl ltac:(lia) ltac:(lia) ltac:(lia) Hv)
        as L.
      destruct (SFmul prec emax _ _); try exact L; exact I. }
  destruct (Prim2SF (volume * 100)%float) as [sa|sa| |sa ma ea];
    try contradiction;
    destruct (Prim2SF (0.5 + random)%float) as [sb|sb| |sb mb eb];
    try contradiction; cbn [SFmul]; try discriminate.
  apply round_number. lia.
Qed.

End BarScale.

(** X18: the bars of the visualizer stay inside their box.  The height drawn
    is between 4 and 100 percent or is NaN, and NaN only while recording
    with a product that is NaN; outside recording it is 4; for a volume
    between 0 and 1, as the hook reports it, and a random number in
    [0, 1) it is a number between 4 and 100. *)
Theorem bar_height_range (status : SessionStatus) (volume random : float) :
  let h := shown_height status volume random in
  (is_nan h = true \/ ((4 <=? h) = true /\ (h <=? 100) = true))
  /\ (is_nan h = true ->
      status = RECORDING
      /\ is_nan ((volume * 100) * (0.5 + random)) = true)
  /\ (status <> RECORDING -> h = 4)
  /\ ((0 <=? volume) = true -> (volume <=? 1) = true ->
      (0 <=? random) = true -> (random <? 1) = true ->
      (4 <=? h) = true /\ (h <=? 100) = true).
Proof.
  cbv zeta. unfold shown_height, bar_height.
  destruct (clamp_4_100 ((volume * 100) * (0.5 + random))) as [Hn Hr].
  cbv zeta in Hn, Hr.
  destruct status; cbn [status_eqb];
    try (split; [right; split; reflexivity|];
         split; [discriminate|];
         split; [reflexivity|]; intros; split; reflexivity).
  split; [|split; [|split]].
  - destruct (is_nan ((volume * 100) * (0.5 + random))) eqn:Ny.
    + left. exact Hn.
    + right. apply Hr. reflexivity.
  - intros H. split; [reflexivity|]. rewrite <- Hn. exact H.
  - intros H. contradiction H. reflexivity.
  - intros V0 V1 R0 R1. apply Hr.
    exact (bar_product_number 3200 (Z.le_refl 3200) volume random
             V0 V1 R0 R1).
Qed.

Lemma bar_height_range_witness :
  (4 <=? shown_height RECORDING 0.5 0.25) = true
  /\ (shown_height RECORDING 0.5 0.25 <=? 100) = true.
Proof.
  destruct (bar_height_range RECORDING 0.5 0.25) as (_ & _ & _ & H).
  apply H; reflexivity.
Defined.

(** ** Decoding: [decodeAudioData] *)

Import Playback.

Lemma int16_values_checked :
  forall_from decodes (-32768) (Z.to_nat 65536) = true.
Proof. vm_cast_no_check (eq_refl true). Qed.

Lemma decode_value_spec (k : Z) :
  (-32768 <= k <= 32767)%Z ->
  (-1 <=? decode_value k) = true /\ (decode_value k <? 1) = true
  /\ truncation (decode_value k * 32768) = k
  /\ (Math_floor (decode_value k * 32768) =? decode_value k * 32768) = true.
Proof.
  intros Hk.
  pose proof (forall_from_spec decodes (Z.to_nat 65536) (-32768)
                int16_values_checked k ltac:(lia)) as H.
  unfold decodes in H. cbv zeta in H.
  apply andb_true_iff in H as [H H4]. apply andb_true_iff in H as [H H3].
  apply andb_true_iff in H as [H1 H2]. apply Z.eqb_eq in H3.
  repeat split; assumption.
Qed.

(** The two bytes of a 16-bit value give the value back. *)
Lemma int16_elements_bytes (vs : list Z) :
  Forall (fun v => (-32768 <= v <= 32767)%Z) vs ->
  int16_elements (flat_map int16_bytes vs) = vs.
Proof.
  induction 1 as [|v vs Hv _ IH]; [reflexivity|].
  cbn [flat_map int16_bytes app int16_elements]. rewrite IH. f_equal.
  unfold int16_value.
  set (u := Z.to_N (v mod 65536)).
  assert (Hu : (Z.of_N u = v mod 65536)%Z)
    by (unfold u; apply Z2N.id, Z.mod_pos_bound; lia).
  assert (E : (u mod 256 + 256 * (u / 256) = u)%N).
  { rewrite N.add_comm. symmetry. apply N.div_mod. discriminate. }
  rewrite E, Hu.
  destruct (Z.ltb_spec (v mod 65536) 32768) as [L|L].
  - destruct (Z.le_gt_cases 0 v) as [P|P].
    + apply Z.mod_small. lia.
    + exfalso. replace v with ((v + 65536) + (-1) * 65536)%Z in L by lia.
      rewrite Z.mod_add, Z.mod_small in L by lia. lia.
  - destruct (Z.le_gt_cases 0 v) as [P|P].
    + rewrite Z.mod_small in L by lia. lia.
    + replace v with ((v + 65536) + (-1) * 65536)%Z at 1 by lia.
      rewrite Z.mod_add, Z.mod_small by lia. lia.
Qed.

Lemma flat_map_int16_length (vs : list Z) :
  length (flat_map int16_bytes vs) = (2 * length vs)%nat.
Proof.
  induction vs as [|v vs IH]; [reflexivity|].
  cbn [flat_map]. rewrite length_app, IH. cbn [int16_bytes length]. lia.
Qed.

Lemma Int16Array_from_bytes (vs : list Z) :
  Forall (fun v => (-32768 <= v <= 32767)%Z) vs ->
  Int16Array_from (flat_map int16_bytes vs) = Normal vs.
Proof.
  intros H. unfold Int16Array_from.
  rewrite flat_map_int16_length, (int16_elements_bytes vs H).
  replace (Nat.even (2 * length vs)) with true; [reflexivity|].
  symmetry. apply Nat.even_spec. exists (length vs). reflexivity.
Qed.

Lemma encode_sample_range (x : float) :
  (-32768 <= encode_sample x <= 32767)%Z.
Proof. unfold encode_sample. apply ToInt16_range. Qed.

Section Frames.
Local Open Scope Z_scope.

Variable N : Z.
Hypothesis HN : 3200 <= N.

Lemma canonical_lt_strict (m1 : positive) (e1 : Z) (m2 : positive) (e2 : Z) :
  bounded prec emax m1 e1 = true -> bounded prec emax m2 e2 = true ->
  e1 < e2 -> val N (Zpos m1) e1 < val N (Zpos m2) e2.
Proof.
  intros B1 B2 Hlt. apply bounded_facts in B1 as [R1 [D1 _]].
  apply bounded_facts in B2 as [R2 [_ D2]]. unfold val.
  destruct (digits2_pos_bounds m1) as [_ U1].
  destruct (digits2_pos_bounds m2) as [L2 _].
  rewrite (D2 ltac:(lia)) in L2. change (53 - 1) with 52 in L2.
  assert (U1' : Zpos m1 < 2 ^ 53).
  { eapply Z.lt_le_trans; [exact U1|]. apply Z.pow_le_mono_r; lia. }
  assert (P : 2 ^ 53 * 2 ^ (e1 + N) <= 2 ^ 52 * 2 ^ (e2 + N)).
  { rewrite <- !Z.pow_add_r by lia. apply Z.pow_le_mono_r; lia. }
  pose proof (pow2_pos (e1 + N) ltac:(lia)).
  pose proof (pow2_pos (e2 + N) ltac:(lia)).
  change (2 ^ 53) with 9007199254740992 in *.
  change (2 ^ 52) with 4503599627370496 in *.
  nia.
Qed.

(** A value has one valid representation. *)
Lemma valid_val_inj (m1 : positive) (e1 : Z) (m2 : positive) (e2 : Z) :
  bounded prec emax m1 e1 = true -> bounded prec emax m2 e2 = true ->
  val N (Zpos m1) e1 = val N (Zpos m2) e2 -> m1 = m2 /\ e1 = e2.
Proof.
  intros B1 B2 E.
  destruct (Z.lt_trichotomy e1 e2) as [L|[->|L]].
  - pose proof (canonical_lt_strict m1 e1 m2 e2 B1 B2 L). lia.
  - split; [|reflexivity]. unfold val in E.
    pose proof (bounded_facts _ _ B2) as [R _].
    pose proof (pow2_pos (e2 + N) ltac:(lia)).
    apply Z.mul_cancel_r in E; [|lia]. congruence.
  - pose proof (canonical_lt_strict m2 e2 m1 e1 B2 B1 L). lia.
Qed.

(** Dividing a length by 1 gives the length. *)
Lemma div_one (n : Z) : 0 <= n < 2 ^ 53 -> (of_Z n / 1)%float = of_Z n.
Proof.
  intros Hn0. destruct (Z.eq_dec n 0) as [->|Hne]; [reflexivity|].
  assert (Hn : 0 < n < 2 ^ 53) by lia. apply Prim2SF_inj.
  destruct (of_Z_val N n Hn ltac:(lia)) as [mn [en [En [Rn [Dn Vn]]]]].
  pose proof (Prim2SF_valid (of_Z n)) as Vx. rewrite En in Vx.
  pose proof (Prim2SF_valid (of_Z n / 1)%float) as Vq.
  rewrite div_spec in *. unfold SF64div in *. rewrite En in *.
  change (Prim2SF 1) with SF_one in *. unfold SF_one in *.
  assert (V1 : val N 4503599627370496 (-52) = 2 ^ N).
  { unfold val. change 4503599627370496 with (2 ^ 52).
    rewrite <- Z.pow_add_r by lia. f_equal. lia. }
  pose proof (SFdiv_le N n mn en 4503599627370496 (-52) Rn ltac:(lia) HN
                ltac:(lia) ltac:(rewrite Vn, V1; lia)) as Le.
  pose proof (SFdiv_ge N n 0 mn en 4503599627370496 (-52) Rn ltac:(lia) HN
                Dn ltac:(lia) ltac:(lia)
                ltac:(rewrite Vn, V1, Z.add_0_l; lia)) as Ge.
  rewrite Z.add_0_l in Ge.
  destruct (SFdiv prec emax _ _) as [s|s| |s m e]; try contradiction.
  destruct Le as [-> [_ Le]]. destruct Ge as [_ Ge].
  cbn [valid_binary] in Vx, Vq.
  destruct (valid_val_inj m e mn en Vq Vx ltac:(lia)) as [-> ->].
  reflexivity.
Qed.

(** Loop counters compare with a length as the integers do. *)
Lemma of_Z_ltb (i n : Z) :
  0 <= i < 2 ^ 53 -> 0 <= n < 2 ^ 53 ->
  (of_Z i <? of_Z n)%float = (i <? n).
Proof.
  intros Hi Hn0. destruct (Z.eq_dec n 0) as [->|Hne].
  { replace (i <? 0) with false by (symmetry; apply Z.ltb_ge; lia).
    destruct (Z.eq_dec i 0) as [->|Hi0]; [reflexivity|].
    destruct (of_Z_val N i ltac:(lia) ltac:(lia)) as [mi [ei [Ei _]]].
    rewrite ltb_spec, Ei. reflexivity. }
  assert (Hn : 0 < n < 2 ^ 53) by lia.
  destruct (of_Z_val N n Hn ltac:(lia)) as [mn [en [En [Rn [Dn Vn]]]]].
  pose proof (Prim2SF_valid (of_Z n)) as Vx. rewrite En in Vx.
  cbn [valid_binary] in Vx.
  destruct (Z.eq_dec i 0) as [->|Hi0].
  { rewrite ltb_spec, En. change (Prim2SF (of_Z 0)) with (S754_zero false).
    symmetry. apply Z.ltb_lt. lia. }
  destruct (of_Z_val N i ltac:(lia) ltac:(lia)) as [mi [ei [Ei [Ri [Di Vi]]]]].
  pose proof (Prim2SF_valid (of_Z i)) as Vy. rewrite Ei in Vy.
  cbn [valid_binary] in Vy.
  pose proof (pow2_pos N ltac:(lia)) as PW.
  destruct (Z.ltb_spec i n) as [L|L].
  - destruct (of_Z i <? of_Z n)%float eqn:C; [reflexivity|exfalso].
    apply ltb_false_leb in C;
      [|apply is_nan_spec; rewrite Ei; discriminate
       |apply is_nan_spec; rewrite En; discriminate].
    rewrite leb_spec, En, Ei in C.
    pose proof (SFleb_val N mn en mi ei Vx Vy ltac:(lia) C) as V.
    rewrite Vn, Vi in V. nia.
  - destruct (of_Z i <? of_Z n)%float eqn:C; [exfalso|reflexivity].
    rewrite ltb_spec, Ei, En in C.
    assert (C' : SFleb (S754_finite false mi ei) (S754_finite false mn en)
                 = true).
    { unfold SFltb in C. unfold SFleb.
      destruct (SFcompare _ _) as [[| |]|]; congruence. }
    pose proof (SFleb_val N mi ei mn en Vy Vx ltac:(lia) C') as V.
    assert (E : val N (Zpos mi) ei = val N (Zpos mn) en)
      by (rewrite Vn, Vi in *; nia).
    destruct (valid_val_inj mi ei mn en Vy Vx E) as [-> ->].
    unfold SFltb in C. rewrite SFcompare_refl in C. discriminate C.
Qed.

(** The quotient of a length by a number of channels is at most the
    length, so the loop counter reaches it. *)
Lemma frame_count_le (n c : Z) :
  0 <= n < 2 ^ 53 -> 0 < c < 2 ^ 53 ->
  (of_Z n <? of_Z n / of_Z c)%float = false.
Proof.
  intros Hn Hc.
  destruct (of_Z_val N c Hc ltac:(lia)) as [mc [ec [Ec [Rc [Dc Vc]]]]].
  pose proof (Prim2SF_valid (of_Z n / of_Z c)%float) as Vq.
  rewrite ltb_spec. rewrite div_spec in *. unfold SF64div in *.
  rewrite Ec in *.
  destruct (Z.eq_dec n 0) as [->|Hne]; [reflexivity|].
  destruct (of_Z_val N n ltac:(lia) ltac:(lia))
    as [mn [en [En [Rn [Dn Vn]]]]].
  pose proof (Prim2SF_valid (of_Z n)) as Vx. rewrite En in *.
  cbn [valid_binary] in Vx.
  pose proof (pow2_pos N ltac:(lia)) as PW.
  pose proof (SFdiv_le N n mn en mc ec Rn Rc HN ltac:(lia)
                ltac:(rewrite Vn, Vc; nia)) as Le.
  destruct (SFdiv prec emax _ _) as [s|s| |s m e]; try contradiction.
  - reflexivity.
  - destruct Le as [-> [_ Le]]. cbn [valid_binary] in Vq.
    destruct (SFltb (S754_finite false mn en) (S754_finite false m e))
      eqn:C; [exfalso|reflexivity].
    assert (C' : SFleb (S754_finite false mn en) (S754_finite false m e)
                 = true).
    { unfold SFltb in C. unfold SFleb.
      destruct (SFcompare _ _) as [[| |]|]; congruence. }
    pose proof (SFleb_val N mn en m e Vx Vq ltac:(lia) C') as V.
    assert (E : val N (Zpos mn) en = val N (Zpos m) e) by lia.
    destruct (valid_val_inj mn en m e Vx Vq E) as [-> ->].
    unfold SFltb in C. rewrite SFcompare_refl in C. discriminate C.
Qed.

End Frames.

(** More fuel changes nothing once the loop condition fails at [k]. *)
Lemma fill_channel_fuel (frameCount : float) (dataInt16 : list Z)
      (numChannels channel k : nat) :
  (of_nat k <? frameCount) = false ->
  forall (d i f1 f2 : nat) (channelData : list float),
    (i + d = k)%nat -> (d < f1)%nat -> (d < f2)%nat ->
    fill_channel f1 i frameCount dataInt16 numChannels channel channelData
    = fill_channel f2 i frameCount dataInt16 numChannels channel channelData.
Proof.
  intros Hk. induction d as [|d IH]; intros i f1 f2 cd E H1 H2;
    destruct f1 as [|f1]; try lia; destruct f2 as [|f2]; try lia;
    cbn [fill_channel].
  - replace i with k by lia. rewrite Hk. reflexivity.
  - destruct (of_nat i <? frameCount); [|reflexivity].
    apply IH; lia.
Qed.

Lemma store32_next (done_ rest : list float) (c v : float) :
  store32 (done_ ++ c :: rest) (length done_) v
  = (done_ ++ [fround v]) ++ rest.
Proof.
  unfold store32. rewrite length_app. cbn [length].
  replace (length done_ <? length done_ + S (length rest))%nat with true
    by (symmetry; apply Nat.ltb_lt; lia).
  rewrite firstn_app, Nat.sub_diag, firstn_all. cbn [firstn].
  rewrite app_nil_r.
  replace (S (length done_)) with (length done_ + 1)%nat by lia.
  rewrite skipn_app, skipn_all2 by lia.
  replace (length done_ + 1 - length done_)%nat with 1%nat by lia.
  cbn [skipn app]. rewrite <- app_assoc. reflexivity.
Qed.

(** With one channel the loop stores the decoded value of every sample, in
    order. *)
Lemma fill_channel_one (d_todo : list Z) :
  forall (d_done : list Z) (done_ todo : list float) (fuel : nat),
    length d_done = length done_ -> length d_todo = length todo ->
    (Z.of_nat (length (d_done ++ d_todo)) < 2 ^ 53)%Z ->
    (length d_todo < fuel)%nat ->
    fill_channel fuel (length done_) (of_nat (length (d_done ++ d_todo)))
                 (d_done ++ d_todo) 1 0 (done_ ++ todo)
    = done_ ++ map decode_value d_todo.
Proof.
  induction d_todo as [|d d_todo IH]; intros d_done done_ todo fuel L1 L2 B F;
    destruct fuel as [|fuel]; try lia; cbn [fill_channel].
  - destruct todo; [|discriminate L2]. unfold of_nat.
    rewrite (of_Z_ltb 3200 (Z.le_refl 3200)) by (rewrite ?length_app in *; cbn [length] in *; lia).
    replace (_ <? _)%Z with false; [reflexivity|].
    symmetry. apply Z.ltb_ge. rewrite length_app. cbn [length]. lia.
  - destruct todo as [|c todo]; [discriminate L2|]. unfold of_nat.
    rewrite (of_Z_ltb 3200 (Z.le_refl 3200)) by (rewrite ?length_app in *; cbn [length] in *; lia).
    replace (_ <? _)%Z with true
      by (symmetry; apply Z.ltb_lt; rewrite length_app; cbn [length]; lia).
    rewrite Nat.mul_1_r, Nat.add_0_r. unfold decoded_sample.
    rewrite <- L1, nth_error_app2, Nat.sub_diag by lia. cbn [nth_error].
    rewrite L1, store32_next.
    fold (of_nat (length (d_done ++ d :: d_todo))).
    replace (d_done ++ d :: d_todo) with ((d_done ++ [d]) ++ d_todo)
      by (rewrite <- app_assoc; reflexivity).
    replace (S (length done_))
      with (length (done_ ++ [fround (of_Z d / 32768)]))
      by (rewrite length_app; cbn [length]; lia).
    rewrite IH.
    + rewrite <- app_assoc. reflexivity.
    + rewrite !length_app. cbn [length]. lia.
    + cbn [length] in L2. lia.
    + rewrite <- app_assoc. exact B.
    + cbn [length] in F. lia.
Qed.

(** X19: what [createPcmBlob] encodes, [base64ToArrayBuffer] and
    [decodeAudioData] decode.  When the context returns a buffer of one
    channel with a frame for each sample, the decoded channel holds, for
    each input sample in order, its 16-bit value divided by 32768: a number
    in [-1, 1) that gives the 16-bit value back when multiplied by 32768. *)
Theorem pcm_round_trip
        (samples : list float)
        (createBuffer : nat -> float -> float -> completion AudioBuffer)
        (sampleRate : float) (channelData : list float) :
  (Z.of_nat (length samples) < 2 ^ 53)%Z ->
  length channelData = length samples ->
  createBuffer 1%nat (of_nat (length samples)) sampleRate
  = Normal {| channels := [channelData] |} ->
  exists bytes,
    base64ToArrayBuffer (data (createPcmBlob samples)) = Normal bytes
    /\ decodeAudioData bytes createBuffer sampleRate 1
       = Normal {| channels :=
                     [map (fun x => decode_value (encode_sample x)) samples] |}
    /\ Forall (fun x =>
                 let v := decode_value (encode_sample x) in
                 (-1 <=? v) = true /\ (v <? 1) = true
                 /\ truncation (v * 32768) = encode_sample x
                 /\ (Math_floor (v * 32768) =? v * 32768) = true)
              samples.
Proof.
  intros B L Hcb.
  set (vs := map encode_sample samples).
  assert (Hr : Forall (fun v => (-32768 <= v <= 32767)%Z) vs).
  { apply Forall_forall. intros v Hv. apply in_map_iff in Hv.
    destruct Hv as [x [<- _]]. apply encode_sample_range. }
  assert (Lv : length vs = length samples) by apply length_map.
  pose proof (int16_bytes_are_bytes vs) as Hb.
  exists (flat_map int16_bytes vs). split; [|split].
  - unfold createPcmBlob, int16_samples, arrayBufferToBase64,
      base64ToArrayBuffer. cbn [data]. fold vs.
    rewrite (atob_btoa _ Hb), (low_bytes _ Hb). reflexivity.
  - unfold decodeAudioData. rewrite (Int16Array_from_bytes vs Hr). cbv zeta.
    change (of_nat 1) with 1.
    assert (E : of_nat (length vs) / 1 = of_nat (length vs))
      by (unfold of_nat; apply (div_one 3200 (Z.le_refl 3200)); lia).
    rewrite !E, Lv, Hcb.
    cbn [fill_channels channels nth_error].
    rewrite <- Lv.
    pose proof (fill_channel_one vs [] [] channelData (S (length vs))
                  eq_refl ltac:(lia) ltac:(cbn [app]; lia) ltac:(lia)) as F.
    cbn [app length] in F. rewrite F.
    unfold set_channel. cbn [channels firstn skipn app fill_channels].
    unfold vs. rewrite map_map. reflexivity.
  - apply Forall_forall. intros x _. cbv zeta.
    apply decode_value_spec, encode_sample_range.
Qed.

Lemma pcm_round_trip_witness :
  exists bytes,
    base64ToArrayBuffer (data (createPcmBlob [0.5; -1; 2])) = Normal bytes
    /\ decodeAudioData bytes
         (fun _ _ _ => Normal {| channels := [[0; 0; 0]] |}) 24000 1
       = Normal {| channels :=
                     [map (fun x => decode_value (encode_sample x))
                          [0.5; -1; 2]] |}.
Proof.
  destruct (pcm_round_trip [0.5; -1; 2]
              (fun _ _ _ => Normal {| channels := [[0; 0; 0]] |})
              24000 [0; 0; 0]) as [bytes [H1 [H2 _]]];
    [reflexivity|reflexivity|reflexivity|].
  exists bytes. split; assumption.
Defined.

(** X20: the frame loop of [decodeAudioData] ends by its own condition.
    For at least one channel the quotient [frameCount] is at most the
    number of 16-bit samples, so the condition [i < frameCount] fails when
    the counter reaches that number at the latest, and running the loop
    with a larger bound on its iterations gives the same channel. *)
Theorem decode_loop_ends
        (dataInt16 : list Z) (numChannels channel fuel : nat)
        (channelData : list float) :
  (1 <= numChannels)%nat ->
  (Z.of_nat (length dataInt16) < 2 ^ 53)%Z ->
  (Z.of_nat numChannels < 2 ^ 53)%Z ->
  (length dataInt16 < fuel)%nat ->
  let frameCount := of_nat (length dataInt16) / of_nat numChannels in
  (of_nat (length dataInt16) <? frameCount) = false
  /\ fill_channel fuel 0 frameCount dataInt16 numChannels channel channelData
     = fill_channel (S (length dataInt16)) 0 frameCount dataInt16
                    numChannels channel channelData.
Proof.
  intros Hc Hn Hc' Hf. cbv zeta.
  assert (K : (of_nat (length dataInt16)
               <? of_nat (length dataInt16) / of_nat numChannels) = false).
  { unfold of_nat. apply (frame_count_le 3200 (Z.le_refl 3200)); lia. }
  split; [exact K|].
  apply (fill_channel_fuel _ _ _ _ (length dataInt16) K (length dataInt16));
    lia.
Qed.

Lemma decode_loop_ends_witness :
  fill_channel 10 0 (of_nat 3 / of_nat 2) [1; 2; 3]%Z 2 0 [0; 0]
  = fill_channel 4 0 (of_nat 3 / of_nat 2) [1; 2; 3]%Z 2 0 [0; 0].
Proof.
  destruct (decode_loop_ends [1; 2; 3]%Z 2 0 10 [0; 0]) as [_ H];
    [lia|reflexivity|reflexivity|cbn; lia|exact H].
Defined.
